(** * OPTIPICK: grid path-finder, distance table, tour optimizer model,
      trajectory builder and collision resolver.

    A shallow embedding of [astar.py], [distances.py],
    [optimizer_mintime.py], [collision_checker.py] and the status handling
    of [run_optimization.py].

    Conventions.
    - Python integers are [Z].  A float of the input data (a speed, a
      weight) is given by its value, a rational [Q]; where the source
      computes with floats the computation is done in binary64, with the
      operations of [SpecFloat], and [int(x)] is truncation toward zero.
    - A cell [[x, y]] is a pair [(x, y) : Z * Z].
    - A Python [dict] that is only looked up is a [gmap]; a [dict] whose
      iteration order matters is an association list with Python's
      insertion-order semantics ([dict_set]).
    - A Python exception is the [Raise] outcome of the [py] monad. *)

From Stdlib Require Import ZArith QArith Qround Lia List SpecFloat.
From stdpp Require Import gmap strings list fin_maps sorting.

Local Open Scope Z_scope.

(** ** Python outcomes *)

Inductive exn : Type :=
  IndexError | KeyError | ZeroDivisionError | ValueError | OverflowError.

Inductive py (A : Type) : Type :=
| Return (a : A)
| Raise (e : exn).
Arguments Return {A} a.
Arguments Raise {A} e.

Definition py_bind {A B : Type} (m : py A) (k : A → py B) : py B :=
  match m with
  | Return a => k a
  | Raise e => Raise e
  end.

#[global] Instance py_mret : MRet py := @Return.
#[global] Instance py_mbind : MBind py := λ A B k m, py_bind m k.

(** [l[i]] on a Python list, negative indices included. *)
Definition getitem {A : Type} (l : list A) (i : Z) : py A :=
  let n := Z.of_nat (length l) in
  let j := if i <? 0 then n + i else i in
  if (0 <=? j) && (j <? n) then
    match l !! Z.to_nat j with
    | Some a => Return a
    | None => Raise IndexError
    end
  else Raise IndexError.

(** [d[k]] on a Python dict. *)
Definition dict_getitem `{Countable K} {V : Type} (d : gmap K V) (k : K) : py V :=
  match d !! k with
  | Some v => Return v
  | None => Raise KeyError
  end.

(** * astar.py *)

Module Astar.

Definition cell : Type := Z * Z.
Definition grid_t : Type := list (list Z).

(** [manhattan_distance] *)
Definition manhattan_distance (pos1 pos2 : cell) : Z :=
  Z.abs (pos1.1 - pos2.1) + Z.abs (pos1.2 - pos2.2).

(** [height = len(grid)], [width = len(grid[0]) if height > 0 else 0] *)
Definition height (grid : grid_t) : Z := Z.of_nat (length grid).
Definition width (grid : grid_t) : Z :=
  match grid with
  | [] => 0
  | row :: _ => Z.of_nat (length row)
  end.

Definition directions : list (Z * Z) := [(0, 1); (0, -1); (-1, 0); (1, 0)].

(** [grid[grid_y][grid_x]] *)
Definition grid_at (grid : grid_t) (grid_y grid_x : Z) : py Z :=
  row ← getitem grid grid_y; getitem row grid_x.

(** The body of the [for dx, dy in directions] loop of [get_neighbors]. *)
Fixpoint get_neighbors_loop (x y : Z) (grid : grid_t) (dirs : list (Z * Z))
    (neighbors : list cell) : py (list cell) :=
  match dirs with
  | [] => Return neighbors
  | (dx, dy) :: dirs' =>
      let new_x := x + dx in
      let new_y := y + dy in
      if (1 <=? new_x) && (new_x <=? width grid) &&
         (1 <=? new_y) && (new_y <=? height grid) then
        let grid_x := new_x - 1 in
        let grid_y := height grid - new_y in
        v ← grid_at grid grid_y grid_x;
        if v =? 1 then
          get_neighbors_loop x y grid dirs' (neighbors ++ [(new_x, new_y)])
        else get_neighbors_loop x y grid dirs' neighbors
      else get_neighbors_loop x y grid dirs' neighbors
  end.

Definition get_neighbors (pos : cell) (grid : grid_t) : py (list cell) :=
  get_neighbors_loop pos.1 pos.2 grid directions [].

(** *** The open set

    [heapq] keeps a binary heap of tuples [(f, counter, (x, y))].  Only
    [heappush] and [heappop] are used, so the heap is modelled as the bag of
    its entries; [heappop] removes the least entry for Python's tuple order.
    Counters are pairwise distinct, hence the least entry is unique. *)

Definition entry : Type := Z * Z * cell.

Definition cell_ltb (c1 c2 : cell) : bool :=
  (c1.1 <? c2.1) || ((c1.1 =? c2.1) && (c1.2 <? c2.2)).

Definition entry_ltb (e1 e2 : entry) : bool :=
  let '(f1, n1, c1) := e1 in
  let '(f2, n2, c2) := e2 in
  (f1 <? f2) || ((f1 =? f2) && ((n1 <? n2) || ((n1 =? n2) && cell_ltb c1 c2))).

Fixpoint heap_min (e : entry) (h : list entry) : entry :=
  match h with
  | [] => e
  | e' :: h' => heap_min (if entry_ltb e' e then e' else e) h'
  end.

Fixpoint remove_first (e : entry) (h : list entry) : list entry :=
  match h with
  | [] => []
  | e' :: h' => if decide (e' = e) then h' else e' :: remove_first e h'
  end.

Definition heappush (h : list entry) (e : entry) : list entry := e :: h.

Definition heappop (h : list entry) : option (entry * list entry) :=
  match h with
  | [] => None
  | e :: h' => let m := heap_min e h' in Some (m, remove_first m h)
  end.

(** *** The search state *)

Record astar_state : Type := mk_state {
  open_set : list entry;
  came_from : gmap cell cell;
  g_score : gmap cell Z;
  f_score : gmap cell Z;
  closed_set : gset cell;
  counter : Z
}.

(** One pass of the body of [for neighbor in get_neighbors(current, grid)]. *)
Definition relax (current end_ : cell) (st : astar_state) (neighbor : cell)
    : py astar_state :=
  if decide (neighbor ∈ closed_set st) then Return st
  else
    g_current ← dict_getitem (g_score st) current;
    let tentative_g := g_current + 1 in
    if match g_score st !! neighbor with
       | None => true
       | Some g => tentative_g <? g
       end
    then
      let f := tentative_g + manhattan_distance neighbor end_ in
      let counter' := counter st + 1 in
      Return {| open_set := heappush (open_set st) (f, counter', neighbor);
                came_from := <[neighbor := current]> (came_from st);
                g_score := <[neighbor := tentative_g]> (g_score st);
                f_score := <[neighbor := f]> (f_score st);
                closed_set := closed_set st;
                counter := counter' |}
    else Return st.

Fixpoint relax_all (current end_ : cell) (st : astar_state)
    (neighbors : list cell) : py astar_state :=
  match neighbors with
  | [] => Return st
  | n :: ns => st' ← relax current end_ st n; relax_all current end_ st' ns
  end.

(** [path = [end]; while tuple(path[-1]) in came_from: path.append(...)].
    The list is kept reversed (last element first); [None] when the fuel
    runs out. *)
Fixpoint reconstruct (fuel : nat) (cf : gmap cell cell) (last_ : cell)
    (rest : list cell) : option (list cell) :=
  match cf !! last_ with
  | None => Some (last_ :: rest)
  | Some prev =>
      match fuel with
      | O => None
      | S fuel' => reconstruct fuel' cf prev (last_ :: rest)
      end
  end.

(** The [while open_set] loop; [None] when the fuel runs out. *)
Fixpoint astar_loop (fuel : nat) (end_ : cell) (grid : grid_t)
    (st : astar_state) : option (py (option (list cell))) :=
  match fuel with
  | O => None
  | S fuel' =>
      match heappop (open_set st) with
      | None => Some (Return None)
      | Some ((_, _, current), open') =>
          if decide (current = end_) then
            (* the list is built backwards and then reversed: what is
               returned runs from the root of the chain to [end] *)
            match reconstruct (size (came_from st)) (came_from st) end_ [] with
            | Some path => Some (Return (Some path))
            | None => None
            end
          else
            let st1 := {| open_set := open';
                          came_from := came_from st;
                          g_score := g_score st;
                          f_score := f_score st;
                          closed_set := {[current]} ∪ closed_set st;
                          counter := counter st |} in
            match get_neighbors current grid with
            | Raise e => Some (Raise e)
            | Return ns =>
                match relax_all current end_ st1 ns with
                | Raise e => Some (Raise e)
                | Return st2 => astar_loop fuel' end_ grid st2
                end
            end
      end
  end.

Definition init_state (start end_ : cell) : astar_state :=
  {| open_set := heappush [] (0, 0, start);
     came_from := ∅;
     g_score := {[start := 0]};
     f_score := {[start := manhattan_distance start end_]};
     closed_set := ∅;
     counter := 0 |}.

(** Enough iterations for any run on [grid] (see [astar_loop_fuel]). *)
Definition astar_fuel (grid : grid_t) : nat :=
  let n := width grid * height grid in
  Z.to_nat (n * (n + 1) + 2).

(** [astar_path]: [Return (Some path)] is a path, [Return None] is Python's
    [None]. *)
Definition astar_path (start end_ : cell) (grid : grid_t)
    : py (option (list cell)) :=
  if decide (start = end_) then Return (Some [start])
  else
    let height := height grid in
    let width := width grid in
    let start_grid_x := start.1 - 1 in
    let start_grid_y := height - start.2 in
    let end_grid_x := end_.1 - 1 in
    let end_grid_y := height - end_.2 in
    if negb ((0 <=? start_grid_x) && (start_grid_x <? width) &&
             (0 <=? start_grid_y) && (start_grid_y <? height)) then Return None
    else if negb ((0 <=? end_grid_x) && (end_grid_x <? width) &&
                  (0 <=? end_grid_y) && (end_grid_y <? height)) then Return None
    else
      vs ← grid_at grid start_grid_y start_grid_x;
      if vs =? 0 then Return None
      else
        ve ← grid_at grid end_grid_y end_grid_x;
        if ve =? 0 then Return None
        else
          match astar_loop (astar_fuel grid) end_ grid (init_state start end_) with
          | Some r => r
          | None => Return None
          end.

(** [calculate_distance] *)
Definition calculate_distance (start end_ : cell) (grid : grid_t) : py Z :=
  path ← astar_path start end_ grid;
  match path with
  | None => Return (manhattan_distance start end_)
  | Some p => Return (Z.of_nat (length p) - 1)
  end.

(** The test grid of the module's self-test. *)
Definition test_grid : grid_t :=
  [ [1; 1; 1; 1; 1];
    [1; 0; 0; 0; 1];
    [1; 0; 1; 0; 1];
    [1; 0; 1; 0; 1];
    [1; 1; 1; 1; 1] ].

End Astar.

(** * The catalog records

    The source keeps products, agents, orders and picks as JSON objects;
    the fields read by the code are made record fields.  A field read with
    [.get(key, default)] that may be absent is an [option]. *)

Record Product : Type := mk_product {
  p_id : string;
  p_category : string;
  p_weight : Q;
  p_volume : Q;
  p_fragile : bool;                      (* [product.get('fragile', False)] *)
  p_location : string;
  p_pickup_location : Astar.cell;
  p_incompatible_with : list string      (* [.get('incompatible_with', [])] *)
}.

Record Agent : Type := mk_agent {
  a_id : string;
  a_type : string;
  a_capacity_weight : Q;
  a_capacity_volume : Z;
  a_speed : Q;
  a_no_fragile : bool;                   (* [restrictions.get('no_fragile', False)] *)
  a_max_item_weight : option Q           (* absent: [float('inf')] *)
}.

Record OrderItem : Type := mk_order_item {
  i_product_id : string;
  i_quantity : Z
}.

Record Order : Type := mk_order {
  o_id : string;
  o_deadline : Z * Z;                    (* "HH:MM", already split and parsed *)
  o_priority : string;
  o_items : list OrderItem
}.

(** An entry of [products_to_pick]; in a route it also carries the
    solver's [visit_time] and [trip_number]. *)
Record Pick : Type := mk_pick {
  k_product_id : string;
  k_order_id : string;
  k_product_data : Product;
  k_deadline : Z * Z;
  k_priority : string
}.

Record RouteItem : Type := mk_route_item {
  r_pick : Pick;
  r_visit_time : Z;
  r_trip_number : option Z               (* read with [.get('trip_number', 1)] *)
}.

(** A value of [result['agents_routes']].  Its ['total_weight'] and
    ['total_volume'], float sums that none of the modules below reads, are
    left out. *)
Record AgentRoute : Type := mk_agent_route {
  ar_agent : Agent;
  ar_products : list RouteItem
}.

Record ZonesAccess : Type := mk_zones_access {
  robot_accessible_storage : list string
}.

(** ** Insertion-ordered dictionaries *)

Section dict.
Context {K V : Type} `{EqDecision K}.

(** [d[k] = v]: an existing key keeps its position. *)
Fixpoint dict_set (d : list (K * V)) (k : K) (v : V) : list (K * V) :=
  match d with
  | [] => [(k, v)]
  | (k', v') :: d' =>
      if decide (k' = k) then (k, v) :: d' else (k', v') :: dict_set d' k v
  end.

Fixpoint dict_get (d : list (K * V)) (k : K) : option V :=
  match d with
  | [] => None
  | (k', v') :: d' => if decide (k' = k) then Some v' else dict_get d' k
  end.

Definition dict_keys (d : list (K * V)) : list K := d.*1.
End dict.

(** * distances.py *)

Module Distances.
Import Astar.

Record distance_data : Type := mk_distance_data {
  dd_entry : cell;
  dd_locations : list (string * cell);
  dd_distances : gmap (string * string) Z;
  dd_grid : option grid_t
}.

(** [locations = {'entry': entry_point}] followed by
    [locations[product['id']] = product['pickup_location']]. *)
Definition build_locations (products : list Product) (entry_point : cell)
    : list (string * cell) :=
  foldl (λ locs p, dict_set locs (p_id p) (p_pickup_location p))
        [("entry"%string, entry_point)] products.

(** The distance of one pair. *)
Definition pair_distance (navigation_grid : option grid_t)
    (from_pos to_pos : cell) : py Z :=
  match navigation_grid with
  | Some grid => calculate_distance from_pos to_pos grid
  | None => Return (manhattan_distance from_pos to_pos)
  end.

(** [for to_key in all_points: ... distances[(from_key, to_key)] = dist] *)
Fixpoint inner_loop (navigation_grid : option grid_t)
    (locations : list (string * cell)) (from_key : string) (from_pos : cell)
    (to_keys : list string) (distances : gmap (string * string) Z)
    : py (gmap (string * string) Z) :=
  match to_keys with
  | [] => Return distances
  | to_key :: rest =>
      to_pos ← match dict_get locations to_key with
               | Some c => Return c
               | None => Raise KeyError
               end;
      dist ← pair_distance navigation_grid from_pos to_pos;
      inner_loop navigation_grid locations from_key from_pos rest
                 (<[(from_key, to_key) := dist]> distances)
  end.

(** [for i, from_key in enumerate(all_points): ...] *)
Fixpoint outer_loop (navigation_grid : option grid_t)
    (locations : list (string * cell)) (all_points from_keys : list string)
    (distances : gmap (string * string) Z) : py (gmap (string * string) Z) :=
  match from_keys with
  | [] => Return distances
  | from_key :: rest =>
      from_pos ← match dict_get locations from_key with
                 | Some c => Return c
                 | None => Raise KeyError
                 end;
      distances' ← inner_loop navigation_grid locations from_key from_pos
                              all_points distances;
      outer_loop navigation_grid locations all_points rest distances'
  end.

Definition calculate_distance_matrix (products : list Product)
    (entry_point : cell) (navigation_grid : option grid_t) : py distance_data :=
  let locations := build_locations products entry_point in
  let all_points := dict_keys locations in
  distances ← outer_loop navigation_grid locations all_points all_points ∅;
  Return {| dd_entry := entry_point;
            dd_locations := locations;
            dd_distances := distances;
            dd_grid := navigation_grid |}.

End Distances.

(** * collision_checker.py *)

Module Collision.
Import Astar.

(** ** [calculate_path_manhattan]

    Each [while] loop moves one coordinate by one towards its target, so it
    runs [|end - current|] times; that number is the fuel. *)
Fixpoint walk_x (fuel : nat) (cx cy ex : Z) : list cell * Z :=
  if decide (cx = ex) then ([], cx)
  else match fuel with
       | O => ([], cx)
       | S fuel' =>
           let cx' := if cx <? ex then cx + 1 else cx - 1 in
           let '(path, cx'') := walk_x fuel' cx' cy ex in
           ((cx', cy) :: path, cx'')
       end.

Fixpoint walk_y (fuel : nat) (cx cy ey : Z) : list cell :=
  if decide (cy = ey) then []
  else match fuel with
       | O => []
       | S fuel' =>
           let cy' := if cy <? ey then cy + 1 else cy - 1 in
           (cx, cy') :: walk_y fuel' cx cy' ey
       end.

Definition calculate_path_manhattan (start end_ : cell) : list cell :=
  let '(path_x, cx) := walk_x (Z.abs_nat (end_.1 - start.1)) start.1 start.2 end_.1 in
  path_x ++ walk_y (Z.abs_nat (end_.2 - start.2)) cx start.2 end_.2.

(** ** [calculate_path] *)
Definition calculate_path (start end_ : cell) (navigation_grid : option grid_t)
    : py (list cell) :=
  match navigation_grid with
  | Some grid =>
      path ← astar_path start end_ grid;
      match path with
      | None => Return (calculate_path_manhattan start end_)
      | Some p => Return p
      end
  | None => Return (calculate_path_manhattan start end_)
  end.

(** ** [calculate_agent_trajectory] *)

Record tstate : Type := mk_tstate {
  trajectory : gmap Z cell;
  depot_positions : list cell;
  current_pos : cell;
  current_time : Z
}.

(** [trajectory[current_time] = pos.copy(); current_time += 1] *)
Definition stamp (pos : cell) (st : tstate) : tstate :=
  {| trajectory := <[current_time st := pos]> (trajectory st);
     depot_positions := depot_positions st;
     current_pos := current_pos st;
     current_time := current_time st + 1 |}.

(** [for step_pos in path: stamp] *)
Definition stamp_path (path : list cell) (st : tstate) : tstate :=
  foldl (λ s step_pos, stamp step_pos s) st path.

(** [for step_pos in path: stamp; if step_pos == target_pos: break] *)
Fixpoint stamp_until (target_pos : cell) (path : list cell) (st : tstate)
    : tstate :=
  match path with
  | [] => st
  | step_pos :: rest =>
      let st' := stamp step_pos st in
      if decide (step_pos = target_pos) then st'
      else stamp_until target_pos rest st'
  end.

(** [while current_time <= visit_time: stamp target_pos]; the fuel is the
    number of minutes left, [visit_time - current_time + 1]. *)
Fixpoint dwell_loop (fuel : nat) (visit_time : Z) (target_pos : cell)
    (st : tstate) : tstate :=
  if current_time st <=? visit_time then
    match fuel with
    | O => st
    | S fuel' => dwell_loop fuel' visit_time target_pos (stamp target_pos st)
    end
  else st.

Definition dwell (visit_time : Z) (target_pos : cell) (st : tstate) : tstate :=
  dwell_loop (Z.to_nat (visit_time - current_time st + 1)) visit_time target_pos st.

Definition set_pos (pos : cell) (st : tstate) : tstate :=
  {| trajectory := trajectory st;
     depot_positions := depot_positions st;
     current_pos := pos;
     current_time := current_time st |}.

(** Walk to the depot, stay two minutes, record the drop-off. *)
Definition depot_return (assigned_depot : cell)
    (navigation_grid : option grid_t) (st : tstate) : py tstate :=
  depot_path ← calculate_path (current_pos st) assigned_depot navigation_grid;
  let st1 := stamp_path depot_path st in
  let st2 := stamp assigned_depot (stamp assigned_depot st1) in
  Return {| trajectory := trajectory st2;
            depot_positions := depot_positions st2 ++ [assigned_depot];
            current_pos := assigned_depot;
            current_time := current_time st2 |}.

Definition get_trip_number (item : RouteItem) : Z := default 1 (r_trip_number item).

(** The body of [for i, product_item in enumerate(products_route)];
    [rest] is [products_route[i+1:]]. *)
Definition visit_product (entry_point : cell) (start_delay : Z)
    (navigation_grid : option grid_t) (assigned_depot : cell)
    (product_item : RouteItem) (rest : list RouteItem) (st : tstate)
    : py tstate :=
  let target_pos := p_pickup_location (k_product_data (r_pick product_item)) in
  let visit_time := r_visit_time product_item + start_delay in
  path ← calculate_path (current_pos st) target_pos navigation_grid;
  let st1 := stamp_until target_pos path st in
  let st2 := dwell visit_time target_pos st1 in
  let st3 := set_pos target_pos st2 in
  match rest with
  | next_item :: _ =>
      let current_trip := get_trip_number product_item in
      let next_trip := get_trip_number next_item in
      if decide (next_trip ≠ current_trip) then
        depot_return assigned_depot navigation_grid st3
      else Return st3
  | [] =>
      st4 ← depot_return assigned_depot navigation_grid st3;
      entry_path ← calculate_path (current_pos st4) entry_point navigation_grid;
      let st5 := stamp_path entry_path st4 in
      Return {| trajectory := <[current_time st5 := entry_point]> (trajectory st5);
                depot_positions := depot_positions st5;
                current_pos := current_pos st5;
                current_time := current_time st5 |}
  end.

Fixpoint visit_products (entry_point : cell) (start_delay : Z)
    (navigation_grid : option grid_t) (assigned_depot : cell)
    (products_route : list RouteItem) (st : tstate) : py tstate :=
  match products_route with
  | [] => Return st
  | product_item :: rest =>
      st' ← visit_product entry_point start_delay navigation_grid
                          assigned_depot product_item rest st;
      visit_products entry_point start_delay navigation_grid assigned_depot rest st'
  end.

(** The agent is read only for its speed, from which [cells_per_min] is
    computed and never used; [distance_data] is not read at all. *)
Definition calculate_agent_trajectory (agent : Agent)
    (products_route : list RouteItem) (entry_point : cell) (start_delay : Z)
    (navigation_grid : option grid_t) (assigned_depot : option cell)
    : py (gmap Z cell * list cell) :=
  let assigned_depot := default (6, 5) assigned_depot in
  st ← visit_products entry_point start_delay navigation_grid assigned_depot
                      products_route
                      {| trajectory := ∅; depot_positions := [];
                         current_pos := entry_point;
                         current_time := start_delay |};
  Return (trajectory st, depot_positions st).

(** ** [detect_collisions]

    [agents_trajectories] is a dict; its items are visited in insertion
    order.  The order in which Python enumerates the set [common_times] is
    not specified: it is the parameter [set_order]. *)
Section detect.
Variable set_order : gset Z → list Z.

Definition collision : Type := string * string * Z * cell.

Definition pair_collisions (agent1_id : string) (traj1 : gmap Z cell)
    (agent2_id : string) (traj2 : gmap Z cell) : list collision :=
  let common_times := dom traj1 ∩ dom traj2 in
  flat_map (λ t,
    match traj1 !! t, traj2 !! t with
    | Some pos1, Some pos2 =>
        if decide (pos1 = pos2) then [(agent1_id, agent2_id, t, pos1)] else []
    | _, _ => []
    end) (set_order common_times).

Fixpoint detect_collisions (agents_trajectories : list (string * gmap Z cell))
    : list collision :=
  match agents_trajectories with
  | [] => []
  | (agent1_id, traj1) :: rest =>
      flat_map (λ '(agent2_id, traj2),
                  pair_collisions agent1_id traj1 agent2_id traj2) rest
      ++ detect_collisions rest
  end.

(** ** [check_and_adjust_collisions] *)

Definition AVAILABLE_DEPOTS : list cell :=
  [(5, 4); (6, 4); (7, 4); (5, 5); (7, 5); (5, 6); (6, 6); (7, 6)].

(** [for agent_id in solution['agents_routes'].keys(): ...] *)
Fixpoint assign_depots (agent_ids : list string)
    (depot_assignments : list (string * cell)) (used_depots : list cell)
    : list (string * cell) :=
  match agent_ids with
  | [] => depot_assignments
  | agent_id :: rest =>
      let available :=
        filter (λ d, d ∉ used_depots) AVAILABLE_DEPOTS in
      match available with
      | assigned :: _ =>
          assign_depots rest (dict_set depot_assignments agent_id assigned)
                        (used_depots ++ [assigned])
      | [] =>
          assign_depots rest (dict_set depot_assignments agent_id (6, 5))
                        used_depots
      end
  end.

(** [agents_dict = {a['id']: a for a in agents}] *)
Definition make_agents_dict (agents : list Agent) : gmap string Agent :=
  foldl (λ d a, <[a_id a := a]> d) ∅ agents.

(** A value of [routes_with_delays]: the products and the start delay. *)
Definition delayed_route : Type := list RouteItem * Z.

(** The nested [compute_all_trajectories]. *)
Fixpoint compute_all_trajectories (agents_dict : gmap string Agent)
    (depot_assignments : list (string * cell)) (entry_point : cell)
    (navigation_grid : option grid_t)
    (routes_with_delays : list (string * delayed_route))
    (trajectories : list (string * gmap Z cell))
    (all_depot_positions : list (string * list cell))
    : py (list (string * gmap Z cell) * list (string * list cell)) :=
  match routes_with_delays with
  | [] => Return (trajectories, all_depot_positions)
  | (agent_id, (products_route, start_delay)) :: rest =>
      agent ← dict_getitem agents_dict agent_id;
      let assigned_depot := default (6, 5) (dict_get depot_assignments agent_id) in
      '(trajectory, depot_positions) ←
        calculate_agent_trajectory agent products_route entry_point
          start_delay navigation_grid (Some assigned_depot);
      compute_all_trajectories agents_dict depot_assignments entry_point
        navigation_grid rest
        (dict_set trajectories agent_id trajectory)
        (dict_set all_depot_positions agent_id depot_positions)
  end.

(** [collision_counts[agent] = collision_counts.get(agent, 0) + 1] *)
Definition count_up (counts : list (string * Z)) (agent : string)
    : list (string * Z) :=
  dict_set counts agent (default 0 (dict_get counts agent) + 1).

Definition collision_counts (collisions : list collision) : list (string * Z) :=
  foldl (λ counts '(agent1, agent2, _, _),
           count_up (count_up counts agent1) agent2) [] collisions.

(** [max(d, key=d.get)]: the first key, in insertion order, whose count
    is the largest; [best] is the running maximum. *)
Fixpoint max_by_count (best : string * Z) (items : list (string * Z))
    : string :=
  match items with
  | [] => best.1
  | (k, c) :: rest =>
      max_by_count (if best.2 <? c then (k, c) else best) rest
  end.

(** [routes_with_delays[agent]['start_delay'] += 2] *)
Fixpoint add_delay (routes_with_delays : list (string * delayed_route))
    (agent : string) : py (list (string * delayed_route)) :=
  match routes_with_delays with
  | [] => Raise KeyError
  | (k, (products, delay)) :: rest =>
      if decide (k = agent) then Return ((k, (products, delay + 2)) :: rest)
      else rest' ← add_delay rest agent; Return ((k, (products, delay)) :: rest')
  end.

(** One pass of the body of [for iteration in range(max_iterations)]:
    [inl] when the loop breaks, [inr] with the delayed routes otherwise. *)
Definition resolution_step (agents_dict : gmap string Agent)
    (depot_assignments : list (string * cell)) (entry_point : cell)
    (navigation_grid : option grid_t)
    (routes_with_delays : list (string * delayed_route))
    : py (() + list (string * delayed_route)) :=
  '(agents_trajectories, _) ←
    compute_all_trajectories agents_dict depot_assignments entry_point
      navigation_grid routes_with_delays [] [];
  let collisions := detect_collisions agents_trajectories in
  if decide (length collisions = 0%nat) then Return (inl ())
  else
    match collision_counts collisions with
    | [] => Raise ValueError                  (* [max()] of an empty dict *)
    | first :: others =>
        let most_colliding_agent := max_by_count first others in
        rwd' ← add_delay routes_with_delays most_colliding_agent;
        Return (inr rwd')
    end.

(** The loop; the second component counts the passes that were started
    (the ["--- Itération k ---"] lines of the trace). *)
Fixpoint resolution_loop (max_iterations : nat)
    (agents_dict : gmap string Agent)
    (depot_assignments : list (string * cell)) (entry_point : cell)
    (navigation_grid : option grid_t)
    (routes_with_delays : list (string * delayed_route))
    : py (list (string * delayed_route) * nat) :=
  match max_iterations with
  | O => Return (routes_with_delays, O)
  | S n =>
      r ← resolution_step agents_dict depot_assignments entry_point
                          navigation_grid routes_with_delays;
      match r with
      | inl _ => Return (routes_with_delays, 1%nat)
      | inr rwd' =>
          '(final, k) ← resolution_loop n agents_dict depot_assignments
                                        entry_point navigation_grid rwd';
          Return (final, S k)
      end
  end.

Record collision_result : Type := mk_collision_result {
  cr_trajectories : list (string * gmap Z cell);
  cr_collisions : list collision;
  cr_delays : list (string * Z);
  cr_depot_positions : list (string * list cell);
  cr_depot_assignments : list (string * cell);
  cr_iterations : nat                   (* passes of the loop, not returned by the source *)
}.

(** [routes_with_delays[agent_id] = {'products': ..., 'start_delay': 0}] *)
Definition initial_routes (agents_routes : list (string * AgentRoute))
    : list (string * delayed_route) :=
  foldl (λ rwd '(agent_id, route_data),
           dict_set rwd agent_id (ar_products route_data, 0))
        [] agents_routes.

Definition check_and_adjust_collisions
    (agents_routes : list (string * AgentRoute)) (agents : list Agent)
    (entry_point : cell) (max_iterations : Z)
    (navigation_grid : option grid_t) : py collision_result :=
  let agents_dict := make_agents_dict agents in
  let depot_assignments := assign_depots (dict_keys agents_routes) [] [] in
  let routes_with_delays := initial_routes agents_routes in
  '(routes_with_delays, iterations) ←
    resolution_loop (Z.to_nat max_iterations) agents_dict depot_assignments
      entry_point navigation_grid routes_with_delays;
  '(final_trajectories, final_depot_positions) ←
    compute_all_trajectories agents_dict depot_assignments entry_point
      navigation_grid routes_with_delays [] [];
  let final_collisions := detect_collisions final_trajectories in
  Return {| cr_trajectories := final_trajectories;
            cr_collisions := final_collisions;
            cr_delays :=
              foldl (λ d '(aid, rd), dict_set d aid rd.2) [] routes_with_delays;
            cr_depot_positions := final_depot_positions;
            cr_depot_assignments := depot_assignments;
            cr_iterations := iterations |}.
End detect.

End Collision.

(** * optimizer_mintime.py *)

(** ** Python floats

    Binary64 arithmetic, rounding to nearest even: [SpecFloat] at precision
    53 with exponents below 1024. *)
Module Float64.

Definition prec : Z := 53.
Definition emax : Z := 1024.

(** The binary64 number of an input value: the value itself when it is a
    binary64 number, else the nearest one. *)
Definition of_Q (q : Q) : spec_float :=
  match Qnum q with
  | Z0 => S754_zero false
  | Zpos n => SFdiv prec emax (S754_finite false n 0) (S754_finite false (Qden q) 0)
  | Zneg n => SFdiv prec emax (S754_finite true n 0) (S754_finite false (Qden q) 0)
  end.

(** An integer constant as a float. *)
Definition of_Z (n : Z) : spec_float := binary_normalize prec emax n 0 false.

(** An integer operand of a float operation: converted to the nearest
    float, [OverflowError] when it is too large for one. *)
Definition of_int (n : Z) : py spec_float :=
  match of_Z n with
  | S754_infinity _ => Raise OverflowError
  | f => Return f
  end.

(** [x * y] *)
Definition mul (x y : spec_float) : spec_float := SFmul prec emax x y.

Definition is_zero (x : spec_float) : bool :=
  match x with
  | S754_zero _ => true
  | _ => false
  end.

(** [x / y] *)
Definition truediv (x y : spec_float) : py spec_float :=
  if is_zero y then Raise ZeroDivisionError else Return (SFdiv prec emax x y).

(** [int(x)] *)
Definition to_int (x : spec_float) : py Z :=
  match x with
  | S754_zero _ => Return 0
  | S754_finite s m e =>
      Return (cond_Zopp s (match e with
                           | Z0 => Zpos m
                           | Zpos _ => Z.shiftl (Zpos m) e
                           | Zneg p => Z.shiftr (Zpos m) (Zpos p)
                           end))
  | S754_infinity _ => Raise OverflowError
  | S754_nan => Raise ValueError
  end.

End Float64.

Module Optimizer.
Import Astar Distances.

(** [time_to_minutes], on a deadline already split at [':']. *)
Definition time_to_minutes (time_str : Z * Z) : Z :=
  let '(hours, minutes) := time_str in
  let total_minutes := hours * 60 + minutes in
  total_minutes - 9 * 60.

(** [int(x)] of an input value: truncation toward zero. *)
Definition py_int (x : Q) : Z := Z.quot (Qnum x) (Z.pos (Qden x)).

Definition can_agent_handle_product (agent : Agent) (product : Product)
    (zones_access : ZonesAccess) : bool :=
  if String.eqb (a_type agent) "robot" then
    let product_location := p_location product in
    if negb (bool_decide (product_location ∈ robot_accessible_storage zones_access))
    then false
    else if String.eqb (p_category product) "food" then false
    else if a_no_fragile agent && p_fragile product then false
    else if match a_max_item_weight agent with
            | Some max_weight => negb (Qle_bool (p_weight product) max_weight)
            | None => false
            end
    then false
    else true
  else true.

(** ** The constraint model

    Every [model.NewBoolVar] / [model.NewIntVar] call of the source creates
    a fresh solver variable; the variables are named by their creation site
    and loop indices. *)
Inductive var : Type :=
| V_assign (i a : nat)                 (* assign_p{i}_a{a} *)
| V_trip (i a : nat)                   (* trip_p{i}_a{a} *)
| V_visit (i : nat)                    (* visit_time_p{i} *)
| V_before (i j a : nat)               (* before_p{i}_p{j}_a{a} *)
| V_both (i j a : nat)                 (* both_p{i}_p{j}_a{a} *)
| V_same_trip (i j a : nat)            (* same_trip_p{i}_p{j}_a{a}, timing *)
| V_in_trip (i a : nat) (trip : Z)     (* p{i}_a{a}_trip{trip} *)
| V_in_trip_vol (i a : nat) (trip : Z) (* p{i}_a{a}_trip{trip}_vol *)
| V_incomp (i j a : nat)               (* incomp_p{i}_p{j}_a{a} *)
| V_incomp_same_trip (i j a : nat)     (* same_trip_p{i}_p{j}_a{a}, incompatibility *)
| V_both_express_std (i j a : nat)     (* both_express_std_p{i}_p{j}_a{a} *)
| V_agent_used (a : nat)               (* agent_{a}_used *)
| V_human_to_cart (h c : nat)          (* human_{h}_to_cart_{c} *)
| V_max_end_time
| V_last_time (a : nat)                (* last_time_a{a} *)
| V_time_contrib (i a : nat).          (* time_contrib_p{i}_a{a} *)

Inductive expr : Type :=
| Const (z : Z)
| Var (v : var)
| Plus (e1 e2 : expr)
| Times (k : Z) (v : var).

Inductive rel : Type := REq | RNe | RLe | RLt | RGe.

(** A literal of [OnlyEnforceIf]: a Boolean variable or its [.Not()]. *)
Inductive lit : Type := Pos (v : var) | Neg (v : var).

Inductive constraint : Type :=
| NewIntVar (v : var) (lo hi : Z)
| Add (lhs : expr) (r : rel) (rhs : expr) (only_enforce_if : list lit)
| AddMaxEquality (target : var) (vars : list var).

Definition NewBoolVar (v : var) : constraint := NewIntVar v 0 1.

(** Python's [sum(es)]: [0 + e1 + e2 + ...]. *)
Definition py_sum (es : list expr) : expr := foldl Plus (Const 0) es.

(** *** Meaning of a constraint under a valuation of the variables *)

Fixpoint eval (val : var → Z) (e : expr) : Z :=
  match e with
  | Const z => z
  | Var v => val v
  | Plus e1 e2 => eval val e1 + eval val e2
  | Times k v => k * val v
  end.

Definition rel_holds (r : rel) (x y : Z) : bool :=
  match r with
  | REq => x =? y
  | RNe => negb (x =? y)
  | RLe => x <=? y
  | RLt => x <? y
  | RGe => y <=? x
  end.

Definition lit_holds (val : var → Z) (l : lit) : bool :=
  match l with
  | Pos v => val v =? 1
  | Neg v => val v =? 0
  end.

Definition max_list (zs : list Z) : option Z :=
  match zs with
  | [] => None
  | z :: zs' => Some (foldl Z.max z zs')
  end.

Definition holds (val : var → Z) (c : constraint) : bool :=
  match c with
  | NewIntVar v lo hi => (lo <=? val v) && (val v <=? hi)
  | Add lhs r rhs lits =>
      implb (forallb (lit_holds val) lits) (rel_holds r (eval val lhs) (eval val rhs))
  | AddMaxEquality target vars =>
      match max_list (val <$> vars) with
      | Some m => val target =? m
      | None => false
      end
  end.

Definition satisfies (val : var → Z) (model : list constraint) : bool :=
  forallb (holds val) model.

(** *** Building the model *)

Definition MAX_TRIPS : Z := 15.
Definition TIME_START : Z := 0.
Definition TIME_END : Z := 480.
Definition PICKING_TIME : Z := 1.
Definition METERS_PER_CELL : Z := 3.
Definition PREPARATION_POINT : cell := (6, 5).
Definition DEPOT_TIME : Z := 2.

(** [enumerate(l)] *)
Definition enumerate {A : Type} (l : list A) : list (nat * A) :=
  imap (λ i x, (i, x)) l.

(** A loop whose body may raise. *)
Fixpoint py_flat_map {A B : Type} (f : A → py (list B)) (l : list A)
    : py (list B) :=
  match l with
  | [] => Return []
  | x :: l' => ys ← f x; zs ← py_flat_map f l'; Return (ys ++ zs)
  end.

(** [product_dict = {p['id']: p for p in products}] *)
Definition make_product_dict (products : list Product) : gmap string Product :=
  foldl (λ d p, <[p_id p := p]> d) ∅ products.

(** The units of one order line: [quantity] copies. *)
Definition picks_of_item (product_dict : gmap string Product) (order : Order)
    (item : OrderItem) : py (list Pick) :=
  let prod_id := i_product_id item in
  let quantity := i_quantity item in
  if quantity <=? 0 then Return []
  else
    product_data ← dict_getitem product_dict prod_id;
    Return (replicate (Z.to_nat quantity)
              {| k_product_id := prod_id;
                 k_order_id := o_id order;
                 k_product_data := product_data;
                 k_deadline := o_deadline order;
                 k_priority := o_priority order |}).

Definition make_products_to_pick (available_orders : list Order)
    (products : list Product) : py (list Pick) :=
  let product_dict := make_product_dict products in
  py_flat_map (λ order, py_flat_map (picks_of_item product_dict order) (o_items order))
              available_orders.

(** [agent['speed'] * 60] *)
Definition speed_m_per_min (agent : Agent) : spec_float :=
  Float64.mul (Float64.of_Q (a_speed agent)) (Float64.of_Z 60).

(** [int(cells * METERS_PER_CELL / agent_speed_m_per_min) + 1]: the
    product is an integer, the quotient a float. *)
Definition travel_minutes (cells : Z) (agent_speed_m_per_min : spec_float) : py Z :=
  distance_meters ← Float64.of_int (cells * METERS_PER_CELL);
  q ← Float64.truediv distance_meters agent_speed_m_per_min;
  n ← Float64.to_int q;
  Return (n + 1).

(** [int(kg * 1000)] *)
Definition grams (kg : Q) : py Z :=
  Float64.to_int (Float64.mul (Float64.of_Q kg) (Float64.of_Z 1000)).

Section model.
Variable agents : list Agent.
Variable products_to_pick : list Pick.
Variable distance_data : distance_data.
Variable zones_access : ZonesAccess.

(** [assignment[(i, a)]] is a solver variable when the agent can handle
    the product and the integer [0] otherwise; [(i, a) in assignment]
    holds for every pair of indices. *)
Definition has_var (agent : Agent) (pick : Pick) : bool :=
  can_agent_handle_product agent (k_product_data pick) zones_access.

Definition assignment_vars : list constraint :=
  '(i, pick) ← enumerate products_to_pick;
  '(a, agent) ← enumerate agents;
  if has_var agent pick then [NewBoolVar (V_assign i a)] else [].

Definition trip_number_vars : list constraint :=
  '(i, pick) ← enumerate products_to_pick;
  '(a, agent) ← enumerate agents;
  if has_var agent pick then [NewIntVar (V_trip i a) 1 MAX_TRIPS] else [].

Definition visit_time_vars : list constraint :=
  '(i, _) ← enumerate products_to_pick;
  [NewIntVar (V_visit i) TIME_START TIME_END].

Definition before_vars : list constraint :=
  '(a, _) ← enumerate agents;
  '(i, _) ← enumerate products_to_pick;
  '(j, _) ← enumerate products_to_pick;
  if decide (i ≠ j) then [NewBoolVar (V_before i j a)] else [].

(** The body of the innermost loop of "C1b : cohérence temporelle". *)
Definition timing_block (a : nat) (agent : Agent) (i : nat) (pick_i : Pick)
    (j : nat) (pick_j : Pick) : py (list constraint) :=
  let agent_speed_m_per_min := speed_m_per_min agent in
  let var_i := V_assign i a in
  let var_j := V_assign j a in
  let both_assigned := V_both i j a in
  let prod_i_id := k_product_id pick_i in
  let prod_j_id := k_product_id pick_j in
  let distance_cases :=
    default 0 (dd_distances distance_data !! (prod_i_id, prod_j_id)) in
  travel_time ← travel_minutes distance_cases agent_speed_m_per_min;
  let same_trip := V_same_trip i j a in
  let prod_i_loc := p_pickup_location (k_product_data pick_i) in
  let prod_j_loc := p_pickup_location (k_product_data pick_j) in
  let dist_to_prep :=
    Z.abs (prod_i_loc.1 - PREPARATION_POINT.1) +
    Z.abs (prod_i_loc.2 - PREPARATION_POINT.2) in
  time_to_prep ← travel_minutes dist_to_prep agent_speed_m_per_min;
  let dist_from_prep :=
    Z.abs (PREPARATION_POINT.1 - prod_j_loc.1) +
    Z.abs (PREPARATION_POINT.2 - prod_j_loc.2) in
  time_from_prep ← travel_minutes dist_from_prep agent_speed_m_per_min;
  let return_time := time_to_prep + DEPOT_TIME + time_from_prep in
  Return
    [ NewBoolVar both_assigned;
      Add (Plus (Var var_i) (Var var_j)) REq (Const 2) [Pos both_assigned];
      Add (Plus (Var var_i) (Var var_j)) RLt (Const 2) [Neg both_assigned];
      Add (Plus (Var (V_before i j a)) (Var (V_before j i a))) REq (Const 1)
          [Pos both_assigned];
      NewBoolVar same_trip;
      Add (Var (V_trip i a)) REq (Var (V_trip j a)) [Pos both_assigned; Pos same_trip];
      Add (Var (V_trip i a)) RNe (Var (V_trip j a)) [Pos both_assigned; Neg same_trip];
      Add (Var (V_visit j)) RGe
          (Plus (Plus (Var (V_visit i)) (Const travel_time)) (Const PICKING_TIME))
          [Pos (V_before i j a); Pos same_trip];
      Add (Var (V_visit j)) RGe
          (Plus (Plus (Var (V_visit i)) (Const return_time)) (Const PICKING_TIME))
          [Pos (V_before i j a); Neg same_trip] ].

Definition timing_constraints : py (list constraint) :=
  py_flat_map (λ '(a, agent),
    py_flat_map (λ '(i, pick_i),
      py_flat_map (λ '(j, pick_j),
        if bool_decide (i ≠ j) && has_var agent pick_i && has_var agent pick_j
        then timing_block a agent i pick_i j pick_j
        else Return [])
        (enumerate products_to_pick))
      (enumerate products_to_pick))
    (enumerate agents).

(** The assignment variables of pick [i], over the agents in [among]. *)
Definition assign_vars_of (i : nat) (pick : Pick)
    (among : list (nat * Agent)) : list expr :=
  '(a, agent) ← among;
  if has_var agent pick then [Var (V_assign i a)] else [].

(** Hard constraint 1 of the model: each product on exactly one agent. *)
Definition unique_assignment : list constraint :=
  '(i, pick) ← enumerate products_to_pick;
  let valid := assign_vars_of i pick (enumerate agents) in
  match valid with
  | [] => []
  | _ => [Add (py_sum valid) REq (Const 1) []]
  end.

Definition robot_indices : list (nat * Agent) :=
  filter (λ '(_, agent), a_type agent = "robot"%string) (enumerate agents).

(** Hard constraint 1b of the model: a product stored in a robot zone goes to a robot. *)
Definition robot_zone_constraints : list constraint :=
  '(i, pick) ← enumerate products_to_pick;
  let product_location := p_location (k_product_data pick) in
  if bool_decide (product_location ∈ robot_accessible_storage zones_access) then
    let robot_assignments := assign_vars_of i pick robot_indices in
    match robot_assignments with
    | [] => []
    | _ => [Add (py_sum robot_assignments) REq (Const 1) []]
    end
  else [].

Definition trips : list Z := seqZ 1 MAX_TRIPS.

(** Hard constraint 2 of the model: weight capacity of each trip. *)
Definition weight_block (a : nat) (agent : Agent) (trip : Z)
    : nat * Pick → py (list (list constraint * expr)) :=
  λ '(i, pick),
    if has_var agent pick then
      let in_this_trip := V_in_trip i a trip in
      weight_g ← grams (p_weight (k_product_data pick));
      Return
        [([ NewBoolVar in_this_trip;
            Add (Var (V_trip i a)) REq (Const trip) [Pos (V_assign i a); Pos in_this_trip];
            Add (Var (V_trip i a)) RNe (Const trip) [Pos (V_assign i a); Neg in_this_trip];
            Add (Var in_this_trip) REq (Const 0) [Neg (V_assign i a)] ],
          Times weight_g in_this_trip)]
    else Return [].

Definition weight_constraints : py (list constraint) :=
  py_flat_map (λ '(a, agent),
    py_flat_map (λ trip,
      blocks ← py_flat_map (weight_block a agent trip) (enumerate products_to_pick);
      let trip_weight := blocks.*2 in
      match trip_weight with
      | [] => Return (concat blocks.*1)
      | _ => capacity_g ← grams (a_capacity_weight agent);
             Return (concat blocks.*1
                     ++ [Add (py_sum trip_weight) RLe (Const capacity_g) []])
      end)
      trips)
    (enumerate agents).

(** Hard constraint 3 of the model: volume capacity of each trip. *)
Definition volume_constraints : list constraint :=
  '(a, agent) ← enumerate agents;
  trip ← trips;
  let per_pick :=
    (λ '(i, pick),
       if has_var agent pick then
         let in_this_trip := V_in_trip_vol i a trip in
         let volume := py_int (p_volume (k_product_data pick)) in
         [([ NewBoolVar in_this_trip;
             Add (Var (V_trip i a)) REq (Const trip) [Pos (V_assign i a); Pos in_this_trip];
             Add (Var (V_trip i a)) RNe (Const trip) [Pos (V_assign i a); Neg in_this_trip];
             Add (Var in_this_trip) REq (Const 0) [Neg (V_assign i a)] ],
           Times volume in_this_trip)]
       else []) in
  let blocks := enumerate products_to_pick ≫= per_pick in
  let trip_volume := blocks.*2 in
  concat blocks.*1 ++
  match trip_volume with
  | [] => []
  | _ => [Add (py_sum trip_volume) RLe (Const (a_capacity_volume agent)) []]
  end.

(** Hard constraint 4 of the model: incompatible products never share a trip. *)
Definition incompatibility_constraints : list constraint :=
  '(i, pick_i) ← enumerate products_to_pick;
  '(j, pick_j) ← enumerate products_to_pick;
  if bool_decide (i < j)%nat then
    let prod_i := k_product_data pick_i in
    let prod_j := k_product_data pick_j in
    if bool_decide (p_id prod_j ∈ p_incompatible_with prod_i) then
      '(a, agent) ← enumerate agents;
      if has_var agent pick_i && has_var agent pick_j then
        let both_same := V_incomp i j a in
        let same_trip := V_incomp_same_trip i j a in
        [ NewBoolVar both_same;
          Add (Plus (Var (V_assign i a)) (Var (V_assign j a))) REq (Const 2) [Pos both_same];
          Add (Plus (Var (V_assign i a)) (Var (V_assign j a))) RLt (Const 2) [Neg both_same];
          NewBoolVar same_trip;
          Add (Var (V_trip i a)) REq (Var (V_trip j a)) [Pos both_same; Pos same_trip];
          Add (Var (V_trip i a)) RNe (Var (V_trip j a)) [Pos both_same; Neg same_trip];
          Add (Var same_trip) REq (Const 0) [Pos both_same] ]
      else []
    else []
  else [].

(** Hard constraint 5 of the model: deadlines. *)
Definition deadline_constraints : list constraint :=
  '(i, product_item) ← enumerate products_to_pick;
  let deadline_minutes := time_to_minutes (k_deadline product_item) in
  [Add (Var (V_visit i)) RLe (Const deadline_minutes) []].

(** Hard constraint 5b of the model: express before standard on a shared agent. *)
Definition priority_constraints : list constraint :=
  '(a, agent) ← enumerate agents;
  '(i, prod_i) ← enumerate products_to_pick;
  '(j, prod_j) ← enumerate products_to_pick;
  if bool_decide (i ≠ j)
     && String.eqb (k_priority prod_i) "express"
     && String.eqb (k_priority prod_j) "standard"
     && has_var agent prod_i && has_var agent prod_j
  then
    let both_assigned := V_both_express_std i j a in
    [ NewBoolVar both_assigned;
      Add (Plus (Var (V_assign i a)) (Var (V_assign j a))) REq (Const 2) [Pos both_assigned];
      Add (Plus (Var (V_assign i a)) (Var (V_assign j a))) RLt (Const 2) [Neg both_assigned];
      Add (Var (V_visit i)) RLt (Var (V_visit j)) [Pos both_assigned] ]
  else [].

(** The assignment variables of agent [a], over all picks. *)
Definition products_assigned (a : nat) (agent : Agent) : list nat :=
  '(i, pick) ← enumerate products_to_pick;
  if has_var agent pick then [i] else [].

Definition cart_indices : list nat :=
  (filter (λ '(_, agent), a_type agent = "cart"%string) (enumerate agents)).*1.
Definition human_indices : list nat :=
  (filter (λ '(_, agent), a_type agent = "human"%string) (enumerate agents)).*1.

(** Hard constraint 6 of the model: used agents, and a human for every used cart. *)
Definition usage_constraints : list constraint :=
  ('(a, agent) ← enumerate agents;
   let agent_used := V_agent_used a in
   let assigned := (λ i, Var (V_assign i a)) <$> products_assigned a agent in
   NewBoolVar agent_used ::
   match assigned with
   | [] => []
   | _ => [ Add (py_sum assigned) RGe (Const 1) [Pos agent_used];
            Add (py_sum assigned) REq (Const 0) [Neg agent_used] ]
   end)
  ++ (c_idx ← cart_indices; h_idx ← human_indices;
      [NewBoolVar (V_human_to_cart h_idx c_idx)])
  ++ (c_idx ← cart_indices;
      let cart_used := V_agent_used c_idx in
      let humans_assigned := (λ h_idx, Var (V_human_to_cart h_idx c_idx)) <$> human_indices in
      [ Add (py_sum humans_assigned) REq (Const 1) [Pos cart_used];
        Add (py_sum humans_assigned) REq (Const 0) [Neg cart_used] ])
  ++ (h_idx ← human_indices;
      let carts_assigned := (λ c_idx, Var (V_human_to_cart h_idx c_idx)) <$> cart_indices in
      [Add (py_sum carts_assigned) RLe (Const 1) []]).

(** The makespan variables. *)
Definition makespan_constraints : list constraint :=
  NewIntVar V_max_end_time TIME_START TIME_END ::
  ('(a, agent) ← enumerate agents;
   let agent_last_time := V_last_time a in
   let assigned := products_assigned a agent in
   [NewIntVar agent_last_time TIME_START TIME_END]
   ++ (i ← assigned;
       let time_contrib := V_time_contrib i a in
       [ NewIntVar time_contrib TIME_START TIME_END;
         Add (Var time_contrib) REq (Var (V_visit i)) [Pos (V_assign i a)];
         Add (Var time_contrib) REq (Const TIME_START) [Neg (V_assign i a)] ])
   ++ [ match assigned with
        | [] => Add (Var agent_last_time) REq (Const TIME_START) []
        | _ => AddMaxEquality agent_last_time ((λ i, V_time_contrib i a) <$> assigned)
        end;
        Add (Var V_max_end_time) RGe (Var agent_last_time) [] ]).

Definition build_model : py (list constraint) :=
  timing ← timing_constraints;
  weight ← weight_constraints;
  Return (assignment_vars ++ trip_number_vars ++ visit_time_vars ++ before_vars
          ++ timing
          ++ unique_assignment ++ robot_zone_constraints
          ++ weight ++ volume_constraints
          ++ incompatibility_constraints
          ++ deadline_constraints ++ priority_constraints
          ++ usage_constraints ++ makespan_constraints).

(** *** Reading the solution *)

(** [assigned_products] of agent [a], before sorting. *)
Definition assigned_products (val : var → Z) (a : nat) (agent : Agent)
    : list RouteItem :=
  '(i, pick) ← enumerate products_to_pick;
  if has_var agent pick && (val (V_assign i a) =? 1) then
    [ {| r_pick := pick;
         r_visit_time := val (V_visit i);
         r_trip_number := Some (val (V_trip i a)) |} ]
  else [].
End model.

(** [sort(key=lambda p: (p['trip_number'], p['visit_time']))]: a stable
    sort on the pair. *)
Definition route_key_le (x y : RouteItem) : bool :=
  let tx := default 1 (r_trip_number x) in
  let ty := default 1 (r_trip_number y) in
  (tx <? ty) || ((tx =? ty) && (r_visit_time x <=? r_visit_time y)).

Fixpoint insert_route_item (x : RouteItem) (l : list RouteItem) : list RouteItem :=
  match l with
  | [] => [x]
  | y :: l' => if route_key_le x y then x :: l else y :: insert_route_item x l'
  end.

Definition sort_route (l : list RouteItem) : list RouteItem :=
  foldr insert_route_item [] l.

(** ** The solver

    [solver.Solve(model)] is outside the repository: a solver takes the
    model and the objective and answers with a status and the values of
    the variables ([solver.Value]). *)
Inductive solver_status : Type :=
  UNKNOWN | MODEL_INVALID | FEASIBLE | INFEASIBLE | OPTIMAL.

Definition solver_t : Type := list constraint → var → solver_status * (var → Z).

(** What CP-SAT guarantees: a FEASIBLE or OPTIMAL answer satisfies every
    constraint of the model. *)
Definition sound (solver : solver_t) : Prop :=
  ∀ model objective status val,
    solver model objective = (status, val) →
    status = OPTIMAL ∨ status = FEASIBLE →
    satisfies val model = true.

Record opt_result : Type := mk_opt_result {
  status : string;
  agents_routes : option (list (string * AgentRoute));     (* [None]: no such key *)
  human_cart_assignments : option (list (string * string))
}.

Definition extract_human_cart (agents : list Agent) (val : var → Z)
    : list (string * string) :=
  foldl (λ d '(c_idx, h_idx),
           if val (V_human_to_cart h_idx c_idx) =? 1 then
             match agents !! c_idx, agents !! h_idx with
             | Some cart, Some human => dict_set d (a_id cart) (a_id human)
             | _, _ => d
             end
           else d)
        []
        (c_idx ← cart_indices agents; h_idx ← human_indices agents; [(c_idx, h_idx)]).

Definition extract_routes (agents : list Agent) (products_to_pick : list Pick)
    (zones_access : ZonesAccess) (val : var → Z) : list (string * AgentRoute) :=
  foldl (λ d '(a, agent),
           let assigned := assigned_products products_to_pick zones_access val a agent in
           match assigned with
           | [] => d
           | _ =>
               let sorted := sort_route assigned in
               dict_set d (a_id agent)
                 {| ar_agent := agent; ar_products := sorted |}
           end)
        [] (enumerate agents).

(** [optimize_routes]; [entry_point] and [current_time] are not read. *)
Definition optimize_routes (solver : solver_t) (available_orders : list Order)
    (products : list Product) (agents : list Agent)
    (distance_data : distance_data) (zones_access : ZonesAccess)
    : py opt_result :=
  products_to_pick ← make_products_to_pick available_orders products;
  model ← build_model agents products_to_pick distance_data zones_access;
  let '(solver_status, val) := solver model V_max_end_time in
  match solver_status with
  | OPTIMAL | FEASIBLE =>
      Return {| status := "success";
                agents_routes := Some (extract_routes agents products_to_pick zones_access val);
                human_cart_assignments := Some (extract_human_cart agents val) |}
  | _ =>
      Return {| status := "no_solution";
                agents_routes := None;
                human_cart_assignments := None |}
  end.

End Optimizer.

(** * run_optimization.py

    The catalogs are taken as already loaded; the statistics computed from a
    successful plan (costs, makespan string, totals) are left out. *)

Module RunOptimization.
Import Astar Distances Optimizer Collision.

Record Warehouse : Type := mk_warehouse {
  w_entry_point : cell;
  w_navigation_grid : option grid_t     (* [warehouse.get('navigation_grid', None)] *)
}.

Record run_result : Type := mk_run_result {
  rr_status : string;
  rr_message : option string;
  rr_solution : option opt_result;
  rr_collision_result : option collision_result
}.

(** [orders[:num_orders]] *)
Definition py_take {A : Type} (n : Z) (l : list A) : list A :=
  if n <? 0 then take (Z.to_nat (Z.of_nat (length l) + n)) l
  else take (Z.to_nat n) l.

Definition run_optimization (solver : solver_t) (set_order : gset Z → list Z)
    (warehouse : Warehouse) (products : list Product) (agents : list Agent)
    (orders : list Order) (zones_access : ZonesAccess)
    (num_orders max_iterations : Z) : py run_result :=
  let navigation_grid := w_navigation_grid warehouse in
  distance_data ←
    calculate_distance_matrix products (w_entry_point warehouse) navigation_grid;
  let selected_orders := py_take num_orders orders in
  solution ←
    optimize_routes solver selected_orders products agents distance_data zones_access;
  if negb (String.eqb (status solution) "success") then
    Return {| rr_status := "error";
              rr_message := Some "Échec de l'optimisation"%string;
              rr_solution := None;
              rr_collision_result := None |}
  else
    routes ← match agents_routes solution with
             | Some r => Return r
             | None => Raise KeyError
             end;
    collision_result ←
      check_and_adjust_collisions set_order routes agents
        (w_entry_point warehouse) max_iterations navigation_grid;
    Return {| rr_status := "success";
              rr_message := None;
              rr_solution := Some solution;
              rr_collision_result := Some collision_result |}.

End RunOptimization.

(** * Properties of the path-finder *)

Module AstarSpec.
Import Astar.

Definition in_bounds (grid : grid_t) (c : cell) : Prop :=
  1 ≤ c.1 ≤ width grid ∧ 1 ≤ c.2 ≤ height grid.

(** The grid entry of a cell given by its 1-based coordinates. *)
Definition cell_value (grid : grid_t) (c : cell) : py Z :=
  grid_at grid (height grid - c.2) (c.1 - 1).

Definition traversable (grid : grid_t) (c : cell) : Prop :=
  in_bounds grid c ∧ cell_value grid c = Return 1.

Definition blocked (grid : grid_t) (c : cell) : Prop :=
  in_bounds grid c ∧ cell_value grid c = Return 0.

Definition adjacent4 (c1 c2 : cell) : Prop :=
  Z.abs (c1.1 - c2.1) + Z.abs (c1.2 - c2.2) = 1.

(** Every row has the width of the first one. *)
Definition rectangular (grid : grid_t) : Prop :=
  Forall (λ row, Z.of_nat (length row) = width grid) grid.

(** Every entry is 0 (blocked) or 1 (traversable). *)
Definition binary (grid : grid_t) : Prop :=
  Forall (Forall (λ v, v = 0 ∨ v = 1)) grid.

#[global] Instance rectangular_dec grid : Decision (rectangular grid).
Proof. unfold rectangular. apply _. Defined.

#[global] Instance binary_dec grid : Decision (binary grid).
Proof. unfold binary. apply _. Defined.

Lemma rectangular_row grid row :
  rectangular grid → row ∈ grid → Z.of_nat (length row) = width grid.
Proof. intros Hrect. by apply (proj1 (Forall_forall _ _) Hrect). Qed.

Lemma binary_entry grid row v :
  binary grid → row ∈ grid → v ∈ row → v = 0 ∨ v = 1.
Proof.
  intros Hbin Hrow Hv.
  pose proof (proj1 (Forall_forall _ _) Hbin row Hrow) as Hr.
  by apply (proj1 (Forall_forall _ _) Hr).
Qed.

Lemma adjacent4_sym c1 c2 : adjacent4 c1 c2 → adjacent4 c2 c1.
Proof. unfold adjacent4. lia. Qed.

Lemma getitem_in_range {A} (l : list A) (i : Z) :
  0 ≤ i < Z.of_nat (length l) →
  ∃ a, getitem l i = Return a ∧ l !! Z.to_nat i = Some a.
Proof.
  intros Hi. unfold getitem.
  destruct (Z.ltb_spec i 0); [lia|].
  destruct (Z.leb_spec 0 i); [|lia].
  destruct (Z.ltb_spec i (Z.of_nat (length l))); [|lia]. simpl.
  destruct (lookup_lt_is_Some_2 l (Z.to_nat i)) as [a Ha]; [lia|].
  rewrite Ha. eauto.
Qed.

Lemma getitem_Return_elem {A} (l : list A) (i : Z) a :
  getitem l i = Return a → a ∈ l.
Proof.
  unfold getitem. destruct (_ && _); [|done].
  destruct (l !! _) eqn:E; [|done]. intros [= <-].
  by eapply list_elem_of_lookup_2.
Qed.

Lemma cell_value_in_bounds grid c :
  rectangular grid → in_bounds grid c → ∃ v, cell_value grid c = Return v.
Proof.
  intros Hrect [Hx Hy]. unfold cell_value, grid_at, height in *.
  destruct (getitem_in_range grid (Z.of_nat (length grid) - c.2)) as (row & Hrow & Hl);
    [lia|].
  rewrite Hrow. simpl.
  assert (row ∈ grid) as Hin by (by eapply list_elem_of_lookup_2).
  destruct (getitem_in_range row (c.1 - 1)) as (v & Hv & _).
  { rewrite (rectangular_row _ _ Hrect Hin). lia. }
  eauto.
Qed.

Lemma cell_value_binary grid c v :
  binary grid → cell_value grid c = Return v → v = 0 ∨ v = 1.
Proof.
  intros Hbin. unfold cell_value, grid_at.
  destruct (getitem grid _) as [row|] eqn:Hrow; [|done]. simpl.
  intros Hv. eapply binary_entry; eauto using getitem_Return_elem.
Qed.

Lemma in_bounds_dec_true grid x y :
  (1 <=? x) && (x <=? width grid) && (1 <=? y) && (y <=? height grid) = true
  ↔ in_bounds grid (x, y).
Proof. unfold in_bounds. simpl. rewrite !andb_true_iff, !Z.leb_le. lia. Qed.

(** The four moves are exactly the cells at Manhattan distance one. *)
Lemma directions_adjacent (pos n : cell) :
  (∃ d, d ∈ directions ∧ n = (pos.1 + d.1, pos.2 + d.2)) ↔ adjacent4 pos n.
Proof.
  unfold adjacent4, directions. destruct pos as [x y], n as [nx ny]. simpl. split.
  - intros (d & Hd & Heq). injection Heq as -> ->.
    repeat (apply elem_of_cons in Hd as [-> | Hd]; [simpl; lia|]).
    by apply elem_of_nil in Hd.
  - intros H.
    assert ((nx = x ∧ ny = y + 1) ∨ (nx = x ∧ ny = y - 1) ∨
            (nx = x - 1 ∧ ny = y) ∨ (nx = x + 1 ∧ ny = y)) as Hc by lia.
    destruct Hc as [[-> ->] | [[-> ->] | [[-> ->] | [-> ->]]]].
    + exists (0, 1). split; [set_solver|]. simpl. f_equal; lia.
    + exists (0, -1). split; [set_solver|]. simpl. f_equal; lia.
    + exists (-1, 0). split; [set_solver|]. simpl. f_equal; lia.
    + exists (1, 0). split; [set_solver|]. simpl. f_equal; lia.
Qed.

Lemma get_neighbors_loop_spec x y grid dirs acc ns :
  get_neighbors_loop x y grid dirs acc = Return ns →
  ∀ n, n ∈ ns ↔
       n ∈ acc ∨ (∃ d, d ∈ dirs ∧ n = (x + d.1, y + d.2) ∧ traversable grid n).
Proof.
  revert acc. induction dirs as [|[dx dy] dirs IH]; intros acc; simpl.
  - intros [= ->] n. split; [auto|]. intros [?|(d & Hd & _)]; [done|].
    by apply elem_of_nil in Hd.
  - destruct (_ && _) eqn:Hb.
    + apply in_bounds_dec_true in Hb.
      destruct (grid_at grid _ _) as [v|] eqn:Hv; [|done]. simpl.
      destruct (Z.eqb_spec v 1) as [->|Hne]; intros Hloop n;
        rewrite (IH _ Hloop n).
      * rewrite elem_of_app, list_elem_of_singleton. split.
        -- intros [[?| ->]|(d & Hd & ? & ?)]; [auto| |].
           ++ right. exists (dx, dy). split; [left|]. split; [done|].
              split; [done|]. exact Hv.
           ++ right. exists d. split; [by right|done].
        -- intros [?|(d & Hd & Hn & Ht)]; [auto|].
           apply elem_of_cons in Hd as [-> | Hd]; [left; right; done|].
           right. eauto.
      * split.
        -- intros [?|(d & Hd & ? & ?)]; [auto|]. right. exists d.
           split; [by right|done].
        -- intros [?|(d & Hd & Hn & Ht)]; [auto|].
           apply elem_of_cons in Hd as [-> | Hd].
           ++ simpl in Hn. subst n. destruct Ht as [_ Ht].
              unfold cell_value in Ht. simpl in Ht. congruence.
           ++ right. eauto.
    + intros Hloop n. rewrite (IH _ Hloop n). split.
      * intros [?|(d & Hd & ? & ?)]; [auto|]. right. exists d.
        split; [by right|done].
      * intros [?|(d & Hd & Hn & Ht)]; [auto|].
        apply elem_of_cons in Hd as [-> | Hd].
        -- simpl in Hn. subst n. destruct Ht as [Ht _].
           apply in_bounds_dec_true in Ht. congruence.
        -- right. eauto.
Qed.

(** [get_neighbors] lists exactly the traversable cells next to [pos]. *)
Lemma get_neighbors_spec pos grid ns :
  get_neighbors pos grid = Return ns →
  ∀ n, n ∈ ns ↔ adjacent4 pos n ∧ traversable grid n.
Proof.
  intros H n. unfold get_neighbors in H.
  rewrite (get_neighbors_loop_spec _ _ _ _ _ _ H n).
  rewrite <- directions_adjacent. split.
  - intros [Hn|(d & Hd & Hn & Ht)]; [by apply elem_of_nil in Hn|]. eauto.
  - intros [(d & Hd & Hn) Ht]. right. eauto.
Qed.

Lemma get_neighbors_loop_no_raise x y grid dirs acc :
  rectangular grid → ∃ ns, get_neighbors_loop x y grid dirs acc = Return ns.
Proof.
  intros Hrect. revert acc. induction dirs as [|[dx dy] dirs IH]; intros acc; simpl.
  - eauto.
  - destruct (_ && _) eqn:Hb; [|apply IH].
    apply in_bounds_dec_true in Hb.
    destruct (cell_value_in_bounds grid _ Hrect Hb) as [v Hv].
    unfold cell_value in Hv. simpl in Hv. rewrite Hv. simpl.
    destruct (v =? 1); apply IH.
Qed.

Lemma get_neighbors_no_raise pos grid :
  rectangular grid → ∃ ns, get_neighbors pos grid = Return ns.
Proof. intros. by apply get_neighbors_loop_no_raise. Qed.

End AstarSpec.

Module AstarHeap.
Import Astar.

Lemma heap_min_in e h : heap_min e h ∈ e :: h.
Proof.
  revert e. induction h as [|e' h IH]; intros e; simpl; [left|].
  pose proof (IH (if entry_ltb e' e then e' else e)) as Hm.
  apply elem_of_cons in Hm as [Hm | Hm]; [|by do 2 right].
  rewrite Hm. destruct (entry_ltb e' e); [right; left|left].
Qed.

Lemma entry_ltb_f e1 e2 : entry_ltb e1 e2 = true → e1.1.1 ≤ e2.1.1.
Proof.
  destruct e1 as [[f1 n1] c1], e2 as [[f2 n2] c2]. simpl.
  rewrite orb_true_iff, andb_true_iff, Z.ltb_lt, Z.eqb_eq. lia.
Qed.

Lemma entry_ltb_f_false e1 e2 : entry_ltb e1 e2 = false → e2.1.1 ≤ e1.1.1.
Proof.
  destruct e1 as [[f1 n1] c1], e2 as [[f2 n2] c2]. simpl.
  rewrite orb_false_iff, Z.ltb_ge. lia.
Qed.

Lemma heap_min_least e h x : x ∈ e :: h → (heap_min e h).1.1 ≤ x.1.1.
Proof.
  revert e x. induction h as [|e' h IH]; intros e x Hx; simpl.
  - apply list_elem_of_singleton in Hx as ->. lia.
  - destruct (entry_ltb e' e) eqn:Hlt.
    + apply entry_ltb_f in Hlt.
      apply elem_of_cons in Hx as [-> | Hx].
      * pose proof (IH e' e' (list_elem_of_here _ _)). lia.
      * by apply IH.
    + apply entry_ltb_f_false in Hlt.
      apply elem_of_cons in Hx as [-> | Hx]; [apply IH; left|].
      apply elem_of_cons in Hx as [-> | Hx].
      * pose proof (IH e e (list_elem_of_here _ _)). lia.
      * apply IH. by right.
Qed.

Lemma remove_first_length e h :
  e ∈ h → S (length (remove_first e h)) = length h.
Proof.
  induction h as [|e' h IH]; intros Hin; [by apply elem_of_nil in Hin|].
  simpl. destruct decide as [->|Hne]; [done|]. simpl. f_equal. apply IH.
  by apply elem_of_cons in Hin as [-> | Hin].
Qed.

Lemma remove_first_subset e h x : x ∈ remove_first e h → x ∈ h.
Proof.
  induction h as [|e' h IH]; simpl; [done|].
  destruct decide as [->|Hne]; [by right|].
  intros [-> | Hx]%elem_of_cons; [left|right]; auto.
Qed.

Lemma remove_first_other e h x : x ∈ h → x ≠ e → x ∈ remove_first e h.
Proof.
  induction h as [|e' h IH]; simpl; [done|].
  intros [-> | Hx]%elem_of_cons Hne.
  - destruct decide; [done|left].
  - destruct decide; [done|]. right. auto.
Qed.

(** What [heappop] returns: a least entry of the heap, and the rest. *)
Lemma heappop_spec h m h' :
  heappop h = Some (m, h') →
  m ∈ h ∧ (∀ x, x ∈ h → m.1.1 ≤ x.1.1) ∧
  S (length h') = length h ∧
  (∀ x, x ∈ h' → x ∈ h) ∧ (∀ x, x ∈ h → x ≠ m → x ∈ h').
Proof.
  destruct h as [|e h]; [done|]. intros Hpop.
  assert (m = heap_min e h ∧ h' = remove_first (heap_min e h) (e :: h))
    as [-> ->] by (by inversion Hpop).
  clear Hpop. pose proof (heap_min_in e h) as Hin. split; [done|].
  split; [intros; by apply heap_min_least|].
  split; [by apply remove_first_length|].
  split; [apply remove_first_subset|apply remove_first_other].
Qed.

Lemma heappop_None h : heappop h = None → h = [].
Proof. by destruct h. Qed.

End AstarHeap.

Module AstarInv.
Import Astar AstarSpec AstarHeap.

Section invariant.
Context (start end_ : cell) (grid : grid_t).
Hypothesis Hne : start ≠ end_.

(** The heuristic: Manhattan distance to the goal. *)
Definition h (c : cell) : Z := manhattan_distance c end_.

Lemma h_consistent c n : adjacent4 c n → h c ≤ 1 + h n.
Proof. unfold adjacent4, h, manhattan_distance. lia. Qed.

(** [walk c k]: [c] is reached from [start] in [k] moves between
    neighbouring cells, each onto a traversable cell. *)
Inductive walk : cell → nat → Prop :=
| walk_here : walk start 0
| walk_step c n k :
    walk c k → adjacent4 c n → traversable grid n → walk n (S k).

(** While the neighbours of [cur] are being relaxed, those not yet in
    [done] are exempt from the neighbour bound. *)
Definition pending (cur : cell) (done : list cell) (c n : cell) : Prop :=
  c = cur ∧ n ∉ done.
Definition nothing (c n : cell) : Prop := False.

Record inv (exc : cell → cell → Prop) (st : astar_state) : Prop := mk_inv {
  inv_start_g : g_score st !! start = Some 0;
  inv_start_cf : came_from st !! start = None;
  inv_start_closed : start ∈ closed_set st;
  inv_end_open : end_ ∉ closed_set st;
  inv_cf : ∀ n p, came_from st !! n = Some p →
    adjacent4 p n ∧ traversable grid n ∧ p ∈ closed_set st ∧
    ∃ gp, g_score st !! p = Some gp ∧ g_score st !! n = Some (gp + 1);
  inv_g : ∀ c v, g_score st !! c = Some v →
    0 ≤ v ∧ (c = start ∨ is_Some (came_from st !! c));
  inv_closed_g : ∀ c, c ∈ closed_set st → is_Some (g_score st !! c);
  inv_closed_opt : ∀ c v k,
    c ∈ closed_set st → g_score st !! c = Some v → walk c k → v ≤ Z.of_nat k;
  inv_closed_nb : ∀ c n vc,
    c ∈ closed_set st → g_score st !! c = Some vc →
    adjacent4 c n → traversable grid n → ¬ exc c n →
    ∃ vn, g_score st !! n = Some vn ∧ vn ≤ vc + 1;
  inv_open_g : ∀ f k c, (f, k, c) ∈ open_set st →
    ∃ v, g_score st !! c = Some v ∧ v + h c ≤ f;
  inv_frontier : ∀ c v, g_score st !! c = Some v → c ∉ closed_set st →
    ∃ f k, (f, k, c) ∈ open_set st ∧ f ≤ v + h c
}.

Lemma inv_weaken (exc exc' : cell → cell → Prop) st :
  inv exc st →
  (∀ c n, adjacent4 c n → traversable grid n → exc c n → exc' c n) →
  inv exc' st.
Proof.
  intros [] Hexc. split; eauto.
Qed.

(** Following [came_from] from a scored cell gives a walk of [g] moves. *)
Lemma inv_walk exc st c v :
  inv exc st → g_score st !! c = Some v → walk c (Z.to_nat v).
Proof.
  intros Hinv. remember (Z.to_nat v) as k eqn:Hk. revert c v Hk.
  induction k as [|k IH]; intros c v Hk Hg.
  - destruct (inv_g _ _ Hinv c v Hg) as [Hv [-> | [p Hp]]]; [constructor|].
    destruct (inv_cf _ _ Hinv c p Hp) as (_ & _ & _ & gp & Hgp & Hgc).
    destruct (inv_g _ _ Hinv p gp Hgp) as [? _].
    rewrite Hg in Hgc. injection Hgc as ->. lia.
  - destruct (inv_g _ _ Hinv c v Hg) as [Hv [-> | [p Hp]]].
    { rewrite (inv_start_g _ _ Hinv) in Hg. injection Hg as <-. done. }
    destruct (inv_cf _ _ Hinv c p Hp) as (Hadj & Htr & _ & gp & Hgp & Hgc).
    rewrite Hg in Hgc. injection Hgc as ->.
    destruct (inv_g _ _ Hinv p gp Hgp) as [? _].
    eapply walk_step; [|done..]. apply (IH p gp); [lia|done].
Qed.

(** One relaxation keeps the invariant and settles the neighbour. *)
Lemma relax_inv cur done st n st' :
  inv (pending cur done) st → cur ∈ closed_set st →
  adjacent4 cur n → traversable grid n →
  relax cur end_ st n = Return st' →
  inv (pending cur (n :: done)) st' ∧ closed_set st' = closed_set st.
Proof.
  intros Hinv Hcur Hadj Htr. unfold relax.
  destruct (inv_closed_g _ _ Hinv cur Hcur) as [gc Hgc].
  assert (Hpend : ∀ c n', ¬ pending cur (n :: done) c n' →
                          n' = n ∧ c = cur ∨ ¬ pending cur done c n').
  { unfold pending. intros c n' Hn.
    destruct (decide (n' = n)) as [->|]; destruct (decide (c = cur)) as [->|];
      [by left|right; tauto|right|right; tauto].
    intros [_ Hd]. apply Hn. split; [done|]. by apply not_elem_of_cons. }
  destruct (decide (n ∈ closed_set st)) as [Hcl|Hncl].
  { (* already closed: its score is optimal *)
    intros [= <-]. split; [|done].
    destruct Hinv. split; eauto.
    intros c n' vc Hc Hgc' Hadj' Htr' Hexc.
    destruct (Hpend _ _ Hexc) as [[-> ->]|Hexc']; [|by eauto].
    destruct (inv_closed_g0 n Hcl) as [vn Hvn]. exists vn. split; [done|].
    rewrite Hgc in Hgc'. injection Hgc' as <-.
    assert (walk n (S (Z.to_nat gc))) as Hw.
    { eapply walk_step; [|done..].
      eapply (inv_walk (pending cur done)); [by split|done]. }
    pose proof (inv_closed_opt0 n vn _ Hcl Hvn Hw).
    destruct (inv_g0 cur gc Hgc). lia. }
  unfold dict_getitem. rewrite Hgc. simpl.
  assert (n ≠ cur) as Hncur by (intros ->; done).
  assert (n ≠ start) as Hnstart.
  { intros ->. by apply Hncl, (inv_start_closed _ _ Hinv). }
  destruct (inv_g _ _ Hinv cur gc Hgc) as [Hgc0 _].
  destruct (match g_score st !! n with None => true | Some g => gc + 1 <? g end)
    eqn:Hbetter.
  - (* strictly better: record it and push *)
    intros [= <-]. split; [|done].
    assert (Hold : ∀ v, g_score st !! n = Some v → gc + 1 < v).
    { intros v Hv. rewrite Hv in Hbetter. by apply Z.ltb_lt. }
    destruct Hinv. split; simpl.
    + by rewrite lookup_insert_ne.
    + by rewrite lookup_insert_ne.
    + done.
    + done.
    + intros n' p. rewrite lookup_insert. case_decide as Hd.
      * subst n'. intros [= <-]. split; [done|]. split; [done|]. split; [done|].
        exists gc. rewrite lookup_insert_ne by done.
        by rewrite lookup_insert_eq.
      * intros Hp. destruct (inv_cf0 n' p Hp) as (? & ? & Hpc & gp & Hgp & Hgn).
        split; [done|]. split; [done|]. split; [done|].
        exists gp. rewrite !lookup_insert_ne; [done|congruence|].
        intros ->. done.
    + intros c v. rewrite lookup_insert. case_decide as Hd.
      * subst c. intros [= <-]. split; [lia|]. right.
        rewrite lookup_insert_eq. eauto.
      * intros Hv. destruct (inv_g0 c v Hv) as [? [?|Hs]]; [auto|].
        split; [done|]. right. by rewrite lookup_insert_ne.
    + intros c Hc. rewrite lookup_insert_ne; [eauto|]. intros ->. done.
    + intros c v k Hc. rewrite lookup_insert_ne; [eauto|]. intros ->. done.
    + intros c n' vc Hc. rewrite lookup_insert_ne by (intros ->; done).
      intros Hvc Hadj' Htr' Hexc.
      rewrite lookup_insert. case_decide as Hd.
      * subst n'. exists (gc + 1). split; [done|].
        destruct (decide (c = cur)) as [->|Hcc].
        { rewrite Hgc in Hvc. injection Hvc as <-. lia. }
        destruct (inv_closed_nb0 c n vc Hc Hvc Hadj' Htr') as (vn & Hvn & Hle).
        { unfold pending. tauto. }
        specialize (Hold _ Hvn). lia.
      * destruct (Hpend _ _ Hexc) as [[-> ->]|Hexc']; [done|]. eauto.
    + intros f k c. unfold heappush. rewrite elem_of_cons.
      intros [[= -> -> ->] | Hin].
      * exists (gc + 1). rewrite lookup_insert_eq. split; [done|]. unfold h. lia.
      * destruct (inv_open_g0 f k c Hin) as (v & Hv & Hle).
        rewrite lookup_insert. case_decide as Hd.
        -- subst c. exists (gc + 1). split; [done|]. specialize (Hold _ Hv). lia.
        -- eauto.
    + intros c v. rewrite lookup_insert. case_decide as Hd.
      * subst c. intros [= <-] _. exists (gc + 1 + manhattan_distance n end_), (counter st + 1).
        split; [left|]. unfold h. lia.
      * intros Hv Hc. destruct (inv_frontier0 c v Hv Hc) as (f & k & Hin & Hle).
        exists f, k. split; [by right|done].
  - (* not better: nothing changes *)
    intros [= <-]. split; [|done].
    destruct (g_score st !! n) as [vn|] eqn:Hvn; [|done].
    apply Z.ltb_ge in Hbetter.
    destruct Hinv. split; eauto.
    intros c n' vc Hc Hgc' Hadj' Htr' Hexc.
    destruct (Hpend _ _ Hexc) as [[-> ->]|Hexc']; [|by eauto].
    rewrite Hgc in Hgc'. injection Hgc' as <-. exists vn. split; [done|lia].
Qed.

Lemma relax_no_raise exc cur st n :
  inv exc st → cur ∈ closed_set st → ∃ st', relax cur end_ st n = Return st'.
Proof.
  intros Hinv Hcur. unfold relax.
  destruct (inv_closed_g _ _ Hinv cur Hcur) as [gc Hgc].
  destruct decide; [eauto|]. unfold dict_getitem. rewrite Hgc. simpl.
  destruct (match _ with None => true | Some g => _ end); eauto.
Qed.

(** A list of cells in which each move goes to a traversable neighbour. *)
Fixpoint steps_ok (P : list cell) : Prop :=
  match P with
  | c1 :: ((c2 :: _) as P') =>
      adjacent4 c1 c2 ∧ traversable grid c2 ∧ steps_ok P'
  | _ => True
  end.

(** Along any walk, either the end point is closed with a score within the
    walk's length, or some open cell has an estimate within the walk's. *)
Lemma walk_frontier st x k :
  inv nothing st → walk x k →
  (x ∈ closed_set st ∧ (∃ v, g_score st !! x = Some v ∧ v ≤ Z.of_nat k)) ∨
  (∃ m vm, (m ∉ closed_set st) ∧ g_score st !! m = Some vm ∧
           vm + h m ≤ Z.of_nat k + h x).
Proof.
  intros Hinv Hw. induction Hw as [|c n k Hw IH Hadj Htr].
  - left. split; [apply Hinv|]. exists 0. split; [apply Hinv|lia].
  - pose proof (h_consistent c n Hadj) as Hh.
    destruct IH as [(Hc & v & Hv & Hle) | (m & vm & Hm & Hvm & Hle)].
    + destruct (inv_closed_nb _ _ Hinv c n v Hc Hv Hadj Htr) as (vn & Hvn & Hle');
        [by intros []|].
      destruct (decide (n ∈ closed_set st)).
      * left. split; [done|]. exists vn. split; [done|lia].
      * right. exists n, vn. split; [done|]. split; [done|lia].
    + right. exists m, vm. split; [done|]. split; [done|lia].
Qed.

(** The cell that is popped has an optimal score. *)
Lemma pop_optimal st f k cur open' :
  inv nothing st → heappop (open_set st) = Some ((f, k, cur), open') →
  ∃ v, g_score st !! cur = Some v ∧ ∀ j, walk cur j → v ≤ Z.of_nat j.
Proof.
  intros Hinv Hpop. apply heappop_spec in Hpop as (Hin & Hmin & _).
  destruct (inv_open_g _ _ Hinv f k cur Hin) as (v & Hv & Hf).
  exists v. split; [done|]. intros j Hw.
  destruct (walk_frontier st cur j Hinv Hw)
    as [(Hc & v' & Hv' & Hle) | (m & vm & Hm & Hvm & Hle)].
  - congruence.
  - destruct (inv_frontier _ _ Hinv m vm Hvm Hm) as (fm & km & Hinm & Hfm).
    specialize (Hmin _ Hinm). simpl in Hmin. lia.
Qed.

Definition close (cur : cell) (open' : list entry) (st : astar_state) : astar_state :=
  {| open_set := open';
     came_from := came_from st;
     g_score := g_score st;
     f_score := f_score st;
     closed_set := {[cur]} ∪ closed_set st;
     counter := counter st |}.

Lemma pop_inv st f k cur open' :
  inv nothing st → heappop (open_set st) = Some ((f, k, cur), open') →
  cur ≠ end_ → inv (pending cur []) (close cur open' st).
Proof.
  intros Hinv Hpop Hcur.
  destruct (pop_optimal _ _ _ _ _ Hinv Hpop) as (v & Hv & Hopt).
  apply heappop_spec in Hpop as (Hin & Hmin & _ & Hsub & Hother).
  destruct Hinv. split; simpl; try done.
  - apply elem_of_union. by right.
  - intros Hc. apply elem_of_union in Hc as [Hc|Hc]; [|done].
    by apply elem_of_singleton in Hc.
  - intros n p Hp. destruct (inv_cf0 n p Hp) as (? & ? & ? & ?).
    split; [done|]. split; [done|]. split; [|done].
    apply elem_of_union. by right.
  - intros c Hc. apply elem_of_union in Hc as [Hc|Hc]; [|by eauto].
    apply elem_of_singleton in Hc as ->. eauto.
  - intros c v' j Hc Hv' Hw. apply elem_of_union in Hc as [Hc|Hc]; [|by eauto].
    apply elem_of_singleton in Hc as ->.
    rewrite Hv in Hv'. injection Hv' as <-. by apply Hopt.
  - intros c n vc Hc Hvc Hadj Htr Hexc.
    apply elem_of_union in Hc as [Hc|Hc]; [apply elem_of_singleton in Hc as ->|].
    + exfalso. apply Hexc. split; [done|]. apply not_elem_of_nil.
    + eapply inv_closed_nb0; eauto.
  - intros f' k' c Hc. eauto.
  - intros c v' Hv' Hc.
    destruct (inv_frontier0 c v' Hv') as (f' & k' & Hin' & Hle).
    { intros Hc'. apply Hc, elem_of_union. by right. }
    exists f', k'. split; [|done]. apply Hother; [done|].
    intros [= -> -> ->]. apply Hc, elem_of_union. left. by apply elem_of_singleton.
Qed.

(** Every scored cell's chain through [came_from] has as many links as
    its score; this bounds the score by the size of [came_from]. *)
Lemma chain_levels exc st c v :
  inv exc st → g_score st !! c = Some v →
  ∀ j, 1 ≤ j ≤ v → ∃ p, is_Some (came_from st !! p) ∧ g_score st !! p = Some j.
Proof.
  intros Hinv. remember (Z.to_nat v) as k eqn:Hk. revert c v Hk.
  induction k as [|k IH]; intros c v Hk Hg j Hj.
  - destruct (inv_g _ _ Hinv c v Hg). lia.
  - destruct (inv_g _ _ Hinv c v Hg) as [Hv [-> | [p Hp]]].
    { rewrite (inv_start_g _ _ Hinv) in Hg. injection Hg as <-. lia. }
    destruct (decide (j = v)) as [->|]; [exists c; eauto|].
    destruct (inv_cf _ _ Hinv c p Hp) as (_ & _ & _ & gp & Hgp & Hgc).
    rewrite Hg in Hgc. injection Hgc as ->.
    apply (IH p gp); [lia|done|lia].
Qed.

Lemma omap_length_le {A B} (f : A → option B) (l : list A) :
  (length (omap f l) ≤ length l)%nat.
Proof.
  induction l as [|x l IH]; [done|].
  change (omap f (x :: l)) with
    (match f x with Some y => y :: omap f l | None => omap f l end).
  destruct (f x); simpl; lia.
Qed.

Lemma pigeonhole (K : list cell) (g : gmap cell Z) (v : Z) :
  (∀ j, 1 ≤ j ≤ v → ∃ p, p ∈ K ∧ g !! p = Some j) → v ≤ Z.of_nat (length K).
Proof.
  intros Hcover.
  assert (seqZ 1 v ⊆+ omap (λ p, g !! p) K) as Hsub.
  { apply NoDup_submseteq; [apply NoDup_seqZ|].
    intros j Hj%elem_of_seqZ. apply list_elem_of_omap.
    destruct (Hcover j) as (p & ? & ?); [lia|]. eauto. }
  apply submseteq_length in Hsub. rewrite length_seqZ in Hsub.
  pose proof (omap_length_le (λ p, g !! p) K) as Hle. lia.
Qed.

Lemma score_le_size exc st c v :
  inv exc st → g_score st !! c = Some v → v ≤ Z.of_nat (size (came_from st)).
Proof.
  intros Hinv Hg.
  rewrite <- length_map_to_list, <- (length_fmap fst).
  apply (pigeonhole _ (g_score st)). intros j Hj.
  destruct (chain_levels _ _ _ _ Hinv Hg j Hj) as (p & [q Hq] & Hp).
  exists p. split; [|done]. apply list_elem_of_fmap. exists (p, q).
  split; [done|]. by apply elem_of_map_to_list.
Qed.

Lemma reconstruct_spec exc st fuel : ∀ c v rest,
  inv exc st → g_score st !! c = Some v → (Z.to_nat v ≤ fuel)%nat →
  steps_ok (c :: rest) →
  ∃ P, reconstruct fuel (came_from st) c rest = Some P ∧
       head P = Some start ∧ last P = last (c :: rest) ∧ steps_ok P ∧
       length P = (Z.to_nat v + 1 + length rest)%nat.
Proof.
  induction fuel as [|fuel IH]; intros c v rest Hinv Hg Hfuel Hok.
  - destruct (inv_g _ _ Hinv c v Hg) as [Hv [-> | [p Hp]]].
    + simpl. rewrite (inv_start_cf _ _ Hinv).
      rewrite (inv_start_g _ _ Hinv) in Hg. injection Hg as <-.
      eexists. split; [done|]. simpl. repeat split; done.
    + destruct (inv_cf _ _ Hinv c p Hp) as (_ & _ & _ & gp & Hgp & Hgc).
      destruct (inv_g _ _ Hinv p gp Hgp) as [? _].
      rewrite Hg in Hgc. injection Hgc as ->. lia.
  - destruct (inv_g _ _ Hinv c v Hg) as [Hv [-> | [p Hp]]].
    + simpl. rewrite (inv_start_cf _ _ Hinv).
      rewrite (inv_start_g _ _ Hinv) in Hg. injection Hg as <-.
      eexists. split; [done|]. simpl. repeat split; done.
    + destruct (inv_cf _ _ Hinv c p Hp) as (Hadj & Htr & _ & gp & Hgp & Hgc).
      destruct (inv_g _ _ Hinv p gp Hgp) as [? _].
      rewrite Hg in Hgc. injection Hgc as ->.
      simpl. rewrite Hp.
      destruct (IH p gp (c :: rest) Hinv Hgp) as (P & HP & Hhd & Hlast & Hsteps & Hlen);
        [lia|done|].
      exists P. split; [done|]. split; [done|]. split; [done|]. split; [done|].
      rewrite Hlen. simpl. lia.
Qed.



(** *** Termination

    The measure: the scores of the cells of the grid, with a score that
    is still unset counted as [bound + 1], plus the size of the heap.
    Popping takes one off the heap; a push comes with a strictly smaller
    score. *)

Definition all_cells : list cell :=
  x ← seqZ 1 (width grid); y ← seqZ 1 (height grid); [(x, y)].

Definition bound : Z := width grid * height grid.

Lemma width_nonneg : 0 ≤ width grid.
Proof. unfold width. destruct grid; lia. Qed.

Lemma height_nonneg : 0 ≤ height grid.
Proof. unfold height. lia. Qed.

Lemma bound_nonneg : 0 ≤ bound.
Proof. pose proof width_nonneg. pose proof height_nonneg. unfold bound. nia. Qed.

Lemma elem_of_all_cells c : c ∈ all_cells ↔ in_bounds grid c.
Proof.
  unfold all_cells, in_bounds. rewrite list_elem_of_bind. split.
  - intros (x & Hc & Hx). apply list_elem_of_bind in Hc as (y & Hc & Hy).
    apply list_elem_of_singleton in Hc as ->. simpl.
    apply elem_of_seqZ in Hx, Hy. lia.
  - intros [Hx Hy]. exists c.1. split; [|apply elem_of_seqZ; lia].
    apply list_elem_of_bind. exists c.2. split; [|apply elem_of_seqZ; lia].
    destruct c. by apply list_elem_of_singleton.
Qed.

Lemma length_all_cells : Z.of_nat (length all_cells) = bound.
Proof.
  unfold all_cells, bound. pose proof height_nonneg as Hh.
  pose proof width_nonneg as Hw.
  assert (∀ xs : list Z,
    Z.of_nat (length (x ← xs; y ← seqZ 1 (height grid); [(x, y)]))
    = Z.of_nat (length xs) * height grid) as Hlen.
  { induction xs as [|x xs IH]; [done|].
    rewrite bind_cons, length_app, Nat2Z.inj_add, IH.
    assert (length (y ← seqZ 1 (height grid); [(x, y)]) = Z.to_nat (height grid)) as ->.
    { rewrite <- (length_seqZ 1 (height grid)).
      generalize (seqZ 1 (height grid)). intros ys.
      induction ys as [|y ys IHy]; [done|].
      rewrite bind_cons. simpl. by rewrite IHy. }
    simpl length. lia. }
  rewrite Hlen, length_seqZ. lia.
Qed.

Lemma score_bound exc st c v :
  inv exc st → g_score st !! c = Some v → 0 ≤ v ≤ bound.
Proof.
  intros Hinv Hg. split; [by apply (inv_g _ _ Hinv c v)|].
  pose proof (score_le_size _ _ _ _ Hinv Hg) as Hle.
  rewrite <- length_all_cells.
  assert ((map_to_list (came_from st)).*1 ⊆+ all_cells) as Hsub.
  { apply NoDup_submseteq; [apply NoDup_fst_map_to_list|].
    intros p Hp. apply list_elem_of_fmap in Hp as ([p' q] & -> & Hp).
    apply elem_of_map_to_list in Hp. simpl.
    apply elem_of_all_cells.
    by destruct (inv_cf _ _ Hinv p' q Hp) as (_ & [? _] & _). }
  apply submseteq_length in Hsub.
  rewrite length_fmap, length_map_to_list in Hsub. lia.
Qed.

Definition phi (o : option Z) : Z := default (bound + 1) o.

Definition sum_scores (g : gmap cell Z) (L : list cell) : Z :=
  foldr (λ c acc, phi (g !! c) + acc) 0 L.

Definition mu (st : astar_state) : Z :=
  sum_scores (g_score st) all_cells + Z.of_nat (length (open_set st)).

Lemma sum_scores_insert g n v L :
  v + 1 ≤ phi (g !! n) →
  sum_scores (<[n := v]> g) L ≤ sum_scores g L ∧
  (n ∈ L → sum_scores (<[n := v]> g) L + 1 ≤ sum_scores g L).
Proof.
  intros Hv. induction L as [|c L [IH1 IH2]]; simpl.
  - split; [done|]. intros H. by apply elem_of_nil in H.
  - rewrite lookup_insert. case_decide as Hd.
    + subst c. simpl. split; [lia|]. intros _. lia.
    + split; [lia|]. intros [->|Hin]%elem_of_cons; [done|].
      specialize (IH2 Hin). lia.
Qed.

Lemma sum_scores_nonneg exc st L :
  inv exc st → 0 ≤ sum_scores (g_score st) L.
Proof.
  intros Hinv. induction L as [|c L IH]; simpl; [done|].
  assert (0 ≤ phi (g_score st !! c)); [|lia].
  destruct (g_score st !! c) as [v|] eqn:Hg; simpl.
  - by apply (inv_g _ _ Hinv c v).
  - pose proof bound_nonneg. lia.
Qed.

Lemma relax_mu cur done st n st' :
  inv (pending cur done) st → cur ∈ closed_set st →
  adjacent4 cur n → traversable grid n →
  relax cur end_ st n = Return st' → mu st' ≤ mu st.
Proof.
  intros Hinv Hcur Hadj Htr Hrelax.
  destruct (relax_inv _ _ _ _ _ Hinv Hcur Hadj Htr Hrelax) as [Hinv' _].
  revert Hrelax Hinv'. unfold relax.
  destruct (inv_closed_g _ _ Hinv cur Hcur) as [gc Hgc].
  destruct decide; [by intros [= <-]|].
  unfold dict_getitem. rewrite Hgc. simpl.
  destruct (match g_score st !! n with None => true | Some g => gc + 1 <? g end)
    eqn:Hbetter; [|by intros [= <-]].
  intros [= <-] Hinv'. unfold mu. simpl.
  assert (gc + 1 + 1 ≤ phi (g_score st !! n)) as Hphi.
  { destruct (g_score st !! n) as [v|] eqn:Hv; simpl.
    - apply Z.ltb_lt in Hbetter. lia.
    - pose proof (score_bound _ _ n (gc + 1) Hinv') as Hb. simpl in Hb.
      rewrite lookup_insert_eq in Hb. specialize (Hb eq_refl). lia. }
  destruct (sum_scores_insert (g_score st) n (gc + 1) all_cells Hphi) as [_ Hlt].
  specialize (Hlt (proj2 (elem_of_all_cells n) (proj1 Htr))). lia.
Qed.

Lemma relax_all_inv cur ns : ∀ done st,
  inv (pending cur done) st → cur ∈ closed_set st →
  (∀ n, n ∈ ns → adjacent4 cur n ∧ traversable grid n) →
  ∃ st', relax_all cur end_ st ns = Return st' ∧
         inv (pending cur (reverse ns ++ done)) st' ∧
         closed_set st' = closed_set st ∧ mu st' ≤ mu st.
Proof.
  induction ns as [|n ns IH]; intros done st Hinv Hcur Hns; simpl.
  - exists st. split; [done|]. split; [done|]. split; [done|lia].
  - destruct (relax_no_raise _ cur st n Hinv Hcur) as [st1 Hst1].
    rewrite Hst1. simpl.
    destruct (Hns n) as [Hadj Htr]; [left|].
    destruct (relax_inv _ _ _ _ _ Hinv Hcur Hadj Htr Hst1) as [Hinv1 Hcl1].
    pose proof (relax_mu _ _ _ _ _ Hinv Hcur Hadj Htr Hst1) as Hmu1.
    destruct (IH (n :: done) st1 Hinv1) as (st' & Hst' & Hinv' & Hcl' & Hmu');
      [congruence|intros n' Hn'; apply Hns; by right|].
    exists st'. split; [done|].
    assert (reverse (n :: ns) ++ done = reverse ns ++ n :: done) as ->
      by (by rewrite reverse_cons, <- app_assoc).
    split; [done|]. split; [congruence|lia].
Qed.

Lemma relax_all_step cur ns st :
  inv (pending cur []) st → cur ∈ closed_set st →
  (∀ n, n ∈ ns ↔ adjacent4 cur n ∧ traversable grid n) →
  ∃ st', relax_all cur end_ st ns = Return st' ∧ inv nothing st' ∧
         mu st' ≤ mu st.
Proof.
  intros Hinv Hcur Hns.
  destruct (relax_all_inv cur ns [] st Hinv Hcur) as (st' & Hst' & Hinv' & _ & Hmu);
    [intros; by apply Hns|].
  exists st'. split; [done|]. split; [|done].
  eapply inv_weaken; [exact Hinv'|].
  intros c n Hadj Htr [-> Hn]. apply Hn.
  rewrite app_nil_r, elem_of_reverse. by apply Hns.
Qed.

(** What the search returns, once its first node has been expanded. *)
Definition outcome_ok (r : py (option (list cell))) : Prop :=
  match r with
  | Return (Some P) =>
      head P = Some start ∧ last P = Some end_ ∧ steps_ok P ∧
      ∀ k, walk end_ k → (length P ≤ S k)%nat
  | Return None => ∀ k, ¬ walk end_ k
  | Raise _ => ¬ rectangular grid
  end.

Lemma astar_loop_spec fuel : ∀ st,
  inv nothing st → mu st < Z.of_nat fuel →
  ∃ r, astar_loop fuel end_ grid st = Some r ∧ outcome_ok r.
Proof.
  induction fuel as [|fuel IH]; intros st Hinv Hmu.
  { pose proof (sum_scores_nonneg _ _ all_cells Hinv). unfold mu in Hmu. lia. }
  simpl. destruct (heappop (open_set st)) as [[[[f k] cur] open']|] eqn:Hpop.
  - destruct (decide (cur = end_)) as [->|Hcur].
    + (* the goal is popped *)
      destruct (pop_optimal _ _ _ _ _ Hinv Hpop) as (v & Hv & Hopt).
      pose proof (score_le_size _ _ _ _ Hinv Hv) as Hsize.
      destruct (inv_g _ _ Hinv _ _ Hv) as [Hv0 _].
      destruct (reconstruct_spec _ st (size (came_from st)) end_ v [] Hinv Hv)
        as (P & -> & Hhd & Hlast & Hsteps & Hlen); [lia|done|].
      eexists. split; [done|]. simpl. repeat split; [done..|].
      intros j Hw. specialize (Hopt j Hw). simpl in Hlen. lia.
    + (* any other cell is closed and expanded *)
      pose proof (pop_inv _ _ _ _ _ Hinv Hpop Hcur) as Hinv1.
      fold (close cur open' st).
      assert (mu (close cur open' st) + 1 = mu st) as Hmu1.
      { apply heappop_spec in Hpop as (_ & _ & Hlen & _). unfold mu. simpl. lia. }
      destruct (get_neighbors cur grid) as [ns|e] eqn:Hns.
      * destruct (relax_all_step cur ns _ Hinv1) as (st2 & -> & Hinv2 & Hmu2).
        { simpl. apply elem_of_union. left. by apply elem_of_singleton. }
        { by apply get_neighbors_spec. }
        apply IH; [done|lia].
      * eexists. split; [done|]. simpl. intros Hrect.
        destruct (get_neighbors_no_raise cur grid Hrect). congruence.
  - (* the heap is empty: every reachable cell is closed *)
    apply heappop_None in Hpop.
    eexists. split; [done|]. simpl. intros j Hw.
    destruct (walk_frontier st end_ j Hinv Hw)
      as [(Hc & _) | (m & vm & Hm & Hvm & _)].
    + by apply (inv_end_open _ _ Hinv).
    + destruct (inv_frontier _ _ Hinv m vm Hvm Hm) as (f & k & Hin & _).
      rewrite Hpop in Hin. by apply elem_of_nil in Hin.
Qed.

Lemma init_inv :
  inv (pending start []) (close start [] (init_state start end_)).
Proof.
  split; simpl.
  - apply lookup_singleton_eq.
  - apply lookup_empty.
  - apply elem_of_union. left. by apply elem_of_singleton.
  - intros [Hc|Hc]%elem_of_union; [|by apply not_elem_of_empty in Hc].
    apply elem_of_singleton in Hc. congruence.
  - intros n p Hp. by rewrite lookup_empty in Hp.
  - intros c v Hc. apply lookup_singleton_Some in Hc as [<- <-].
    split; [lia|by left].
  - intros c [Hc|Hc]%elem_of_union; [|by apply not_elem_of_empty in Hc].
    apply elem_of_singleton in Hc as ->. rewrite lookup_singleton_eq. eauto.
  - intros c v k _ Hc _. apply lookup_singleton_Some in Hc as [<- <-]. lia.
  - intros c n vc [Hc|Hc]%elem_of_union; [|by apply not_elem_of_empty in Hc].
    apply elem_of_singleton in Hc as ->. intros _ _ _ Hexc.
    exfalso. apply Hexc. split; [done|apply not_elem_of_nil].
  - intros f k c Hc. by apply elem_of_nil in Hc.
  - intros c v Hc Hncl. apply lookup_singleton_Some in Hc as [<- <-].
    exfalso. apply Hncl, elem_of_union. left. by apply elem_of_singleton.
Qed.

Lemma sum_scores_le g L :
  (∀ c v, g !! c = Some v → v ≤ bound + 1) →
  sum_scores g L ≤ Z.of_nat (length L) * (bound + 1).
Proof.
  intros Hg. induction L as [|c L IH]; simpl; [done|].
  assert (phi (g !! c) ≤ bound + 1); [|lia].
  destruct (g !! c) as [v|] eqn:Hv; simpl; [eauto|lia].
Qed.

(** The whole search, from the initial state. *)
Lemma astar_search_spec :
  ∃ r, astar_loop (astar_fuel grid) end_ grid (init_state start end_) = Some r ∧
       outcome_ok r.
Proof.
  pose proof bound_nonneg as Hb. fold bound in Hb.
  assert (astar_fuel grid = S (Z.to_nat (bound * (bound + 1) + 1))) as ->.
  { unfold astar_fuel. fold bound. rewrite <- Z2Nat.inj_succ by nia. f_equal. lia. }
  assert (∀ fuel,
    astar_loop (S fuel) end_ grid (init_state start end_) =
    match get_neighbors start grid with
    | Raise e => Some (Raise e)
    | Return ns =>
        match relax_all start end_ (close start [] (init_state start end_)) ns with
        | Raise e => Some (Raise e)
        | Return st2 => astar_loop fuel end_ grid st2
        end
    end) as ->.
  { intros fuel. simpl. destruct (decide (start = end_)); [done|].
    by rewrite decide_True. }
  pose proof init_inv as Hinv1.
  destruct (get_neighbors start grid) as [ns|e] eqn:Hns.
  - destruct (relax_all_step start ns _ Hinv1) as (st2 & -> & Hinv2 & Hmu2).
    { simpl. apply elem_of_union. left. by apply elem_of_singleton. }
    { by apply get_neighbors_spec. }
    apply astar_loop_spec; [done|].
    assert (mu (close start [] (init_state start end_)) ≤ bound * (bound + 1)).
    { unfold mu. simpl. rewrite <- length_all_cells at 1.
      pose proof (sum_scores_le {[start := 0]} all_cells) as Hle.
      rewrite Z.add_0_r. apply Hle.
      intros c v Hc. apply lookup_singleton_Some in Hc as [<- <-]. lia. }
    lia.
  - eexists. split; [done|]. simpl. intros Hrect.
    destruct (get_neighbors_no_raise start grid Hrect). congruence.
Qed.

End invariant.
End AstarInv.

Module AstarTop.
Import Astar AstarSpec AstarHeap AstarInv.

(** ** Walks *)

Lemma walk_cons grid s c x k :
  adjacent4 s c → traversable grid c → walk c grid x k → walk s grid x (S k).
Proof.
  intros Hadj Htr Hw. induction Hw as [|c' n k Hw IH Hadj' Htr'].
  - eapply walk_step; [constructor|done..].
  - eapply walk_step; [exact IH|done..].
Qed.

Lemma walk_traversable grid s c k :
  walk s grid c k → traversable grid s → traversable grid c.
Proof. by destruct 1. Qed.

Lemma walk_reverse grid s x k :
  walk s grid x k → traversable grid s → walk x grid s k.
Proof.
  intros Hw Hs. induction Hw as [|c n k Hw IH Hadj Htr]; [constructor|].
  eapply walk_cons; [by apply adjacent4_sym| |exact IH].
  by eapply walk_traversable.
Qed.

Lemma steps_ok_walk grid P : ∀ s e,
  head P = Some s → last P = Some e → steps_ok grid P →
  walk s grid e (length P - 1)%nat.
Proof.
  induction P as [|c P IH]; intros s e Hhd Hlast Hok; [done|].
  injection Hhd as ->. destruct P as [|c' P].
  - injection Hlast as ->. constructor.
  - destruct Hok as (Hadj & Htr & Hok).
    change (last (s :: c' :: P)) with (last (c' :: P)) in Hlast.
    specialize (IH c' e eq_refl Hlast Hok).
    replace (length (s :: c' :: P) - 1)%nat with (S (length (c' :: P) - 1))
      by (simpl; lia).
    by eapply walk_cons.
Qed.

Lemma steps_ok_pairs grid P :
  steps_ok grid P → (∀ s, head P = Some s → traversable grid s) →
  ∀ i a b, P !! i = Some a → P !! S i = Some b →
           adjacent4 a b ∧ traversable grid a ∧ traversable grid b.
Proof.
  induction P as [|c P IH]; intros Hok Hhd i a b Ha Hb; [done|].
  destruct P as [|c' P]; [done|]. destruct Hok as (Hadj & Htr & Hok).
  destruct i as [|i].
  - injection Ha as <-. injection Hb as <-. split; [done|]. split; [|done].
    by apply Hhd.
  - apply (IH Hok) with (i := i); [|done..]. by intros s [= <-].
Qed.

(** ** The cases of [astar_path] *)

Inductive astar_case (s e : cell) (grid : grid_t)
    : py (option (list cell)) → Prop :=
| case_same : s = e → astar_case s e grid (Return (Some [s]))
| case_start_out :
    s ≠ e → ¬ in_bounds grid s → astar_case s e grid (Return None)
| case_end_out :
    s ≠ e → in_bounds grid s → ¬ in_bounds grid e →
    astar_case s e grid (Return None)
| case_start_raise err :
    s ≠ e → in_bounds grid s → in_bounds grid e →
    cell_value grid s = Raise err → astar_case s e grid (Raise err)
| case_start_blocked :
    s ≠ e → in_bounds grid s → in_bounds grid e →
    cell_value grid s = Return 0 → astar_case s e grid (Return None)
| case_end_raise vs err :
    s ≠ e → in_bounds grid s → in_bounds grid e →
    cell_value grid s = Return vs → vs ≠ 0 →
    cell_value grid e = Raise err → astar_case s e grid (Raise err)
| case_end_blocked vs :
    s ≠ e → in_bounds grid s → in_bounds grid e →
    cell_value grid s = Return vs → vs ≠ 0 →
    cell_value grid e = Return 0 → astar_case s e grid (Return None)
| case_search vs ve r :
    s ≠ e → in_bounds grid s → in_bounds grid e →
    cell_value grid s = Return vs → vs ≠ 0 →
    cell_value grid e = Return ve → ve ≠ 0 →
    outcome_ok s e grid r → astar_case s e grid r.

Lemma grid_bounds_test grid (c : cell) :
  (0 <=? c.1 - 1) && (c.1 - 1 <? width grid) &&
  (0 <=? height grid - c.2) && (height grid - c.2 <? height grid) = true
  ↔ in_bounds grid c.
Proof.
  unfold in_bounds. rewrite !andb_true_iff, !Z.leb_le, !Z.ltb_lt. lia.
Qed.

Lemma astar_path_case s e grid : astar_case s e grid (astar_path s e grid).
Proof.
  unfold astar_path. destruct (decide (s = e)) as [Heq|Hne]; [by constructor|].
  destruct (_ && _) eqn:Hs; simpl.
  2:{ apply case_start_out; [done|]. rewrite <- grid_bounds_test. congruence. }
  apply grid_bounds_test in Hs.
  destruct (_ && _) eqn:He; simpl.
  2:{ apply case_end_out; [done..|]. rewrite <- grid_bounds_test. congruence. }
  apply grid_bounds_test in He.
  fold (cell_value grid s). fold (cell_value grid e).
  destruct (cell_value grid s) as [vs|err] eqn:Hvs; simpl;
    [|by apply case_start_raise].
  destruct (Z.eqb_spec vs 0) as [->|Hvs0]; [by apply case_start_blocked|].
  destruct (cell_value grid e) as [ve|err] eqn:Hve; simpl;
    [|by eapply case_end_raise].
  destruct (Z.eqb_spec ve 0) as [->|Hve0]; [by eapply case_end_blocked|].
  destruct (astar_search_spec s e grid Hne) as (r & -> & Hr).
  by eapply case_search.
Qed.

(** ** Consequences *)

(** On a rectangular grid the search never raises. *)
Lemma astar_path_no_raise s e grid :
  rectangular grid → ∃ r, astar_path s e grid = Return r.
Proof.
  intros Hrect. destruct (astar_path_case s e grid) as
    [ | | |err ? Hs ? Hv| |vs err ? ? He ? ? Hv| |vs ve r ? ? ? ? ? ? ? Hr]; eauto.
  - destruct (cell_value_in_bounds grid s Hrect Hs). congruence.
  - destruct (cell_value_in_bounds grid e Hrect He). congruence.
  - destruct r as [r|err]; [eauto|]. by destruct Hr.
Qed.

(** A bad endpoint makes the search fail, unless both are the same cell. *)
Lemma astar_path_bad_endpoint s e grid :
  rectangular grid → s ≠ e →
  ¬ in_bounds grid s ∨ ¬ in_bounds grid e ∨ blocked grid s ∨ blocked grid e →
  astar_path s e grid = Return None.
Proof.
  intros Hrect Hne Hbad. destruct (astar_path_case s e grid) as
    [ | | |err ? Hs ? Hv| |vs err ? ? He ? ? Hv| |vs ve r ? Hs He Hvs ? Hve ? Hr];
    try done.
  - destruct (cell_value_in_bounds grid s Hrect Hs). congruence.
  - destruct (cell_value_in_bounds grid e Hrect He). congruence.
  - exfalso. destruct Hbad as [?|[?|[[_ Hb]|[_ Hb]]]]; [done..| |]; congruence.
Qed.

Lemma manhattan_distance_sym c1 c2 :
  manhattan_distance c1 c2 = manhattan_distance c2 c1.
Proof. unfold manhattan_distance. lia. Qed.

Lemma manhattan_distance_self c : manhattan_distance c c = 0.
Proof. unfold manhattan_distance. lia. Qed.

Lemma calculate_distance_self c grid : calculate_distance c c grid = Return 0.
Proof. unfold calculate_distance, astar_path. by rewrite decide_True. Qed.

Lemma binary_traversable grid c v :
  binary grid → in_bounds grid c → cell_value grid c = Return v → v ≠ 0 →
  traversable grid c.
Proof.
  intros Hbin Hc Hv Hv0. split; [done|].
  destruct (cell_value_binary grid c v Hbin Hv) as [->| ->]; done.
Qed.

(** On a well-formed grid the distance does not depend on the direction. *)
Lemma calculate_distance_sym s e grid :
  rectangular grid → binary grid →
  ∃ d, calculate_distance s e grid = Return d ∧
       calculate_distance e s grid = Return d.
Proof.
  intros Hrect Hbin. destruct (decide (s = e)) as [->|Hne].
  { exists 0. by rewrite calculate_distance_self. }
  assert (e ≠ s) as Hne' by congruence.
  unfold calculate_distance.
  destruct (astar_path_case s e grid) as
    [ |? Hs|? ? He|err ? Hs ? Hv|? Hs He Hv|vs err ? ? He ? ? Hv|vs ? Hs He ? ? Hv
     |vs ve r ? Hs He Hvs Hvs0 Hve Hve0 Hr]; try done.
  1-2, 4, 6:
    rewrite (astar_path_bad_endpoint e s grid Hrect Hne');
    [simpl; rewrite manhattan_distance_sym; eauto|unfold blocked; tauto].
  - destruct (cell_value_in_bounds grid s Hrect Hs). congruence.
  - destruct (cell_value_in_bounds grid e Hrect He). congruence.
  - pose proof (binary_traversable _ _ _ Hbin Hs Hvs Hvs0) as Hts.
    pose proof (binary_traversable _ _ _ Hbin He Hve Hve0) as Hte.
    destruct (astar_path_case e s grid) as
      [ |? He'|? ? Hs'|err ? ? ? Hv'|? ? ? Hv'|ve' err ? ? ? ? ? Hv'|ve' ? ? ? ? ? Hv'
       |ve' vs' r' ? _ _ _ _ _ _ Hr']; try done; try congruence.
    destruct r as [[P|]|err]; [| |by destruct Hr];
      (destruct r' as [[P'|]|err']; [| |by destruct Hr']); simpl in *.
    + destruct Hr as (Hhd & Hlast & Hok & Hopt).
      destruct Hr' as (Hhd' & Hlast' & Hok' & Hopt').
      pose proof (steps_ok_walk _ _ _ _ Hhd Hlast Hok) as Hw.
      pose proof (steps_ok_walk _ _ _ _ Hhd' Hlast' Hok') as Hw'.
      apply walk_reverse in Hw, Hw'; [|done..].
      specialize (Hopt _ Hw'). specialize (Hopt' _ Hw).
      destruct P; [done|]. destruct P'; [done|]. simpl in *.
      eexists. split; [done|]. do 2 f_equal. lia.
    + destruct Hr as (Hhd & Hlast & Hok & _).
      pose proof (steps_ok_walk _ _ _ _ Hhd Hlast Hok) as Hw.
      apply walk_reverse in Hw; [|done]. by apply Hr' in Hw.
    + destruct Hr' as (Hhd & Hlast & Hok & _).
      pose proof (steps_ok_walk _ _ _ _ Hhd Hlast Hok) as Hw.
      apply walk_reverse in Hw; [|done]. by apply Hr in Hw.
    + rewrite manhattan_distance_sym. eauto.
Qed.

End AstarTop.

(** * Insertion-ordered dictionaries *)

Section dict_facts.
Context {K V : Type} `{EqDecision K}.
Implicit Types d : list (K * V).

Lemma dict_keys_set d k v k' :
  k' ∈ dict_keys (dict_set d k v) ↔ k' ∈ dict_keys d ∨ k' = k.
Proof.
  unfold dict_keys. induction d as [|[k0 v0] d IH]; simpl.
  - rewrite list_elem_of_singleton. split; [auto|]. intros [H|H]; [|done].
    by apply elem_of_nil in H.
  - destruct (decide (k0 = k)) as [->|Hne]; simpl; rewrite !elem_of_cons.
    + tauto.
    + rewrite IH. tauto.
Qed.

Lemma dict_keys_set_same d k v :
  k ∈ dict_keys d → dict_keys (dict_set d k v) = dict_keys d.
Proof.
  unfold dict_keys. induction d as [|[k0 v0] d IH]; simpl; intros Hin.
  - by apply elem_of_nil in Hin.
  - destruct (decide (k0 = k)) as [->|Hne]; simpl; [done|]. f_equal. apply IH.
    by apply elem_of_cons in Hin as [->|Hin].
Qed.

Lemma dict_keys_set_new d k v :
  k ∉ dict_keys d → dict_keys (dict_set d k v) = dict_keys d ++ [k].
Proof.
  unfold dict_keys. induction d as [|[k0 v0] d IH]; simpl; intros Hin; [done|].
  apply not_elem_of_cons in Hin as [Hne Hin].
  destruct (decide (k0 = k)) as [->|_]; [done|]. simpl. f_equal. by apply IH.
Qed.

Lemma dict_get_set d k v k' :
  dict_get (dict_set d k v) k' = if decide (k = k') then Some v else dict_get d k'.
Proof.
  induction d as [|[k0 v0] d IH]; simpl.
  - by destruct (decide (k = k')).
  - destruct (decide (k0 = k)) as [->|Hne]; simpl.
    + by destruct (decide (k = k')).
    + destruct (decide (k0 = k')) as [->|Hne'].
      * by rewrite decide_False by congruence.
      * apply IH.
Qed.

Lemma dict_get_is_Some d k : k ∈ dict_keys d ↔ is_Some (dict_get d k).
Proof.
  unfold dict_keys. induction d as [|[k0 v0] d IH]; simpl.
  - split; [intros H; by apply elem_of_nil in H|by intros [? ?]].
  - rewrite elem_of_cons. destruct (decide (k0 = k)) as [->|Hne].
    + split; eauto.
    + rewrite <- IH. split; [intros [?|?]; [congruence|done]|auto].
Qed.

Lemma dict_get_elem d k v : dict_get d k = Some v → (k, v) ∈ d.
Proof.
  induction d as [|[k0 v0] d IH]; simpl; [done|].
  destruct (decide (k0 = k)) as [->|Hne].
  - intros [= ->]. left.
  - intros H. right. auto.
Qed.

Lemma dict_set_elem d k v x : x ∈ dict_set d k v → x ∈ d ∨ x = (k, v).
Proof.
  induction d as [|[k0 v0] d IH]; simpl.
  - intros H%list_elem_of_singleton. auto.
  - destruct (decide (k0 = k)) as [->|Hne]; rewrite !elem_of_cons.
    + intros [->|?]; auto.
    + intros [->|H]; [auto|]. destruct (IH H); auto.
Qed.

Lemma dict_set_NoDup d k v :
  NoDup (dict_keys d) → NoDup (dict_keys (dict_set d k v)).
Proof.
  intros Hnd. destruct (decide (k ∈ dict_keys d)) as [Hin|Hnin].
  - by rewrite dict_keys_set_same.
  - rewrite dict_keys_set_new by done. apply NoDup_app. split; [done|].
    split; [|apply NoDup_singleton].
    intros x Hx ->%list_elem_of_singleton. done.
Qed.

Lemma dict_get_NoDup d k v :
  NoDup (dict_keys d) → (k, v) ∈ d → dict_get d k = Some v.
Proof.
  unfold dict_keys. induction d as [|[k0 v0] d IH]; simpl; intros Hnd Hin.
  - by apply elem_of_nil in Hin.
  - apply NoDup_cons in Hnd as [Hk0 Hnd].
    apply elem_of_cons in Hin as [[= -> ->]|Hin].
    + by rewrite decide_True.
    + rewrite decide_False; [by apply IH|]. intros ->. apply Hk0.
      apply list_elem_of_fmap. by exists (k, v).
Qed.
End dict_facts.

(** * Properties of the distance table *)

Module DistancesSpec.
Import Astar AstarSpec AstarTop Distances.

Lemma build_locations_keys products entry_point k :
  k ∈ dict_keys (build_locations products entry_point)
  ↔ k ∈ "entry"%string :: (p_id <$> products).
Proof.
  unfold build_locations.
  assert (∀ d, k ∈ dict_keys (foldl (λ locs p,
                 dict_set locs (p_id p) (p_pickup_location p)) d products)
               ↔ k ∈ dict_keys d ∨ k ∈ p_id <$> products) as Hgen.
  { induction products as [|p ps IH]; intros d; simpl.
    - split; [auto|]. intros [?|H]; [done|]. by apply elem_of_nil in H.
    - rewrite IH, dict_keys_set, elem_of_cons. tauto. }
  rewrite Hgen. unfold dict_keys. simpl.
  rewrite !elem_of_cons, elem_of_nil. tauto.
Qed.

Section table.
Context (navigation_grid : option grid_t) (locations : list (string * cell)).

(** On a well-formed grid, or without one, the distance of a pair is
    defined and symmetric. *)
Hypothesis grid_ok :
  ∀ grid, navigation_grid = Some grid → rectangular grid ∧ binary grid.

Lemma pair_distance_sym c1 c2 :
  ∃ d, pair_distance navigation_grid c1 c2 = Return d ∧
       pair_distance navigation_grid c2 c1 = Return d.
Proof using grid_ok.
  unfold pair_distance. destruct navigation_grid as [grid|].
  - destruct (grid_ok grid eq_refl). by apply calculate_distance_sym.
  - rewrite (manhattan_distance_sym c2 c1). eauto.
Qed.

Lemma pair_distance_self c : pair_distance navigation_grid c c = Return 0.
Proof using Type.
  clear grid_ok. unfold pair_distance. destruct navigation_grid.
  - apply calculate_distance_self.
  - by rewrite manhattan_distance_self.
Qed.

(** [d] is the distance the source computes for the ids [p] and [q]. *)
Definition dist_of (p q : string) (d : Z) : Prop :=
  ∃ cp cq, dict_get locations p = Some cp ∧ dict_get locations q = Some cq ∧
           pair_distance navigation_grid cp cq = Return d.

Definition all_ok (D : gmap (string * string) Z) : Prop :=
  ∀ p q d, D !! (p, q) = Some d → dist_of p q d.

Lemma inner_loop_spec from_key from_pos : ∀ to_keys D,
  dict_get locations from_key = Some from_pos →
  (∀ q, q ∈ to_keys → q ∈ dict_keys locations) → all_ok D →
  ∃ D', inner_loop navigation_grid locations from_key from_pos to_keys D = Return D' ∧
        all_ok D' ∧ (∀ k, is_Some (D !! k) → is_Some (D' !! k)) ∧
        (∀ q, q ∈ to_keys → is_Some (D' !! (from_key, q))).
Proof using grid_ok.
  induction to_keys as [|to_key rest IH]; intros D Hfrom Hkeys Hok; simpl.
  - exists D. split; [done|]. split; [done|]. split; [done|].
    intros q Hq. by apply elem_of_nil in Hq.
  - destruct (proj1 (dict_get_is_Some locations to_key)) as [to_pos Hto];
      [apply Hkeys; left|].
    rewrite Hto. simpl.
    destruct (pair_distance_sym from_pos to_pos) as (d & Hd & _).
    rewrite Hd. simpl.
    destruct (IH (<[(from_key, to_key) := d]> D) Hfrom) as (D' & HD' & Hok' & Hmono & Hcov).
    { intros q Hq. apply Hkeys. by right. }
    { intros p q d'. rewrite lookup_insert. case_decide as Hk.
      - injection Hk as <- <-. intros [= <-]. by exists from_pos, to_pos.
      - apply Hok. }
    exists D'. split; [done|]. split; [done|]. split.
    + intros k Hk. apply Hmono. rewrite lookup_insert. case_decide; eauto.
    + intros q [->|Hq]%elem_of_cons; [|by apply Hcov].
      apply Hmono. rewrite lookup_insert_eq. eauto.
Qed.

Lemma outer_loop_spec all_points : ∀ from_keys D,
  (∀ q, q ∈ all_points → q ∈ dict_keys locations) →
  (∀ p, p ∈ from_keys → p ∈ dict_keys locations) → all_ok D →
  ∃ D', outer_loop navigation_grid locations all_points from_keys D = Return D' ∧
        all_ok D' ∧ (∀ k, is_Some (D !! k) → is_Some (D' !! k)) ∧
        (∀ p q, p ∈ from_keys → q ∈ all_points → is_Some (D' !! (p, q))).
Proof using grid_ok.
  induction from_keys as [|from_key rest IH]; intros D Hall Hkeys Hok; simpl.
  - exists D. split; [done|]. split; [done|]. split; [done|].
    intros p q Hp. by apply elem_of_nil in Hp.
  - destruct (proj1 (dict_get_is_Some locations from_key)) as [from_pos Hfrom];
      [apply Hkeys; left|].
    rewrite Hfrom. simpl.
    destruct (inner_loop_spec from_key from_pos all_points D Hfrom Hall Hok)
      as (D1 & -> & Hok1 & Hmono1 & Hcov1). simpl.
    destruct (IH D1 Hall) as (D' & HD' & Hok' & Hmono & Hcov); [|done|].
    { intros p Hp. apply Hkeys. by right. }
    exists D'. split; [done|]. split; [done|]. split; [by auto|].
    intros p q [->|Hp]%elem_of_cons Hq; [|by apply Hcov].
    by apply Hmono, Hcov1.
Qed.
End table.

End DistancesSpec.

Module AstarClaims.
Import Astar AstarSpec AstarInv AstarTop.

(** C3.  A path returned by [astar_path] starts at [start], ends at [goal],
    moves between 4-adjacent traversable cells, and [calculate_distance] on
    the same inputs is its length minus one.  The grid holds only 0 and 1. *)
Theorem astar_path_contract (start goal : cell) (grid : grid_t) (path : list cell) :
  binary grid →
  astar_path start goal grid = Return (Some path) →
  head path = Some start ∧ last path = Some goal ∧
  (∀ i a b, path !! i = Some a → path !! S i = Some b →
            adjacent4 a b ∧ traversable grid a ∧ traversable grid b) ∧
  calculate_distance start goal grid = Return (Z.of_nat (length path) - 1).
Proof.
  intros Hbin Hpath.
  assert (calculate_distance start goal grid = Return (Z.of_nat (length path) - 1))
    as Hdist by (unfold calculate_distance; by rewrite Hpath).
  pose proof (astar_path_case start goal grid) as Hcase. rewrite Hpath in Hcase.
  inversion Hcase as [Heq| | | | | | |vs ve r Hne Hs He Hvs Hvs0 Hve Hve0 Hr]; subst.
  - split; [done|]. split; [done|]. split; [|done].
    intros i a b Ha Hb. by destruct i.
  - destruct Hr as (Hhd & Hlast & Hok & _).
    split; [done|]. split; [done|]. split; [|done].
    apply (steps_ok_pairs grid path Hok).
    intros s Hs'. rewrite Hhd in Hs'. injection Hs' as <-.
    by eapply binary_traversable.
Qed.

Lemma astar_path_contract_witness :
  head [(1, 1); (2, 1); (3, 1); (4, 1); (5, 1)] = Some (1, 1) ∧
  last [(1, 1); (2, 1); (3, 1); (4, 1); (5, 1)] = Some (5, 1) ∧
  (∀ i a b, [(1, 1); (2, 1); (3, 1); (4, 1); (5, 1)] !! i = Some a →
            [(1, 1); (2, 1); (3, 1); (4, 1); (5, 1)] !! S i = Some b →
            adjacent4 a b ∧ traversable test_grid a ∧ traversable test_grid b) ∧
  calculate_distance (1, 1) (5, 1) test_grid = Return 4.
Proof.
  apply (astar_path_contract (1, 1) (5, 1) test_grid
           [(1, 1); (2, 1); (3, 1); (4, 1); (5, 1)]).
  - apply (bool_decide_unpack _). vm_compute. reflexivity.
  - vm_compute. reflexivity.
Defined.

(** C7, as stated, fails when both endpoints are the same cell: the
    single-cell path is returned before any check of the cell. *)
Lemma astar_path_same_blocked_cell :
  blocked test_grid (2, 2) ∧ ¬ in_bounds test_grid (9, 9) ∧
  astar_path (2, 2) (2, 2) test_grid = Return (Some [(2, 2)]) ∧
  astar_path (9, 9) (9, 9) test_grid = Return (Some [(9, 9)]).
Proof.
  split; [|split; [|split]].
  - split; [|by vm_compute]. unfold in_bounds, width, height. simpl. lia.
  - unfold in_bounds, width, height. simpl. lia.
  - reflexivity.
  - reflexivity.
Qed.

(** C7, amended.  On a rectangular grid, when an endpoint is out of bounds
    or blocked, [astar_path] returns [None] if the endpoints differ, and
    the single-cell path if they are the same cell. *)
Theorem astar_path_rejects (start goal : cell) (grid : grid_t) :
  rectangular grid →
  ¬ in_bounds grid start ∨ ¬ in_bounds grid goal ∨
    blocked grid start ∨ blocked grid goal →
  astar_path start goal grid =
    if decide (start = goal) then Return (Some [start]) else Return None.
Proof.
  intros Hrect Hbad. destruct (decide (start = goal)) as [->|Hne].
  - unfold astar_path. by rewrite decide_True.
  - by apply astar_path_bad_endpoint.
Qed.

Lemma astar_path_rejects_witness :
  astar_path (1, 1) (2, 2) test_grid =
    if decide ((1, 1) = (2, 2) :> cell) then Return (Some [(1, 1)]) else Return None.
Proof.
  apply (astar_path_rejects (1, 1) (2, 2) test_grid).
  - apply (bool_decide_unpack _). vm_compute. reflexivity.
  - right. right. right. split; [|by vm_compute]. unfold in_bounds, width, height. simpl. lia.
Defined.

End AstarClaims.

Module DistancesClaims.
Import Astar AstarSpec AstarTop Distances DistancesSpec.

(** C8.  The table built by [calculate_distance_matrix] is symmetric and
    zero on the diagonal, for the ids ['entry'] and the product ids, with a
    (rectangular, 0/1) navigation grid and without one. *)
Theorem distance_matrix_symmetric (products : list Product) (entry_point : cell)
    (navigation_grid : option grid_t) :
  (∀ grid, navigation_grid = Some grid → rectangular grid ∧ binary grid) →
  ∃ dd, calculate_distance_matrix products entry_point navigation_grid = Return dd ∧
    ∀ p q, p ∈ "entry"%string :: (p_id <$> products) →
           q ∈ "entry"%string :: (p_id <$> products) →
           dd_distances dd !! (p, p) = Some 0 ∧
           ∃ d, dd_distances dd !! (p, q) = Some d ∧
                dd_distances dd !! (q, p) = Some d.
Proof.
  intros Hgrid. unfold calculate_distance_matrix.
  set (locations := build_locations products entry_point).
  destruct (outer_loop_spec navigation_grid locations Hgrid
              (dict_keys locations) (dict_keys locations) ∅)
    as (D & -> & Hok & _ & Hcov); [done|done|by intros ? ? ? ?|].
  eexists. split; [done|]. simpl. intros p q Hp Hq.
  apply (build_locations_keys products entry_point) in Hp.
  apply (build_locations_keys products entry_point) in Hq.
  fold locations in Hp, Hq.
  destruct (Hcov p p Hp Hp) as [dpp Hpp].
  destruct (Hcov p q Hp Hq) as [dpq Hpq].
  destruct (Hcov q p Hq Hp) as [dqp Hqp].
  destruct (Hok _ _ _ Hpp) as (c1 & c2 & H1 & H2 & Hd). 
  rewrite H1 in H2. injection H2 as <-.
  rewrite pair_distance_self in Hd. injection Hd as <-. split; [done|].
  destruct (Hok _ _ _ Hpq) as (cp & cq & Hcp & Hcq & Hdpq).
  destruct (Hok _ _ _ Hqp) as (cq' & cp' & Hcq' & Hcp' & Hdqp).
  assert (cp' = cp) as -> by congruence. assert (cq' = cq) as -> by congruence.
  destruct (pair_distance_sym navigation_grid Hgrid cp cq) as (d & Hd1 & Hd2).
  exists d. split; congruence.
Qed.

Definition sample_products : list Product :=
  [ mk_product "Product_001" "electronics" 1%Q 2%Q false "A" (1, 5) [];
    mk_product "Product_002" "food" 1%Q 2%Q false "B" (5, 5) [] ].

Lemma distance_matrix_symmetric_witness :
  ∃ dd, calculate_distance_matrix sample_products (3, 1) (Some test_grid) = Return dd ∧
    ∀ p q, p ∈ "entry"%string :: (p_id <$> sample_products) →
           q ∈ "entry"%string :: (p_id <$> sample_products) →
           dd_distances dd !! (p, p) = Some 0 ∧
           ∃ d, dd_distances dd !! (p, q) = Some d ∧
                dd_distances dd !! (q, p) = Some d.
Proof.
  apply (distance_matrix_symmetric sample_products (3, 1) (Some test_grid)).
  intros grid [= <-]. split; apply (bool_decide_unpack _); vm_compute; reflexivity.
Defined.

End DistancesClaims.

(** * Properties of the trajectory builder *)

Module TrajectorySpec.
Import Astar AstarSpec AstarTop Collision.

(** [traj] holds exactly the cells of [cells], one per minute from [t0]. *)
Definition stamped (t0 : Z) (cells : list cell) (traj : gmap Z cell) : Prop :=
  ∀ t, traj !! t = if decide (t0 ≤ t) then cells !! Z.to_nat (t - t0) else None.

(** The state of the builder after the stamps [cells]. *)
Definition at_stamps (t0 : Z) (cells : list cell) (st : tstate) : Prop :=
  current_time st = t0 + Z.of_nat (length cells) ∧ stamped t0 cells (trajectory st).

Lemma stamped_insert t0 cells traj pos :
  stamped t0 cells traj →
  stamped t0 (cells ++ [pos]) (<[t0 + Z.of_nat (length cells) := pos]> traj).
Proof.
  intros Hst t. rewrite lookup_insert. case_decide as Ht.
  - subst t. rewrite decide_True by lia.
    replace (Z.to_nat (t0 + Z.of_nat (length cells) - t0)) with (length cells) by lia.
    by rewrite lookup_app_r, Nat.sub_diag.
  - rewrite Hst. destruct (decide (t0 ≤ t)); [|done].
    destruct (decide (Z.to_nat (t - t0) < length cells)%nat).
    + by rewrite lookup_app_l.
    + rewrite !lookup_ge_None_2; [done| |lia].
      rewrite length_app. simpl. lia.
Qed.

Lemma stamp_at t0 cells st pos :
  at_stamps t0 cells st → at_stamps t0 (cells ++ [pos]) (stamp pos st).
Proof.
  intros [Ht Hs]. split; simpl.
  - rewrite length_app. simpl. lia.
  - rewrite Ht. by apply stamped_insert.
Qed.

Lemma stamp_path_at path : ∀ t0 cells st,
  at_stamps t0 cells st → at_stamps t0 (cells ++ path) (stamp_path path st).
Proof.
  unfold stamp_path. induction path as [|p path IH]; intros t0 cells st Hat; simpl.
  - by rewrite app_nil_r.
  - replace (cells ++ p :: path) with ((cells ++ [p]) ++ path)
      by (by rewrite <- app_assoc).
    by apply IH, stamp_at.
Qed.

Lemma stamp_until_at target path : ∀ t0 cells st,
  at_stamps t0 cells st →
  ∃ walked, at_stamps t0 (cells ++ walked) (stamp_until target path st).
Proof.
  induction path as [|p path IH]; intros t0 cells st Hat; simpl.
  - exists []. by rewrite app_nil_r.
  - destruct (decide (p = target)).
    + exists [p]. by apply stamp_at.
    + destruct (IH t0 (cells ++ [p]) (stamp p st)) as [walked Hw];
        [by apply stamp_at|].
      exists (p :: walked). by rewrite <- app_assoc in Hw.
Qed.

Lemma dwell_loop_at visit_time target fuel : ∀ t0 cells st,
  at_stamps t0 cells st →
  ∃ n, at_stamps t0 (cells ++ replicate n target)
                 (dwell_loop fuel visit_time target st).
Proof.
  induction fuel as [|fuel IH]; intros t0 cells st Hat; simpl.
  - exists 0%nat. rewrite app_nil_r. by destruct (_ <=? _).
  - destruct (_ <=? _).
    + destruct (IH t0 (cells ++ [target]) (stamp target st)) as [n Hn];
        [by apply stamp_at|].
      exists (S n). by rewrite <- app_assoc in Hn.
    + exists 0%nat. by rewrite app_nil_r.
Qed.

(** The fuel of [dwell] is enough: afterwards the clock has passed
    [visit_time]. *)
Lemma dwell_loop_done visit_time target fuel : ∀ st,
  visit_time - current_time st + 1 ≤ Z.of_nat fuel →
  visit_time < current_time (dwell_loop fuel visit_time target st).
Proof.
  induction fuel as [|fuel IH]; intros st Hfuel; simpl.
  - destruct (Z.leb_spec (current_time st) visit_time); lia.
  - destruct (Z.leb_spec (current_time st) visit_time); [|lia].
    apply IH. simpl. lia.
Qed.

Lemma set_pos_at t0 cells st pos :
  at_stamps t0 cells st → at_stamps t0 cells (set_pos pos st).
Proof. done. Qed.

(** With a rectangular grid, or none, [calculate_path] does not raise. *)
Definition grid_ok (navigation_grid : option grid_t) : Prop :=
  ∀ grid, navigation_grid = Some grid → rectangular grid.

Lemma calculate_path_no_raise s e navigation_grid :
  grid_ok navigation_grid → ∃ p, calculate_path s e navigation_grid = Return p.
Proof.
  intros Hok. unfold calculate_path. destruct navigation_grid as [grid|]; [|eauto].
  destruct (astar_path_no_raise s e grid (Hok grid eq_refl)) as [[p|] ->]; simpl; eauto.
Qed.

Section builder.
Context (entry_point : cell) (start_delay : Z)
        (navigation_grid : option grid_t) (assigned_depot : cell).
Hypothesis Hgrid : grid_ok navigation_grid.

Lemma depot_return_at t0 cells st :
  at_stamps t0 cells st →
  ∃ depot_path st',
    calculate_path (current_pos st) assigned_depot navigation_grid = Return depot_path ∧
    depot_return assigned_depot navigation_grid st = Return st' ∧
    current_pos st' = assigned_depot ∧
    at_stamps t0 (cells ++ depot_path ++ [assigned_depot; assigned_depot]) st'.
Proof using Hgrid.
  intros Hat. unfold depot_return.
  destruct (calculate_path_no_raise (current_pos st) assigned_depot _ Hgrid)
    as [depot_path Hp].
  rewrite Hp. simpl. eexists _, _. split; [done|]. split; [done|]. split; [done|].
  pose proof (stamp_path_at depot_path _ _ _ Hat) as H1.
  apply (stamp_at _ _ _ assigned_depot) in H1.
  apply (stamp_at _ _ _ assigned_depot) in H1.
  rewrite <- !app_assoc in H1. exact H1.
Qed.

Definition pickup (item : RouteItem) : cell :=
  p_pickup_location (k_product_data (r_pick item)).

(** The last stamps of a route: to the depot, two minutes there, back to
    the entry point. *)
Definition final_leg (last_pickup : cell) (tail : list cell) : Prop :=
  ∃ depot_path entry_path,
    calculate_path last_pickup assigned_depot navigation_grid = Return depot_path ∧
    calculate_path assigned_depot entry_point navigation_grid = Return entry_path ∧
    tail = depot_path ++ [assigned_depot; assigned_depot] ++ entry_path ++ [entry_point].

Lemma visit_products_at route : ∀ t0 cells st,
  route ≠ [] → at_stamps t0 cells st →
  ∃ st' last_item cells' tail,
    visit_products entry_point start_delay navigation_grid assigned_depot route st
      = Return st' ∧
    last route = Some last_item ∧ final_leg (pickup last_item) tail ∧
    stamped t0 (cells' ++ tail) (trajectory st').
Proof using Hgrid.
  induction route as [|item rest IH]; intros t0 cells st Hne Hat; [done|].
  simpl. unfold visit_product.
  destruct (calculate_path_no_raise (current_pos st) (pickup item) _ Hgrid)
    as [path Hpath].
  fold (pickup item). rewrite Hpath. simpl.
  destruct (stamp_until_at (pickup item) path _ _ _ Hat) as [walked H1].
  destruct (dwell_loop_at (r_visit_time item + start_delay) (pickup item)
              (Z.to_nat (r_visit_time item + start_delay
                         - current_time (stamp_until (pickup item) path st) + 1))
              _ _ _ H1) as [n H2].
  fold (dwell (r_visit_time item + start_delay) (pickup item)
              (stamp_until (pickup item) path st)) in H2.
  apply (set_pos_at _ _ _ (pickup item)) in H2.
  set (st3 := set_pos (pickup item) _) in *.
  destruct rest as [|next rest].
  - (* the last product *)
    destruct (depot_return_at _ _ _ H2) as (depot_path & st4 & Hdp & -> & Hpos4 & H4).
    simpl. rewrite Hpos4.
    destruct (calculate_path_no_raise assigned_depot entry_point _ Hgrid)
      as [entry_path Hep].
    rewrite Hep. simpl.
    pose proof (stamp_path_at entry_path _ _ _ H4) as [Ht5 H5].
    eexists _, item, ((cells ++ walked) ++ replicate n (pickup item)),
      (depot_path ++ [assigned_depot; assigned_depot] ++ entry_path ++ [entry_point]).
    split; [done|]. split; [done|]. split.
    { exists depot_path, entry_path. split; [exact Hdp|]. split; [exact Hep|done]. }
    simpl. rewrite Ht5.
    apply (stamped_insert _ _ _ entry_point) in H5.
    rewrite <- !app_assoc in H5. rewrite <- !app_assoc. exact H5.
  - (* another product follows *)
    assert (∃ st4 cells4,
      (if decide (get_trip_number next ≠ get_trip_number item)
       then depot_return assigned_depot navigation_grid st3
       else Return st3) = Return st4 ∧ at_stamps t0 cells4 st4)
      as (st4 & cells4 & -> & H4).
    { destruct decide.
      - destruct (depot_return_at _ _ _ H2) as (? & st4 & _ & -> & _ & H4). eauto.
      - eauto. }
    cbn [mbind py_mbind py_bind].
    destruct (IH t0 cells4 st4) as (st' & last_item & cells' & tail & -> & Hl & Hf & Hs);
      [done|done|].
    eexists _, _, _, _. split; [done|]. split; [|split; [exact Hf|exact Hs]].
    exact Hl.
Qed.
End builder.


End TrajectorySpec.

(** * Properties of the collision resolver *)

Module CollisionSpec.
Import Astar AstarSpec AstarTop Collision TrajectorySpec.

Section resolver.
Context (set_order : gset Z → list Z).

(** ** Who takes part in a collision *)

Lemma pair_collisions_agents a1 t1 a2 t2 c :
  c ∈ pair_collisions set_order a1 t1 a2 t2 → c.1.1.1 = a1 ∧ c.1.1.2 = a2.
Proof.
  unfold pair_collisions. rewrite list_elem_of_In, in_flat_map.
  intros (t & _ & Hc). destruct (t1 !! t), (t2 !! t); try done.
  destruct decide; [|done]. by destruct Hc as [<-|[]].
Qed.

Lemma detect_collisions_agents trajs c :
  c ∈ detect_collisions set_order trajs →
  c.1.1.1 ∈ dict_keys trajs ∧ c.1.1.2 ∈ dict_keys trajs.
Proof.
  unfold dict_keys. induction trajs as [|[a1 t1] rest IH]; simpl.
  - intros H. by apply elem_of_nil in H.
  - rewrite elem_of_app, list_elem_of_In, in_flat_map.
    intros [([a2 t2] & Hin & Hc)|Hc].
    + apply list_elem_of_In in Hin, Hc.
      apply pair_collisions_agents in Hc as [-> ->]. split; [left|right].
      apply list_elem_of_fmap. by exists (a2, t2).
    + destruct (IH Hc). split; by right.
Qed.

(** ** Counting participations *)

Definition takes_part (a : string) (c : collision) : Z :=
  (if decide (c.1.1.1 = a) then 1 else 0) + (if decide (c.1.1.2 = a) then 1 else 0).

(** In how many collisions, counted once per side, agent [a] takes part. *)
Definition participations (a : string) (cs : list collision) : Z :=
  foldr (λ c n, takes_part a c + n) 0 cs.

Definition count_of (counts : list (string * Z)) (a : string) : Z :=
  default 0 (dict_get counts a).

Lemma count_up_get counts a b :
  count_of (count_up counts a) b
  = count_of counts b + (if decide (a = b) then 1 else 0).
Proof.
  unfold count_of, count_up. rewrite dict_get_set.
  destruct (decide (a = b)) as [->|]; simpl; lia.
Qed.

Lemma collision_counts_get cs a :
  count_of (collision_counts cs) a = participations a cs.
Proof.
  unfold collision_counts.
  assert (∀ acc, count_of (foldl (λ counts '(agent1, agent2, _, _),
                    count_up (count_up counts agent1) agent2) acc cs) a
                 = count_of acc a + participations a cs) as Hgen.
  { induction cs as [|[[[a1 a2] t] pos] cs IH]; intros acc; simpl; [lia|].
    rewrite IH, !count_up_get. unfold takes_part. simpl. lia. }
  by rewrite Hgen.
Qed.

Lemma count_up_NoDup counts a :
  NoDup (dict_keys counts) → NoDup (dict_keys (count_up counts a)).
Proof. apply dict_set_NoDup. Qed.

Lemma collision_counts_NoDup cs : NoDup (dict_keys (collision_counts cs)).
Proof.
  unfold collision_counts.
  assert (∀ acc, NoDup (dict_keys acc) →
            NoDup (dict_keys (foldl (λ counts '(agent1, agent2, _, _),
                    count_up (count_up counts agent1) agent2) acc cs))) as Hgen.
  { induction cs as [|[[[a1 a2] t] pos] cs IH]; intros acc Hacc; simpl; [done|].
    by apply IH, count_up_NoDup, count_up_NoDup. }
  apply Hgen. constructor.
Qed.

Lemma collision_counts_keys cs k :
  k ∈ dict_keys (collision_counts cs) →
  ∃ c, c ∈ cs ∧ (c.1.1.1 = k ∨ c.1.1.2 = k).
Proof.
  unfold collision_counts.
  assert (∀ acc, k ∈ dict_keys (foldl (λ counts '(agent1, agent2, _, _),
                    count_up (count_up counts agent1) agent2) acc cs) →
            k ∈ dict_keys acc ∨ ∃ c, c ∈ cs ∧ (c.1.1.1 = k ∨ c.1.1.2 = k)) as Hgen.
  { induction cs as [|[[[a1 a2] t] pos] cs IH]; intros acc; simpl; [auto|].
    intros [Hk|(c & Hc & Hk)]%IH.
    - unfold count_up in Hk. rewrite !dict_keys_set in Hk.
      destruct Hk as [[Hk| ->]| ->]; [by left|right..];
        exists (a1, a2, t, pos); (split; [left|simpl; auto]).
    - right. exists c. split; [by right|done]. }
  intros [Hk|Hk]%Hgen; [|done]. by apply elem_of_nil in Hk.
Qed.

(** [max_by_count] returns the first entry with the largest count. *)
Lemma max_by_count_spec items : ∀ l1 best l2,
  (∀ x, x ∈ l1 → x.2 < best.2) → (∀ x, x ∈ l2 → x.2 ≤ best.2) →
  ∃ l1' c l2',
    l1 ++ best :: l2 ++ items = l1' ++ (max_by_count best items, c) :: l2' ∧
    (∀ x, x ∈ l1' → x.2 < c) ∧ (∀ x, x ∈ l2' → x.2 ≤ c).
Proof.
  induction items as [|[k c] items IH]; intros l1 best l2 H1 H2; simpl.
  - exists l1, best.2, l2. rewrite app_nil_r, <- surjective_pairing. done.
  - destruct (Z.ltb_spec best.2 c) as [Hlt|Hge].
    + destruct (IH (l1 ++ best :: l2) (k, c) []) as (l1' & c' & l2' & Heq & H1' & H2').
      { intros x [Hx|[->|Hx]%elem_of_cons]%elem_of_app; simpl.
        - specialize (H1 x Hx). lia.
        - lia.
        - specialize (H2 x Hx). lia. }
      { intros x Hx. by apply elem_of_nil in Hx. }
      exists l1', c', l2'. split; [|done]. rewrite <- Heq. simpl.
      by rewrite <- app_assoc.
    + destruct (IH l1 best (l2 ++ [(k, c)])) as (l1' & c' & l2' & Heq & H1' & H2').
      { done. }
      { intros x [Hx| ->%list_elem_of_singleton]%elem_of_app; simpl; [auto|lia]. }
      exists l1', c', l2'. split; [|done]. rewrite <- Heq.
      by rewrite <- app_assoc.
Qed.

(** The agent picked by [max(collision_counts, key=collision_counts.get)]. *)
Definition most_colliding (collisions : list collision) : option string :=
  match collision_counts collisions with
  | [] => None
  | first :: others => Some (max_by_count first others)
  end.

Lemma in_dict_count counts k c :
  NoDup (dict_keys counts) → (k, c) ∈ counts → count_of counts k = c.
Proof. intros Hnd Hin. unfold count_of. by rewrite (dict_get_NoDup _ _ _ Hnd Hin). Qed.

Lemma participations_nonneg a cs : 0 ≤ participations a cs.
Proof.
  induction cs as [|c cs IH]; simpl; [done|]. unfold takes_part.
  repeat destruct decide; lia.
Qed.

(** The picked agent takes part in at least as many collisions as any
    other, and is the first such agent in the order of first appearance. *)
Lemma most_colliding_spec cs victim :
  most_colliding cs = Some victim →
  (∀ a, participations a cs ≤ participations victim cs) ∧
  victim ∈ dict_keys (collision_counts cs) ∧
  ∃ l1 l2, dict_keys (collision_counts cs) = l1 ++ victim :: l2 ∧
           ∀ a, a ∈ l1 → participations a cs < participations victim cs.
Proof.
  unfold most_colliding. pose proof (collision_counts_NoDup cs) as Hnd.
  pose proof (collision_counts_get cs) as Hget.
  destruct (collision_counts cs) as [|first others] eqn:Hcounts; [done|].
  intros [= <-].
  destruct (max_by_count_spec others [] first []) as (l1 & c & l2 & Heq & H1 & H2).
  { intros x Hx. by apply elem_of_nil in Hx. }
  { intros x Hx. by apply elem_of_nil in Hx. }
  simpl in Heq. set (victim := max_by_count first others) in *.
  assert ((victim, c) ∈ first :: others) as Hin.
  { rewrite Heq. apply elem_of_app. right. left. }
  pose proof (in_dict_count _ _ _ Hnd Hin) as Hc. rewrite Hget in Hc.
  assert (∀ x, x ∈ first :: others → participations x.1 cs = x.2) as Hall.
  { intros [k c'] Hx. simpl. rewrite <- Hget. by apply in_dict_count. }
  split; [|split].
  - intros a. destruct (decide (a ∈ dict_keys (first :: others))) as [Ha|Ha].
    + apply list_elem_of_fmap in Ha as ([k c'] & -> & Hx). simpl.
      pose proof (Hall _ Hx) as Hk. simpl in Hk. rewrite Hk, Hc.
      rewrite Heq in Hx. apply elem_of_app in Hx as [Hx|[Hx|Hx]%elem_of_cons].
      * specialize (H1 _ Hx). simpl in H1. lia.
      * injection Hx as _ ->. lia.
      * by specialize (H2 _ Hx).
    + rewrite <- (Hget a). unfold count_of.
      destruct (dict_get (first :: others) a) eqn:E.
      * exfalso. apply Ha, dict_get_is_Some. by rewrite E.
      * simpl. apply participations_nonneg.
  - apply list_elem_of_fmap. by exists (victim, c).
  - exists l1.*1, l2.*1. split.
    + unfold dict_keys. by rewrite Heq, fmap_app.
    + intros a Ha. apply list_elem_of_fmap in Ha as ([k c'] & -> & Hx). simpl.
      rewrite Hc. pose proof (H1 _ Hx) as Hlt. simpl in Hlt.
      assert ((k, c') ∈ first :: others) as Hx'
        by (rewrite Heq; apply elem_of_app; by left).
      pose proof (Hall _ Hx') as Hk. simpl in Hk. by rewrite Hk.
Qed.

End resolver.
End CollisionSpec.

Module CollisionLoop.
Import Astar AstarSpec AstarTop Collision TrajectorySpec CollisionSpec.

Section resolver.
Context (set_order : gset Z → list Z).
Context (agents_dict : gmap string Agent)
        (depot_assignments : list (string * cell)) (entry_point : cell)
        (navigation_grid : option grid_t).

Abbreviation compute := (compute_all_trajectories agents_dict depot_assignments
                           entry_point navigation_grid).

Lemma compute_keys rwd : ∀ accT accD trajs deps,
  compute rwd accT accD = Return (trajs, deps) →
  ∀ k, k ∈ dict_keys trajs → k ∈ dict_keys accT ∨ k ∈ dict_keys rwd.
Proof.
  induction rwd as [|[agent_id [products delay]] rwd IH];
    intros accT accD trajs deps; simpl.
  - intros [= <- <-]. auto.
  - destruct (dict_getitem agents_dict agent_id) as [agent|]; [|done]. simpl.
    destruct (calculate_agent_trajectory _ _ _ _ _ _) as [[traj dp]|]; [|done].
    simpl. intros Hc k Hk. destruct (IH _ _ _ _ Hc k Hk) as [Hk'|Hk'].
    + apply dict_keys_set in Hk' as [?| ->]; [by left|right; left].
    + right. by right.
Qed.

(** ** [add_delay] *)

Lemma add_delay_spec rwd k :
  k ∈ dict_keys rwd →
  ∃ rwd' products d,
    add_delay rwd k = Return rwd' ∧ dict_keys rwd' = dict_keys rwd ∧
    dict_get rwd k = Some (products, d) ∧
    dict_get rwd' k = Some (products, d + 2) ∧
    (∀ k', k' ≠ k → dict_get rwd' k' = dict_get rwd k') ∧
    (∀ x, x ∈ rwd' → x ∈ rwd ∨ x = (k, (products, d + 2)) ∧ (k, (products, d)) ∈ rwd).
Proof.
  unfold dict_keys. induction rwd as [|[k0 [products d]] rwd IH]; simpl; intros Hk.
  - by apply elem_of_nil in Hk.
  - destruct (decide (k0 = k)) as [->|Hne].
    + exists ((k, (products, d + 2)) :: rwd), products, d. simpl.
      split_and!; try done.
      * by destruct (decide (k = k)).
      * intros k' Hk'. by rewrite !decide_False by done.
      * intros x [->|Hx]%elem_of_cons; [right; split; [done|left]|left; by right].
    + apply elem_of_cons in Hk as [?|Hk]; [congruence|].
      destruct (IH Hk) as (rwd' & products' & d' & -> & Hkeys & Hget & Hget' & Hother & Hel).
      exists ((k0, (products, d)) :: rwd'), products', d'. simpl.
      rewrite !(decide_False (P := k0 = k)) by done. split_and!; try done.
      * simpl. f_equal. exact Hkeys.
      * intros k' Hk'. destruct (decide (k0 = k')); [done|by apply Hother].
      * intros x [->|Hx]%elem_of_cons; [left; left|].
        destruct (Hel x Hx) as [?|[-> ?]]; [left; by right|right; split; [done|by right]].
Qed.

(** Every start delay is a non-negative even number. *)
Definition delays_even (rwd : list (string * delayed_route)) : Prop :=
  ∀ k products d, (k, (products, d)) ∈ rwd → 0 ≤ d ∧ Z.even d = true.

Lemma add_delay_even rwd k rwd' :
  delays_even rwd → add_delay rwd k = Return rwd' → delays_even rwd'.
Proof.
  intros Hev Hadd. destruct (decide (k ∈ dict_keys rwd)) as [Hk|Hk].
  - destruct (add_delay_spec rwd k Hk) as (rwd'' & products & d & Hadd' & _ & _ & _ & _ & Hel).
    rewrite Hadd in Hadd'. injection Hadd' as <-.
    intros k' products' d' Hx. destruct (Hel _ Hx) as [Hx'|[[= -> -> ->] Hx']].
    + by eapply Hev.
    + destruct (Hev _ _ _ Hx') as [? Heven]. split; [lia|].
      by rewrite Z.even_add, Heven.
  - exfalso. clear Hev. revert rwd' Hadd.
    unfold dict_keys in Hk. induction rwd as [|[k0 [products d]] rwd IH];
      intros rwd'; simpl; [done|].
    apply not_elem_of_cons in Hk as [Hne Hk]. simpl in Hne.
    rewrite decide_False by done.
    destruct (add_delay rwd k); [|done]. intros _. by eapply IH.
Qed.

(** ** One pass of the loop *)

Lemma collisions_counted cs :
  cs ≠ [] → ∃ victim, most_colliding cs = Some victim.
Proof.
  intros Hne. unfold most_colliding.
  destruct cs as [|[[[a1 a2] t] pos] cs]; [done|].
  pose proof (collision_counts_get ((a1, a2, t, pos) :: cs) a1) as Hget.
  destruct (collision_counts _) as [|first others]; [|eauto].
  exfalso. unfold count_of in Hget. simpl in Hget.
  pose proof (participations_nonneg a1 cs). unfold takes_part in Hget. simpl in Hget.
  rewrite decide_True in Hget by done. destruct decide; lia.
Qed.

Lemma resolution_step_bump rwd trajs deps :
  compute rwd [] [] = Return (trajs, deps) →
  detect_collisions set_order trajs ≠ [] →
  ∃ victim rwd' products d,
    most_colliding (detect_collisions set_order trajs) = Some victim ∧
    resolution_step set_order agents_dict depot_assignments entry_point
      navigation_grid rwd = Return (inr rwd') ∧
    add_delay rwd victim = Return rwd' ∧
    dict_keys rwd' = dict_keys rwd ∧
    dict_get rwd victim = Some (products, d) ∧
    dict_get rwd' victim = Some (products, d + 2) ∧
    (∀ k, k ≠ victim → dict_get rwd' k = dict_get rwd k).
Proof.
  intros Hc Hne. unfold resolution_step. rewrite Hc. simpl.
  destruct (collisions_counted _ Hne) as [victim Hv].
  assert (victim ∈ dict_keys rwd) as Hin.
  { destruct (most_colliding_spec _ _ Hv) as (_ & Hk & _).
    apply collision_counts_keys in Hk as (c & Hc' & Hk).
    apply detect_collisions_agents in Hc' as [H1 H2].
    destruct (compute_keys _ _ _ _ _ Hc victim) as [H|H]; [|by apply elem_of_nil in H|done].
    by destruct Hk as [<-|<-]. }
  destruct (add_delay_spec rwd victim Hin)
    as (rwd' & products & d & Hadd & Hkeys & Hget & Hget' & Hother & _).
  exists victim, rwd', products, d. split; [done|].
  rewrite decide_False by (by destruct (detect_collisions set_order trajs)).
  unfold most_colliding in Hv.
  destruct (collision_counts _) as [|first others]; [done|].
  injection Hv as ->. rewrite Hadd. done.
Qed.

Lemma resolution_step_even rwd rwd' :
  delays_even rwd →
  resolution_step set_order agents_dict depot_assignments entry_point
    navigation_grid rwd = Return (inr rwd') →
  delays_even rwd'.
Proof.
  intros Hev. unfold resolution_step.
  destruct (compute rwd [] []) as [[trajs deps]|]; [|done]. simpl.
  destruct decide; [done|].
  destruct (collision_counts _) as [|first others]; [done|].
  destruct (add_delay rwd _) as [rwd''|] eqn:Hadd; [|done]. simpl.
  intros [= <-]. by eapply add_delay_even.
Qed.

Lemma resolution_loop_even n : ∀ rwd final k,
  delays_even rwd →
  resolution_loop set_order n agents_dict depot_assignments entry_point
    navigation_grid rwd = Return (final, k) →
  delays_even final.
Proof.
  induction n as [|n IH]; intros rwd final k Hev; simpl.
  - by intros [= <- <-].
  - destruct (resolution_step _ _ _ _ _ _) as [[[]|rwd']|] eqn:Hstep; [| |done]; simpl.
    + by intros [= <- <-].
    + destruct (resolution_loop _ _ _ _ _ _ _) as [[final' k']|] eqn:Hloop; [|done].
      simpl. intros [= <- <-].
      eapply IH; [|exact Hloop]. by eapply resolution_step_even.
Qed.

(** Without a collision the loop stops in its first pass. *)
Lemma resolution_loop_clean n rwd trajs deps :
  compute rwd [] [] = Return (trajs, deps) →
  detect_collisions set_order trajs = [] →
  resolution_loop set_order n agents_dict depot_assignments entry_point
    navigation_grid rwd = Return (rwd, Nat.min 1 n).
Proof.
  intros Hc Hd. destruct n as [|n]; simpl; [done|].
  unfold resolution_step. rewrite Hc. simpl. rewrite Hd. simpl. done.
Qed.
End resolver.

(** ** The delays that are returned *)

Lemma initial_routes_elem agents_routes x :
  x ∈ initial_routes agents_routes → ∃ k products, x = (k, (products, 0)).
Proof.
  unfold initial_routes.
  assert (∀ acc, x ∈ foldl (λ rwd '(agent_id, route_data),
                   dict_set rwd agent_id (ar_products route_data, 0)) acc agents_routes →
                 x ∈ acc ∨ ∃ k products, x = (k, (products, 0))) as Hgen.
  { induction agents_routes as [|[k r] rs IH]; intros acc; simpl; [auto|].
    intros [Hx|Hx]%IH; [|by right].
    apply dict_set_elem in Hx as [?| ->]; eauto. }
  intros [Hx|Hx]%Hgen; [by apply elem_of_nil in Hx|done].
Qed.

Lemma initial_routes_keys agents_routes k :
  k ∈ dict_keys (initial_routes agents_routes) ↔ k ∈ dict_keys agents_routes.
Proof.
  unfold initial_routes.
  assert (∀ acc, k ∈ dict_keys (foldl (λ rwd '(agent_id, route_data),
                   dict_set rwd agent_id (ar_products route_data, 0)) acc agents_routes)
                 ↔ k ∈ dict_keys acc ∨ k ∈ dict_keys agents_routes) as Hgen.
  { induction agents_routes as [|[k' r] rs IH]; intros acc; simpl.
    - change (dict_keys (@nil (string * AgentRoute))) with (@nil string).
      rewrite elem_of_nil. tauto.
    - rewrite IH, dict_keys_set.
      change (dict_keys ((k', r) :: rs)) with (k' :: dict_keys rs).
      rewrite elem_of_cons. tauto. }
  rewrite Hgen. change (dict_keys (@nil (string * Collision.delayed_route)))
    with (@nil string). rewrite elem_of_nil. tauto.
Qed.

Definition delays_of (rwd : list (string * Collision.delayed_route)) : list (string * Z) :=
  foldl (λ d '(aid, rd), dict_set d aid rd.2) [] rwd.

Lemma delays_of_elem rwd aid d :
  (aid, d) ∈ delays_of rwd → ∃ products, (aid, (products, d)) ∈ rwd.
Proof.
  unfold delays_of.
  assert (∀ acc, (aid, d) ∈ foldl (λ d '(aid, rd), dict_set d aid rd.2) acc rwd →
                 (aid, d) ∈ acc ∨ ∃ products, (aid, (products, d)) ∈ rwd) as Hgen.
  { induction rwd as [|[k [products d']] rwd IH]; intros acc; simpl; [auto|].
    intros [Hx|[products' Hx]]%IH.
    - apply dict_set_elem in Hx as [?|[= -> ->]]; [by left|right].
      exists products. left.
    - right. exists products'. by right. }
  intros [Hx|Hx]%Hgen; [by apply elem_of_nil in Hx|done].
Qed.

Lemma delays_of_keys rwd k :
  k ∈ dict_keys (delays_of rwd) ↔ k ∈ dict_keys rwd.
Proof.
  unfold delays_of.
  assert (∀ acc, k ∈ dict_keys (foldl (λ d '(aid, rd), dict_set d aid rd.2) acc rwd)
                 ↔ k ∈ dict_keys acc ∨ k ∈ dict_keys rwd) as Hgen.
  { induction rwd as [|[k' rd] rwd IH]; intros acc; simpl.
    - change (dict_keys (@nil (string * Collision.delayed_route))) with (@nil string).
      rewrite elem_of_nil. tauto.
    - rewrite IH, dict_keys_set.
      change (dict_keys ((k', rd) :: rwd)) with (k' :: dict_keys rwd).
      rewrite elem_of_cons. tauto. }
  rewrite Hgen. change (dict_keys (@nil (string * Z))) with (@nil string).
  rewrite elem_of_nil. tauto.
Qed.

End CollisionLoop.

Module CollisionClaims.
Import Astar AstarSpec AstarTop Collision TrajectorySpec CollisionSpec CollisionLoop.


Definition sample_agent : Agent :=
  {| a_id := "H1"; a_type := "human"; a_capacity_weight := 35%Q;
     a_capacity_volume := 50; a_speed := 1.5%Q; a_no_fragile := false;
     a_max_item_weight := None |}.

Definition sample_product : Product :=
  mk_product "Product_001" "electronics" 1%Q 2%Q false "A" (3, 3) [].

Definition sample_item (visit : Z) : RouteItem :=
  {| r_pick := mk_pick "Product_001" "Order_001" sample_product (12, 0) "standard";
     r_visit_time := visit; r_trip_number := Some 1 |}.


Section fixed_point.
Context (set_order : gset Z → list Z)
        (agents_routes : list (string * AgentRoute)) (agents : list Agent)
        (entry_point : cell) (navigation_grid : option grid_t).

(** The trajectories built with every start delay equal to zero. *)
Definition trajectories_at_zero
    : py (list (string * gmap Z cell) * list (string * list cell)) :=
  compute_all_trajectories (make_agents_dict agents)
    (assign_depots (dict_keys agents_routes) [] []) entry_point navigation_grid
    (initial_routes agents_routes) [] [].

Definition clean_at_zero : Prop :=
  match trajectories_at_zero with
  | Return (trajs, _) => detect_collisions set_order trajs = []
  | Raise _ => False
  end.
End fixed_point.

(** C5.  When the trajectories built with all start delays zero do not
    collide, the resolver returns those trajectories, no residual collision
    and a zero delay for every agent, and its loop makes a single pass. *)
Theorem collision_fixed_point (set_order : gset Z → list Z)
    (agents_routes : list (string * AgentRoute)) (agents : list Agent)
    (entry_point : cell) (max_iterations : Z) (navigation_grid : option grid_t) :
  clean_at_zero set_order agents_routes agents entry_point navigation_grid →
  ∃ res,
    check_and_adjust_collisions set_order agents_routes agents entry_point
      max_iterations navigation_grid = Return res ∧
    trajectories_at_zero agents_routes agents entry_point navigation_grid
      = Return (cr_trajectories res, cr_depot_positions res) ∧
    cr_collisions res = [] ∧
    (∀ aid, aid ∈ dict_keys agents_routes → dict_get (cr_delays res) aid = Some 0) ∧
    (∀ aid d, (aid, d) ∈ cr_delays res → d = 0) ∧
    (cr_iterations res ≤ 1)%nat ∧
    (0 < max_iterations → cr_iterations res = 1%nat).
Proof.
  unfold clean_at_zero, trajectories_at_zero, check_and_adjust_collisions.
  destruct (compute_all_trajectories _ _ _ _ _ _ _) as [[trajs deps]|] eqn:Hc; [|done].
  intros Hclean.
  rewrite (resolution_loop_clean set_order _ _ _ _ _ _ trajs deps Hc Hclean).
  simpl. rewrite Hc. simpl. eexists. split; [done|]. simpl.
  assert (∀ aid d, (aid, d) ∈ delays_of (initial_routes agents_routes) → d = 0) as Hzero.
  { intros aid d [products Hin]%delays_of_elem.
    apply initial_routes_elem in Hin as (k & products' & Heq). congruence. }
  split; [done|]. split; [done|]. split; [|split; [exact Hzero|]].
  2:{ destruct (Z.to_nat max_iterations) as [|n] eqn:Hn; simpl; split; lia. }
  intros aid Haid. apply initial_routes_keys, delays_of_keys in Haid.
  apply dict_get_is_Some in Haid as [d Hd].
  fold (delays_of (initial_routes agents_routes)).
  rewrite Hd. f_equal. apply (Hzero aid). by apply dict_get_elem.
Qed.

Definition sample_route : list (string * AgentRoute) :=
  [ ("H1"%string,
     {| ar_agent := sample_agent; ar_products := [sample_item 12] |}) ].

Lemma collision_fixed_point_witness :
  ∃ res,
    check_and_adjust_collisions elements sample_route [sample_agent] (6, 10)
      250 None = Return res ∧
    trajectories_at_zero sample_route [sample_agent] (6, 10) None
      = Return (cr_trajectories res, cr_depot_positions res) ∧
    cr_collisions res = [] ∧
    (∀ aid, aid ∈ dict_keys sample_route → dict_get (cr_delays res) aid = Some 0) ∧
    (∀ aid d, (aid, d) ∈ cr_delays res → d = 0) ∧
    (cr_iterations res ≤ 1)%nat ∧
    (0 < 250 → cr_iterations res = 1%nat).
Proof.
  apply (collision_fixed_point elements sample_route [sample_agent] (6, 10) 250 None).
  vm_compute. reflexivity.
Defined.

(** C6.  In a pass of the loop that finds a collision, the agent that takes
    part in the most collisions (the first such agent in order of first
    appearance) gets 2 more minutes of start delay and no other delay
    changes; every delay that is returned is a non-negative even number. *)
Theorem collision_delays (set_order : gset Z → list Z) :
  (∀ agents_dict depot_assignments entry_point navigation_grid rwd trajs deps,
     compute_all_trajectories agents_dict depot_assignments entry_point
       navigation_grid rwd [] [] = Return (trajs, deps) →
     detect_collisions set_order trajs ≠ [] →
     ∃ victim rwd' products d,
       most_colliding (detect_collisions set_order trajs) = Some victim ∧
       (∀ a, participations a (detect_collisions set_order trajs)
             ≤ participations victim (detect_collisions set_order trajs)) ∧
       resolution_step set_order agents_dict depot_assignments entry_point
         navigation_grid rwd = Return (inr rwd') ∧
       dict_keys rwd' = dict_keys rwd ∧
       dict_get rwd victim = Some (products, d) ∧
       dict_get rwd' victim = Some (products, d + 2) ∧
       (∀ k, k ≠ victim → dict_get rwd' k = dict_get rwd k)) ∧
  (∀ agents_routes agents entry_point max_iterations navigation_grid res,
     check_and_adjust_collisions set_order agents_routes agents entry_point
       max_iterations navigation_grid = Return res →
     ∀ aid d, (aid, d) ∈ cr_delays res → 0 ≤ d ∧ Z.even d = true).
Proof.
  split.
  - intros agents_dict depot_assignments entry_point navigation_grid rwd trajs deps Hc Hne.
    destruct (resolution_step_bump set_order _ _ _ _ _ _ _ Hc Hne)
      as (victim & rwd' & products & d & Hv & Hstep & _ & Hkeys & Hget & Hget' & Hother).
    exists victim, rwd', products, d. split; [done|]. split; [|done].
    by destruct (most_colliding_spec _ _ Hv).
  - intros agents_routes agents entry_point max_iterations navigation_grid res.
    unfold check_and_adjust_collisions.
    destruct (resolution_loop _ _ _ _ _ _ _) as [[final k]|] eqn:Hloop; [|done].
    simpl. destruct (compute_all_trajectories _ _ _ _ _ _ _) as [[trajs deps]|]; [|done].
    simpl. intros [= <-] aid d Hin. simpl in Hin.
    apply delays_of_elem in Hin as [products Hin].
    eapply (resolution_loop_even set_order); [|exact Hloop|exact Hin].
    intros k' products' d' Hx.
    apply initial_routes_elem in Hx as (? & ? & [= _ _ ->]). done.
Qed.

End CollisionClaims.

(** * Properties of the optimizer's model *)

Module OptimizerSpec.
Import Astar Distances Optimizer.

Lemma elem_of_enumerate {A} (l : list A) i x :
  (i, x) ∈ enumerate l ↔ l !! i = Some x.
Proof.
  unfold enumerate. rewrite elem_of_lookup_imap. split.
  - by intros (i' & y & [= -> ->] & Hl).
  - intros Hl. by exists i, x.
Qed.

Lemma satisfies_elem val model c :
  satisfies val model = true → c ∈ model → holds val c = true.
Proof.
  unfold satisfies. rewrite forallb_forall. intros Hall Hc.
  by apply Hall, list_elem_of_In.
Qed.

Lemma py_flat_map_elem {A B} (f : A → py (list B)) l r x :
  py_flat_map f l = Return r → x ∈ l →
  ∃ ys, f x = Return ys ∧ ∀ y, y ∈ ys → y ∈ r.
Proof.
  revert r. induction l as [|x' l IH]; intros r; simpl.
  - intros _ Hx. by apply elem_of_nil in Hx.
  - destruct (f x') as [ys|] eqn:Hf; [|done]. simpl.
    destruct (py_flat_map f l) as [zs|]; [|done]. simpl.
    intros [= <-] [->|Hx]%elem_of_cons.
    + exists ys. split; [done|]. intros y Hy. apply elem_of_app. by left.
    + destruct (IH zs eq_refl Hx) as (ys' & Hf' & Hsub).
      exists ys'. split; [done|]. intros y Hy. apply elem_of_app. right. auto.
Qed.

(** ** Sums *)

Definition zsum (zs : list Z) : Z := foldr Z.add 0 zs.

Lemma zsum_app l1 l2 : zsum (l1 ++ l2) = zsum l1 + zsum l2.
Proof. induction l1 as [|z l1 IH]; simpl; lia. Qed.

Lemma eval_py_sum val es : eval val (py_sum es) = zsum (eval val <$> es).
Proof.
  unfold py_sum.
  assert (∀ e, eval val (foldl Plus e es) = eval val e + zsum (eval val <$> es))
    as Hgen.
  { induction es as [|e' es IH]; intros e.
    - simpl. unfold zsum. simpl. lia.
    - change (foldl Plus e (e' :: es)) with (foldl Plus (Plus e e') es).
      rewrite IH, fmap_cons. simpl. lia. }
  rewrite Hgen. simpl. lia.
Qed.

Section model_facts.
Context (agents : list Agent) (products_to_pick : list Pick)
        (distance_data : distance_data) (zones_access : ZonesAccess).

Abbreviation has_var := (Optimizer.has_var zones_access).
Abbreviation assign_vars_of := (Optimizer.assign_vars_of zones_access).

(** What the constraints say about the assignment variables of pick [i]
    over a list of agents. *)
Definition assigned_sum (val : var → Z) (i : nat) (pick : Pick)
    (among : list (nat * Agent)) : Z :=
  zsum (eval val <$> assign_vars_of i pick among).

Lemma assigned_sum_cons val i pick a agent among :
  assigned_sum val i pick ((a, agent) :: among)
  = (if has_var agent pick then val (V_assign i a) else 0)
    + assigned_sum val i pick among.
Proof.
  unfold assigned_sum, Optimizer.assign_vars_of. rewrite bind_cons, fmap_app, zsum_app.
  destruct (has_var agent pick); simpl; lia.
Qed.

Lemma assigned_sum_nil val i pick : assigned_sum val i pick [] = 0.
Proof. done. Qed.

Lemma assigned_sum_filter val i pick (P : nat * Agent → Prop)
    `{∀ x, Decision (P x)} among :
  assigned_sum val i pick among
  = assigned_sum val i pick (filter P among)
    + assigned_sum val i pick (filter (λ x, ¬ P x) among).
Proof.
  induction among as [|[a agent] among IH]; [done|].
  rewrite !filter_cons. destruct (decide (P (a, agent))).
  - rewrite decide_False by tauto. rewrite !assigned_sum_cons. lia.
  - rewrite decide_True by done. rewrite !assigned_sum_cons. lia.
Qed.

Lemma assigned_sum_member val i pick among a agent :
  (∀ a' agent', (a', agent') ∈ among → has_var agent' pick = true →
                0 ≤ val (V_assign i a')) →
  (a, agent) ∈ among → has_var agent pick = true →
  0 ≤ val (V_assign i a) ≤ assigned_sum val i pick among.
Proof.
  induction among as [|[a0 agent0] among IH]; intros Hpos Hin Hv.
  - by apply elem_of_nil in Hin.
  - rewrite assigned_sum_cons.
    assert (0 ≤ assigned_sum val i pick among) as Hrest.
    { clear IH Hin. induction among as [|[a1 agent1] among IH]; [done|].
      rewrite assigned_sum_cons.
      assert (0 ≤ assigned_sum val i pick among).
      { apply IH. intros a' agent' Hin'. apply Hpos.
        apply elem_of_cons in Hin' as [->|Hin']; [left|right; by right]. }
      destruct (has_var agent1 pick) eqn:Hv1; [|lia].
      assert (0 ≤ val (V_assign i a1)); [|lia].
      apply (Hpos a1 agent1); [right; left|done]. }
    apply elem_of_cons in Hin as [[= <- <-]|Hin].
    + rewrite Hv. pose proof (Hpos a agent (list_elem_of_here _ _) Hv). lia.
    + destruct (IH (λ a' agent' Hin', Hpos a' agent' (list_elem_of_further _ _ _ Hin'))
                   Hin Hv).
      destruct (has_var agent0 pick) eqn:Hv0; [|lia].
      pose proof (Hpos a0 agent0 (list_elem_of_here _ _) Hv0). lia.
Qed.

Lemma assign_vars_of_nonempty i pick among a agent :
  (a, agent) ∈ among → has_var agent pick = true →
  assign_vars_of i pick among ≠ [].
Proof.
  intros Hin Hv Hnil.
  assert (Var (V_assign i a) ∈ assign_vars_of i pick among) as Hx.
  { unfold Optimizer.assign_vars_of. apply list_elem_of_bind. exists (a, agent).
    split; [|done]. rewrite Hv. left. }
  rewrite Hnil in Hx. by apply elem_of_nil in Hx.
Qed.

(** ** Membership in the parts of the model *)

Lemma assignment_var_in i pick a agent :
  products_to_pick !! i = Some pick → agents !! a = Some agent →
  has_var agent pick = true →
  NewBoolVar (V_assign i a) ∈ assignment_vars agents products_to_pick zones_access.
Proof.
  intros Hi Ha Hv. unfold assignment_vars.
  apply list_elem_of_bind. exists (i, pick). split; [|by apply elem_of_enumerate].
  apply list_elem_of_bind. exists (a, agent). split; [|by apply elem_of_enumerate].
  rewrite Hv. left.
Qed.

Lemma unique_assignment_in i pick a agent :
  products_to_pick !! i = Some pick → agents !! a = Some agent →
  has_var agent pick = true →
  Add (py_sum (assign_vars_of i pick (enumerate agents))) REq (Const 1) []
    ∈ unique_assignment agents products_to_pick zones_access.
Proof.
  intros Hi Ha Hv. unfold unique_assignment.
  apply list_elem_of_bind. exists (i, pick). split; [|by apply elem_of_enumerate].
  pose proof (assign_vars_of_nonempty i pick (enumerate agents) a agent) as Hne.
  destruct (assign_vars_of i pick (enumerate agents)) eqn:E.
  - exfalso. apply Hne; [by apply elem_of_enumerate|done..].
  - left.
Qed.

Lemma robot_indices_elem a agent :
  (a, agent) ∈ robot_indices agents
  ↔ agents !! a = Some agent ∧ a_type agent = "robot"%string.
Proof.
  unfold robot_indices. rewrite list_elem_of_filter, elem_of_enumerate. tauto.
Qed.

Lemma robot_zone_in i pick a robot :
  products_to_pick !! i = Some pick → agents !! a = Some robot →
  a_type robot = "robot"%string → has_var robot pick = true →
  p_location (k_product_data pick) ∈ robot_accessible_storage zones_access →
  Add (py_sum (assign_vars_of i pick (robot_indices agents))) REq (Const 1) []
    ∈ robot_zone_constraints agents products_to_pick zones_access.
Proof.
  intros Hi Ha Ht Hv Hloc. unfold robot_zone_constraints.
  apply list_elem_of_bind. exists (i, pick). split; [|by apply elem_of_enumerate].
  rewrite bool_decide_eq_true_2 by done.
  pose proof (assign_vars_of_nonempty i pick (robot_indices agents) a robot) as Hne.
  destruct (assign_vars_of i pick (robot_indices agents)) eqn:E.
  - exfalso. apply Hne; [by apply robot_indices_elem|done..].
  - left.
Qed.

Lemma before_var_in i pick_i j pick_j a agent :
  products_to_pick !! i = Some pick_i → products_to_pick !! j = Some pick_j →
  agents !! a = Some agent → i ≠ j →
  NewBoolVar (V_before i j a) ∈ before_vars agents products_to_pick.
Proof.
  intros Hi Hj Ha Hne. unfold before_vars.
  apply list_elem_of_bind. exists (a, agent). split; [|by apply elem_of_enumerate].
  apply list_elem_of_bind. exists (i, pick_i). split; [|by apply elem_of_enumerate].
  apply list_elem_of_bind. exists (j, pick_j). split; [|by apply elem_of_enumerate].
  rewrite decide_True by done. left.
Qed.

Lemma timing_block_in timing i pick_i j pick_j a agent :
  timing_constraints agents products_to_pick distance_data zones_access
    = Return timing →
  products_to_pick !! i = Some pick_i → products_to_pick !! j = Some pick_j →
  agents !! a = Some agent → i ≠ j →
  has_var agent pick_i = true → has_var agent pick_j = true →
  ∃ block,
    timing_block distance_data a agent i pick_i j pick_j = Return block ∧
    ∀ c, c ∈ block → c ∈ timing.
Proof.
  intros Ht Hi Hj Ha Hne Hvi Hvj. unfold timing_constraints in Ht.
  apply elem_of_enumerate in Hi, Hj, Ha.
  destruct (py_flat_map_elem _ _ _ _ Ht Ha) as (r1 & H1 & Hs1). simpl in H1.
  destruct (py_flat_map_elem _ _ _ _ H1 Hi) as (r2 & H2 & Hs2). simpl in H2.
  destruct (py_flat_map_elem _ _ _ _ H2 Hj) as (r3 & H3 & Hs3). simpl in H3.
  rewrite bool_decide_eq_true_2, Hvi, Hvj in H3 by done. simpl in H3.
  exists r3. split; [done|]. auto.
Qed.

(** The parts of a model that was built. *)
Lemma build_model_parts model :
  build_model agents products_to_pick distance_data zones_access = Return model →
  ∃ timing,
    timing_constraints agents products_to_pick distance_data zones_access
      = Return timing ∧
    ∀ c, (c ∈ assignment_vars agents products_to_pick zones_access ∨
          c ∈ before_vars agents products_to_pick ∨
          c ∈ timing ∨
          c ∈ unique_assignment agents products_to_pick zones_access ∨
          c ∈ robot_zone_constraints agents products_to_pick zones_access) →
         c ∈ model.
Proof.
  unfold build_model.
  destruct (timing_constraints _ _ _ _) as [timing|]; [|done]. simpl.
  destruct (weight_constraints _ _ _) as [weight|]; [|done]. simpl.
  intros [= <-]. exists timing. split; [done|]. intros c.
  rewrite !elem_of_app. tauto.
Qed.
End model_facts.

(** ** Reading the plan *)

Lemma insert_route_item_elem x l y :
  y ∈ insert_route_item x l ↔ y = x ∨ y ∈ l.
Proof.
  induction l as [|z l IH]; simpl.
  - rewrite list_elem_of_singleton, elem_of_nil. tauto.
  - destruct (route_key_le x z); rewrite !elem_of_cons; [tauto|].
    rewrite IH. tauto.
Qed.

Lemma sort_route_elem l y : y ∈ sort_route l ↔ y ∈ l.
Proof.
  unfold sort_route. induction l as [|x l IH]; simpl; [done|].
  rewrite insert_route_item_elem, elem_of_cons, IH. tauto.
Qed.

Lemma assigned_products_elem products_to_pick zones_access val a agent item :
  item ∈ assigned_products products_to_pick zones_access val a agent →
  ∃ i pick,
    products_to_pick !! i = Some pick ∧
    Optimizer.has_var zones_access agent pick = true ∧
    val (V_assign i a) = 1 ∧ r_pick item = pick ∧
    r_visit_time item = val (V_visit i) ∧
    r_trip_number item = Some (val (V_trip i a)).
Proof.
  unfold assigned_products. intros ([i pick] & Hitem & Hin)%list_elem_of_bind.
  apply elem_of_enumerate in Hin. exists i, pick. split; [done|].
  destruct (Optimizer.has_var zones_access agent pick); [|by apply elem_of_nil in Hitem].
  destruct (Z.eqb_spec (val (V_assign i a)) 1); [|by apply elem_of_nil in Hitem].
  simpl in Hitem. apply list_elem_of_singleton in Hitem as ->. done.
Qed.

Lemma extract_routes_elem agents products_to_pick zones_access val aid route :
  (aid, route) ∈ extract_routes agents products_to_pick zones_access val →
  ∃ a agent,
    agents !! a = Some agent ∧ aid = a_id agent ∧ ar_agent route = agent ∧
    ar_products route
      = sort_route (assigned_products products_to_pick zones_access val a agent).
Proof.
  unfold extract_routes.
  assert (∀ l acc,
    (aid, route) ∈ foldl (λ d '(a, agent),
       let assigned := assigned_products products_to_pick zones_access val a agent in
       match assigned with
       | [] => d
       | _ =>
           let sorted := sort_route assigned in
           dict_set d (a_id agent)
             {| ar_agent := agent; ar_products := sorted |}
       end) acc l →
    (aid, route) ∈ acc ∨
    ∃ a agent, (a, agent) ∈ l ∧ aid = a_id agent ∧ ar_agent route = agent ∧
      ar_products route
        = sort_route (assigned_products products_to_pick zones_access val a agent))
    as Hgen.
  { induction l as [|[a agent] l IH]; intros acc; simpl; [auto|].
    intros [Hin|(a' & agent' & Hin & ?)]%IH.
    - destruct (assigned_products _ _ _ a agent) eqn:E; [by left|].
      apply dict_set_elem in Hin as [?|[= -> ->]]; [by left|].
      right. exists a, agent. split; [left|]. simpl. by rewrite E.
    - right. exists a', agent'. split; [by right|done]. }
  intros [Hin|(a & agent & Hin & ?)]%Hgen; [by apply elem_of_nil in Hin|].
  exists a, agent. split; [by apply elem_of_enumerate|done].
Qed.

(** What [optimize_routes] returns. *)
Lemma optimize_routes_success solver orders products agents dd zones res routes :
  optimize_routes solver orders products agents dd zones = Return res →
  agents_routes res = Some routes →
  ∃ picks model val st,
    make_products_to_pick orders products = Return picks ∧
    build_model agents picks dd zones = Return model ∧
    solver model V_max_end_time = (st, val) ∧ (st = OPTIMAL ∨ st = FEASIBLE) ∧
    status res = "success"%string ∧
    routes = extract_routes agents picks zones val.
Proof.
  unfold optimize_routes.
  destruct (make_products_to_pick orders products) as [picks|] eqn:Hp; [|done]. simpl.
  destruct (build_model agents picks dd zones) as [model|] eqn:Hm; [|done]. simpl.
  destruct (solver model V_max_end_time) as [st val] eqn:Hs.
  destruct st; intros [= <-]; simpl; intros [= <-].
  - exists picks, model, val, FEASIBLE. split_and!; auto.
  - exists picks, model, val, OPTIMAL. split_and!; auto.
Qed.

End OptimizerSpec.

Module OptimizerClaims.
Import Astar Distances Optimizer OptimizerSpec.

(** ** A small planning problem: one unit of food stored in a robot zone,
    one robot and one human. *)

Definition food_product : Product :=
  mk_product "Product_089" "food" 1%Q 2%Q false "A1" (3, 3) [].

Definition fleet : list Agent :=
  [ {| a_id := "R1"; a_type := "robot"; a_capacity_weight := 20%Q;
       a_capacity_volume := 30; a_speed := 2%Q; a_no_fragile := true;
       a_max_item_weight := Some 10%Q |};
    {| a_id := "H1"; a_type := "human"; a_capacity_weight := 35%Q;
       a_capacity_volume := 50; a_speed := 1.5%Q; a_no_fragile := false;
       a_max_item_weight := None |} ].

Definition food_order : Order :=
  {| o_id := "Order_001"; o_deadline := (12, 0); o_priority := "standard";
     o_items := [ {| i_product_id := "Product_089"; i_quantity := 1 |} ] |}.

Definition zones : ZonesAccess := {| robot_accessible_storage := ["A1"%string] |}.

Definition food_distances : distance_data :=
  match calculate_distance_matrix [food_product] (6, 10) None with
  | Return dd => dd
  | Raise _ => {| dd_entry := (6, 10); dd_locations := [];
                  dd_distances := ∅; dd_grid := None |}
  end.

(** The human (agent 1) takes the unit in trip 1 at minute 0. *)
Definition human_takes_it (v : var) : Z :=
  match v with
  | V_assign 0 1 | V_trip 0 1 | V_agent_used 1 => 1
  | V_in_trip 0 1 1 | V_in_trip_vol 0 1 1 => 1
  | _ => 0
  end.

(** A solver that proposes one valuation and checks it. *)
Definition checking_solver (val : var → Z) : solver_t :=
  λ model _, if satisfies val model then (FEASIBLE, val) else (INFEASIBLE, val).

Lemma checking_solver_sound val : sound (checking_solver val).
Proof.
  intros model objective st val'. unfold checking_solver.
  destruct (satisfies val model) eqn:Hsat; intros [= <- <-]; [done|].
  by intros [|].
Qed.

(** A solver that never finds a plan. *)
Definition failing_solver : solver_t := λ _ _, (INFEASIBLE, λ _, 0).

Lemma failing_solver_sound : sound failing_solver.
Proof. intros model objective st val [= <- <-]. by intros [|]. Qed.

(** ** C10 *)

Lemma robot_cannot_handle_food agent product zones_access :
  a_type agent = "robot"%string → p_category product = "food"%string →
  can_agent_handle_product agent product zones_access = false.
Proof.
  intros Ht Hc. unfold can_agent_handle_product. rewrite Ht, Hc. simpl.
  by destruct (negb _).
Qed.

(** C10.  [can_agent_handle_product] is false for a robot and a food
    product, and in a plan returned by [optimize_routes] no unit of
    category food is in the route of a robot. *)
Theorem no_food_on_robots (solver : solver_t) (orders : list Order)
    (products : list Product) (agents : list Agent) (dd : distance_data)
    (zones_access : ZonesAccess) (res : opt_result)
    (routes : list (string * AgentRoute)) :
  optimize_routes solver orders products agents dd zones_access = Return res →
  agents_routes res = Some routes →
  (∀ agent product,
     a_type agent = "robot"%string → p_category product = "food"%string →
     can_agent_handle_product agent product zones_access = false) ∧
  ∀ aid route item,
    (aid, route) ∈ routes → a_type (ar_agent route) = "robot"%string →
    item ∈ ar_products route →
    p_category (k_product_data (r_pick item)) ≠ "food"%string.
Proof.
  intros Hopt Hroutes. split; [intros; by apply robot_cannot_handle_food|].
  destruct (optimize_routes_success _ _ _ _ _ _ _ _ Hopt Hroutes)
    as (picks & model & val & st & _ & _ & _ & _ & _ & ->).
  intros aid route item Hin Hrobot Hitem Hfood.
  apply extract_routes_elem in Hin as (a & agent & _ & _ & Hagent & Hprods).
  rewrite Hprods in Hitem. apply (proj1 (sort_route_elem _ _)) in Hitem.
  apply assigned_products_elem in Hitem as (i & pick & _ & Hv & _ & Hpick & _).
  unfold has_var in Hv. rewrite <- Hpick, <- Hagent in Hv.
  by rewrite robot_cannot_handle_food in Hv.
Qed.

Definition food_plan : opt_result :=
  match optimize_routes (checking_solver human_takes_it) [food_order]
          [food_product] fleet food_distances zones with
  | Return res => res
  | Raise _ => {| status := ""; agents_routes := None; human_cart_assignments := None |}
  end.

Lemma food_plan_returned :
  optimize_routes (checking_solver human_takes_it) [food_order] [food_product]
    fleet food_distances zones = Return food_plan.
Proof. vm_compute. reflexivity. Qed.

Lemma no_food_on_robots_witness :
  (∀ agent product,
     a_type agent = "robot"%string → p_category product = "food"%string →
     can_agent_handle_product agent product zones = false) ∧
  ∀ aid route item,
    (aid, route) ∈ default [] (agents_routes food_plan) →
    a_type (ar_agent route) = "robot"%string →
    item ∈ ar_products route →
    p_category (k_product_data (r_pick item)) ≠ "food"%string.
Proof.
  apply (no_food_on_robots (checking_solver human_takes_it) [food_order]
           [food_product] fleet food_distances zones food_plan
           (default [] (agents_routes food_plan))).
  - vm_compute. reflexivity.
  - vm_compute. reflexivity.
Defined.

(** ** C1 *)

(** C1, as stated, fails: a unit of food stored in a robot zone cannot go to
    a robot, and the plan gives it to the human. *)
Lemma robot_zone_food_goes_to_human :
  sound (checking_solver human_takes_it) ∧
  ∃ route item,
    optimize_routes (checking_solver human_takes_it) [food_order] [food_product]
      fleet food_distances zones = Return food_plan ∧
    status food_plan = "success"%string ∧
    agents_routes food_plan = Some [("H1"%string, route)] ∧
    a_type (ar_agent route) = "human"%string ∧
    ar_products route = [item] ∧
    p_location (k_product_data (r_pick item)) ∈ robot_accessible_storage zones.
Proof.
  split; [apply checking_solver_sound|].
  eexists _, _. split; [apply food_plan_returned|].
  split; [by vm_compute|]. split; [by vm_compute|].
  split; [by vm_compute|]. split; [by vm_compute|]. simpl. left.
Qed.

(** Holding of the Boolean domain and of an unconditional equality. *)
Lemma holds_bool val v : holds val (NewBoolVar v) = true → 0 ≤ val v ≤ 1.
Proof. simpl. rewrite andb_true_iff, !Z.leb_le. lia. Qed.

Lemma holds_sum_eq val es k :
  holds val (Add (py_sum es) REq (Const k) []) = true → zsum (eval val <$> es) = k.
Proof. simpl. rewrite eval_py_sum. apply Z.eqb_eq. Qed.

(** C1, amended.  In a plan returned by [optimize_routes] with a sound
    solver, a unit stored in a robot-accessible zone that some robot of the
    fleet can handle is in the route of a robot only. *)
Theorem robot_zone_units_on_robots (solver : solver_t) (orders : list Order)
    (products : list Product) (agents : list Agent) (dd : distance_data)
    (zones_access : ZonesAccess) (res : opt_result)
    (routes : list (string * AgentRoute)) :
  sound solver →
  optimize_routes solver orders products agents dd zones_access = Return res →
  agents_routes res = Some routes →
  ∀ aid route item,
    (aid, route) ∈ routes → item ∈ ar_products route →
    p_location (k_product_data (r_pick item))
      ∈ robot_accessible_storage zones_access →
    (∃ robot, robot ∈ agents ∧ a_type robot = "robot"%string ∧
       can_agent_handle_product robot (k_product_data (r_pick item)) zones_access
         = true) →
    a_type (ar_agent route) = "robot"%string.
Proof.
  intros Hsound Hopt Hroutes aid route item Hin Hitem Hloc (robot & Hrobot & Htype & Hcan).
  destruct (optimize_routes_success _ _ _ _ _ _ _ _ Hopt Hroutes)
    as (picks & model & val & st & _ & Hmodel & Hsolve & Hst & _ & ->).
  pose proof (Hsound _ _ _ _ Hsolve Hst) as Hsat.
  destruct (build_model_parts _ _ _ _ _ Hmodel) as (timing & _ & Hparts).
  apply extract_routes_elem in Hin as (a & agent & Ha & _ & Hagent & Hprods).
  rewrite Hprods in Hitem. apply (proj1 (sort_route_elem _ _)) in Hitem.
  apply assigned_products_elem in Hitem as (i & pick & Hi & Hv & Hval & Hpick & _).
  rewrite Hagent, Hpick in *. clear Hagent Hpick Hprods.
  apply list_elem_of_lookup in Hrobot as [b Hb].
  destruct (decide (a_type agent = "robot"%string)) as [|Hnot]; [done|exfalso].
  set (P := λ '((_, agent) : nat * Agent), a_type agent = "robot"%string).
  assert (∀ a' agent', (a', agent') ∈ enumerate agents →
            has_var zones_access agent' pick = true → 0 ≤ val (V_assign i a')) as Hpos.
  { intros a' agent' Hin' Hv'. apply elem_of_enumerate in Hin'.
    apply (holds_bool val (V_assign i a')), (satisfies_elem _ _ _ Hsat), Hparts.
    left. by eapply assignment_var_in. }
  assert (assigned_sum zones_access val i pick (enumerate agents) = 1) as Hall.
  { apply holds_sum_eq, (satisfies_elem _ _ _ Hsat), Hparts.
    do 3 right. left. by eapply unique_assignment_in. }
  assert (assigned_sum zones_access val i pick (robot_indices agents) = 1) as Hrob.
  { apply holds_sum_eq, (satisfies_elem _ _ _ Hsat), Hparts.
    do 4 right. by eapply (robot_zone_in _ _ _ _ _ b robot). }
  rewrite (assigned_sum_filter zones_access val i pick P) in Hall.
  change (filter P (enumerate agents)) with (robot_indices agents) in Hall.
  rewrite Hrob in Hall.
  assert ((a, agent) ∈ filter (λ x, ¬ P x) (enumerate agents)) as Hmem.
  { apply list_elem_of_filter. split; [done|by apply elem_of_enumerate]. }
  destruct (assigned_sum_member zones_access val i pick
              (filter (λ x, ¬ P x) (enumerate agents)) a agent) as [_ Hle];
    [|done..|lia].
  intros a' agent' [_ Hin']%list_elem_of_filter. by apply Hpos.
Qed.

Definition gadget : Product :=
  mk_product "Product_001" "electronics" 1%Q 2%Q false "A1" (3, 3) [].

Definition gadget_order : Order :=
  {| o_id := "Order_002"; o_deadline := (12, 0); o_priority := "standard";
     o_items := [ {| i_product_id := "Product_001"; i_quantity := 1 |} ] |}.

(** The robot (agent 0) takes the unit in trip 1 at minute 0. *)
Definition robot_takes_it (v : var) : Z :=
  match v with
  | V_assign 0 0 | V_trip 0 0 | V_agent_used 0 => 1
  | V_trip 0 1 => 1
  | V_in_trip 0 0 1 | V_in_trip_vol 0 0 1 => 1
  | _ => 0
  end.

Definition gadget_plan : opt_result :=
  match optimize_routes (checking_solver robot_takes_it) [gadget_order]
          [gadget] fleet food_distances zones with
  | Return res => res
  | Raise _ => {| status := ""; agents_routes := None; human_cart_assignments := None |}
  end.

Definition gadget_routes : list (string * AgentRoute) :=
  default [] (agents_routes gadget_plan).

Lemma robot_zone_units_on_robots_witness :
  ∃ aid route item,
    (aid, route) ∈ gadget_routes ∧ item ∈ ar_products route ∧
    p_location (k_product_data (r_pick item)) ∈ robot_accessible_storage zones ∧
    a_type (ar_agent route) = "robot"%string.
Proof.
  assert (∃ route item,
            gadget_routes = [("R1"%string, route)] ∧ ar_products route = [item] ∧
            k_product_data (r_pick item) = gadget) as (route & item & Hr & Hp & Hg).
  { eexists _, _. split; [vm_compute; reflexivity|]. split; reflexivity. }
  assert ((("R1"%string, route) : string * AgentRoute) ∈ gadget_routes) as Hin
    by (rewrite Hr; left).
  assert (item ∈ ar_products route) as Hitem by (rewrite Hp; left).
  assert (p_location (k_product_data (r_pick item)) ∈ robot_accessible_storage zones)
    as Hloc by (rewrite Hg; left).
  exists "R1"%string, route, item. split; [done|]. split; [done|]. split; [done|].
  apply (robot_zone_units_on_robots (checking_solver robot_takes_it) [gadget_order]
           [gadget] fleet food_distances zones gadget_plan gadget_routes
           (checking_solver_sound robot_takes_it))
    with (aid := "R1"%string) (item := item).
  - vm_compute. reflexivity.
  - vm_compute. reflexivity.
  - exact Hin.
  - exact Hitem.
  - exact Hloc.
  - eexists. split; [left|]. rewrite Hg. split; reflexivity.
Defined.

(** ** Enforcement literals *)

Lemma holds_enforced val lhs r rhs lits :
  holds val (Add lhs r rhs lits) = true →
  forallb (lit_holds val) lits = true →
  rel_holds r (eval val lhs) (eval val rhs) = true.
Proof. simpl. intros H Hl. by rewrite Hl in H. Qed.

End OptimizerClaims.

Module RunClaims.
Import Astar Distances Optimizer Collision RunOptimization OptimizerSpec OptimizerClaims.

(** C2, as stated, fails: with a solver that finds no assignment the status
    is ["no_solution"] at the optimizer and ["error"] at the entry point,
    never ["infeasible"]. *)
Lemma infeasible_status_is_not_reported :
  sound failing_solver ∧
  ∃ res run,
    optimize_routes failing_solver [food_order] [food_product] fleet
      food_distances zones = Return res ∧
    run_optimization failing_solver elements
      {| w_entry_point := (6, 10); w_navigation_grid := None |}
      [food_product] fleet [food_order] zones 1 250 = Return run ∧
    status res ≠ "infeasible"%string ∧ rr_status run ≠ "infeasible"%string.
Proof.
  split; [apply failing_solver_sound|].
  eexists _, _. split; [vm_compute; reflexivity|].
  split; [vm_compute; reflexivity|]. split; discriminate.
Qed.

(** C2, amended.  When the solver's answer is neither OPTIMAL nor FEASIBLE,
    [optimize_routes] returns the status ["no_solution"] and
    [run_optimization] the status ["error"]; neither carries agent routes. *)
Theorem no_solution_result (solver : solver_t) (set_order : gset Z → list Z)
    (warehouse : Warehouse) (products : list Product) (agents : list Agent)
    (orders : list Order) (zones_access : ZonesAccess)
    (num_orders max_iterations : Z) (dd : distance_data) (picks : list Pick)
    (model : list constraint) (st : solver_status) (val : var → Z) :
  calculate_distance_matrix products (w_entry_point warehouse)
    (w_navigation_grid warehouse) = Return dd →
  make_products_to_pick (py_take num_orders orders) products = Return picks →
  build_model agents picks dd zones_access = Return model →
  solver model V_max_end_time = (st, val) →
  st ≠ OPTIMAL → st ≠ FEASIBLE →
  optimize_routes solver (py_take num_orders orders) products agents dd zones_access
    = Return {| status := "no_solution"; agents_routes := None;
                human_cart_assignments := None |} ∧
  run_optimization solver set_order warehouse products agents orders zones_access
    num_orders max_iterations
    = Return {| rr_status := "error";
                rr_message := Some "Échec de l'optimisation"%string;
                rr_solution := None; rr_collision_result := None |}.
Proof.
  intros Hdd Hpicks Hmodel Hsolve Hopt Hfeas.
  assert (optimize_routes solver (py_take num_orders orders) products agents dd
            zones_access
          = Return {| status := "no_solution"; agents_routes := None;
                      human_cart_assignments := None |}) as Hres.
  { unfold optimize_routes. rewrite Hpicks. simpl. rewrite Hmodel. simpl.
    rewrite Hsolve. by destruct st. }
  split; [done|]. unfold run_optimization. rewrite Hdd. simpl. by rewrite Hres.
Qed.

Lemma no_solution_result_witness :
  optimize_routes failing_solver (py_take 1 [food_order]) [food_product] fleet
    food_distances zones
    = Return {| status := "no_solution"; agents_routes := None;
                human_cart_assignments := None |} ∧
  run_optimization failing_solver elements
    {| w_entry_point := (6, 10); w_navigation_grid := None |}
    [food_product] fleet [food_order] zones 1 250
    = Return {| rr_status := "error";
                rr_message := Some "Échec de l'optimisation"%string;
                rr_solution := None; rr_collision_result := None |}.
Proof.
  apply (no_solution_result failing_solver elements
           {| w_entry_point := (6, 10); w_navigation_grid := None |}
           [food_product] fleet [food_order] zones 1 250 food_distances
           (match make_products_to_pick [food_order] [food_product] with
            | Return picks => picks | Raise _ => [] end)
           (match build_model fleet
                    (match make_products_to_pick [food_order] [food_product] with
                     | Return picks => picks | Raise _ => [] end)
                    food_distances zones with
            | Return model => model | Raise _ => [] end)
           INFEASIBLE (λ _, 0)).
  - vm_compute. reflexivity.
  - vm_compute. reflexivity.
  - vm_compute. reflexivity.
  - reflexivity.
  - discriminate.
  - discriminate.
Defined.

End RunClaims.

(** * Further properties of the path-finder *)

Module AstarMore.
Import Astar AstarSpec AstarInv AstarTop.

(** A route from [s] to [e]: consecutive cells are neighbours, and every
    cell that is stepped onto is traversable. *)
Definition route (grid : grid_t) (s e : cell) (Q : list cell) : Prop :=
  head Q = Some s ∧ last Q = Some e ∧
  ∀ i a b, Q !! i = Some a → Q !! S i = Some b →
           adjacent4 a b ∧ traversable grid b.

Lemma pairs_steps_ok grid Q :
  (∀ i a b, Q !! i = Some a → Q !! S i = Some b →
            adjacent4 a b ∧ traversable grid b) →
  steps_ok grid Q.
Proof.
  induction Q as [|c Q IH]; [done|]. destruct Q as [|c' Q]; [done|].
  intros H. destruct (H 0%nat c c' eq_refl eq_refl) as [Hadj Htr].
  split; [done|]. split; [done|].
  apply IH. intros i a b Ha Hb. by apply (H (S i)).
Qed.

Lemma steps_ok_each grid P :
  steps_ok grid P →
  ∀ i a b, P !! i = Some a → P !! S i = Some b →
           adjacent4 a b ∧ traversable grid b.
Proof.
  induction P as [|c P IH]; intros Hok i a b Ha Hb; [done|].
  destruct P as [|c' P]; [done|]. destruct Hok as (Hadj & Htr & Hok).
  destruct i as [|i].
  - injection Ha as <-. injection Hb as <-. done.
  - by apply (IH Hok i).
Qed.

Lemma route_walk grid s e Q :
  route grid s e Q → walk s grid e (length Q - 1)%nat.
Proof.
  intros (Hhd & Hlast & Hsteps).
  apply steps_ok_walk; [done..|]. by apply pairs_steps_ok.
Qed.

Lemma walk_trans grid a b c k1 k2 :
  walk a grid b k1 → walk b grid c k2 → walk a grid c (k1 + k2)%nat.
Proof.
  intros H1 H2. induction H2 as [|c n k Hw IH Hadj Htr].
  - by rewrite Nat.add_0_r.
  - rewrite Nat.add_succ_r. by eapply walk_step.
Qed.

Lemma walk_manhattan grid s c k :
  walk s grid c k → manhattan_distance s c ≤ Z.of_nat k.
Proof.
  induction 1 as [|c n k Hw IH Hadj Htr].
  - rewrite manhattan_distance_self. lia.
  - unfold manhattan_distance, adjacent4 in *. lia.
Qed.

(** What a successful search between two different cells tells. *)
Lemma astar_path_found s e grid P :
  astar_path s e grid = Return (Some P) → s ≠ e →
  ∃ vs, in_bounds grid s ∧ cell_value grid s = Return vs ∧ vs ≠ 0 ∧
        head P = Some s ∧ last P = Some e ∧ steps_ok grid P ∧
        ∀ k, walk s grid e k → (length P ≤ S k)%nat.
Proof.
  intros HP Hne. pose proof (astar_path_case s e grid) as Hcase.
  rewrite HP in Hcase.
  inversion Hcase as [Heq| | | | | | |vs ve r _ Hs He Hvs Hvs0 Hve Hve0 Hr];
    subst; [done|].
  destruct Hr as (Hhd & Hlast & Hok & Hopt). exists vs. done.
Qed.

(** A walk between two different cells is found by the search. *)
Lemma astar_path_finds s e grid vs k :
  rectangular grid → s ≠ e →
  in_bounds grid s → cell_value grid s = Return vs → vs ≠ 0 →
  walk s grid e k →
  ∃ P, astar_path s e grid = Return (Some P) ∧ (length P ≤ S k)%nat.
Proof.
  intros Hrect Hne Hs Hvs Hvs0 Hw.
  assert (traversable grid e) as [He Hve].
  { destruct Hw; [done|done]. }
  destruct (astar_path_case s e grid) as
    [ | | |err ? ? ? Hv|? ? ? Hv|vs' err ? ? ? ? ? Hv|vs' ? ? ? ? ? Hv
     |vs' ve r ? ? ? ? ? ? ? Hr]; try done; try congruence.
  destruct r as [[P|]|err]; simpl in Hr.
  - destruct Hr as (_ & _ & _ & Hopt). exists P. split; [done|]. by apply Hopt.
  - by apply Hr in Hw.
  - done.
Qed.

Lemma get_neighbors_loop_sublist x y grid dirs acc ns :
  get_neighbors_loop x y grid dirs acc = Return ns →
  ∃ picked, ns = acc ++ picked ∧
            sublist picked ((λ d : Z * Z, (x + d.1, y + d.2)) <$> dirs).
Proof.
  revert acc. induction dirs as [|[dx dy] dirs IH]; intros acc; simpl.
  - intros [= ->]. exists []. by rewrite app_nil_r.
  - destruct (_ && _).
    + destruct (grid_at grid _ _) as [v|]; [|done]. simpl.
      destruct (v =? 1).
      * intros (picked & -> & Hsub)%IH. exists ((x + dx, y + dy) :: picked).
        rewrite <- app_assoc. split; [done|]. by apply sublist_skip.
      * intros (picked & -> & Hsub)%IH. exists picked. split; [done|].
        by apply sublist_cons.
    + intros (picked & -> & Hsub)%IH. exists picked. split; [done|].
      by apply sublist_cons.
Qed.

(** X1.  On a rectangular grid [get_neighbors] never raises; it returns
    exactly the traversable cells at Manhattan distance one, each once, in
    the order up, down, left, right. *)
Theorem get_neighbors_exact (pos : cell) (grid : grid_t) :
  rectangular grid →
  ∃ ns, get_neighbors pos grid = Return ns ∧
        (∀ n, n ∈ ns ↔ adjacent4 pos n ∧ traversable grid n) ∧
        sublist ns [(pos.1, pos.2 + 1); (pos.1, pos.2 - 1);
                    (pos.1 - 1, pos.2); (pos.1 + 1, pos.2)] ∧
        NoDup ns.
Proof.
  intros Hrect. destruct (get_neighbors_no_raise pos grid Hrect) as [ns Hns].
  exists ns. split; [done|]. split; [by apply get_neighbors_spec|].
  destruct (get_neighbors_loop_sublist _ _ _ _ _ _ Hns) as (picked & -> & Hsub).
  simpl in Hsub |- *.
  replace (pos.1 + 0) with pos.1 in Hsub by lia.
  replace (pos.2 + 0) with pos.2 in Hsub by lia.
  replace (pos.2 + -1) with (pos.2 - 1) in Hsub by lia.
  replace (pos.1 + -1) with (pos.1 - 1) in Hsub by lia.
  split; [done|].
  eapply sublist_NoDup; [|exact Hsub].
  repeat (apply NoDup_cons; split;
          [rewrite ?elem_of_cons, elem_of_nil; intros H;
           repeat (destruct H as [H|H]; [injection H; lia|]); done|]).
  apply NoDup_nil_2.
Qed.

Lemma get_neighbors_exact_witness :
  ∃ ns, get_neighbors (1, 1) test_grid = Return ns ∧
        (∀ n, n ∈ ns ↔ adjacent4 (1, 1) n ∧ traversable test_grid n) ∧
        sublist ns [((1, 1).1, (1, 1).2 + 1); ((1, 1).1, (1, 1).2 - 1);
                    ((1, 1).1 - 1, (1, 1).2); ((1, 1).1 + 1, (1, 1).2)] ∧
        NoDup ns.
Proof.
  apply (get_neighbors_exact (1, 1) test_grid).
  apply (bool_decide_unpack _). vm_compute. reflexivity.
Defined.

(** X2.  The path returned by [astar_path] is a shortest one: no route
    from [start] to [goal] over traversable cells has fewer cells. *)
Theorem astar_path_shortest (start goal : cell) (grid : grid_t)
    (path other : list cell) :
  astar_path start goal grid = Return (Some path) →
  route grid start goal other →
  (length path ≤ length other)%nat.
Proof.
  intros HP Hroute. destruct (decide (start = goal)) as [->|Hne].
  - unfold astar_path in HP. rewrite decide_True in HP by done.
    injection HP as <-. destruct Hroute as (Hhd & _). destruct other; [done|].
    simpl. lia.
  - destruct (astar_path_found _ _ _ _ HP Hne) as (vs & _ & _ & _ & _ & _ & _ & Hopt).
    pose proof (route_walk _ _ _ _ Hroute) as Hw.
    specialize (Hopt _ Hw). destruct Hroute as (Hhd & _).
    destruct other; [done|]. simpl in *. lia.
Qed.

Definition top_row : list cell := [(1, 5); (2, 5); (3, 5); (4, 5); (5, 5)].
Definition top_row_detour : list cell :=
  [(1, 5); (1, 4); (1, 5); (2, 5); (3, 5); (4, 5); (5, 5)].

Lemma astar_path_shortest_witness :
  (length top_row ≤ length top_row_detour)%nat.
Proof.
  apply (astar_path_shortest (1, 5) (5, 5) test_grid).
  - vm_compute. reflexivity.
  - unfold route, top_row_detour. split; [done|]. split; [done|].
    intros i a b Ha Hb.
    do 6 (destruct i as [|i]; [injection Ha as <-; injection Hb as <-;
      (split; [by vm_compute|]);
      (split; [unfold in_bounds, width, height; simpl; lia|by vm_compute])|]).
    destruct i; done.
Defined.

(** X3.  On a rectangular grid of 0/1 entries [astar_path] answers [None]
    exactly when the endpoints differ and no sequence of neighbouring
    traversable cells leads from [start] to [goal]. *)
Theorem astar_path_none_iff_unreachable (start goal : cell) (grid : grid_t) :
  rectangular grid → binary grid →
  astar_path start goal grid = Return None ↔
  start ≠ goal ∧
  ¬ ∃ Q, route grid start goal Q ∧ traversable grid start.
Proof.
  intros Hrect Hbin. split.
  - intros Hnone. split.
    { intros ->. unfold astar_path in Hnone. by rewrite decide_True in Hnone. }
    intros (Q & Hroute & Hs). pose proof (route_walk _ _ _ _ Hroute) as Hw.
    assert (start ≠ goal) as Hne.
    { intros ->. unfold astar_path in Hnone. by rewrite decide_True in Hnone. }
    destruct Hs as [Hs Hvs].
    destruct (astar_path_finds start goal grid 1 _ Hrect Hne Hs Hvs ltac:(done) Hw)
      as (P & HP & _).
    congruence.
  - intros [Hne Hno].
    destruct (astar_path_no_raise start goal grid Hrect) as [[P|] HP]; [|done].
    exfalso. apply Hno.
    destruct (astar_path_found _ _ _ _ HP Hne)
      as (vs & Hs & Hvs & Hvs0 & Hhd & Hlast & Hok & _).
    exists P. split.
    + split; [done|]. split; [done|]. by apply steps_ok_each.
    + by eapply binary_traversable.
Qed.

Lemma astar_path_none_iff_unreachable_witness :
  astar_path (1, 1) (3, 3) test_grid = Return None ↔
  (1, 1) ≠ ((3, 3) : cell) ∧
  ¬ ∃ Q, route test_grid (1, 1) (3, 3) Q ∧ traversable test_grid (1, 1).
Proof.
  apply (astar_path_none_iff_unreachable (1, 1) (3, 3) test_grid);
    apply (bool_decide_unpack _); vm_compute; reflexivity.
Defined.

Lemma calculate_distance_ge_manhattan (start goal : cell) (grid : grid_t) :
  rectangular grid →
  ∃ d, calculate_distance start goal grid = Return d ∧
       manhattan_distance start goal ≤ d.
Proof.
  intros Hrect. unfold calculate_distance.
  destruct (astar_path_no_raise start goal grid Hrect) as [[P|] HP];
    rewrite HP; simpl.
  - eexists. split; [done|]. destruct (decide (start = goal)) as [->|Hne].
    + rewrite manhattan_distance_self.
      unfold astar_path in HP. rewrite decide_True in HP by done.
      injection HP as <-. simpl. lia.
    + destruct (astar_path_found _ _ _ _ HP Hne)
        as (vs & _ & _ & _ & Hhd & Hlast & Hok & _).
      pose proof (steps_ok_walk _ _ _ _ Hhd Hlast Hok) as Hw.
      apply walk_manhattan in Hw. destruct P; [done|]. simpl in *. lia.
  - eexists. split; [done|]. lia.
Qed.

(** X4.  On a rectangular grid [calculate_distance] never raises, and the
    distance it returns is at least the Manhattan distance of the two
    cells. *)
Theorem calculate_distance_lower_bound (start goal : cell) (grid : grid_t) :
  rectangular grid →
  ∃ d, calculate_distance start goal grid = Return d ∧
       manhattan_distance start goal ≤ d.
Proof. apply calculate_distance_ge_manhattan. Qed.

Lemma calculate_distance_lower_bound_witness :
  ∃ d, calculate_distance (2, 1) (3, 3) test_grid = Return d ∧
       manhattan_distance (2, 1) (3, 3) ≤ d.
Proof.
  apply (calculate_distance_lower_bound (2, 1) (3, 3) test_grid).
  apply (bool_decide_unpack _). vm_compute. reflexivity.
Defined.

(** X5.  Paths compose: when the search succeeds from [a] to [b] and from
    [b] to [c] on a rectangular grid, it succeeds from [a] to [c], with a
    distance no larger than the sum of the two distances. *)
Theorem astar_path_triangle (a b c : cell) (grid : grid_t)
    (P1 P2 : list cell) :
  rectangular grid →
  astar_path a b grid = Return (Some P1) →
  astar_path b c grid = Return (Some P2) →
  ∃ P3, astar_path a c grid = Return (Some P3) ∧
        (length P3 + 1 ≤ length P1 + length P2)%nat.
Proof.
  intros Hrect H1 H2.
  destruct (decide (a = b)) as [->|Hab].
  { exists P2. split; [done|]. unfold astar_path in H1.
    rewrite decide_True in H1 by done. injection H1 as <-. simpl. lia. }
  destruct (decide (b = c)) as [->|Hbc].
  { exists P1. split; [done|]. unfold astar_path in H2.
    rewrite decide_True in H2 by done. injection H2 as <-. simpl. lia. }
  destruct (astar_path_found _ _ _ _ H1 Hab)
    as (va & Ha & Hva & Hva0 & Hhd1 & Hlast1 & Hok1 & _).
  destruct (astar_path_found _ _ _ _ H2 Hbc)
    as (vb & _ & _ & _ & Hhd2 & Hlast2 & Hok2 & _).
  destruct (decide (a = c)) as [->|Hac].
  { exists [c]. split; [unfold astar_path; by rewrite decide_True|].
    destruct P1; [done|]. destruct P2; [done|]. simpl. lia. }
  pose proof (steps_ok_walk _ _ _ _ Hhd1 Hlast1 Hok1) as Hw1.
  pose proof (steps_ok_walk _ _ _ _ Hhd2 Hlast2 Hok2) as Hw2.
  pose proof (walk_trans _ _ _ _ _ _ Hw1 Hw2) as Hw.
  destruct (astar_path_finds a c grid va _ Hrect Hac Ha Hva Hva0 Hw) as (P3 & HP3 & Hlen).
  exists P3. split; [done|].
  destruct P1; [done|]. destruct P2; [done|]. simpl in *. lia.
Qed.

Definition bottom_row : list cell := [(1, 1); (2, 1); (3, 1); (4, 1); (5, 1)].
Definition right_column : list cell := [(5, 1); (5, 2); (5, 3); (5, 4); (5, 5)].

Lemma astar_path_triangle_witness :
  ∃ P3, astar_path (1, 1) (5, 5) test_grid = Return (Some P3) ∧
        (length P3 + 1 ≤ length bottom_row + length right_column)%nat.
Proof.
  apply (astar_path_triangle (1, 1) (5, 1) (5, 5) test_grid).
  - apply (bool_decide_unpack _). vm_compute. reflexivity.
  - vm_compute. reflexivity.
  - vm_compute. reflexivity.
Defined.

(** ** The returned path visits no cell twice *)

Lemma steps_ok_drop grid P n : steps_ok grid P → steps_ok grid (drop n P).
Proof.
  revert P. induction n as [|n IH]; intros P Hok; [by rewrite drop_0|].
  destruct P as [|c P]; [done|]. simpl. apply IH.
  destruct P as [|c' P]; [done|]. by destruct Hok as (_ & _ & Hok).
Qed.

Lemma steps_ok_take grid P n : steps_ok grid P → steps_ok grid (take n P).
Proof.
  revert P. induction n as [|n IH]; intros P Hok; [done|].
  destruct P as [|c P]; [done|]. simpl.
  destruct P as [|c' P]; [by destruct n|].
  destruct Hok as (Hadj & Htr & Hok). specialize (IH _ Hok).
  destruct n as [|n]; [done|]. simpl in *. done.
Qed.

Lemma walk_to_index grid P s i x :
  head P = Some s → steps_ok grid P → P !! i = Some x → walk s grid x i.
Proof.
  intros Hhd Hok Hx.
  assert (i < length P)%nat as Hlt by (by eapply lookup_lt_Some).
  pose proof (steps_ok_walk grid (take (S i) P) s x) as Hw.
  rewrite length_take in Hw.
  replace (S i `min` length P - 1)%nat with i in Hw by lia.
  apply Hw.
  - destruct P; [done|]. done.
  - rewrite last_lookup, length_take.
    replace (Nat.pred (S i `min` length P)) with i by lia.
    rewrite lookup_take_lt by lia. done.
  - by apply steps_ok_take.
Qed.

Lemma walk_from_index grid P e j x :
  last P = Some e → steps_ok grid P → P !! j = Some x →
  walk x grid e (length P - 1 - j)%nat.
Proof.
  intros Hlast Hok Hx.
  assert (j < length P)%nat as Hlt by (by eapply lookup_lt_Some).
  pose proof (steps_ok_walk grid (drop j P) x e) as Hw.
  rewrite length_drop in Hw.
  replace (length P - j - 1)%nat with (length P - 1 - j)%nat in Hw by lia.
  apply Hw.
  - rewrite head_lookup, lookup_drop, Nat.add_0_r. done.
  - rewrite last_lookup, lookup_drop, length_drop.
    replace (j + Nat.pred (length P - j))%nat with (Nat.pred (length P)) by lia.
    by rewrite <- last_lookup.
  - by apply steps_ok_drop.
Qed.

(** X6.  A path returned by [astar_path] visits no cell twice. *)
Theorem astar_path_simple (start goal : cell) (grid : grid_t)
    (path : list cell) :
  astar_path start goal grid = Return (Some path) → NoDup path.
Proof.
  intros HP. destruct (decide (start = goal)) as [->|Hne].
  { unfold astar_path in HP. rewrite decide_True in HP by done.
    injection HP as <-. apply NoDup_singleton. }
  destruct (astar_path_found _ _ _ _ HP Hne)
    as (vs & _ & _ & _ & Hhd & Hlast & Hok & Hopt).
  apply NoDup_alt. intros i j x Hi Hj.
  assert (∀ i j, (i < j)%nat → path !! i = Some x → path !! j = Some x → False)
    as Hlt.
  { clear i j Hi Hj. intros i j Hij Hi Hj.
    pose proof (walk_to_index _ _ _ _ _ Hhd Hok Hi) as Hw1.
    pose proof (walk_from_index _ _ _ _ _ Hlast Hok Hj) as Hw2.
    pose proof (walk_trans _ _ _ _ _ _ Hw1 Hw2) as Hw.
    apply Hopt in Hw. apply lookup_lt_Some in Hj. lia. }
  destruct (Nat.lt_trichotomy i j) as [?|[?|?]]; [|done|]; exfalso; eauto.
Qed.

Lemma astar_path_simple_witness : NoDup top_row.
Proof.
  apply (astar_path_simple (1, 5) (5, 5) test_grid).
  vm_compute. reflexivity.
Defined.

End AstarMore.

(** * Further properties of the distance table *)

Module DistancesMore.
Import Astar AstarSpec AstarTop AstarMore Distances DistancesSpec.

(** The cell the source ends up with for the key [k]: the pickup location
    of the last product carrying that id, else the entry point for the key
    ['entry']. *)
Definition located (products : list Product) (entry_point : cell) (k : string)
    : option cell :=
  match last (filter (λ p, p_id p = k) products) with
  | Some p => Some (p_pickup_location p)
  | None => if decide (k = "entry"%string) then Some entry_point else None
  end.

Lemma build_locations_snoc products p entry_point :
  build_locations (products ++ [p]) entry_point
  = dict_set (build_locations products entry_point) (p_id p) (p_pickup_location p).
Proof. unfold build_locations. by rewrite foldl_app. Qed.

Lemma build_locations_get (products : list Product) (entry_point : cell)
    (k : string) :
  dict_get (build_locations products entry_point) k
  = located products entry_point k.
Proof.
  induction products as [|p products IH] using rev_ind.
  - unfold located. simpl. destruct (decide ("entry"%string = k)) as [<-|Hk].
    + by rewrite decide_True.
    + by rewrite decide_False.
  - rewrite build_locations_snoc, dict_get_set, IH. unfold located.
    rewrite filter_app, filter_cons, filter_nil.
    destruct (decide (p_id p = k)) as [Heq|Hne].
    + by rewrite last_snoc.
    + by rewrite app_nil_r.
Qed.

Section exact.
Context (products : list Product) (entry_point : cell)
        (navigation_grid : option grid_t).

(** The distance the source computes between two cells. *)
Definition cell_distance (cp cq : cell) (d : Z) : Prop :=
  match navigation_grid with
  | Some grid => calculate_distance cp cq grid = Return d
  | None => d = manhattan_distance cp cq
  end.

Lemma pair_distance_cell_distance cp cq d :
  pair_distance navigation_grid cp cq = Return d ↔ cell_distance cp cq d.
Proof.
  unfold pair_distance, cell_distance. destruct navigation_grid; [done|].
  split; [by intros [= <-]|by intros ->].
Qed.
End exact.

Lemma distance_table_spec (products : list Product) (entry_point : cell)
    (navigation_grid : option grid_t) :
  (∀ grid, navigation_grid = Some grid → rectangular grid ∧ binary grid) →
  ∃ dd, calculate_distance_matrix products entry_point navigation_grid = Return dd ∧
    dd_entry dd = entry_point ∧ dd_grid dd = navigation_grid ∧
    (∀ k, dict_get (dd_locations dd) k = located products entry_point k) ∧
    ∀ p q d,
      dd_distances dd !! (p, q) = Some d ↔
      ∃ cp cq, located products entry_point p = Some cp ∧
               located products entry_point q = Some cq ∧
               cell_distance navigation_grid cp cq d.
Proof.
  intros Hgrid. unfold calculate_distance_matrix.
  set (locations := build_locations products entry_point).
  destruct (outer_loop_spec navigation_grid locations Hgrid
              (dict_keys locations) (dict_keys locations) ∅)
    as (D & -> & Hok & _ & Hcov); [done|done|by intros ? ? ? ?|].
  eexists. split; [done|]. simpl. split; [done|]. split; [done|].
  split; [intros k; apply build_locations_get|].
  intros p q d. split.
  - intros (cp & cq & Hp & Hq & Hd)%Hok. exists cp, cq.
    unfold locations in Hp, Hq. rewrite build_locations_get in Hp, Hq.
    split; [done|]. split; [done|]. by apply pair_distance_cell_distance.
  - intros (cp & cq & Hp & Hq & Hd).
    rewrite <- build_locations_get in Hp, Hq. fold locations in Hp, Hq.
    destruct (Hcov p q) as [d' Hd'].
    { apply dict_get_is_Some. by rewrite Hp. }
    { apply dict_get_is_Some. by rewrite Hq. }
    rewrite Hd'. f_equal.
    destruct (Hok _ _ _ Hd') as (cp' & cq' & Hp' & Hq' & Hdist).
    apply pair_distance_cell_distance in Hd. congruence.
Qed.

(** X7.  The distance table holds an entry for a pair of keys exactly when
    both keys are located, and the entry is the grid distance of the two
    cells (the Manhattan distance when there is no grid); the other fields
    repeat the arguments. *)
Theorem distance_matrix_exact (products : list Product) (entry_point : cell)
    (navigation_grid : option grid_t) :
  (∀ grid, navigation_grid = Some grid → rectangular grid ∧ binary grid) →
  ∃ dd, calculate_distance_matrix products entry_point navigation_grid = Return dd ∧
    dd_entry dd = entry_point ∧ dd_grid dd = navigation_grid ∧
    (∀ k, dict_get (dd_locations dd) k = located products entry_point k) ∧
    ∀ p q d,
      dd_distances dd !! (p, q) = Some d ↔
      ∃ cp cq, located products entry_point p = Some cp ∧
               located products entry_point q = Some cq ∧
               cell_distance navigation_grid cp cq d.
Proof. apply distance_table_spec. Qed.

Definition two_products : list Product :=
  [ mk_product "Product_001" "electronics" 1%Q 2%Q false "A" (1, 5) [];
    mk_product "Product_002" "food" 1%Q 2%Q false "B" (5, 5) [] ].

Lemma distance_matrix_exact_witness :
  ∃ dd, calculate_distance_matrix two_products (3, 1) (Some test_grid) = Return dd ∧
    dd_entry dd = (3, 1) ∧ dd_grid dd = Some test_grid ∧
    (∀ k, dict_get (dd_locations dd) k = located two_products (3, 1) k) ∧
    ∀ p q d,
      dd_distances dd !! (p, q) = Some d ↔
      ∃ cp cq, located two_products (3, 1) p = Some cp ∧
               located two_products (3, 1) q = Some cq ∧
               cell_distance (Some test_grid) cp cq d.
Proof.
  apply (distance_matrix_exact two_products (3, 1) (Some test_grid)).
  intros grid [= <-]. split; apply (bool_decide_unpack _); vm_compute; reflexivity.
Defined.

(** X8.  Every tabulated distance is at least the Manhattan distance of
    the two located cells; in particular it is never negative. *)
Theorem distance_matrix_lower_bound (products : list Product)
    (entry_point : cell) (navigation_grid : option grid_t)
    (dd : distance_data) (p q : string) (d : Z) :
  (∀ grid, navigation_grid = Some grid → rectangular grid ∧ binary grid) →
  calculate_distance_matrix products entry_point navigation_grid = Return dd →
  dd_distances dd !! (p, q) = Some d →
  ∃ cp cq, located products entry_point p = Some cp ∧
           located products entry_point q = Some cq ∧
           0 ≤ manhattan_distance cp cq ≤ d.
Proof.
  intros Hgrid Hdd Hd.
  destruct (distance_table_spec products entry_point navigation_grid Hgrid)
    as (dd' & Hdd' & _ & _ & _ & Htable).
  rewrite Hdd in Hdd'. injection Hdd' as <-.
  apply Htable in Hd as (cp & cq & Hp & Hq & Hd). exists cp, cq.
  split; [done|]. split; [done|].
  split; [unfold manhattan_distance; lia|].
  unfold cell_distance in Hd. destruct navigation_grid as [grid|]; [|lia].
  destruct (Hgrid grid eq_refl) as [Hrect _].
  destruct (calculate_distance_ge_manhattan cp cq grid Hrect) as (d' & Hd' & Hle).
  congruence.
Qed.

Definition across_products : list Product :=
  [ mk_product "Product_003" "books" 1%Q 2%Q false "C" (3, 5) [] ].

Lemma distance_matrix_lower_bound_witness :
  ∃ cp cq, located across_products (3, 1) "entry" = Some cp ∧
           located across_products (3, 1) "Product_003" = Some cq ∧
           0 ≤ manhattan_distance cp cq ≤ 8.
Proof.
  eapply (distance_matrix_lower_bound across_products (3, 1) (Some test_grid)).
  - intros grid [= <-].
    split; apply (bool_decide_unpack _); vm_compute; reflexivity.
  - vm_compute. reflexivity.
  - vm_compute. reflexivity.
Defined.

End DistancesMore.

(** * Further properties of the trajectory builder *)

Module TrajectoryMore.
Import Astar AstarSpec AstarInv AstarTop AstarMore Collision TrajectorySpec.

(** ** The Manhattan path *)

(** [n] unit steps from [c] in the direction of [e]. *)
Definition toward (c e n : Z) : Z := if c <? e then c + n else c - n.

Lemma walk_x_spec fuel : ∀ cx cy ex,
  Z.abs (ex - cx) ≤ Z.of_nat fuel →
  ∃ path, walk_x fuel cx cy ex = (path, ex) ∧
          length path = Z.abs_nat (ex - cx) ∧
          ∀ i, (i < length path)%nat →
               path !! i = Some (toward cx ex (Z.of_nat i + 1), cy).
Proof.
  induction fuel as [|fuel IH]; intros cx cy ex Hfuel.
  - assert (cx = ex) as -> by lia. exists []. simpl.
    rewrite decide_True by done. split; [done|]. split; [lia|].
    intros i Hi. simpl in Hi. lia.
  - simpl. destruct (decide (cx = ex)) as [->|Hne].
    { exists []. split; [done|]. split; [simpl; lia|]. intros i Hi. simpl in Hi. lia. }
    set (cx' := if cx <? ex then cx + 1 else cx - 1).
    assert (Z.abs (ex - cx') = Z.abs (ex - cx) - 1) as Habs.
    { unfold cx'. destruct (Z.ltb_spec cx ex); lia. }
    destruct (IH cx' cy ex) as (path & -> & Hlen & Hat); [lia|].
    exists ((cx', cy) :: path). split; [done|]. split; [simpl; lia|].
    intros [|i] Hi; simpl.
    + unfold toward, cx'. destruct (cx <? ex); do 2 f_equal; lia.
    + rewrite Hat by (simpl in Hi; lia). do 2 f_equal.
      assert (i < Z.abs_nat (ex - cx'))%nat as Hi' by (simpl in Hi; lia).
      unfold toward, cx'.
      destruct (Z.ltb_spec cx ex);
        [destruct (Z.ltb_spec (cx + 1) ex)|destruct (Z.ltb_spec (cx - 1) ex)];
        unfold cx' in Hi'; destruct (cx <? ex) eqn:E; lia.
Qed.

Lemma walk_y_spec fuel : ∀ cx cy ey,
  Z.abs (ey - cy) ≤ Z.of_nat fuel →
  length (walk_y fuel cx cy ey) = Z.abs_nat (ey - cy) ∧
  ∀ i, (i < Z.abs_nat (ey - cy))%nat →
       walk_y fuel cx cy ey !! i = Some (cx, toward cy ey (Z.of_nat i + 1)).
Proof.
  induction fuel as [|fuel IH]; intros cx cy ey Hfuel.
  - assert (cy = ey) as -> by lia. simpl.
    rewrite decide_True by done. split; [simpl; lia|]. intros i Hi. lia.
  - simpl. destruct (decide (cy = ey)) as [->|Hne].
    { split; [simpl; lia|]. intros i Hi. lia. }
    set (cy' := if cy <? ey then cy + 1 else cy - 1).
    assert (Z.abs (ey - cy') = Z.abs (ey - cy) - 1) as Habs.
    { unfold cy'. destruct (Z.ltb_spec cy ey); lia. }
    destruct (IH cx cy' ey) as (Hlen & Hat); [lia|].
    split; [simpl; lia|].
    intros [|i] Hi; simpl.
    + unfold toward, cy'. destruct (cy <? ey); do 2 f_equal; lia.
    + rewrite Hat by lia. do 2 f_equal.
      assert (i < Z.abs_nat (ey - cy'))%nat as Hi' by lia.
      unfold toward, cy'.
      destruct (Z.ltb_spec cy ey);
        [destruct (Z.ltb_spec (cy + 1) ey)|destruct (Z.ltb_spec (cy - 1) ey)];
        unfold cy' in Hi'; destruct (cy <? ey) eqn:E; lia.
Qed.

Lemma manhattan_path_lookup (start end_ : cell) (i : nat) :
  let nx := Z.abs_nat (end_.1 - start.1) in
  let ny := Z.abs_nat (end_.2 - start.2) in
  calculate_path_manhattan start end_ !! i =
    if decide (i < nx)%nat then
      Some (toward start.1 end_.1 (Z.of_nat i + 1), start.2)
    else if decide (i < nx + ny)%nat then
      Some (end_.1, toward start.2 end_.2 (Z.of_nat (i - nx) + 1))
    else None.
Proof.
  cbv zeta. unfold calculate_path_manhattan.
  destruct (walk_x_spec (Z.abs_nat (end_.1 - start.1)) start.1 start.2 end_.1)
    as (path & -> & Hlen & Hat); [lia|].
  destruct (walk_y_spec (Z.abs_nat (end_.2 - start.2)) end_.1 start.2 end_.2)
    as (Hlen' & Hat'); [lia|].
  unfold cell in *.
  destruct (decide (i < Z.abs_nat (end_.1 - start.1))%nat).
  - rewrite lookup_app_l by lia. apply Hat. lia.
  - rewrite lookup_app_r by lia. rewrite Hlen.
    destruct (decide (i < Z.abs_nat (end_.1 - start.1)
                          + Z.abs_nat (end_.2 - start.2))%nat).
    + apply Hat'. lia.
    + apply lookup_ge_None_2. lia.
Qed.

Lemma manhattan_path_length (start end_ : cell) :
  Z.of_nat (length (calculate_path_manhattan start end_))
  = manhattan_distance start end_.
Proof.
  unfold calculate_path_manhattan.
  destruct (walk_x_spec (Z.abs_nat (end_.1 - start.1)) start.1 start.2 end_.1)
    as (path & -> & Hlen & _); [lia|].
  destruct (walk_y_spec (Z.abs_nat (end_.2 - start.2)) end_.1 start.2 end_.2)
    as (Hlen' & _); [lia|].
  rewrite length_app, Hlen, Hlen'. unfold manhattan_distance. lia.
Qed.

(** X9.  [calculate_path_manhattan] makes as many steps as the Manhattan
    distance, first along x and then along y, one unit per step; the start
    cell itself is not part of the path. *)
Theorem manhattan_path_exact (start end_ : cell) :
  Z.of_nat (length (calculate_path_manhattan start end_))
    = manhattan_distance start end_ ∧
  ∀ i : nat,
    calculate_path_manhattan start end_ !! i =
      if decide (i < Z.abs_nat (end_.1 - start.1))%nat then
        Some (toward start.1 end_.1 (Z.of_nat i + 1), start.2)
      else if decide (i < Z.abs_nat (end_.1 - start.1)
                         + Z.abs_nat (end_.2 - start.2))%nat then
        Some (end_.1, toward start.2 end_.2
                        (Z.of_nat (i - Z.abs_nat (end_.1 - start.1)) + 1))
      else None.
Proof.
  split; [apply manhattan_path_length|].
  intros i. apply manhattan_path_lookup.
Qed.

(** ** Chains *)

(** From [c], each cell of [P] is the previous one or a neighbour of it. *)
Fixpoint chain (c : cell) (P : list cell) : Prop :=
  match P with
  | [] => True
  | x :: P' => (c = x ∨ adjacent4 c x) ∧ chain x P'
  end.

Lemma chain_app c P Q :
  chain c (P ++ Q) ↔ chain c P ∧ chain (default c (last P)) Q.
Proof.
  revert c. induction P as [|x P IH]; intros c; simpl; [tauto|].
  rewrite IH. destruct P as [|y P]; simpl; [tauto|].
  change (last (x :: y :: P)) with (last (y :: P)).
  destruct (last (y :: P)) eqn:E; simpl; [tauto|].
  by apply last_None in E.
Qed.

Lemma chain_replicate c n : chain c (replicate n c).
Proof. induction n; simpl; auto. Qed.

Lemma chain_lookup c P i a b :
  chain c P → P !! i = Some a → P !! S i = Some b → a = b ∨ adjacent4 a b.
Proof.
  revert c i. induction P as [|x P IH]; intros c i Hc Ha Hb; [done|].
  destruct Hc as [_ Hc]. destruct i as [|i].
  - injection Ha as <-. destruct P as [|y P]; [done|].
    injection Hb as <-. by destruct Hc.
  - by eapply IH.
Qed.

Lemma steps_ok_chain grid c P : steps_ok grid (c :: P) → chain c P.
Proof.
  revert c. induction P as [|x P IH]; intros c; simpl; [done|].
  intros (Hadj & _ & Hok). split; [by right|]. by apply IH.
Qed.

Lemma manhattan_path_chain s e :
  chain s (calculate_path_manhattan s e) ∧
  last (calculate_path_manhattan s e) = (if decide (s = e) then None else Some e).
Proof.
  pose proof (manhattan_path_lookup s e) as Hat.
  pose proof (manhattan_path_length s e) as Hlen.
  set (P := calculate_path_manhattan s e) in *. simpl in Hat.
  set (nx := Z.abs_nat (e.1 - s.1)) in *. set (ny := Z.abs_nat (e.2 - s.2)) in *.
  assert (length P = (nx + ny)%nat) as Hlen'.
  { unfold manhattan_distance in Hlen. lia. }
  split.
  - assert (∀ i a, P !! i = Some a →
              Z.abs (a.1 - s.1) + Z.abs (a.2 - s.2) = Z.of_nat i + 1) as Hdist.
    { intros i a. rewrite Hat. unfold toward.
      repeat destruct decide; [| |done]; intros [= <-]; simpl;
        [destruct (Z.ltb_spec s.1 e.1)|destruct (Z.ltb_spec s.2 e.2)]; lia. }
    assert (∀ i a b, P !! i = Some a → P !! S i = Some b → adjacent4 a b) as Hadj.
    { intros i a b. rewrite !Hat. unfold toward, adjacent4.
      repeat destruct decide; try done; try lia; intros [= <-] [= <-]; simpl;
        try (destruct (Z.ltb_spec s.1 e.1)); try (destruct (Z.ltb_spec s.2 e.2));
        lia. }
    clearbody P. clear Hat Hlen Hlen'.
    destruct P as [|x P]; [done|]. split.
    + right. specialize (Hdist 0%nat x eq_refl). unfold adjacent4. lia.
    + clear Hdist. revert x Hadj. induction P as [|y P IH]; intros x Hadj; [done|].
      split; [right; by apply (Hadj 0%nat)|].
      apply IH. intros i a b. apply (Hadj (S i)).
  - destruct (decide (s = e)) as [->|Hne].
    + destruct P; [done|]. simpl in Hlen'. lia.
    + rewrite last_lookup, Hat, Hlen'.
      destruct s as [sx sy], e as [ex ey]. simpl in *. unfold toward.
      assert (sx ≠ ex ∨ sy ≠ ey) as Hdiff
        by (destruct (decide (sx = ex)); [right|left]; congruence).
      repeat destruct decide; try lia; do 2 f_equal;
        try (destruct (Z.ltb_spec sx ex)); try (destruct (Z.ltb_spec sy ey)); lia.
Qed.

(** What [calculate_path] returns: a chain from [s] that ends at [e]. *)
Lemma calculate_path_chain s e navigation_grid P :
  calculate_path s e navigation_grid = Return P →
  chain s P ∧ default s (last P) = e.
Proof.
  assert (chain s (calculate_path_manhattan s e) ∧
          default s (last (calculate_path_manhattan s e)) = e) as Hman.
  { destruct (manhattan_path_chain s e) as [Hc Hl]. split; [done|].
    rewrite Hl. by destruct decide. }
  unfold calculate_path. destruct navigation_grid as [grid|].
  - destruct (astar_path s e grid) as [[p|]|] eqn:Hp; simpl; [| |done].
    + intros [= <-]. destruct (decide (s = e)) as [->|Hne].
      * unfold astar_path in Hp. rewrite decide_True in Hp by done.
        injection Hp as <-. simpl. auto.
      * destruct (astar_path_found _ _ _ _ Hp Hne)
          as (vs & _ & _ & _ & Hhd & Hlast & Hok & _).
        destruct p as [|x p]; [done|]. injection Hhd as ->.
        split; [|by rewrite Hlast].
        simpl. split; [by left|]. by eapply steps_ok_chain.
    + by intros [= <-].
  - by intros [= <-].
Qed.

(** ** The builder keeps a chain *)

Lemma last_app_default (c : cell) (P Q : list cell) :
  default c (last (P ++ Q)) = default (default c (last P)) (last Q).
Proof.
  destruct Q as [|q Q] using rev_ind; [by rewrite app_nil_r|].
  by rewrite app_assoc, !last_snoc.
Qed.

(** How many times the route makes the agent drop its load: once at every
    change of trip and once after the last product. *)
Fixpoint drop_offs (route : list RouteItem) : nat :=
  match route with
  | [] => 0
  | item :: rest =>
      match rest with
      | [] => 1
      | next :: _ =>
          (if decide (get_trip_number next ≠ get_trip_number item) then 1 else 0)
          + drop_offs rest
      end
  end.

Lemma drop_offs_cons item next rest :
  drop_offs (item :: next :: rest)
  = ((if decide (get_trip_number next ≠ get_trip_number item) then 1 else 0)
     + drop_offs (next :: rest))%nat.
Proof. done. Qed.

Section chain_builder.
Context (entry_point : cell) (start_delay : Z)
        (navigation_grid : option grid_t) (assigned_depot : cell) (t0 : Z).

(** The builder's state after the stamps [cells] and [k] drop-offs. *)
Record tinv (cells : list cell) (k : nat) (st : tstate) : Prop := mk_tinv {
  tinv_at : at_stamps t0 cells st;
  tinv_chain : chain entry_point cells;
  tinv_pos : default entry_point (last cells) = current_pos st;
  tinv_depots : depot_positions st = replicate k assigned_depot
}.

(** The same once the route is finished: the clock is no longer read. *)
Definition tfin (cells : list cell) (k : nat) (st : tstate) : Prop :=
  stamped t0 cells (trajectory st) ∧ chain entry_point cells ∧
  depot_positions st = replicate k assigned_depot.

Lemma stamp_until_chain target path : ∀ c cells st,
  at_stamps t0 cells st → chain c path →
  default c (last path) = target →
  ∃ walked, at_stamps t0 (cells ++ walked) (stamp_until target path st) ∧
            chain c walked ∧ default c (last walked) = target ∧
            depot_positions (stamp_until target path st) = depot_positions st.
Proof.
  induction path as [|p path IH]; intros c cells st Hat Hc Hl; simpl.
  - exists []. rewrite app_nil_r. done.
  - destruct Hc as [Hcp Hc]. destruct (decide (p = target)) as [->|Hne].
    + exists [target]. split; [by apply stamp_at|]. simpl. done.
    + destruct (IH p (cells ++ [p]) (stamp p st)) as (walked & Hw & Hcw & Hlw & Hd);
        [by apply stamp_at|done| |].
      { destruct path as [|q path]; [done|].
        change (last (p :: q :: path)) with (last (q :: path)) in Hl.
        destruct (last (q :: path)) eqn:E; [done|]. by apply last_None in E. }
      exists (p :: walked). rewrite <- app_assoc in Hw. split; [done|].
      split; [done|]. split; [|done].
      destruct walked as [|w walked]; [done|].
      change (last (p :: w :: walked)) with (last (w :: walked)).
      destruct (last (w :: walked)) eqn:E; [done|]. by apply last_None in E.
Qed.

Lemma stamp_path_depots path : ∀ st,
  depot_positions (stamp_path path st) = depot_positions st ∧
  current_pos (stamp_path path st) = current_pos st.
Proof.
  unfold stamp_path. induction path as [|p path IH]; intros st; simpl; [done|].
  by rewrite !(proj1 (IH _)), !(proj2 (IH _)).
Qed.

Lemma dwell_loop_depots fuel visit_time target : ∀ st,
  depot_positions (dwell_loop fuel visit_time target st) = depot_positions st.
Proof.
  induction fuel as [|fuel IH]; intros st; simpl; destruct (_ <=? _); try done.
  by rewrite IH.
Qed.

Lemma depot_return_inv cells k st st' :
  tinv cells k st →
  depot_return assigned_depot navigation_grid st = Return st' →
  ∃ cells', tinv cells' (S k) st'.
Proof.
  intros [Hat Hc Hp Hd]. unfold depot_return.
  destruct (calculate_path _ _ _) as [depot_path|] eqn:Hpath; [|done]. simpl.
  intros [= <-].
  destruct (calculate_path_chain _ _ _ _ Hpath) as [Hcp Hlp].
  exists (cells ++ depot_path ++ [assigned_depot; assigned_depot]).
  pose proof (stamp_path_at depot_path _ _ _ Hat) as H1.
  apply (stamp_at _ _ _ assigned_depot) in H1.
  apply (stamp_at _ _ _ assigned_depot) in H1.
  rewrite <- !app_assoc in H1. split; simpl.
  - exact H1.
  - apply chain_app. split; [done|]. rewrite Hp. apply chain_app. split; [done|].
    rewrite Hlp. simpl. auto.
  - by rewrite !last_app_default.
  - rewrite (proj1 (stamp_path_depots _ _)), Hd.
    change (assigned_depot :: replicate k assigned_depot)
      with (replicate (S k) assigned_depot).
    by rewrite replicate_S_end.
Qed.

Lemma visit_products_chain route : ∀ cells k st st',
  route ≠ [] → tinv cells k st →
  visit_products entry_point start_delay navigation_grid assigned_depot route st
    = Return st' →
  ∃ cells', tfin cells' (k + drop_offs route) st'.
Proof.
  induction route as [|item rest IH]; intros cells k st st' Hne Hinv; [done|].
  destruct Hinv as [Hat Hc Hp Hd].
  cbn [visit_products]. unfold visit_product.
  set (target := p_pickup_location (k_product_data (r_pick item))).
  destruct (calculate_path (current_pos st) target navigation_grid)
    as [path|] eqn:Hpath; [|done].
  cbn [mbind py_mbind py_bind].
  destruct (calculate_path_chain _ _ _ _ Hpath) as [Hcp Hlp].
  destruct (stamp_until_chain target path _ _ _ Hat Hcp Hlp)
    as (walked & H1 & Hcw & Hlw & Hd1).
  destruct (dwell_loop_at (r_visit_time item + start_delay) target
              (Z.to_nat (r_visit_time item + start_delay
                         - current_time (stamp_until target path st) + 1))
              _ _ _ H1) as [n H2].
  fold (dwell (r_visit_time item + start_delay) target
              (stamp_until target path st)) in H2.
  assert (tinv ((cells ++ walked) ++ replicate n target) k
            (set_pos target (dwell (r_visit_time item + start_delay) target
                                   (stamp_until target path st)))) as H3.
  { split.
    - by apply set_pos_at.
    - apply chain_app. split.
      + apply chain_app. split; [done|]. by rewrite Hp.
      + rewrite last_app_default, Hp, Hlw. apply chain_replicate.
    - simpl. rewrite !last_app_default, Hp, Hlw.
      destruct n as [|n]; [done|].
      by rewrite replicate_S_end, last_snoc.
    - simpl. unfold dwell. by rewrite dwell_loop_depots, Hd1. }
  set (st3 := set_pos target _) in *.
  destruct rest as [|next rest].
  - (* the last product *)
    destruct (depot_return assigned_depot navigation_grid st3) as [st4|] eqn:H4;
      [|done].
    cbn [mbind py_mbind py_bind].
    destruct (depot_return_inv _ _ _ _ H3 H4) as [cells4 [Hat4 Hc4 Hp4 Hd4]].
    destruct (calculate_path (current_pos st4) entry_point navigation_grid)
      as [entry_path|] eqn:Hep; [|done].
    cbn [mbind py_mbind py_bind visit_products]. intros [= <-].
    destruct (calculate_path_chain _ _ _ _ Hep) as [Hce Hle].
    pose proof (stamp_path_at entry_path _ _ _ Hat4) as [Ht5 H5].
    exists ((cells4 ++ entry_path) ++ [entry_point]). split; [|split]; simpl.
    + rewrite Ht5. by apply stamped_insert.
    + apply chain_app. split.
      * apply chain_app. split; [done|]. by rewrite Hp4.
      * rewrite last_app_default, Hp4, Hle. simpl. auto.
    + rewrite (proj1 (stamp_path_depots _ _)), Hd4. f_equal. lia.
  - (* another product follows *)
    destruct (decide (get_trip_number next ≠ get_trip_number item)) as [Hchg|Hsame].
    + destruct (depot_return assigned_depot navigation_grid st3) as [st4|] eqn:H4;
        [|done].
      cbn [mbind py_mbind py_bind]. intros Hrest.
      destruct (depot_return_inv _ _ _ _ H3 H4) as [cells4 Hinv4].
      destruct (IH _ _ _ _ ltac:(done) Hinv4 Hrest) as [cells' Hfin].
      exists cells'. rewrite drop_offs_cons, decide_True by done.
      replace (k + (1 + drop_offs (next :: rest)))%nat
        with (S k + drop_offs (next :: rest))%nat by lia.
      exact Hfin.
    + cbn [mbind py_mbind py_bind]. intros Hrest.
      destruct (IH _ _ _ _ ltac:(done) H3 Hrest) as [cells' Hfin].
      exists cells'. rewrite drop_offs_cons, decide_False by done.
      exact Hfin.
Qed.
End chain_builder.

(** What the builder returns, for any route. *)
Lemma trajectory_cells agent products_route entry_point start_delay
    navigation_grid assigned_depot traj depots :
  calculate_agent_trajectory agent products_route entry_point start_delay
    navigation_grid assigned_depot = Return (traj, depots) →
  ∃ cells, stamped start_delay cells traj ∧ chain entry_point cells ∧
           depots = replicate (drop_offs products_route)
                              (default (6, 5) assigned_depot).
Proof.
  unfold calculate_agent_trajectory.
  destruct (visit_products _ _ _ _ _ _) as [st'|] eqn:Hv; [|done]. simpl.
  intros [= <- <-]. destruct products_route as [|item rest].
  - simpl in Hv. injection Hv as <-. exists []. split; [|done].
    intros t. simpl. rewrite lookup_empty. by destruct decide.
  - eapply (visit_products_chain entry_point start_delay navigation_grid
                (default (6, 5) assigned_depot) start_delay (item :: rest)
                [] 0%nat) in Hv as (cells' & Hs & Hc & Hd); [by exists cells'|done|].
    split; simpl; [|done..]. split; simpl; [lia|].
    intros t. rewrite lookup_empty. by destruct decide.
Qed.

Lemma trajectory_returns agent products_route entry_point start_delay
    navigation_grid assigned_depot :
  grid_ok navigation_grid →
  ∃ traj depots,
    calculate_agent_trajectory agent products_route entry_point start_delay
      navigation_grid assigned_depot = Return (traj, depots).
Proof.
  intros Hgrid. unfold calculate_agent_trajectory.
  destruct products_route as [|item rest]; [simpl; eauto|].
  set (st0 := {| trajectory := ∅; depot_positions := [];
                 current_pos := entry_point; current_time := start_delay |}).
  assert (at_stamps start_delay [] st0) as Hat.
  { split; simpl; [lia|]. intros t. rewrite lookup_empty. by destruct decide. }
  destruct (visit_products_at entry_point start_delay navigation_grid
              (default (6, 5) assigned_depot) Hgrid (item :: rest)
              start_delay [] st0 ltac:(done) Hat)
    as (st' & _ & _ & _ & -> & _).
  simpl. eauto.
Qed.

(** X10.  The agent never jumps: the first stamped cell is the entry point
    or a neighbour of it, and from one minute to the next the agent stays
    where it is or moves to a neighbouring cell.  The navigation grid, when
    there is one, is rectangular. *)
Theorem trajectory_continuous (agent : Agent) (products_route : list RouteItem)
    (entry_point : cell) (start_delay : Z) (navigation_grid : option grid_t)
    (assigned_depot : option cell) :
  grid_ok navigation_grid →
  ∃ traj depots,
    calculate_agent_trajectory agent products_route entry_point start_delay
      navigation_grid assigned_depot = Return (traj, depots) ∧
    (∀ c, traj !! start_delay = Some c →
          c = entry_point ∨ adjacent4 entry_point c) ∧
    (∀ t a b, traj !! t = Some a → traj !! (t + 1) = Some b →
              a = b ∨ adjacent4 a b).
Proof.
  intros Hgrid.
  destruct (trajectory_returns agent products_route entry_point start_delay
              navigation_grid assigned_depot Hgrid) as (traj & depots & Hret).
  exists traj, depots. split; [done|].
  apply trajectory_cells in Hret as (cells & Hs & Hc & _). split.
  - intros c. rewrite Hs, decide_True, Z.sub_diag by lia. simpl.
    destruct cells as [|x cells]; [done|]. intros [= <-].
    destruct Hc as [[->|?] _]; auto.
  - intros t a b. rewrite !Hs.
    destruct (decide (start_delay ≤ t)); [|done].
    rewrite decide_True by lia.
    replace (Z.to_nat (t + 1 - start_delay)) with (S (Z.to_nat (t - start_delay)))
      by lia.
    by apply chain_lookup with (c := entry_point).
Qed.

Definition picker : Agent :=
  {| a_id := "H1"; a_type := "human"; a_capacity_weight := 35%Q;
     a_capacity_volume := 50; a_speed := 1.5%Q; a_no_fragile := false;
     a_max_item_weight := None |}.

Definition stop (loc : cell) (visit trip : Z) : RouteItem :=
  {| r_pick := mk_pick "Product_001" "Order_001"
                 (mk_product "Product_001" "electronics" 1%Q 2%Q false "A" loc [])
                 (12, 0) "standard";
     r_visit_time := visit; r_trip_number := Some trip |}.

Definition two_trips : list RouteItem := [stop (1, 5) 9 1; stop (5, 5) 30 2].

Lemma trajectory_continuous_witness :
  ∃ traj depots,
    calculate_agent_trajectory picker two_trips (3, 1) 4 (Some test_grid)
      (Some (5, 1)) = Return (traj, depots) ∧
    (∀ c, traj !! 4 = Some c → c = (3, 1) ∨ adjacent4 (3, 1) c) ∧
    (∀ t a b, traj !! t = Some a → traj !! (t + 1) = Some b →
              a = b ∨ adjacent4 a b).
Proof.
  apply (trajectory_continuous picker two_trips (3, 1) 4 (Some test_grid)
           (Some (5, 1))).
  intros grid [= <-]. apply (bool_decide_unpack _). vm_compute. reflexivity.
Defined.

(** X11.  The drop-offs that are recorded: one at every change of trip
    number and one after the last product, all at the assigned depot
    ([(6, 5)] when none is assigned); none for an empty route, whose
    trajectory is empty too. *)
Theorem depot_positions_exact (agent : Agent) (products_route : list RouteItem)
    (entry_point : cell) (start_delay : Z) (navigation_grid : option grid_t)
    (assigned_depot : option cell) :
  grid_ok navigation_grid →
  ∃ traj depots,
    calculate_agent_trajectory agent products_route entry_point start_delay
      navigation_grid assigned_depot = Return (traj, depots) ∧
    depots = replicate (drop_offs products_route) (default (6, 5) assigned_depot) ∧
    (products_route = [] → traj = ∅).
Proof.
  intros Hgrid.
  destruct (trajectory_returns agent products_route entry_point start_delay
              navigation_grid assigned_depot Hgrid) as (traj & depots & Hret).
  exists traj, depots. split; [done|]. split.
  - by apply trajectory_cells in Hret as (cells & _ & _ & ->).
  - intros ->. unfold calculate_agent_trajectory in Hret. simpl in Hret.
    by injection Hret as <- <-.
Qed.

Lemma depot_positions_exact_witness :
  ∃ traj depots,
    calculate_agent_trajectory picker two_trips (3, 1) 4 (Some test_grid)
      None = Return (traj, depots) ∧
    depots = replicate (drop_offs two_trips) (default (6, 5) None) ∧
    (two_trips = [] → traj = ∅).
Proof.
  apply (depot_positions_exact picker two_trips (3, 1) 4 (Some test_grid) None).
  intros grid [= <-]. apply (bool_decide_unpack _). vm_compute. reflexivity.
Defined.

(** ** A start delay shifts the whole trajectory *)

(** [st'] is [st] with every stamp and the clock moved by [d] minutes. *)
Definition shifted (d : Z) (st st' : tstate) : Prop :=
  current_time st' = current_time st + d ∧
  current_pos st' = current_pos st ∧
  depot_positions st' = depot_positions st ∧
  ∀ t, trajectory st' !! (t + d) = trajectory st !! t.

(** Two outcomes that agree: related results, or the same exception. *)
Definition py_rel {A : Type} (R : A → A → Prop) (m m' : py A) : Prop :=
  match m, m' with
  | Return a, Return a' => R a a'
  | Raise e, Raise e' => e = e'
  | _, _ => False
  end.

Section shift.
Context (entry_point : cell) (navigation_grid : option grid_t)
        (assigned_depot : cell) (d : Z).

Lemma stamp_shifted pos st st' :
  shifted d st st' → shifted d (stamp pos st) (stamp pos st').
Proof.
  intros (Ht & Hp & Hd & Htr). split; [simpl; lia|]. split; [done|].
  split; [done|]. intros t. simpl. rewrite Ht, !lookup_insert.
  destruct (decide (current_time st = t)) as [->|Hne].
  - by rewrite decide_True.
  - rewrite decide_False by lia. apply Htr.
Qed.

Lemma stamp_path_shifted path : ∀ st st',
  shifted d st st' → shifted d (stamp_path path st) (stamp_path path st').
Proof.
  unfold stamp_path. induction path as [|p path IH]; intros st st' H; simpl;
    [done|]. by apply IH, stamp_shifted.
Qed.

Lemma stamp_until_shifted target path : ∀ st st',
  shifted d st st' →
  shifted d (stamp_until target path st) (stamp_until target path st').
Proof.
  induction path as [|p path IH]; intros st st' H; simpl; [done|].
  destruct decide; [by apply stamp_shifted|]. by apply IH, stamp_shifted.
Qed.

Lemma dwell_loop_shifted fuel visit_time target : ∀ st st',
  shifted d st st' →
  shifted d (dwell_loop fuel visit_time target st)
            (dwell_loop fuel (visit_time + d) target st').
Proof.
  induction fuel as [|fuel IH]; intros st st' H; simpl;
    pose proof H as (Ht & _); rewrite Ht;
    destruct (Z.leb_spec (current_time st) visit_time);
    destruct (Z.leb_spec (current_time st + d) (visit_time + d)); try lia;
    try done.
  by apply IH, stamp_shifted.
Qed.

Lemma dwell_shifted visit_time target st st' :
  shifted d st st' →
  shifted d (dwell visit_time target st) (dwell (visit_time + d) target st').
Proof.
  intros H. unfold dwell. pose proof H as (Ht & _). rewrite Ht.
  replace (visit_time + d - (current_time st + d) + 1)
    with (visit_time - current_time st + 1) by lia.
  by apply dwell_loop_shifted.
Qed.

Lemma set_pos_shifted pos st st' :
  shifted d st st' → shifted d (set_pos pos st) (set_pos pos st').
Proof. intros (Ht & Hp & Hd & Htr). done. Qed.

Lemma depot_return_shifted st st' :
  shifted d st st' →
  py_rel (shifted d) (depot_return assigned_depot navigation_grid st)
                     (depot_return assigned_depot navigation_grid st').
Proof.
  intros H. unfold depot_return. pose proof H as (_ & Hp & _). rewrite Hp.
  destruct (calculate_path _ _ _) as [depot_path|]; simpl; [|done].
  pose proof (stamp_shifted assigned_depot _ _
                (stamp_shifted assigned_depot _ _
                   (stamp_path_shifted depot_path _ _ H)))
    as (Ht2 & _ & Hd2 & Htr2).
  split; [exact Ht2|]. split; [done|]. split; [|exact Htr2].
  simpl in Hd2 |- *. by rewrite Hd2.
Qed.

Lemma visit_product_shifted start_delay item rest st st' :
  shifted d st st' →
  py_rel (shifted d)
    (visit_product entry_point start_delay navigation_grid assigned_depot
                   item rest st)
    (visit_product entry_point (start_delay + d) navigation_grid assigned_depot
                   item rest st').
Proof.
  intros H. unfold visit_product. pose proof H as (_ & Hp & _). rewrite Hp.
  destruct (calculate_path _ _ _) as [path|]; [|done].
  cbn [mbind py_mbind py_bind].
  set (target := p_pickup_location (k_product_data (r_pick item))).
  assert (shifted d
    (set_pos target (dwell (r_visit_time item + start_delay) target
                           (stamp_until target path st)))
    (set_pos target (dwell (r_visit_time item + (start_delay + d)) target
                           (stamp_until target path st')))) as H3.
  { apply set_pos_shifted.
    replace (r_visit_time item + (start_delay + d))
      with (r_visit_time item + start_delay + d) by lia.
    by apply dwell_shifted, stamp_until_shifted. }
  destruct rest as [|next rest].
  - pose proof (depot_return_shifted _ _ H3) as H4.
    destruct (depot_return _ _ (set_pos target (dwell (r_visit_time item + start_delay) _ _)))
      as [st4|e];
      destruct (depot_return _ _ (set_pos target (dwell (r_visit_time item + (start_delay + d)) _ _)))
      as [st4'|e']; try done.
    cbn [mbind py_mbind py_bind]. pose proof H4 as (_ & Hp4 & _). rewrite Hp4.
    destruct (calculate_path _ _ _) as [entry_path|]; [|done].
    cbn [mbind py_mbind py_bind].
    pose proof (stamp_path_shifted entry_path _ _ H4) as (Ht5 & Hp5 & Hd5 & Htr5).
    split; [exact Ht5|]. split; [exact Hp5|]. split; [exact Hd5|].
    intros t. simpl. rewrite Ht5, !lookup_insert.
    destruct (decide (current_time (stamp_path entry_path st4) = t)) as [->|Hne].
    + by rewrite decide_True.
    + rewrite decide_False by lia. apply Htr5.
  - destruct decide; [by apply depot_return_shifted|exact H3].
Qed.

Lemma visit_products_shifted start_delay route : ∀ st st',
  shifted d st st' →
  py_rel (shifted d)
    (visit_products entry_point start_delay navigation_grid assigned_depot
                    route st)
    (visit_products entry_point (start_delay + d) navigation_grid
                    assigned_depot route st').
Proof.
  induction route as [|item rest IH]; intros st st' H; [exact H|].
  cbn [visit_products].
  pose proof (visit_product_shifted start_delay item rest _ _ H) as H1.
  destruct (visit_product _ start_delay _ _ _ _ st) as [st1|e];
    destruct (visit_product _ (start_delay + d) _ _ _ _ st') as [st1'|e'];
    try done.
  cbn [mbind py_mbind py_bind]. by apply IH.
Qed.
End shift.

(** X12.  Delaying the start by [d] minutes moves the whole trajectory by
    [d] minutes and changes nothing else: the same cells at the same
    offsets, the same drop-offs, the same exception if one is raised. *)
Theorem trajectory_shift (agent : Agent) (products_route : list RouteItem)
    (entry_point : cell) (start_delay d : Z) (navigation_grid : option grid_t)
    (assigned_depot : option cell) :
  py_rel (λ r r', r'.2 = r.2 ∧ ∀ t, r'.1 !! (t + d) = r.1 !! t)
    (calculate_agent_trajectory agent products_route entry_point start_delay
       navigation_grid assigned_depot)
    (calculate_agent_trajectory agent products_route entry_point
       (start_delay + d) navigation_grid assigned_depot).
Proof.
  unfold calculate_agent_trajectory.
  set (st0 := {| trajectory := ∅; depot_positions := [];
                 current_pos := entry_point; current_time := start_delay |}).
  set (st0' := {| trajectory := ∅; depot_positions := [];
                  current_pos := entry_point; current_time := start_delay + d |}).
  assert (shifted d st0 st0') as H0.
  { split; [done|]. split; [done|]. split; [done|]. intros t. simpl.
    by rewrite !lookup_empty. }
  pose proof (visit_products_shifted entry_point navigation_grid
                (default (6, 5) assigned_depot) d start_delay products_route
                _ _ H0) as H.
  destruct (visit_products _ start_delay _ _ _ st0) as [st|e];
    destruct (visit_products _ (start_delay + d) _ _ _ st0') as [st'|e'];
    try done.
  simpl. destruct H as (_ & _ & Hd & Htr). done.
Qed.

End TrajectoryMore.

(** * Further properties of the collision resolver *)

Module CollisionMore.
Import Astar AstarSpec AstarTop Collision TrajectorySpec CollisionSpec
       CollisionLoop TrajectoryMore.

(** ** Detection *)

(** Python visits every element of a set: the enumeration order is not
    specified, its contents are. *)
Definition enumerates (set_order : gset Z → list Z) : Prop :=
  ∀ s t, t ∈ set_order s ↔ t ∈ s.

Lemma elements_enumerates : enumerates elements.
Proof. intros s t. apply elem_of_elements. Qed.

(** No two different agents are in the same cell at the same minute. *)
Definition conflict_free (trajs : list (string * gmap Z cell)) : Prop :=
  ∀ i j a1 t1 a2 t2 t p1 p2,
    i ≠ j → trajs !! i = Some (a1, t1) → trajs !! j = Some (a2, t2) →
    t1 !! t = Some p1 → t2 !! t = Some p2 → p1 ≠ p2.

Section detection.
Context (set_order : gset Z → list Z).
Hypothesis Hset : enumerates set_order.

Lemma pair_collisions_iff a1 t1 a2 t2 c :
  c ∈ pair_collisions set_order a1 t1 a2 t2 ↔
  ∃ t pos, c = (a1, a2, t, pos) ∧ t1 !! t = Some pos ∧ t2 !! t = Some pos.
Proof using Hset.
  unfold pair_collisions. rewrite list_elem_of_In, in_flat_map. split.
  - intros (t & _ & Hc). destruct (t1 !! t) as [p1|] eqn:E1; [|done].
    destruct (t2 !! t) as [p2|] eqn:E2; [|done].
    destruct decide as [<-|]; [|done]. destruct Hc as [<-|[]]. eauto.
  - intros (t & pos & -> & H1 & H2). exists t. split.
    + apply list_elem_of_In, Hset, elem_of_intersection.
      split; apply elem_of_dom; eauto.
    + rewrite H1, H2, decide_True by done. by left.
Qed.

Lemma detect_collisions_iff trajs c :
  c ∈ detect_collisions set_order trajs ↔
  ∃ i j a1 t1 a2 t2 t pos,
    (i < j)%nat ∧ trajs !! i = Some (a1, t1) ∧ trajs !! j = Some (a2, t2) ∧
    t1 !! t = Some pos ∧ t2 !! t = Some pos ∧ c = (a1, a2, t, pos).
Proof using Hset.
  induction trajs as [|[a1 t1] rest IH]; simpl.
  - split; [by intros ?%elem_of_nil|]. by intros (i & j & ? & ? & ? & ? & ? & ? & _ & ? & _).
  - rewrite elem_of_app, IH, list_elem_of_In, in_flat_map. split.
    + intros [([a2 t2] & Hin & Hc)|(i & j & b1 & u1 & b2 & u2 & t & pos & Hij & Hi & Hj & H)].
      * apply list_elem_of_In in Hin, Hc.
        apply pair_collisions_iff in Hc as (t & pos & -> & H1 & H2).
        apply list_elem_of_lookup in Hin as [j Hj].
        exists 0%nat, (S j), a1, t1, a2, t2, t, pos. split; [lia|]. done.
      * exists (S i), (S j), b1, u1, b2, u2, t, pos. split; [lia|]. done.
    + intros (i & j & b1 & u1 & b2 & u2 & t & pos & Hij & Hi & Hj & H1 & H2 & ->).
      destruct j as [|j]; [lia|]. destruct i as [|i].
      * left. injection Hi as -> ->. exists (b2, u2). split.
        -- apply list_elem_of_In. by eapply list_elem_of_lookup_2.
        -- apply list_elem_of_In, pair_collisions_iff. eauto.
      * right. exists i, j, b1, u1, b2, u2, t, pos. split; [lia|]. done.
Qed.

Lemma detect_collisions_nil trajs :
  detect_collisions set_order trajs = [] ↔ conflict_free trajs.
Proof using Hset.
  split.
  - intros Hnil i j a1 t1 a2 t2 t p1 p2 Hij Hi Hj H1 H2 <-.
    assert (∃ c, c ∈ detect_collisions set_order trajs) as [c Hc].
    { destruct (Nat.lt_trichotomy i j) as [?|[?|?]]; [|done|].
      - exists (a1, a2, t, p1). apply detect_collisions_iff.
        exists i, j, a1, t1, a2, t2, t, p1. done.
      - exists (a2, a1, t, p1). apply detect_collisions_iff.
        exists j, i, a2, t2, a1, t1, t, p1. done. }
    rewrite Hnil in Hc. by apply elem_of_nil in Hc.
  - intros Hfree. destruct (detect_collisions set_order trajs) as [|c cs] eqn:E;
      [done|].
    assert (c ∈ detect_collisions set_order trajs) as Hc by (rewrite E; left).
    apply detect_collisions_iff in Hc
      as (i & j & a1 & t1 & a2 & t2 & t & pos & Hij & Hi & Hj & H1 & H2 & _).
    exfalso. eapply (Hfree i j); eauto. lia.
Qed.
End detection.

(** X13.  [detect_collisions] reports exactly the meetings: a tuple
    [(a1, a2, t, pos)] is in the list iff [a1] comes before [a2] in the
    dictionary and both trajectories hold [pos] at minute [t]. *)
Theorem detect_collisions_exact (set_order : gset Z → list Z)
    (trajs : list (string * gmap Z cell)) (c : collision) :
  enumerates set_order →
  c ∈ detect_collisions set_order trajs ↔
  ∃ i j a1 t1 a2 t2 t pos,
    (i < j)%nat ∧ trajs !! i = Some (a1, t1) ∧ trajs !! j = Some (a2, t2) ∧
    t1 !! t = Some pos ∧ t2 !! t = Some pos ∧ c = (a1, a2, t, pos).
Proof. intros Hset. by apply detect_collisions_iff. Qed.

Definition crossing : list (string * gmap Z cell) :=
  [ ("R1"%string, {[ 0 := (1, 1); 1 := (2, 1); 2 := (3, 1) ]});
    ("H1"%string, {[ 1 := (3, 1); 2 := (3, 1); 3 := (3, 2) ]}) ].

Lemma detect_collisions_exact_witness :
  ("R1"%string, "H1"%string, 2, (3, 1)) ∈ detect_collisions elements crossing ↔
  ∃ i j a1 t1 a2 t2 t pos,
    (i < j)%nat ∧ crossing !! i = Some (a1, t1) ∧ crossing !! j = Some (a2, t2) ∧
    t1 !! t = Some pos ∧ t2 !! t = Some pos ∧
    ("R1"%string, "H1"%string, 2, (3, 1)) = (a1, a2, t, pos).
Proof.
  apply (detect_collisions_exact elements crossing).
  apply elements_enumerates.
Defined.

(** ** Depot cells *)

Lemma dict_set_fresh {K V : Type} `{EqDecision K} (d : list (K * V)) k v :
  k ∉ dict_keys d → dict_set d k v = d ++ [(k, v)].
Proof.
  unfold dict_keys. induction d as [|[k' v'] d IH]; simpl; [done|].
  intros [Hne Hk]%not_elem_of_cons. simpl in Hne.
  rewrite decide_False by done. by rewrite IH.
Qed.

Lemma available_depots n :
  filter (λ d, d ∉ take n AVAILABLE_DEPOTS) AVAILABLE_DEPOTS
  = drop n AVAILABLE_DEPOTS.
Proof.
  do 9 (destruct n as [|n]; [by vm_compute|]). by vm_compute.
Qed.

Lemma assign_depots_from agent_ids : ∀ n acc,
  NoDup agent_ids → (∀ k, k ∈ agent_ids → k ∉ dict_keys acc) →
  assign_depots agent_ids acc (take n AVAILABLE_DEPOTS)
  = acc ++ imap (λ i id, (id, default (6, 5) (AVAILABLE_DEPOTS !! (n + i)%nat)))
                agent_ids.
Proof.
  induction agent_ids as [|id ids IH]; intros n acc Hnd Hfresh;
    cbn [assign_depots imap].
  - by rewrite app_nil_r.
  - apply NoDup_cons in Hnd as [Hid Hnd].
    rewrite available_depots, Nat.add_0_r.
    destruct (AVAILABLE_DEPOTS !! n) as [dpt|] eqn:Hn.
    + unfold cell in *. rewrite (drop_S _ _ _ Hn), <- (take_S_r _ _ _ Hn).
      rewrite dict_set_fresh by (apply Hfresh; left).
      rewrite IH; [|done|].
      * rewrite <- app_assoc. simpl. do 2 f_equal.
        apply imap_ext. intros i x _. simpl. by rewrite Nat.add_succ_r.
      * intros k Hk. unfold dict_keys. rewrite fmap_app, elem_of_app. simpl.
        rewrite list_elem_of_singleton. intros [Hin| ->]; [|done].
        by apply (Hfresh k); [right|].
    + assert (take n AVAILABLE_DEPOTS = take (S n) AVAILABLE_DEPOTS) as Htake.
      { apply lookup_ge_None in Hn. unfold cell in *.
        by rewrite !take_ge by lia. }
      rewrite Htake.
      unfold cell in *. rewrite drop_ge by (by apply lookup_ge_None).
      rewrite dict_set_fresh by (apply Hfresh; left).
      rewrite IH; [|done|].
      * rewrite <- app_assoc. simpl. do 2 f_equal.
        apply imap_ext. intros i x _. simpl. by rewrite Nat.add_succ_r.
      * intros k Hk. unfold dict_keys. rewrite fmap_app, elem_of_app. simpl.
        rewrite list_elem_of_singleton. intros [Hin| ->]; [|done].
        by apply (Hfresh k); [right|].
Qed.

Lemma assign_depots_imap agent_ids :
  NoDup agent_ids →
  assign_depots agent_ids [] []
  = imap (λ i id, (id, default (6, 5) (AVAILABLE_DEPOTS !! i))) agent_ids.
Proof.
  intros Hnd.
  apply (assign_depots_from agent_ids 0 [] Hnd).
  intros k _. apply not_elem_of_nil.
Qed.

(** X14.  Depot cells: the i-th agent of the plan gets the i-th of the
    eight cells around the preparation point, and every agent from the
    ninth on gets [(6, 5)]; so the first eight agents have pairwise
    different depot cells. *)
Theorem assign_depots_exact (agent_ids : list string) :
  NoDup agent_ids →
  assign_depots agent_ids [] []
  = imap (λ i id, (id, default (6, 5) (AVAILABLE_DEPOTS !! i))) agent_ids ∧
  ∀ i j a b da db,
    i ≠ j → (i < 8)%nat →
    assign_depots agent_ids [] [] !! i = Some (a, da) →
    assign_depots agent_ids [] [] !! j = Some (b, db) →
    da ≠ db.
Proof.
  intros Hnd. split; [by apply assign_depots_imap|].
  rewrite assign_depots_imap by done.
  intros i j a b da db Hij Hi.
  rewrite !list_lookup_imap.
  destruct (agent_ids !! i) as [x|]; [|done].
  destruct (agent_ids !! j) as [y|]; [|done]. simpl.
  intros [= <- <-] [= <- <-].
  do 8 (destruct i as [|i];
        [do 9 (destruct j as [|j]; [by vm_compute|]); by vm_compute|]).
  lia.
Qed.

Lemma assign_depots_exact_witness :
  assign_depots ["R1"; "R2"; "H1"]%string [] []
  = imap (λ i id, (id, default (6, 5) (AVAILABLE_DEPOTS !! i)))
         ["R1"; "R2"; "H1"]%string ∧
  ∀ i j a b da db,
    i ≠ j → (i < 8)%nat →
    assign_depots ["R1"; "R2"; "H1"]%string [] [] !! i = Some (a, da) →
    assign_depots ["R1"; "R2"; "H1"]%string [] [] !! j = Some (b, db) →
    da ≠ db.
Proof.
  apply (assign_depots_exact ["R1"; "R2"; "H1"]%string).
  apply (bool_decide_unpack _). vm_compute. reflexivity.
Defined.

(** ** The resolver as a whole *)

Lemma make_agents_dict_lookup agents k :
  is_Some (make_agents_dict agents !! k) ↔ k ∈ a_id <$> agents.
Proof.
  unfold make_agents_dict.
  assert (∀ d : gmap string Agent,
            is_Some (foldl (λ d a, <[a_id a := a]> d) d agents !! k)
            ↔ is_Some (d !! k) ∨ k ∈ a_id <$> agents) as Hgen.
  { induction agents as [|a agents IH]; intros d; simpl.
    - rewrite elem_of_nil. tauto.
    - rewrite IH, lookup_insert_is_Some, elem_of_cons.
      split.
      + intros [[<-|[_ H]]|H]; auto.
      + intros [H|[->|H]]; auto.
        destruct (decide (a_id a = k)); auto. }
  rewrite Hgen, lookup_empty. split; [|auto]. by intros [[? ?]|?].
Qed.

Lemma initial_routes_fresh agents_routes :
  NoDup (dict_keys agents_routes) →
  initial_routes agents_routes
  = (λ x, (x.1, (ar_products x.2, 0))) <$> agents_routes.
Proof.
  unfold initial_routes.
  assert (∀ acc : list (string * delayed_route),
    NoDup (dict_keys agents_routes) →
    (∀ k, k ∈ dict_keys agents_routes → k ∉ dict_keys acc) →
    foldl (λ rwd '(agent_id, route_data),
             dict_set rwd agent_id (ar_products route_data, 0)) acc agents_routes
    = acc ++ ((λ x, (x.1, (ar_products x.2, 0))) <$> agents_routes)) as Hgen.
  { induction agents_routes as [|[k r] rs IH]; intros acc Hnd Hfresh; simpl.
    - by rewrite app_nil_r.
    - apply NoDup_cons in Hnd as [Hk Hnd].
      rewrite dict_set_fresh by (apply Hfresh; left).
      rewrite IH; [by rewrite <- app_assoc|done|].
      intros k' Hk'. unfold dict_keys. rewrite fmap_app, elem_of_app. simpl.
      rewrite list_elem_of_singleton. intros [Hin| ->]; [|done].
      by apply (Hfresh k'); [right|]. }
  intros Hnd. apply (Hgen [] Hnd). intros k _. apply not_elem_of_nil.
Qed.

Lemma delays_of_fresh rwd :
  NoDup (dict_keys rwd) → delays_of rwd = (λ x, (x.1, x.2.2)) <$> rwd.
Proof.
  unfold delays_of.
  assert (∀ acc : list (string * Z),
    NoDup (dict_keys rwd) → (∀ k, k ∈ dict_keys rwd → k ∉ dict_keys acc) →
    foldl (λ d '(aid, rd), dict_set d aid rd.2) acc rwd
    = acc ++ ((λ x, (x.1, x.2.2)) <$> rwd)) as Hgen.
  { induction rwd as [|[k rd] rwd IH]; intros acc Hnd Hfresh; simpl.
    - by rewrite app_nil_r.
    - apply NoDup_cons in Hnd as [Hk Hnd].
      rewrite dict_set_fresh by (apply Hfresh; left).
      rewrite IH; [by rewrite <- app_assoc|done|].
      intros k' Hk'. unfold dict_keys. rewrite fmap_app, elem_of_app. simpl.
      rewrite list_elem_of_singleton. intros [Hin| ->]; [|done].
      by apply (Hfresh k'); [right|]. }
  intros Hnd. apply (Hgen [] Hnd). intros k _. apply not_elem_of_nil.
Qed.

(** The sum of the start delays. *)
Definition total_delay (rwd : list (string * delayed_route)) : Z :=
  foldr (λ x s, x.2.2 + s) 0 rwd.

Definition sum_delays (delays : list (string * Z)) : Z :=
  foldr (λ x s, x.2 + s) 0 delays.

Lemma sum_delays_of rwd :
  NoDup (dict_keys rwd) → sum_delays (delays_of rwd) = total_delay rwd.
Proof.
  intros Hnd. rewrite delays_of_fresh by done. clear Hnd.
  unfold sum_delays, total_delay.
  induction rwd as [|x rwd IH]; simpl; [done|]. f_equal. exact IH.
Qed.

Lemma add_delay_total rwd k rwd' :
  add_delay rwd k = Return rwd' →
  total_delay rwd' = total_delay rwd + 2 ∧ dict_keys rwd' = dict_keys rwd.
Proof.
  revert rwd'. induction rwd as [|[k0 [products d]] rwd IH]; intros rwd'; simpl;
    [done|].
  destruct (decide (k0 = k)) as [->|Hne].
  - intros [= <-]. simpl. split; [lia|done].
  - destruct (add_delay rwd k) as [rest|]; [|done]. simpl. intros [= <-].
    destruct (IH rest eq_refl) as [Ht Hk]. simpl. split; [lia|].
    unfold dict_keys in *. simpl. by rewrite Hk.
Qed.

Section total.
Context (set_order : gset Z → list Z).
Context (agents_dict : gmap string Agent)
        (depot_assignments : list (string * cell)) (entry_point : cell)
        (navigation_grid : option grid_t).
Hypothesis Hgrid : grid_ok navigation_grid.

Abbreviation compute := (compute_all_trajectories agents_dict depot_assignments
                           entry_point navigation_grid).
Abbreviation step := (resolution_step set_order agents_dict depot_assignments
                        entry_point navigation_grid).

(** Every agent of the routes is a known agent. *)
Definition known (rwd : list (string * delayed_route)) : Prop :=
  ∀ k, k ∈ dict_keys rwd → is_Some (agents_dict !! k).

(** The routes as they are give trajectories without a collision. *)
Definition clean (rwd : list (string * delayed_route)) : Prop :=
  ∃ trajs deps, compute rwd [] [] = Return (trajs, deps) ∧
                detect_collisions set_order trajs = [].

Lemma compute_returns rwd : ∀ accT accD,
  known rwd → ∃ trajs deps, compute rwd accT accD = Return (trajs, deps).
Proof using Hgrid.
  induction rwd as [|[agent_id [products delay]] rwd IH];
    intros accT accD Hk; simpl; [eauto|].
  destruct (Hk agent_id) as [agent Ha]; [left|].
  unfold dict_getitem. rewrite Ha. simpl.
  destruct (trajectory_returns agent products entry_point delay navigation_grid
              (Some (default (6, 5) (dict_get depot_assignments agent_id))) Hgrid)
    as (traj & deps & ->).
  simpl. apply IH. intros k Hin. apply Hk. by right.
Qed.

Lemma compute_keys_fresh rwd : ∀ accT accD trajs deps,
  NoDup (dict_keys rwd) →
  (∀ k, k ∈ dict_keys rwd → (k ∉ dict_keys accT) ∧ (k ∉ dict_keys accD)) →
  compute rwd accT accD = Return (trajs, deps) →
  dict_keys trajs = dict_keys accT ++ dict_keys rwd ∧
  dict_keys deps = dict_keys accD ++ dict_keys rwd.
Proof.
  induction rwd as [|[agent_id [products delay]] rwd IH];
    intros accT accD trajs deps Hnd Hfresh; simpl.
  - intros [= <- <-]. by rewrite !app_nil_r.
  - apply NoDup_cons in Hnd as [Hid Hnd].
    destruct (dict_getitem agents_dict agent_id) as [agent|]; [|done]. simpl.
    destruct (calculate_agent_trajectory _ _ _ _ _ _) as [[traj dp]|]; [|done].
    simpl. intros Hc.
    destruct (Hfresh agent_id) as [HT HD]; [left|].
    apply IH in Hc as [H1 H2]; [|done|].
    + rewrite H1, H2, !dict_keys_set_new by done.
      by rewrite <- !app_assoc.
    + intros k Hk. rewrite !dict_keys_set_new by done.
      rewrite !elem_of_app, !list_elem_of_singleton.
      destruct (Hfresh k) as [? ?]; [by right|].
      split; intros [?| ->]; done.
Qed.

Lemma step_cases rwd :
  known rwd →
  (clean rwd ∧ step rwd = Return (inl ())) ∨
  (∃ rwd', step rwd = Return (inr rwd') ∧ dict_keys rwd' = dict_keys rwd ∧
           total_delay rwd' = total_delay rwd + 2).
Proof using Hgrid.
  intros Hk. destruct (compute_returns rwd [] [] Hk) as (trajs & deps & Hc).
  destruct (detect_collisions set_order trajs) as [|c cs] eqn:Hd.
  - left. split; [by exists trajs, deps|].
    unfold resolution_step. rewrite Hc. simpl. by rewrite Hd.
  - right.
    destruct (resolution_step_bump set_order _ _ _ _ _ _ _ Hc)
      as (victim & rwd' & products & d & _ & Hstep & Hadd & _);
      [by rewrite Hd|].
    exists rwd'. split; [done|].
    destruct (add_delay_total _ _ _ Hadd). done.
Qed.

Lemma resolution_loop_total n : ∀ rwd,
  known rwd →
  ∃ final k,
    resolution_loop set_order n agents_dict depot_assignments entry_point
      navigation_grid rwd = Return (final, k) ∧
    dict_keys final = dict_keys rwd ∧
    ((k = n ∧ total_delay final = total_delay rwd + 2 * Z.of_nat n) ∨
     (clean final ∧ (1 ≤ k ≤ n)%nat ∧
      total_delay final = total_delay rwd + 2 * (Z.of_nat k - 1))).
Proof using Hgrid.
  induction n as [|n IH]; intros rwd Hk; cbn [resolution_loop].
  - exists rwd, 0%nat. split; [done|]. split; [done|]. left. split; [done|lia].
  - destruct (step_cases rwd Hk) as [[Hclean ->]|(rwd' & -> & Hkeys & Htot)];
      cbn [mbind py_mbind py_bind].
    + exists rwd, 1%nat. split; [done|]. split; [done|]. right.
      split; [done|]. split; lia.
    + destruct (IH rwd') as (final & k & -> & Hkeys' & Hcase).
      { intros x Hx. apply Hk. by rewrite <- Hkeys. }
      cbn [mbind py_mbind py_bind].
      exists final, (S k). split; [done|]. split; [congruence|].
      destruct Hcase as [[-> Ht]|(Hc & Hle & Ht)].
      * left. split; [done|]. lia.
      * right. split; [done|]. split; lia.
Qed.
End total.

(** The result of the resolver on well-formed input. *)
Lemma resolver_spec (set_order : gset Z → list Z)
    (agents_routes : list (string * AgentRoute)) (agents : list Agent)
    (entry_point : cell) (max_iterations : Z) (navigation_grid : option grid_t) :
  NoDup (dict_keys agents_routes) →
  (∀ k, k ∈ dict_keys agents_routes → k ∈ a_id <$> agents) →
  grid_ok navigation_grid →
  ∃ res final,
    check_and_adjust_collisions set_order agents_routes agents entry_point
      max_iterations navigation_grid = Return res ∧
    dict_keys final = dict_keys agents_routes ∧
    cr_delays res = delays_of final ∧
    cr_collisions res = detect_collisions set_order (cr_trajectories res) ∧
    compute_all_trajectories (make_agents_dict agents)
      (assign_depots (dict_keys agents_routes) [] []) entry_point navigation_grid
      final [] [] = Return (cr_trajectories res, cr_depot_positions res) ∧
    cr_depot_assignments res = assign_depots (dict_keys agents_routes) [] [] ∧
    ((cr_iterations res = Z.to_nat max_iterations ∧
      total_delay final = 2 * Z.of_nat (Z.to_nat max_iterations)) ∨
     (cr_collisions res = [] ∧
      (1 ≤ cr_iterations res ≤ Z.to_nat max_iterations)%nat ∧
      total_delay final = 2 * (Z.of_nat (cr_iterations res) - 1))).
Proof.
  intros Hnd Hknown Hgrid. unfold check_and_adjust_collisions.
  set (agents_dict := make_agents_dict agents).
  set (depots := assign_depots (dict_keys agents_routes) [] []).
  assert (dict_keys (initial_routes agents_routes) = dict_keys agents_routes)
    as Hkeys0.
  { rewrite initial_routes_fresh by done. unfold dict_keys.
    rewrite <- list_fmap_compose. by apply list_fmap_ext. }
  assert (total_delay (initial_routes agents_routes) = 0) as Htot0.
  { rewrite initial_routes_fresh by done. clear. unfold total_delay.
    induction agents_routes as [|x l IH]; simpl; [done|]. exact IH. }
  assert (known agents_dict (initial_routes agents_routes)) as Hk0.
  { intros k Hk. rewrite Hkeys0 in Hk. by apply make_agents_dict_lookup, Hknown. }
  destruct (resolution_loop_total set_order agents_dict depots entry_point
              navigation_grid Hgrid (Z.to_nat max_iterations) _ Hk0)
    as (final & k & -> & Hkeys & Hcase).
  cbn [mbind py_mbind py_bind].
  assert (known agents_dict final) as Hkf.
  { intros x Hx. apply Hk0. by rewrite <- Hkeys. }
  destruct (compute_returns agents_dict depots entry_point navigation_grid Hgrid
              final [] [] Hkf) as (trajs & deps & Hc).
  rewrite Hc. cbn [mbind py_mbind py_bind].
  eexists _, final. split; [done|]. simpl.
  split; [congruence|]. split; [done|]. split; [done|]. split; [done|].
  split; [done|]. rewrite Htot0 in Hcase.
  destruct Hcase as [[-> Ht]|((trajs' & deps' & Hc' & Hd') & Hle & Ht)].
  - left. split; [done|lia].
  - right. rewrite Hc in Hc'. injection Hc' as <- <-. split; [done|].
    split; [done|lia].
Qed.

Lemma imap_keys {A : Type} (g : nat → A) (ids : list string) :
  dict_keys (imap (λ i id, (id, g i)) ids) = ids.
Proof.
  unfold dict_keys. apply list_eq. intros i.
  rewrite list_lookup_fmap, list_lookup_imap. by destruct (ids !! i).
Qed.

(** A plan with two pickers that start on the same cells. *)
Definition crowd : list Agent :=
  [ mk_agent "H1" "human" 35%Q 50 1.5%Q false None;
    mk_agent "H2" "human" 35%Q 50 1.5%Q false None ].

Definition crowd_routes : list (string * AgentRoute) :=
  [ ("H1"%string,
     {| ar_agent := mk_agent "H1" "human" 35%Q 50 1.5%Q false None;
        ar_products := [stop (1, 5) 9 1] |});
    ("H2"%string,
     {| ar_agent := mk_agent "H2" "human" 35%Q 50 1.5%Q false None;
        ar_products := [stop (5, 5) 9 1] |}) ].

(** The result is keyed by the agents of the plan. *)
Lemma resolver_keys (set_order : gset Z → list Z)
    (agents_routes : list (string * AgentRoute)) (agents : list Agent)
    (entry_point : cell) (max_iterations : Z) (navigation_grid : option grid_t) :
  NoDup (dict_keys agents_routes) →
  (∀ k, k ∈ dict_keys agents_routes → k ∈ a_id <$> agents) →
  grid_ok navigation_grid →
  ∃ res,
    check_and_adjust_collisions set_order agents_routes agents entry_point
      max_iterations navigation_grid = Return res ∧
    dict_keys (cr_trajectories res) = dict_keys agents_routes ∧
    dict_keys (cr_delays res) = dict_keys agents_routes ∧
    dict_keys (cr_depot_positions res) = dict_keys agents_routes ∧
    dict_keys (cr_depot_assignments res) = dict_keys agents_routes.
Proof.
  intros Hnd Hknown Hgrid.
  destruct (resolver_spec set_order agents_routes agents entry_point
              max_iterations navigation_grid Hnd Hknown Hgrid)
    as (res & final & Hres & Hkeys & Hdel & _ & Hc & Hdep & _).
  exists res. split; [done|].
  assert (NoDup (dict_keys final)) as Hndf by (by rewrite Hkeys).
  apply compute_keys_fresh in Hc as [H1 H2]; [|done|].
  2:{ intros k _. split; apply not_elem_of_nil. }
  simpl in H1, H2. split; [congruence|]. split; [|split; [congruence|]].
  - rewrite Hdel, delays_of_fresh by done. rewrite <- Hkeys. unfold dict_keys.
    rewrite <- list_fmap_compose. by apply list_fmap_ext.
  - rewrite Hdep, assign_depots_imap by done. apply imap_keys.
Qed.

(** X15.  When every route belongs to a known agent and the grid, if any,
    is rectangular, [check_and_adjust_collisions] never raises, and its
    result has a trajectory, a start delay, a list of drop-offs and a depot
    cell for exactly the agents of the plan, in the plan's order. *)
Theorem resolver_total (set_order : gset Z → list Z)
    (agents_routes : list (string * AgentRoute)) (agents : list Agent)
    (entry_point : cell) (max_iterations : Z) (navigation_grid : option grid_t) :
  NoDup (dict_keys agents_routes) →
  (∀ k, k ∈ dict_keys agents_routes → k ∈ a_id <$> agents) →
  grid_ok navigation_grid →
  ∃ res,
    check_and_adjust_collisions set_order agents_routes agents entry_point
      max_iterations navigation_grid = Return res ∧
    dict_keys (cr_trajectories res) = dict_keys agents_routes ∧
    dict_keys (cr_delays res) = dict_keys agents_routes ∧
    dict_keys (cr_depot_positions res) = dict_keys agents_routes ∧
    dict_keys (cr_depot_assignments res) = dict_keys agents_routes.
Proof. apply resolver_keys. Qed.

Lemma resolver_total_witness :
  ∃ res,
    check_and_adjust_collisions elements crowd_routes crowd (3, 1) 250
      (Some test_grid) = Return res ∧
    dict_keys (cr_trajectories res) = dict_keys crowd_routes ∧
    dict_keys (cr_delays res) = dict_keys crowd_routes ∧
    dict_keys (cr_depot_positions res) = dict_keys crowd_routes ∧
    dict_keys (cr_depot_assignments res) = dict_keys crowd_routes.
Proof.
  apply (resolver_total elements crowd_routes crowd (3, 1) 250 (Some test_grid)).
  - apply (bool_decide_unpack _). vm_compute. reflexivity.
  - intros k Hk. exact Hk.
  - intros grid [= <-]. apply (bool_decide_unpack _). vm_compute. reflexivity.
Defined.

(** X16.  The start delays add up to at most two minutes per allowed pass;
    and when collisions are still reported, every allowed pass has been
    used and the delays add up to exactly [2 * max_iterations]. *)
Theorem resolver_delay_budget (set_order : gset Z → list Z)
    (agents_routes : list (string * AgentRoute)) (agents : list Agent)
    (entry_point : cell) (max_iterations : Z) (navigation_grid : option grid_t) :
  NoDup (dict_keys agents_routes) →
  (∀ k, k ∈ dict_keys agents_routes → k ∈ a_id <$> agents) →
  grid_ok navigation_grid →
  ∃ res,
    check_and_adjust_collisions set_order agents_routes agents entry_point
      max_iterations navigation_grid = Return res ∧
    0 ≤ sum_delays (cr_delays res) ≤ 2 * Z.max 0 max_iterations ∧
    (cr_collisions res ≠ [] →
     sum_delays (cr_delays res) = 2 * Z.max 0 max_iterations ∧
     cr_iterations res = Z.to_nat max_iterations).
Proof.
  intros Hnd Hknown Hgrid.
  destruct (resolver_spec set_order agents_routes agents entry_point
              max_iterations navigation_grid Hnd Hknown Hgrid)
    as (res & final & Hres & Hkeys & Hdel & _ & _ & _ & Hcase).
  exists res. split; [done|].
  assert (NoDup (dict_keys final)) as Hndf by (by rewrite Hkeys).
  rewrite Hdel, sum_delays_of by done.
  destruct Hcase as [[Hk Ht]|(Hclean & Hle & Ht)].
  - split; [lia|]. intros _. split; [lia|done].
  - split; [lia|]. intros Hne. by rewrite Hclean in Hne.
Qed.

Lemma resolver_delay_budget_witness :
  ∃ res,
    check_and_adjust_collisions elements crowd_routes crowd (3, 1) 250
      (Some test_grid) = Return res ∧
    0 ≤ sum_delays (cr_delays res) ≤ 2 * Z.max 0 250 ∧
    (cr_collisions res ≠ [] →
     sum_delays (cr_delays res) = 2 * Z.max 0 250 ∧
     cr_iterations res = Z.to_nat 250).
Proof.
  apply (resolver_delay_budget elements crowd_routes crowd (3, 1) 250
           (Some test_grid)).
  - apply (bool_decide_unpack _). vm_compute. reflexivity.
  - intros k Hk. exact Hk.
  - intros grid [= <-]. apply (bool_decide_unpack _). vm_compute. reflexivity.
Defined.

(** X17.  The final report is sound and complete: the list of remaining
    collisions is empty exactly when no two agents of the returned
    trajectories are in the same cell at the same minute. *)
Theorem resolver_report_sound (set_order : gset Z → list Z)
    (agents_routes : list (string * AgentRoute)) (agents : list Agent)
    (entry_point : cell) (max_iterations : Z) (navigation_grid : option grid_t) :
  enumerates set_order →
  NoDup (dict_keys agents_routes) →
  (∀ k, k ∈ dict_keys agents_routes → k ∈ a_id <$> agents) →
  grid_ok navigation_grid →
  ∃ res,
    check_and_adjust_collisions set_order agents_routes agents entry_point
      max_iterations navigation_grid = Return res ∧
    (cr_collisions res = [] ↔ conflict_free (cr_trajectories res)).
Proof.
  intros Hset Hnd Hknown Hgrid.
  destruct (resolver_spec set_order agents_routes agents entry_point
              max_iterations navigation_grid Hnd Hknown Hgrid)
    as (res & final & Hres & _ & _ & Hcol & _).
  exists res. split; [done|]. rewrite Hcol. by apply detect_collisions_nil.
Qed.

Lemma resolver_report_sound_witness :
  ∃ res,
    check_and_adjust_collisions elements crowd_routes crowd (3, 1) 250
      (Some test_grid) = Return res ∧
    (cr_collisions res = [] ↔ conflict_free (cr_trajectories res)).
Proof.
  apply (resolver_report_sound elements crowd_routes crowd (3, 1) 250
           (Some test_grid)).
  - apply elements_enumerates.
  - apply (bool_decide_unpack _). vm_compute. reflexivity.
  - intros k Hk. exact Hk.
  - intros grid [= <-]. apply (bool_decide_unpack _). vm_compute. reflexivity.
Defined.

End CollisionMore.

(** * Further properties of the optimizer *)

Module OptimizerMore.
Import Astar Distances Optimizer OptimizerSpec OptimizerClaims.

(** ** A worked plan

    Three agents, two orders, four units.  The valuation of the solver's
    variables is computed from the plan itself: for every unit its agent,
    its trip and its visit time; for every cart its guide. *)

Record unit_plan : Type := mk_unit_plan {
  up_agent : nat;
  up_trip : Z;
  up_time : Z
}.

Section valuation.
Variable plan : list unit_plan.
Variable guides : list (nat * nat).            (* (human, cart) *)

Definition on_agent (i a : nat) : bool :=
  match plan !! i with
  | Some u => bool_decide (up_agent u = a)
  | None => false
  end.

Definition trip_of (i : nat) : Z := default 1 (up_trip <$> plan !! i).
Definition time_of (i : nat) : Z := default 0 (up_time <$> plan !! i).

Definition b2z (b : bool) : Z := if b then 1 else 0.

Definition earlier (i j : nat) : bool :=
  (time_of i <? time_of j) || ((time_of i =? time_of j) && (i <? j)%nat).

Definition plan_valuation (v : var) : Z :=
  match v with
  | V_assign i a => b2z (on_agent i a)
  | V_trip i a => if on_agent i a then trip_of i else 1
  | V_visit i => time_of i
  | V_before i j a => b2z (on_agent i a && on_agent j a && earlier i j)
  | V_both i j a => b2z (on_agent i a && on_agent j a)
  | V_same_trip i j a =>
      b2z (on_agent i a && on_agent j a && (trip_of i =? trip_of j))
  | V_in_trip i a trip | V_in_trip_vol i a trip =>
      b2z (on_agent i a && (trip_of i =? trip))
  | V_incomp i j a => b2z (on_agent i a && on_agent j a)
  | V_incomp_same_trip _ _ _ => 0
  | V_both_express_std i j a => b2z (on_agent i a && on_agent j a)
  | V_agent_used a =>
      b2z (bool_decide (Exists (λ u, up_agent u = a) plan))
  | V_human_to_cart h c => b2z (bool_decide ((h, c) ∈ guides))
  | V_max_end_time => foldr Z.max 0 (up_time <$> plan)
  | V_last_time a =>
      foldr Z.max 0 (up_time <$> filter (λ u, up_agent u = a) plan)
  | V_time_contrib i a => if on_agent i a then time_of i else 0
  end.
End valuation.

Definition gadget_x : Product :=
  mk_product "Product_001" "electronics" 1%Q 2%Q false "A1" (3, 3) [].
Definition snack : Product :=
  mk_product "Product_089" "food" 2%Q 3%Q false "B1" (5, 5)
             ["Product_050"%string].
Definition solvent : Product :=
  mk_product "Product_050" "chemical" 3%Q 4%Q true "B1" (7, 7)
             ["Product_089"%string].

Definition catalogue : list Product := [gadget_x; snack; solvent].

Definition team : list Agent :=
  [ mk_agent "R1" "robot" 20%Q 30 2%Q true (Some 10%Q);
    mk_agent "H1" "human" 35%Q 50 1.5%Q false None;
    mk_agent "C1" "cart" 50%Q 80 1.2%Q false None ].

Definition two_orders : list Order :=
  [ {| o_id := "Order_001"; o_deadline := (10, 0); o_priority := "express";
       o_items := [ {| i_product_id := "Product_001"; i_quantity := 1 |};
                    {| i_product_id := "Product_089"; i_quantity := 1 |} ] |};
    {| o_id := "Order_002"; o_deadline := (12, 0); o_priority := "standard";
       o_items := [ {| i_product_id := "Product_050"; i_quantity := 1 |};
                    {| i_product_id := "Product_089"; i_quantity := 1 |} ] |} ].

Definition robot_zone : ZonesAccess := {| robot_accessible_storage := ["A1"%string] |}.

Definition catalogue_distances : distance_data :=
  match calculate_distance_matrix catalogue (6, 10) None with
  | Return dd => dd
  | Raise _ => {| dd_entry := (6, 10); dd_locations := [];
                  dd_distances := ∅; dd_grid := None |}
  end.

(** The robot takes the gadget; the human takes the express snack in a
    first trip and the solvent in a second one; the cart, guided by the
    human, takes the other snack. *)
Definition worked_plan : list unit_plan :=
  [ mk_unit_plan 0 1 5; mk_unit_plan 1 1 10; mk_unit_plan 1 2 40;
    mk_unit_plan 2 1 20 ].

Definition worked_solver : solver_t :=
  checking_solver (plan_valuation worked_plan [(1%nat, 2%nat)]).

Definition worked_result : opt_result :=
  match optimize_routes worked_solver two_orders catalogue team
          catalogue_distances robot_zone with
  | Return res => res
  | Raise _ => {| status := ""; agents_routes := None; human_cart_assignments := None |}
  end.

Definition worked_routes : list (string * AgentRoute) :=
  default [] (agents_routes worked_result).

Lemma worked_result_returned :
  optimize_routes worked_solver two_orders catalogue team catalogue_distances
    robot_zone = Return worked_result ∧
  status worked_result = "success"%string ∧
  agents_routes worked_result = Some worked_routes ∧
  dict_keys worked_routes = ["R1"; "H1"; "C1"]%string.
Proof. vm_compute. done. Qed.

(** ** The parts of the model *)

Lemma enum_bind_elem {A B : Type} (l : list A) (f : nat * A → list B) i x y :
  l !! i = Some x → y ∈ f (i, x) → y ∈ enumerate l ≫= f.
Proof.
  intros Hl Hy. apply list_elem_of_bind. exists (i, x). split; [done|].
  by apply elem_of_enumerate.
Qed.

Lemma model_equation agents picks dd zones model :
  build_model agents picks dd zones = Return model →
  ∃ timing weight,
    timing_constraints agents picks dd zones = Return timing ∧
    weight_constraints agents picks zones = Return weight ∧
    model = assignment_vars agents picks zones ++ trip_number_vars agents picks zones
            ++ visit_time_vars picks ++ before_vars agents picks
            ++ timing
            ++ unique_assignment agents picks zones
            ++ robot_zone_constraints agents picks zones
            ++ weight
            ++ volume_constraints agents picks zones
            ++ incompatibility_constraints agents picks zones
            ++ deadline_constraints picks
            ++ priority_constraints agents picks zones
            ++ usage_constraints agents picks zones
            ++ makespan_constraints agents picks zones.
Proof.
  unfold build_model.
  destruct (timing_constraints _ _ _ _) as [timing|]; [|done]. simpl.
  destruct (weight_constraints _ _ _) as [weight|]; [|done]. simpl.
  intros [= <-]. by exists timing, weight.
Qed.

Lemma holds_int val v lo hi : holds val (NewIntVar v lo hi) = true → lo ≤ val v ≤ hi.
Proof. simpl. rewrite andb_true_iff, !Z.leb_le. lia. Qed.

Lemma holds_always val lhs r rhs :
  holds val (Add lhs r rhs []) = true →
  rel_holds r (eval val lhs) (eval val rhs) = true.
Proof. intros H. by apply (holds_enforced _ _ _ _ _ H). Qed.

Section plan.
Context (agents : list Agent) (picks : list Pick) (dd : distance_data)
        (zones : ZonesAccess) (model : list constraint) (val : var → Z).
Hypothesis Hmodel : build_model agents picks dd zones = Return model.
Hypothesis Hsat : satisfies val model = true.

Abbreviation can := (Optimizer.has_var zones).

(** A constraint of one of the parts holds. *)
Lemma part_holds c :
  c ∈ assignment_vars agents picks zones ∨
  c ∈ trip_number_vars agents picks zones ∨
  c ∈ visit_time_vars picks ∨
  c ∈ unique_assignment agents picks zones ∨
  (∃ weight, weight_constraints agents picks zones = Return weight ∧ c ∈ weight) ∨
  c ∈ volume_constraints agents picks zones ∨
  c ∈ incompatibility_constraints agents picks zones ∨
  c ∈ deadline_constraints picks ∨
  c ∈ priority_constraints agents picks zones ∨
  c ∈ usage_constraints agents picks zones →
  holds val c = true.
Proof using Hmodel Hsat.
  intros Hc. apply (satisfies_elem _ _ _ Hsat).
  destruct (model_equation _ _ _ _ _ Hmodel) as (timing & weight & _ & Hw & ->).
  rewrite !elem_of_app.
  destruct Hc as [?|[?|[?|[?|[(weight' & Hw' & ?)|?]]]]]; [tauto..| |tauto].
  rewrite Hw in Hw'. injection Hw' as <-. tauto.
Qed.

Lemma assign_bool i pick a agent :
  picks !! i = Some pick → agents !! a = Some agent → can agent pick = true →
  0 ≤ val (V_assign i a) ≤ 1.
Proof using Hmodel Hsat.
  intros Hi Ha Hv. apply holds_bool, part_holds. left.
  by eapply assignment_var_in.
Qed.

Lemma trip_range i pick a agent :
  picks !! i = Some pick → agents !! a = Some agent → can agent pick = true →
  1 ≤ val (V_trip i a) ≤ MAX_TRIPS.
Proof using Hmodel Hsat.
  intros Hi Ha Hv. apply holds_int, part_holds. right. left.
  unfold trip_number_vars. eapply enum_bind_elem; [exact Hi|]. simpl.
  eapply enum_bind_elem; [exact Ha|]. simpl. rewrite Hv. left.
Qed.

Lemma visit_range i pick :
  picks !! i = Some pick → TIME_START ≤ val (V_visit i) ≤ TIME_END.
Proof using Hmodel Hsat.
  intros Hi. apply holds_int, part_holds. do 2 right. left.
  unfold visit_time_vars. eapply enum_bind_elem; [exact Hi|]. left.
Qed.

Lemma visit_deadline i pick :
  picks !! i = Some pick →
  val (V_visit i) ≤ time_to_minutes (k_deadline pick).
Proof using Hmodel Hsat.
  intros Hi. apply Z.leb_le.
  apply (holds_always val (Var (V_visit i)) RLe
           (Const (time_to_minutes (k_deadline pick)))), part_holds.
  do 7 right. left.
  unfold deadline_constraints. eapply enum_bind_elem; [exact Hi|]. left.
Qed.

Lemma express_first i j a agent pick_i pick_j :
  picks !! i = Some pick_i → picks !! j = Some pick_j →
  agents !! a = Some agent →
  k_priority pick_i = "express"%string → k_priority pick_j = "standard"%string →
  can agent pick_i = true → can agent pick_j = true →
  val (V_assign i a) = 1 → val (V_assign j a) = 1 →
  val (V_visit i) < val (V_visit j).
Proof using Hmodel Hsat.
  intros Hi Hj Ha Hpi Hpj Hvi Hvj Hai Haj.
  assert (i ≠ j) as Hne.
  { intros ->. rewrite Hi in Hj. injection Hj as ->. rewrite Hpi in Hpj.
    discriminate. }
  assert (∀ c, c ∈
    [ NewBoolVar (V_both_express_std i j a);
      Add (Plus (Var (V_assign i a)) (Var (V_assign j a))) REq (Const 2)
          [Pos (V_both_express_std i j a)];
      Add (Plus (Var (V_assign i a)) (Var (V_assign j a))) RLt (Const 2)
          [Neg (V_both_express_std i j a)];
      Add (Var (V_visit i)) RLt (Var (V_visit j))
          [Pos (V_both_express_std i j a)] ] → holds val c = true) as Hblock.
  { intros c Hc. apply part_holds. do 8 right. left.
    unfold priority_constraints. eapply enum_bind_elem; [exact Ha|]. simpl.
    eapply enum_bind_elem; [exact Hi|]. simpl.
    eapply enum_bind_elem; [exact Hj|]. simpl.
    rewrite bool_decide_eq_true_2, Hpi, Hpj, Hvi, Hvj by done. exact Hc. }
  pose proof (holds_bool _ _ (Hblock _ ltac:(left))) as Hb.
  pose proof (holds_enforced _ _ _ _ _ (Hblock _ ltac:(do 2 right; left))) as Hlt.
  pose proof (holds_enforced _ _ _ _ _ (Hblock _ ltac:(do 3 right; left)))
    as Hfirst.
  simpl in Hlt, Hfirst. rewrite Hai, Haj in Hlt.
  destruct (Z.eqb_spec (val (V_both_express_std i j a)) 0) as [H0|H0].
  - by specialize (Hlt eq_refl).
  - destruct (Z.eqb_spec (val (V_both_express_std i j a)) 1) as [H1|H1]; [|lia].
    apply Z.ltb_lt. by apply Hfirst.
Qed.
End plan.

(** ** From a returned plan back to the solver's values *)

Lemma plan_origin solver orders products agents dd zones res routes :
  sound solver →
  optimize_routes solver orders products agents dd zones = Return res →
  agents_routes res = Some routes →
  ∃ picks model val,
    make_products_to_pick orders products = Return picks ∧
    build_model agents picks dd zones = Return model ∧
    satisfies val model = true ∧
    routes = extract_routes agents picks zones val ∧
    human_cart_assignments res = Some (extract_human_cart agents val).
Proof.
  intros Hsound Hopt Hroutes.
  destruct (optimize_routes_success _ _ _ _ _ _ _ _ Hopt Hroutes)
    as (picks & model & val & st & Hp & Hm & Hs & Hst & _ & ->).
  exists picks, model, val. split; [done|]. split; [done|].
  split; [by eapply Hsound|]. split; [done|].
  unfold optimize_routes in Hopt. rewrite Hp in Hopt. simpl in Hopt.
  rewrite Hm in Hopt. simpl in Hopt. rewrite Hs in Hopt.
  destruct Hst as [-> | ->]; by injection Hopt as <-.
Qed.

Lemma route_item_origin agents picks zones val aid route item :
  (aid, route) ∈ extract_routes agents picks zones val →
  item ∈ ar_products route →
  ∃ a agent i pick,
    agents !! a = Some agent ∧ aid = a_id agent ∧ ar_agent route = agent ∧
    picks !! i = Some pick ∧ has_var zones agent pick = true ∧
    val (V_assign i a) = 1 ∧
    item = {| r_pick := pick; r_visit_time := val (V_visit i);
              r_trip_number := Some (val (V_trip i a)) |}.
Proof.
  intros Hin Hitem.
  apply extract_routes_elem in Hin as (a & agent & Ha & Hid & Hagent & Hprods).
  rewrite Hprods in Hitem. apply (proj1 (sort_route_elem _ _)) in Hitem.
  apply assigned_products_elem in Hitem as (i & pick & Hi & Hv & Hval & H1 & H2 & H3).
  exists a, agent, i, pick. split_and!; try done.
  destruct item. simpl in *. by subst.
Qed.

(** Every product of every route has the property [P]. *)
Definition every_stop (routes : list (string * AgentRoute))
    (P : Agent → RouteItem → Prop) : Prop :=
  Forall (λ ar, Forall (P (ar_agent ar.2)) (ar_products ar.2)) routes.

Lemma every_stop_intro routes P :
  (∀ aid route item,
     (aid, route) ∈ routes → item ∈ ar_products route → P (ar_agent route) item) →
  every_stop routes P.
Proof.
  intros H. apply Forall_forall. intros [aid route] Hin.
  apply Forall_forall. intros item Hitem. by eapply H.
Qed.

(** X18.  A robot's route only holds products the robot is allowed to
    carry: stored in a robot-accessible zone, not food, not fragile when the
    robot refuses fragile items, and no heavier than its item limit. *)
Theorem robot_routes_respect_restrictions (solver : solver_t)
    (orders : list Order) (products : list Product) (agents : list Agent)
    (dd : distance_data) (zones_access : ZonesAccess) (res : opt_result)
    (routes : list (string * AgentRoute)) :
  optimize_routes solver orders products agents dd zones_access = Return res →
  agents_routes res = Some routes →
  every_stop routes (λ agent item,
    a_type agent = "robot"%string →
    let product := k_product_data (r_pick item) in
    p_location product ∈ robot_accessible_storage zones_access ∧
    p_category product ≠ "food"%string ∧
    (a_no_fragile agent = true → p_fragile product = false) ∧
    (∀ w, a_max_item_weight agent = Some w → (p_weight product <= w)%Q)).
Proof.
  intros Hopt Hroutes.
  destruct (optimize_routes_success _ _ _ _ _ _ _ _ Hopt Hroutes)
    as (picks & model & val & st & _ & _ & _ & _ & _ & ->).
  apply every_stop_intro. intros aid route item Hin Hitem Hrobot.
  destruct (route_item_origin _ _ _ _ _ _ _ Hin Hitem)
    as (a & agent & i & pick & _ & _ & Hagent & _ & Hv & _ & ->).
  rewrite Hagent in *. simpl. unfold has_var, can_agent_handle_product in Hv.
  rewrite Hrobot in Hv. simpl in Hv.
  destruct (bool_decide _) eqn:Hzone; simpl in Hv; [|done].
  apply bool_decide_eq_true in Hzone.
  destruct (String.eqb_spec (p_category (k_product_data pick)) "food"); [done|].
  destruct (a_no_fragile agent && p_fragile (k_product_data pick)) eqn:Hfr; [done|].
  split; [done|]. split; [done|]. split.
  - intros Hnf. rewrite Hnf in Hfr. simpl in Hfr. done.
  - intros w Hw. rewrite Hw in Hv.
    destruct (Qle_bool (p_weight (k_product_data pick)) w) eqn:Hle; [|done].
    by apply Qle_bool_iff.
Qed.

Lemma robot_routes_respect_restrictions_witness :
  every_stop worked_routes (λ agent item,
    a_type agent = "robot"%string →
    let product := k_product_data (r_pick item) in
    p_location product ∈ robot_accessible_storage robot_zone ∧
    p_category product ≠ "food"%string ∧
    (a_no_fragile agent = true → p_fragile product = false) ∧
    (∀ w, a_max_item_weight agent = Some w → (p_weight product <= w)%Q)).
Proof.
  apply (robot_routes_respect_restrictions worked_solver two_orders catalogue
           team catalogue_distances robot_zone worked_result worked_routes).
  - vm_compute. reflexivity.
  - vm_compute. reflexivity.
Defined.

(** X19.  Every stop of a plan found by a sound solver lies in the working
    day (minutes 0 to 480), is not later than the deadline of its order, and
    has a trip number between 1 and 15. *)
Theorem stops_within_deadlines (solver : solver_t) (orders : list Order)
    (products : list Product) (agents : list Agent) (dd : distance_data)
    (zones_access : ZonesAccess) (res : opt_result)
    (routes : list (string * AgentRoute)) :
  sound solver →
  optimize_routes solver orders products agents dd zones_access = Return res →
  agents_routes res = Some routes →
  every_stop routes (λ _ item,
    0 ≤ r_visit_time item ≤ 480 ∧
    r_visit_time item ≤ time_to_minutes (k_deadline (r_pick item)) ∧
    ∃ trip, r_trip_number item = Some trip ∧ 1 ≤ trip ≤ 15).
Proof.
  intros Hsound Hopt Hroutes.
  destruct (plan_origin _ _ _ _ _ _ _ _ Hsound Hopt Hroutes)
    as (picks & model & val & _ & Hmodel & Hsat & -> & _).
  apply every_stop_intro. intros aid route item Hin Hitem.
  destruct (route_item_origin _ _ _ _ _ _ _ Hin Hitem)
    as (a & agent & i & pick & Ha & _ & _ & Hi & Hv & _ & ->).
  simpl. split; [|split].
  - by eapply (visit_range agents picks dd zones_access model val).
  - by eapply (visit_deadline agents picks dd zones_access model val).
  - eexists. split; [done|].
    by eapply (trip_range agents picks dd zones_access model val).
Qed.

Lemma stops_within_deadlines_witness :
  every_stop worked_routes (λ _ item,
    0 ≤ r_visit_time item ≤ 480 ∧
    r_visit_time item ≤ time_to_minutes (k_deadline (r_pick item)) ∧
    ∃ trip, r_trip_number item = Some trip ∧ 1 ≤ trip ≤ 15).
Proof.
  apply (stops_within_deadlines worked_solver two_orders catalogue
           team catalogue_distances robot_zone worked_result worked_routes).
  - apply checking_solver_sound.
  - vm_compute. reflexivity.
  - vm_compute. reflexivity.
Defined.

(** Two stops of the same route. *)
Definition every_two_stops (routes : list (string * AgentRoute))
    (P : RouteItem → RouteItem → Prop) : Prop :=
  Forall (λ ar : string * AgentRoute,
            ∀ x y, x ∈ ar_products ar.2 → y ∈ ar_products ar.2 → P x y) routes.

(** X20.  In a plan found by a sound solver, an agent that carries units of
    an express order and units of a standard order visits every express
    unit strictly before every standard unit. *)
Theorem express_before_standard (solver : solver_t) (orders : list Order)
    (products : list Product) (agents : list Agent) (dd : distance_data)
    (zones_access : ZonesAccess) (res : opt_result)
    (routes : list (string * AgentRoute)) :
  sound solver →
  optimize_routes solver orders products agents dd zones_access = Return res →
  agents_routes res = Some routes →
  every_two_stops routes (λ x y,
    k_priority (r_pick x) = "express"%string →
    k_priority (r_pick y) = "standard"%string →
    r_visit_time x < r_visit_time y).
Proof.
  intros Hsound Hopt Hroutes.
  destruct (plan_origin _ _ _ _ _ _ _ _ Hsound Hopt Hroutes)
    as (picks & model & val & _ & Hmodel & Hsat & -> & _).
  apply Forall_forall. intros [aid route] Hin x y Hx Hy Hpx Hpy. simpl in Hx, Hy.
  pose proof Hin as Hin'.
  apply extract_routes_elem in Hin' as (a & agent & Ha & _ & _ & Hprods).
  rewrite Hprods in Hx, Hy.
  apply (proj1 (sort_route_elem _ _)) in Hx, Hy.
  apply assigned_products_elem in Hx as (i & pick_i & Hi & Hvi & Hai & H1 & H2 & _).
  apply assigned_products_elem in Hy as (j & pick_j & Hj & Hvj & Haj & H3 & H4 & _).
  rewrite H2, H4. rewrite H1 in Hpx. rewrite H3 in Hpy.
  by eapply (express_first agents picks dd zones_access model val Hmodel Hsat
               i j a agent pick_i pick_j).
Qed.

Lemma express_before_standard_witness :
  every_two_stops worked_routes (λ x y,
    k_priority (r_pick x) = "express"%string →
    k_priority (r_pick y) = "standard"%string →
    r_visit_time x < r_visit_time y).
Proof.
  apply (express_before_standard worked_solver two_orders catalogue
           team catalogue_distances robot_zone worked_result worked_routes).
  - apply checking_solver_sound.
  - vm_compute. reflexivity.
  - vm_compute. reflexivity.
Defined.

(** ** Capacities *)

Lemma zsum_perm (l k : list Z) : l ≡ₚ k → zsum l = zsum k.
Proof. induction 1; simpl; lia. Qed.

Lemma insert_route_item_perm x l : insert_route_item x l ≡ₚ x :: l.
Proof.
  induction l as [|y l IH]; simpl; [done|].
  destruct (route_key_le x y); [done|]. by rewrite IH, Permutation_swap.
Qed.

Lemma sort_route_perm l : sort_route l ≡ₚ l.
Proof.
  unfold sort_route. induction l as [|x l IH]; simpl; [done|].
  by rewrite insert_route_item_perm, IH.
Qed.

(** The load of one trip of a route, for a measure [w] of the products. *)
Definition trip_load (w : Product → Z) (route : AgentRoute) (trip : Z) : Z :=
  zsum ((λ item, w (k_product_data (r_pick item)))
          <$> filter (λ item, r_trip_number item = Some trip) (ar_products route)).

Section capacity.
Context (agents : list Agent) (picks : list Pick) (zones : ZonesAccess)
        (val : var → Z) (a : nat) (agent : Agent) (trip : Z).
Context (in_trip : nat → var) (w : Pick → Z).

(** The indicator block of one pick, as the source writes it for the
    weight and for the volume. *)
Definition indicator_block (x : nat * Pick) : list (list constraint * expr) :=
  let '(i, pick) := x in
  if has_var zones agent pick then
    [([ NewBoolVar (in_trip i);
        Add (Var (V_trip i a)) REq (Const trip) [Pos (V_assign i a); Pos (in_trip i)];
        Add (Var (V_trip i a)) RNe (Const trip) [Pos (V_assign i a); Neg (in_trip i)];
        Add (Var (in_trip i)) REq (Const 0) [Neg (V_assign i a)] ],
      Times (w pick) (in_trip i))]
  else [].

Definition assigned_item (x : nat * Pick) : list RouteItem :=
  let '(i, pick) := x in
  if has_var zones agent pick && (val (V_assign i a) =? 1) then
    [ {| r_pick := pick; r_visit_time := val (V_visit i);
         r_trip_number := Some (val (V_trip i a)) |} ]
  else [].

Lemma load_matches (L : list (nat * Pick)) :
  (∀ i pick b c, (i, pick) ∈ L → has_var zones agent pick = true →
                 0 ≤ val (V_assign i a) ≤ 1 ∧
                 (b ∈ indicator_block (i, pick) → c ∈ b.1 → holds val c = true)) →
  zsum (eval val <$> (L ≫= indicator_block).*2)
  = zsum ((λ item, w (r_pick item))
            <$> filter (λ item, r_trip_number item = Some trip)
                       (L ≫= assigned_item)).
Proof.
  induction L as [|[i pick] L IH]; intros Hfacts; [done|].
  rewrite !bind_cons, !fmap_app, filter_app, fmap_app, !zsum_app.
  rewrite IH by (intros i' pick' b c Hin; apply Hfacts; by right). f_equal.
  cbn [indicator_block assigned_item].
  destruct (has_var zones agent pick) eqn:Hv; [|done].
  destruct (Hfacts i pick ([], Const 0) (NewBoolVar (in_trip i)) ltac:(left) Hv)
    as [Hassign _].
  assert (∀ c, c ∈ [ NewBoolVar (in_trip i);
        Add (Var (V_trip i a)) REq (Const trip) [Pos (V_assign i a); Pos (in_trip i)];
        Add (Var (V_trip i a)) RNe (Const trip) [Pos (V_assign i a); Neg (in_trip i)];
        Add (Var (in_trip i)) REq (Const 0) [Neg (V_assign i a)] ] →
        holds val c = true) as Hblock.
  { intros c Hc.
    apply (Hfacts i pick
             ([ NewBoolVar (in_trip i);
                Add (Var (V_trip i a)) REq (Const trip)
                    [Pos (V_assign i a); Pos (in_trip i)];
                Add (Var (V_trip i a)) RNe (Const trip)
                    [Pos (V_assign i a); Neg (in_trip i)];
                Add (Var (in_trip i)) REq (Const 0) [Neg (V_assign i a)] ],
              Times (w pick) (in_trip i)) c ltac:(left) Hv); [|exact Hc].
    cbn [indicator_block]. rewrite Hv. left. }
  pose proof (holds_bool _ _ (Hblock _ ltac:(left))) as Hb.
  pose proof (holds_enforced _ _ _ _ _ (Hblock _ ltac:(right; left))) as Heq.
  pose proof (holds_enforced _ _ _ _ _ (Hblock _ ltac:(do 2 right; left))) as Hne.
  pose proof (holds_enforced _ _ _ _ _ (Hblock _ ltac:(do 3 right; left))) as Hoff.
  simpl in Heq, Hne, Hoff. simpl.
  destruct (Z.eqb_spec (val (V_assign i a)) 1) as [H1|H1].
  - destruct (Z.eqb_spec (val (in_trip i)) 1) as [Hin|Hin].
    + specialize (Heq eq_refl). apply Z.eqb_eq in Heq.
      rewrite filter_cons, decide_True by (simpl; congruence).
      simpl. rewrite Hin. lia.
    + assert (val (in_trip i) = 0) as H0 by lia. rewrite H0 in *.
      specialize (Hne eq_refl). apply negb_true_iff, Z.eqb_neq in Hne.
      rewrite filter_cons, decide_False by (simpl; congruence).
      simpl. lia.
  - assert (val (V_assign i a) = 0) as H0 by lia. rewrite H0 in *.
    specialize (Hoff eq_refl). apply Z.eqb_eq in Hoff. simpl.
    rewrite Hoff. lia.
Qed.
End capacity.

(** The grams of a weight, where [grams] returns them. *)
Definition returned_grams (kg : Q) : Z :=
  match grams kg with
  | Return g => g
  | Raise _ => 0
  end.

Lemma bind_ext_in {A B : Type} (f g : A → list B) (l : list A) :
  (∀ x, x ∈ l → f x = g x) → l ≫= f = l ≫= g.
Proof.
  induction l as [|a l IH]; intros H; [done|].
  rewrite !bind_cons, (H a) by left. f_equal. apply IH.
  intros x Hx. apply H. by right.
Qed.

(** A loop that returns has gone through every body. *)
Lemma py_flat_map_bind {A B : Type} (f : A → py (list B)) (l : list A)
    (r : list B) :
  py_flat_map f l = Return r →
  r = l ≫= (λ x, match f x with Return ys => ys | Raise _ => [] end).
Proof.
  revert r. induction l as [|x l IH]; intros r; [by intros [= <-]|].
  cbn [py_flat_map]. rewrite bind_cons. destruct (f x) as [ys|]; [|done].
  cbn [mbind py_mbind py_bind].
  destruct (py_flat_map f l) as [zs|]; [|done]. cbn [mbind py_mbind py_bind].
  intros [= <-]. by rewrite (IH zs).
Qed.

Section capacity_model.
Context (agents : list Agent) (picks : list Pick) (dd : distance_data)
        (zones : ZonesAccess) (model : list constraint) (val : var → Z).
Hypothesis Hmodel : build_model agents picks dd zones = Return model.
Hypothesis Hsat : satisfies val model = true.

(** The weight blocks of one agent and one trip, as they are when the
    model is built: every weight in grams is returned. *)
Lemma weight_blocks_returned weight a agent trip :
  weight_constraints agents picks zones = Return weight →
  agents !! a = Some agent → trip ∈ trips →
  let blocks := enumerate picks ≫=
    indicator_block zones a agent trip (λ i, V_in_trip i a trip)
      (λ pick, returned_grams (p_weight (k_product_data pick))) in
  (∀ i pick, picks !! i = Some pick → has_var zones agent pick = true →
     grams (p_weight (k_product_data pick))
     = Return (returned_grams (p_weight (k_product_data pick)))) ∧
  ∃ cap,
    (blocks ≠ [] → grams (a_capacity_weight agent) = Return cap) ∧
    ∀ c, c ∈ concat blocks.*1 ++
             match blocks.*2 with
             | [] => []
             | _ => [Add (py_sum blocks.*2) RLe (Const cap) []]
             end → c ∈ weight.
Proof.
  intros Hw Ha Ht blocks. unfold weight_constraints in Hw.
  apply elem_of_enumerate in Ha.
  destruct (py_flat_map_elem _ _ _ _ Hw Ha) as (r1 & H1 & Hs1).
  cbv beta iota in H1.
  destruct (py_flat_map_elem _ _ _ _ H1 Ht) as (r2 & H2 & Hs2).
  cbv beta in H2.
  destruct (py_flat_map (weight_block zones a agent trip) (enumerate picks))
    as [blocks'|] eqn:Hb; [|done].
  cbn [mbind py_mbind py_bind] in H2.
  assert (∀ i pick, picks !! i = Some pick → has_var zones agent pick = true →
            grams (p_weight (k_product_data pick))
            = Return (returned_grams (p_weight (k_product_data pick)))) as Hgrams.
  { intros i pick Hi%elem_of_enumerate Hv.
    destruct (py_flat_map_elem _ _ _ _ Hb Hi) as (ys & Hys & _).
    cbn [weight_block] in Hys. rewrite Hv in Hys. unfold returned_grams.
    by destruct (grams (p_weight (k_product_data pick))). }
  split; [exact Hgrams|].
  assert (blocks' = blocks) as ->.
  { rewrite (py_flat_map_bind _ _ _ Hb). unfold blocks.
    apply bind_ext_in. intros [i pick] Hi%elem_of_enumerate.
    cbn [weight_block indicator_block].
    destruct (has_var zones agent pick) eqn:Hv; [|done].
    by rewrite (Hgrams i pick Hi Hv). }
  destruct (blocks.*2) as [|e es] eqn:Hes.
  - injection H2 as <-. exists 0. split.
    + intros Hne. destruct blocks; [done|discriminate].
    + intros c Hc. rewrite app_nil_r in Hc. auto.
  - destruct (grams (a_capacity_weight agent)) as [cap|]; [|done].
    cbn [mbind py_mbind py_bind] in H2. injection H2 as <-.
    exists cap. split; [done|]. auto.
Qed.

Lemma volume_block_in a agent trip c :
  agents !! a = Some agent → trip ∈ trips →
  (let blocks := enumerate picks ≫=
     indicator_block zones a agent trip (λ i, V_in_trip_vol i a trip)
       (λ pick, py_int (p_volume (k_product_data pick))) in
   c ∈ concat blocks.*1 ++
       match blocks.*2 with
       | [] => []
       | _ => [Add (py_sum blocks.*2) RLe (Const (a_capacity_volume agent)) []]
       end) →
  c ∈ volume_constraints agents picks zones.
Proof.
  intros Ha Ht Hc. unfold volume_constraints.
  eapply enum_bind_elem; [exact Ha|]. cbv beta iota.
  apply list_elem_of_bind. exists trip. split; [exact Hc|done].
Qed.

(** The common part of the two capacity arguments. *)
Lemma trip_within in_trip w cap a agent trip item :
  agents !! a = Some agent →
  (∀ c,
     (let blocks := enumerate picks ≫=
        indicator_block zones a agent trip in_trip w in
      c ∈ concat blocks.*1 ++
          match blocks.*2 with
          | [] => []
          | _ => [Add (py_sum blocks.*2) RLe (Const cap) []]
          end) → holds val c = true) →
  item ∈ assigned_products picks zones val a agent →
  r_trip_number item = Some trip →
  zsum ((λ item, w (r_pick item))
          <$> filter (λ item, r_trip_number item = Some trip)
                     (sort_route (assigned_products picks zones val a agent)))
  ≤ cap.
Proof using Hmodel Hsat.
  intros Ha Hholds Hitem Htrip.
  set (blocks := enumerate picks ≫= indicator_block zones a agent trip in_trip w)
    in *.
  assert (blocks ≠ []) as Hne.
  { apply assigned_products_elem in Hitem as (i & pick & Hi & Hv & _).
    intros Hnil.
    assert (([ NewBoolVar (in_trip i);
        Add (Var (V_trip i a)) REq (Const trip) [Pos (V_assign i a); Pos (in_trip i)];
        Add (Var (V_trip i a)) RNe (Const trip) [Pos (V_assign i a); Neg (in_trip i)];
        Add (Var (in_trip i)) REq (Const 0) [Neg (V_assign i a)] ],
      Times (w pick) (in_trip i)) ∈ blocks) as Hin.
    { unfold blocks. eapply enum_bind_elem; [exact Hi|].
      cbn [indicator_block]. rewrite Hv. left. }
    rewrite Hnil in Hin. by apply elem_of_nil in Hin. }
  assert (eval val (py_sum blocks.*2) ≤ cap) as Hsum.
  { apply Z.leb_le.
    apply (holds_always val (py_sum blocks.*2) RLe (Const cap)), Hholds.
    apply elem_of_app. right. destruct blocks as [|b bs]; [done|]. left. }
  rewrite eval_py_sum in Hsum.
  rewrite (zsum_perm _ (((λ item, w (r_pick item))
             <$> filter (λ item, r_trip_number item = Some trip)
                        (assigned_products picks zones val a agent)))).
  2:{ by rewrite sort_route_perm. }
  unfold blocks in Hsum.
  rewrite (load_matches zones val a agent trip in_trip w) in Hsum; [exact Hsum|].
  intros i pick b c Hin Hv. apply elem_of_enumerate in Hin. split.
  - by eapply (assign_bool agents picks dd zones model val).
  - intros Hb Hc. apply Hholds. apply elem_of_app. left.
    apply list_elem_of_In, in_concat. exists b.1.
    split; apply list_elem_of_In; [|exact Hc].
    apply list_elem_of_fmap. exists b. split; [done|].
    by eapply enum_bind_elem.
Qed.
End capacity_model.

(** Every trip of every route has the property [P]. *)
Definition every_trip (routes : list (string * AgentRoute))
    (P : AgentRoute → Z → Prop) : Prop :=
  Forall (λ ar : string * AgentRoute,
            ∀ item trip, item ∈ ar_products ar.2 →
                         r_trip_number item = Some trip → P ar.2 trip) routes.

Lemma trip_is_planned picks zones val a agent item trip model agents dd :
  build_model agents picks dd zones = Return model →
  satisfies val model = true → agents !! a = Some agent →
  item ∈ assigned_products picks zones val a agent →
  r_trip_number item = Some trip → trip ∈ trips.
Proof.
  intros Hmodel Hsat Ha Hitem Htrip.
  apply assigned_products_elem in Hitem as (i & pick & Hi & Hv & _ & _ & _ & Ht).
  rewrite Ht in Htrip. injection Htrip as <-.
  pose proof (trip_range agents picks dd zones model val Hmodel Hsat i pick a agent
                Hi Ha Hv) as Hr.
  unfold trips. apply elem_of_seqZ. unfold MAX_TRIPS in *. lia.
Qed.

(** The stops of one trip of a route. *)
Definition trip_stops (route : AgentRoute) (trip : Z) : list RouteItem :=
  filter (λ item, r_trip_number item = Some trip) (ar_products route).

(** X21.  In a plan found by a sound solver, the products of one trip of
    an agent weigh no more than the agent's weight capacity, both counted in
    grams as the source counts them: [int(kg * 1000)], the product taken in
    binary64 and then truncated. *)
Theorem trip_weight_within_capacity (solver : solver_t) (orders : list Order)
    (products : list Product) (agents : list Agent) (dd : distance_data)
    (zones_access : ZonesAccess) (res : opt_result)
    (routes : list (string * AgentRoute)) :
  sound solver →
  optimize_routes solver orders products agents dd zones_access = Return res →
  agents_routes res = Some routes →
  every_trip routes (λ route trip,
    ∃ capacity_g loads,
      Float64.to_int (Float64.mul (Float64.of_Q (a_capacity_weight (ar_agent route)))
                                  (Float64.of_Z 1000)) = Return capacity_g ∧
      Forall2 (λ item weight_g,
                 Float64.to_int
                   (Float64.mul (Float64.of_Q (p_weight (k_product_data (r_pick item))))
                                (Float64.of_Z 1000)) = Return weight_g)
              (trip_stops route trip) loads ∧
      zsum loads ≤ capacity_g).
Proof.
  intros Hsound Hopt Hroutes.
  destruct (plan_origin _ _ _ _ _ _ _ _ Hsound Hopt Hroutes)
    as (picks & model & val & _ & Hmodel & Hsat & -> & _).
  apply Forall_forall. intros [aid route] Hin item trip Hitem Htrip.
  simpl in Hitem |- *.
  apply extract_routes_elem in Hin as (a & agent & Ha & _ & Hagent & Hprods).
  unfold trip_stops. rewrite Hprods, Hagent in *.
  apply (proj1 (sort_route_elem _ _)) in Hitem.
  pose proof (trip_is_planned _ _ _ _ _ _ _ _ _ _ Hmodel Hsat Ha Hitem Htrip) as Ht.
  destruct (model_equation _ _ _ _ _ Hmodel) as (timing & weight & _ & Hw & _).
  destruct (weight_blocks_returned agents picks zones_access weight a agent trip
              Hw Ha Ht) as (Hgrams & cap & Hcap & Hblocks).
  set (w := λ pick : Pick, returned_grams (p_weight (k_product_data pick))).
  set (stops := filter (λ item, r_trip_number item = Some trip)
                  (sort_route (assigned_products picks zones_access val a agent))).
  exists cap, ((λ item, w (r_pick item)) <$> stops). split; [|split].
  - apply Hcap. apply assigned_products_elem in Hitem as (i & pick & Hi & Hv & _).
    intros Hnil.
    assert (∃ b, b ∈ enumerate picks ≫= indicator_block zones_access a agent trip
                       (λ i, V_in_trip i a trip) w) as [b Hb].
    { eexists. eapply enum_bind_elem; [exact Hi|].
      cbn [indicator_block]. rewrite Hv. left. }
    fold w in Hnil. rewrite Hnil in Hb. by apply elem_of_nil in Hb.
  - apply Forall2_fmap_r, Forall_Forall2_diag, Forall_forall.
    intros stop [_ Hstop]%list_elem_of_filter.
    apply (proj1 (sort_route_elem _ _)) in Hstop.
    apply assigned_products_elem in Hstop as (i & pick & Hi & Hv & _ & Hpick & _).
    unfold compose, w. rewrite Hpick. by apply (Hgrams i pick).
  - apply (trip_within agents picks dd zones_access model val Hmodel Hsat
             (λ i, V_in_trip i a trip) w cap a agent trip item Ha); [|done..].
    intros c Hc. apply (part_holds agents picks dd zones_access model val Hmodel Hsat).
    do 4 right. left. exists weight. split; [done|]. by apply Hblocks.
Qed.

Lemma trip_weight_within_capacity_witness :
  every_trip worked_routes (λ route trip,
    ∃ capacity_g loads,
      Float64.to_int (Float64.mul (Float64.of_Q (a_capacity_weight (ar_agent route)))
                                  (Float64.of_Z 1000)) = Return capacity_g ∧
      Forall2 (λ item weight_g,
                 Float64.to_int
                   (Float64.mul (Float64.of_Q (p_weight (k_product_data (r_pick item))))
                                (Float64.of_Z 1000)) = Return weight_g)
              (trip_stops route trip) loads ∧
      zsum loads ≤ capacity_g).
Proof.
  apply (trip_weight_within_capacity worked_solver two_orders catalogue
           team catalogue_distances robot_zone worked_result worked_routes).
  - apply checking_solver_sound.
  - vm_compute. reflexivity.
  - vm_compute. reflexivity.
Defined.

(** X22.  In a plan found by a sound solver, the products of one trip of
    an agent have a total volume ([int(volume)] each) within the agent's
    volume capacity. *)
Theorem trip_volume_within_capacity (solver : solver_t) (orders : list Order)
    (products : list Product) (agents : list Agent) (dd : distance_data)
    (zones_access : ZonesAccess) (res : opt_result)
    (routes : list (string * AgentRoute)) :
  sound solver →
  optimize_routes solver orders products agents dd zones_access = Return res →
  agents_routes res = Some routes →
  every_trip routes (λ route trip,
    trip_load (λ p, py_int (p_volume p)) route trip
    ≤ a_capacity_volume (ar_agent route)).
Proof.
  intros Hsound Hopt Hroutes.
  destruct (plan_origin _ _ _ _ _ _ _ _ Hsound Hopt Hroutes)
    as (picks & model & val & _ & Hmodel & Hsat & -> & _).
  apply Forall_forall. intros [aid route] Hin item trip Hitem Htrip.
  simpl in Hitem |- *.
  apply extract_routes_elem in Hin as (a & agent & Ha & _ & Hagent & Hprods).
  unfold trip_load. rewrite Hprods, Hagent in *.
  apply (proj1 (sort_route_elem _ _)) in Hitem.
  pose proof (trip_is_planned _ _ _ _ _ _ _ _ _ _ Hmodel Hsat Ha Hitem Htrip) as Ht.
  apply (trip_within agents picks dd zones_access model val Hmodel Hsat
           (λ i, V_in_trip_vol i a trip)
           (λ pick, py_int (p_volume (k_product_data pick)))
           _ a agent trip item Ha); [|done..].
  intros c Hc. apply (part_holds agents picks dd zones_access model val Hmodel Hsat).
  do 5 right. left. by eapply volume_block_in.
Qed.

Lemma trip_volume_within_capacity_witness :
  every_trip worked_routes (λ route trip,
    trip_load (λ p, py_int (p_volume p)) route trip
    ≤ a_capacity_volume (ar_agent route)).
Proof.
  apply (trip_volume_within_capacity worked_solver two_orders catalogue
           team catalogue_distances robot_zone worked_result worked_routes).
  - apply checking_solver_sound.
  - vm_compute. reflexivity.
  - vm_compute. reflexivity.
Defined.

(** ** The shape of a plan *)

(** The order of the stops of a route: by trip, then by visit time. *)
Definition route_before (x y : RouteItem) : Prop :=
  default 1 (r_trip_number x) < default 1 (r_trip_number y) ∨
  (default 1 (r_trip_number x) = default 1 (r_trip_number y) ∧
   r_visit_time x ≤ r_visit_time y).

Lemma route_key_le_spec x y : route_key_le x y = true ↔ route_before x y.
Proof.
  unfold route_key_le, route_before.
  rewrite orb_true_iff, andb_true_iff, Z.ltb_lt, Z.eqb_eq, Z.leb_le. tauto.
Qed.

#[local] Instance route_before_trans : Transitive route_before.
Proof. intros x y z. unfold route_before. lia. Qed.

Lemma route_before_total x y : ¬ route_before x y → route_before y x.
Proof. unfold route_before. lia. Qed.

Lemma insert_route_item_sorted x l :
  Sorted route_before l → Sorted route_before (insert_route_item x l).
Proof.
  induction l as [|y l IH]; intros Hs; simpl.
  - repeat constructor.
  - destruct (route_key_le x y) eqn:Hxy.
    + constructor; [done|]. constructor. by apply route_key_le_spec.
    + apply Sorted_inv in Hs as [Hs Hhd]. constructor; [by apply IH|].
      assert (route_before y x) as Hyx.
      { apply route_before_total. rewrite <- route_key_le_spec. congruence. }
      destruct l as [|z l]; simpl; [by constructor|].
      destruct (route_key_le x z); constructor; [done|].
      by apply HdRel_inv in Hhd.
Qed.

Lemma sort_route_sorted l : StronglySorted route_before (sort_route l).
Proof.
  apply Sorted_StronglySorted; [apply _|].
  unfold sort_route. induction l as [|x l IH]; simpl; [constructor|].
  by apply insert_route_item_sorted.
Qed.

Lemma sort_route_nil l : sort_route l = [] → l = [].
Proof.
  intros H. pose proof (sort_route_perm l) as Hp. rewrite H in Hp.
  by apply Permutation_nil_l in Hp.
Qed.

(** The route that the source builds for agent [a]. *)
Definition route_of (picks : list Pick) (zones : ZonesAccess) (val : var → Z)
    (a : nat) (agent : Agent) : AgentRoute :=
  {| ar_agent := agent;
     ar_products := sort_route (assigned_products picks zones val a agent) |}.

Lemma extract_routes_foldl agents picks zones val :
  extract_routes agents picks zones val
  = foldl (λ d x, match assigned_products picks zones val x.1 x.2 with
                  | [] => d
                  | _ => dict_set d (a_id x.2) (route_of picks zones val x.1 x.2)
                  end) [] (enumerate agents).
Proof.
  unfold extract_routes. generalize (@nil (string * AgentRoute)).
  induction (enumerate agents) as [|[a agent] l IH]; intros acc; [done|].
  simpl. rewrite IH. unfold route_of. simpl.
  by destruct (assigned_products _ _ _ a agent).
Qed.

Lemma extract_routes_shape agents picks zones val :
  NoDup (dict_keys (extract_routes agents picks zones val)) ∧
  ∀ aid route, (aid, route) ∈ extract_routes agents picks zones val →
    ∃ a agent, agents !! a = Some agent ∧ aid = a_id agent ∧
               assigned_products picks zones val a agent ≠ [] ∧
               route = route_of picks zones val a agent.
Proof.
  rewrite extract_routes_foldl.
  assert (∀ l acc,
    NoDup (dict_keys acc) →
    NoDup (dict_keys (foldl (λ d x,
      match assigned_products picks zones val x.1 x.2 with
      | [] => d
      | _ => dict_set d (a_id x.2) (route_of picks zones val x.1 x.2)
      end) acc l)) ∧
    ∀ aid route, (aid, route) ∈ foldl (λ d x,
      match assigned_products picks zones val x.1 x.2 with
      | [] => d
      | _ => dict_set d (a_id x.2) (route_of picks zones val x.1 x.2)
      end) acc l →
      (aid, route) ∈ acc ∨
      ∃ a agent, (a, agent) ∈ l ∧ aid = a_id agent ∧
                 assigned_products picks zones val a agent ≠ [] ∧
                 route = route_of picks zones val a agent) as Hgen.
  { induction l as [|[a agent] l IH]; intros acc Hnd; simpl; [auto|].
    destruct (assigned_products picks zones val a agent) as [|it its] eqn:E.
    - destruct (IH acc Hnd) as [H1 H2]. split; [done|].
      intros aid route [?|(a' & agent' & Hin & ?)]%H2; [by left|right].
      exists a', agent'. split; [by right|done].
    - destruct (IH (dict_set acc (a_id agent) (route_of picks zones val a agent)))
        as [H1 H2]; [by apply dict_set_NoDup|].
      split; [done|].
      intros aid route [Hin|(a' & agent' & Hin & ?)]%H2.
      + apply dict_set_elem in Hin as [?|[= -> ->]]; [by left|right].
        exists a, agent. split; [left|]. split; [done|]. split; [|done].
        by rewrite E.
      + right. exists a', agent'. split; [by right|done]. }
  destruct (Hgen (enumerate agents) []) as [H1 H2]; [constructor|].
  split; [done|]. intros aid route [Hin|(a & agent & Hin & ?)]%H2.
  - by apply elem_of_nil in Hin.
  - exists a, agent. split; [by apply elem_of_enumerate|done].
Qed.

(** X23.  The shape of a returned plan: one route per agent id, each
    route for an agent of the fleet and keyed by its id, never empty, and
    its stops ordered by trip number and then by visit time. *)
Theorem plan_well_formed (solver : solver_t) (orders : list Order)
    (products : list Product) (agents : list Agent) (dd : distance_data)
    (zones_access : ZonesAccess) (res : opt_result)
    (routes : list (string * AgentRoute)) :
  optimize_routes solver orders products agents dd zones_access = Return res →
  agents_routes res = Some routes →
  NoDup (dict_keys routes) ∧
  Forall (λ ar : string * AgentRoute,
            ar_agent ar.2 ∈ agents ∧ ar.1 = a_id (ar_agent ar.2) ∧
            ar_products ar.2 ≠ [] ∧
            StronglySorted route_before (ar_products ar.2)) routes.
Proof.
  intros Hopt Hroutes.
  destruct (optimize_routes_success _ _ _ _ _ _ _ _ Hopt Hroutes)
    as (picks & model & val & st & _ & _ & _ & _ & _ & ->).
  destruct (extract_routes_shape agents picks zones_access val) as [Hnd Hall].
  split; [done|]. apply Forall_forall. intros [aid route] Hin.
  destruct (Hall _ _ Hin) as (a & agent & Ha & -> & Hne & ->). simpl.
  split; [by eapply list_elem_of_lookup_2|]. split; [done|].
  split; [by intros ?%sort_route_nil|]. apply sort_route_sorted.
Qed.

Lemma plan_well_formed_witness :
  NoDup (dict_keys worked_routes) ∧
  Forall (λ ar : string * AgentRoute,
            ar_agent ar.2 ∈ team ∧ ar.1 = a_id (ar_agent ar.2) ∧
            ar_products ar.2 ≠ [] ∧
            StronglySorted route_before (ar_products ar.2)) worked_routes.
Proof.
  apply (plan_well_formed worked_solver two_orders catalogue
           team catalogue_distances robot_zone worked_result worked_routes).
  - vm_compute. reflexivity.
  - vm_compute. reflexivity.
Defined.

(** ** Incompatible products *)

Section incompatible.
Context (agents : list Agent) (picks : list Pick) (dd : distance_data)
        (zones : ZonesAccess) (model : list constraint) (val : var → Z).
Hypothesis Hmodel : build_model agents picks dd zones = Return model.
Hypothesis Hsat : satisfies val model = true.

Lemma incompatible_apart i j a agent pick_i pick_j :
  picks !! i = Some pick_i → picks !! j = Some pick_j → (i < j)%nat →
  p_id (k_product_data pick_j) ∈ p_incompatible_with (k_product_data pick_i) →
  agents !! a = Some agent →
  has_var zones agent pick_i = true → has_var zones agent pick_j = true →
  val (V_assign i a) = 1 → val (V_assign j a) = 1 →
  val (V_trip i a) ≠ val (V_trip j a).
Proof using Hmodel Hsat.
  intros Hi Hj Hij Hinc Ha Hvi Hvj Hai Haj.
  assert (∀ c, c ∈
    [ NewBoolVar (V_incomp i j a);
      Add (Plus (Var (V_assign i a)) (Var (V_assign j a))) REq (Const 2)
          [Pos (V_incomp i j a)];
      Add (Plus (Var (V_assign i a)) (Var (V_assign j a))) RLt (Const 2)
          [Neg (V_incomp i j a)];
      NewBoolVar (V_incomp_same_trip i j a);
      Add (Var (V_trip i a)) REq (Var (V_trip j a))
          [Pos (V_incomp i j a); Pos (V_incomp_same_trip i j a)];
      Add (Var (V_trip i a)) RNe (Var (V_trip j a))
          [Pos (V_incomp i j a); Neg (V_incomp_same_trip i j a)];
      Add (Var (V_incomp_same_trip i j a)) REq (Const 0) [Pos (V_incomp i j a)] ]
    → holds val c = true) as Hblock.
  { intros c Hc.
    apply (part_holds agents picks dd zones model val Hmodel Hsat).
    do 6 right. left.
    unfold incompatibility_constraints. eapply enum_bind_elem; [exact Hi|].
    cbv beta iota. eapply enum_bind_elem; [exact Hj|]. cbv beta iota.
    rewrite !bool_decide_eq_true_2 by done.
    eapply enum_bind_elem; [exact Ha|]. cbv beta iota.
    rewrite Hvi, Hvj. exact Hc. }
  pose proof (holds_bool _ _ (Hblock _ ltac:(left))) as Hb.
  pose proof (holds_enforced _ _ _ _ _ (Hblock _ ltac:(do 2 right; left))) as Hlt.
  pose proof (holds_enforced _ _ _ _ _ (Hblock _ ltac:(do 5 right; left))) as Hne.
  pose proof (holds_enforced _ _ _ _ _ (Hblock _ ltac:(do 6 right; left))) as Hoff.
  simpl in Hlt, Hne, Hoff. rewrite Hai, Haj in Hlt.
  destruct (Z.eqb_spec (val (V_incomp i j a)) 0) as [H0|H0];
    [by specialize (Hlt eq_refl)|].
  assert (val (V_incomp i j a) = 1) as H1 by lia. rewrite H1 in *.
  specialize (Hoff eq_refl). apply Z.eqb_eq in Hoff. rewrite Hoff in Hne.
  specialize (Hne eq_refl). by apply negb_true_iff, Z.eqb_neq in Hne.
Qed.
End incompatible.

(** Two different positions of a sorted route come from two different
    positions of the list that was sorted. *)
Lemma sort_route_positions l n m x y :
  n ≠ m → sort_route l !! n = Some x → sort_route l !! m = Some y →
  ∃ n' m', n' ≠ m' ∧ l !! n' = Some x ∧ l !! m' = Some y.
Proof.
  intros Hnm Hn Hm.
  destruct (proj1 (Permutation_inj _ _) (sort_route_perm l)) as (_ & f & Hinj & Hf).
  exists (f n), (f m). rewrite <- !Hf. split; [|done].
  intros Heq. by apply Hinj in Heq.
Qed.

(** Two different positions of [assigned_products] hold two different
    units. *)
Lemma assigned_positions picks zones val a agent n m x y :
  n ≠ m →
  assigned_products picks zones val a agent !! n = Some x →
  assigned_products picks zones val a agent !! m = Some y →
  ∃ i j pick_i pick_j,
    i ≠ j ∧ picks !! i = Some pick_i ∧ picks !! j = Some pick_j ∧
    has_var zones agent pick_i = true ∧ has_var zones agent pick_j = true ∧
    val (V_assign i a) = 1 ∧ val (V_assign j a) = 1 ∧
    x = {| r_pick := pick_i; r_visit_time := val (V_visit i);
           r_trip_number := Some (val (V_trip i a)) |} ∧
    y = {| r_pick := pick_j; r_visit_time := val (V_visit j);
           r_trip_number := Some (val (V_trip j a)) |}.
Proof.
  unfold assigned_products.
  change (λ '(i, pick),
            if has_var zones agent pick && (val (V_assign i a) =? 1)
            then [{| r_pick := pick; r_visit_time := val (V_visit i);
                     r_trip_number := Some (val (V_trip i a)) |}]
            else [])
    with (assigned_item zones val a agent).
  assert (∀ u i pick, u ∈ assigned_item zones val a agent (i, pick) →
            has_var zones agent pick = true ∧ val (V_assign i a) = 1 ∧
            u = {| r_pick := pick; r_visit_time := val (V_visit i);
                   r_trip_number := Some (val (V_trip i a)) |}) as Hitem.
  { intros u i pick. cbn [assigned_item].
    destruct (has_var zones agent pick); [|by intros ?%elem_of_nil].
    destruct (Z.eqb_spec (val (V_assign i a)) 1); [|by intros ?%elem_of_nil].
    by intros ->%list_elem_of_singleton. }
  assert (∀ L : list (nat * Pick),
    (∀ p q i pi j pj, L !! p = Some (i, pi) → L !! q = Some (j, pj) → p ≠ q → i ≠ j) →
    ∀ n m, n ≠ m →
    (L ≫= assigned_item zones val a agent) !! n = Some x →
    (L ≫= assigned_item zones val a agent) !! m = Some y →
    ∃ i j pi pj, i ≠ j ∧ (i, pi) ∈ L ∧ (j, pj) ∈ L ∧
      x ∈ assigned_item zones val a agent (i, pi) ∧
      y ∈ assigned_item zones val a agent (j, pj)) as Hgen.
  { clear n m. induction L as [|[i pick] L IH]; intros Hinj n m Hnm Hn Hm; [done|].
    assert (∀ p q i pi j pj, L !! p = Some (i, pi) → L !! q = Some (j, pj) →
              p ≠ q → i ≠ j) as Hinj'.
    { intros p q i' pi j pj Hp Hq Hpq.
      apply (Hinj (S p) (S q) i' pi j pj); [done..|lia]. }
    assert (∀ u k, (L ≫= assigned_item zones val a agent) !! k = Some u →
              ∃ j pj, i ≠ j ∧ (j, pj) ∈ L ∧
                      u ∈ assigned_item zones val a agent (j, pj)) as Hrest.
    { intros u k Hk. apply list_elem_of_lookup_2, list_elem_of_bind in Hk
        as ([j pj] & Hu & Hin).
      apply list_elem_of_lookup in Hin as [q Hq].
      exists j, pj. split; [|split; [by eapply list_elem_of_lookup_2|done]].
      apply (Hinj 0%nat (S q) i pick j pj); [done..|lia]. }
    rewrite bind_cons in Hn, Hm.
    destruct (assigned_item zones val a agent (i, pick)) as [|u [|u' us]] eqn:E.
    - destruct (IH Hinj' n m Hnm Hn Hm) as (i' & j' & pi & pj & ? & ? & ? & ?).
      exists i', j', pi, pj. split; [done|]. split; [by right|]. split; [by right|done].
    - destruct n as [|n], m as [|m]; simpl in Hn, Hm; [done| | |].
      + injection Hn as <-. destruct (Hrest _ _ Hm) as (j & pj & Hij & Hin & Hy).
        exists i, j, pick, pj. split; [done|]. split; [left|]. split; [by right|].
        rewrite E. split; [left|done].
      + injection Hm as <-. destruct (Hrest _ _ Hn) as (j & pj & Hij & Hin & Hx).
        exists j, i, pj, pick. split; [done|]. split; [by right|]. split; [left|].
        rewrite E. split; [done|left].
      + destruct (IH Hinj' n m ltac:(lia) Hn Hm) as (i' & j' & pi & pj & ? & ? & ? & ?).
        exists i', j', pi, pj. split; [done|]. split; [by right|].
        split; [by right|done].
    - exfalso. cbn [assigned_item] in E. by destruct (_ && _). }
  intros Hnm Hn Hm.
  destruct (Hgen (enumerate picks)) with (n := n) (m := m)
    as (i & j & pi & pj & Hij & Hi & Hj & Hx & Hy); [|done..|].
  { intros p q i pi j pj Hp Hq Hpq. unfold enumerate in Hp, Hq.
    rewrite list_lookup_imap in Hp, Hq.
    destruct (picks !! p); [|done]. destruct (picks !! q); [|done].
    simpl in Hp, Hq. congruence. }
  apply elem_of_enumerate in Hi, Hj.
  destruct (Hitem _ _ _ Hx) as (? & ? & ?). destruct (Hitem _ _ _ Hy) as (? & ? & ?).
  exists i, j, pi, pj. done.
Qed.

(** X24.  In a plan found by a sound solver, two units of one route whose
    products each list the other as incompatible are in different trips. *)
Theorem incompatible_products_apart (solver : solver_t) (orders : list Order)
    (products : list Product) (agents : list Agent) (dd : distance_data)
    (zones_access : ZonesAccess) (res : opt_result)
    (routes : list (string * AgentRoute)) :
  sound solver →
  optimize_routes solver orders products agents dd zones_access = Return res →
  agents_routes res = Some routes →
  Forall (λ ar : string * AgentRoute,
    ∀ n m x y,
      n ≠ m → ar_products ar.2 !! n = Some x → ar_products ar.2 !! m = Some y →
      p_id (k_product_data (r_pick y))
        ∈ p_incompatible_with (k_product_data (r_pick x)) →
      p_id (k_product_data (r_pick x))
        ∈ p_incompatible_with (k_product_data (r_pick y)) →
      r_trip_number x ≠ r_trip_number y) routes.
Proof.
  intros Hsound Hopt Hroutes.
  destruct (plan_origin _ _ _ _ _ _ _ _ Hsound Hopt Hroutes)
    as (picks & model & val & _ & Hmodel & Hsat & -> & _).
  apply Forall_forall. intros [aid route] Hin n m x y Hnm Hn Hm Hxy Hyx.
  simpl in Hn, Hm.
  apply extract_routes_elem in Hin as (a & agent & Ha & _ & _ & Hprods).
  rewrite Hprods in Hn, Hm.
  destruct (sort_route_positions _ _ _ _ _ Hnm Hn Hm) as (n' & m' & Hnm' & Hn' & Hm').
  destruct (assigned_positions _ _ _ _ _ _ _ _ _ Hnm' Hn' Hm')
    as (i & j & pi & pj & Hij & Hi & Hj & Hvi & Hvj & Hai & Haj & -> & ->).
  simpl in *. intros [= Heq].
  destruct (Nat.lt_trichotomy i j) as [Hlt|[?|Hlt]]; [|done|].
  - by apply (incompatible_apart agents picks dd zones_access model val Hmodel Hsat
                i j a agent pi pj).
  - symmetry in Heq.
    by apply (incompatible_apart agents picks dd zones_access model val Hmodel Hsat
                j i a agent pj pi).
Qed.

Lemma incompatible_products_apart_witness :
  Forall (λ ar : string * AgentRoute,
    ∀ n m x y,
      n ≠ m → ar_products ar.2 !! n = Some x → ar_products ar.2 !! m = Some y →
      p_id (k_product_data (r_pick y))
        ∈ p_incompatible_with (k_product_data (r_pick x)) →
      p_id (k_product_data (r_pick x))
        ∈ p_incompatible_with (k_product_data (r_pick y)) →
      r_trip_number x ≠ r_trip_number y) worked_routes.
Proof.
  apply (incompatible_products_apart worked_solver two_orders catalogue
           team catalogue_distances robot_zone worked_result worked_routes).
  - apply checking_solver_sound.
  - vm_compute. reflexivity.
  - vm_compute. reflexivity.
Defined.

(** ** Carts and their guides *)

Lemma zsum_member (zs : list Z) z :
  (∀ x, x ∈ zs → 0 ≤ x) → z ∈ zs → z ≤ zsum zs.
Proof.
  induction zs as [|x zs IH]; intros Hpos Hz; [by apply elem_of_nil in Hz|].
  assert (0 ≤ zsum zs) as Hrest.
  { clear IH Hz. induction zs as [|y zs IH]; simpl; [done|].
    assert (0 ≤ y) by (apply Hpos; right; left).
    assert (0 ≤ zsum zs); [|lia].
    apply IH. intros x' [->|?]%elem_of_cons; apply Hpos; [left|right; by right]. }
  assert (0 ≤ x) by (apply Hpos; left).
  apply elem_of_cons in Hz as [->|Hz]; simpl; [lia|].
  assert (z ≤ zsum zs); [|lia]. apply IH; [|done].
  intros x' Hx'. apply Hpos. by right.
Qed.

Lemma zsum_positive (zs : list Z) : 0 < zsum zs → ∃ z, z ∈ zs ∧ z ≠ 0.
Proof.
  induction zs as [|x zs IH]; simpl; [lia|]. intros Hs.
  destruct (decide (x = 0)) as [->|Hx].
  - destruct IH as (z & Hz & Hne); [lia|]. exists z. split; [by right|done].
  - exists x. split; [left|done].
Qed.

Section guides.
Context (agents : list Agent) (picks : list Pick) (dd : distance_data)
        (zones : ZonesAccess) (model : list constraint) (val : var → Z).
Hypothesis Hmodel : build_model agents picks dd zones = Return model.
Hypothesis Hsat : satisfies val model = true.

Lemma usage_holds c :
  c ∈ usage_constraints agents picks zones → holds val c = true.
Proof using Hmodel Hsat.
  intros Hc. apply (part_holds agents picks dd zones model val Hmodel Hsat).
  by do 9 right.
Qed.

Lemma products_assigned_elem i a agent :
  i ∈ products_assigned picks zones a agent ↔
  ∃ pick, picks !! i = Some pick ∧ has_var zones agent pick = true.
Proof.
  unfold products_assigned. rewrite list_elem_of_bind. split.
  - intros ([j pick] & Hi & Hin). apply elem_of_enumerate in Hin.
    destruct (has_var zones agent pick) eqn:Hv; [|by apply elem_of_nil in Hi].
    apply list_elem_of_singleton in Hi as ->. eauto.
  - intros (pick & Hi & Hv). exists (i, pick).
    split; [rewrite Hv; left|by apply elem_of_enumerate].
Qed.

(** An agent that carries a unit is marked as used. *)
Lemma carrier_is_used i pick a agent :
  picks !! i = Some pick → agents !! a = Some agent →
  has_var zones agent pick = true → val (V_assign i a) = 1 →
  val (V_agent_used a) = 1.
Proof using Hmodel Hsat.
  intros Hi Ha Hv Hai.
  set (assigned := (λ i, Var (V_assign i a)) <$> products_assigned picks zones a agent).
  assert (Var (V_assign i a) ∈ assigned) as Hin.
  { apply list_elem_of_fmap. exists i. split; [done|].
    apply products_assigned_elem. eauto. }
  assert (∀ c, c ∈ NewBoolVar (V_agent_used a) ::
            [ Add (py_sum assigned) RGe (Const 1) [Pos (V_agent_used a)];
              Add (py_sum assigned) REq (Const 0) [Neg (V_agent_used a)] ] →
            holds val c = true) as Hblock.
  { intros c Hc. apply usage_holds. unfold usage_constraints.
    apply elem_of_app. left. eapply enum_bind_elem; [exact Ha|]. cbv beta iota.
    fold assigned. destruct assigned as [|e es]; [by apply elem_of_nil in Hin|].
    exact Hc. }
  pose proof (holds_bool _ _ (Hblock _ ltac:(left))) as Hb.
  pose proof (holds_enforced _ _ _ _ _ (Hblock _ ltac:(do 2 right; left))) as Hoff.
  cbn [forallb lit_holds rel_holds eval] in Hoff. rewrite eval_py_sum in Hoff.
  destruct (Z.eqb_spec (val (V_agent_used a)) 0) as [H0|H0]; [|lia].
  specialize (Hoff eq_refl). apply Z.eqb_eq in Hoff.
  assert (val (V_assign i a) ≤ zsum (eval val <$> assigned)) as Hle; [|lia].
  apply zsum_member.
  - intros x (e & -> & (j & -> & Hj)%list_elem_of_fmap)%list_elem_of_fmap.
    apply products_assigned_elem in Hj as (pj & Hj & Hvj). simpl.
    by eapply (assign_bool agents picks dd zones model val).
  - apply list_elem_of_fmap. by exists (Var (V_assign i a)).
Qed.

(** A used cart has a guide among the humans. *)
Lemma used_cart_guided c :
  c ∈ cart_indices agents → val (V_agent_used c) = 1 →
  ∃ h, h ∈ human_indices agents ∧ val (V_human_to_cart h c) = 1.
Proof using Hmodel Hsat.
  intros Hc Hused.
  set (humans := (λ h, Var (V_human_to_cart h c)) <$> human_indices agents).
  assert (holds val (Add (py_sum humans) REq (Const 1) [Pos (V_agent_used c)]) = true)
    as Hone.
  { apply usage_holds. unfold usage_constraints.
    apply elem_of_app. right. apply elem_of_app. right. apply elem_of_app. left.
    apply list_elem_of_bind. exists c. split; [left|done]. }
  apply holds_enforced in Hone; [|simpl; by rewrite Hused].
  cbn [rel_holds eval] in Hone. rewrite eval_py_sum in Hone.
  apply Z.eqb_eq in Hone.
  destruct (zsum_positive (eval val <$> humans)) as (z & Hz & Hne); [lia|].
  apply list_elem_of_fmap in Hz as (e & -> & (h & -> & Hh)%list_elem_of_fmap).
  exists h. split; [done|]. simpl in Hne.
  assert (0 ≤ val (V_human_to_cart h c) ≤ 1); [|lia].
  apply holds_bool, usage_holds. unfold usage_constraints.
  apply elem_of_app. right. apply elem_of_app. left.
  apply list_elem_of_bind. exists c. split; [|done].
  apply list_elem_of_bind. exists h. split; [left|done].
Qed.
End guides.

Lemma cart_indices_elem agents c :
  c ∈ cart_indices agents ↔
  ∃ cart, agents !! c = Some cart ∧ a_type cart = "cart"%string.
Proof.
  unfold cart_indices. rewrite list_elem_of_fmap. split.
  - intros ([c' cart] & -> & [Ht Hin%elem_of_enumerate]%list_elem_of_filter). eauto.
  - intros (cart & Hc & Ht). exists (c, cart). split; [done|].
    apply list_elem_of_filter. split; [done|by apply elem_of_enumerate].
Qed.

Lemma human_indices_elem agents h :
  h ∈ human_indices agents ↔
  ∃ human, agents !! h = Some human ∧ a_type human = "human"%string.
Proof.
  unfold human_indices. rewrite list_elem_of_fmap. split.
  - intros ([h' human] & -> & [Ht Hin%elem_of_enumerate]%list_elem_of_filter). eauto.
  - intros (human & Hc & Ht). exists (h, human). split; [done|].
    apply list_elem_of_filter. split; [done|by apply elem_of_enumerate].
Qed.

(** What [extract_human_cart] records. *)
Lemma extract_human_cart_spec agents val :
  (∀ k v, (k, v) ∈ extract_human_cart agents val →
     ∃ c h cart human,
       agents !! c = Some cart ∧ a_type cart = "cart"%string ∧
       agents !! h = Some human ∧ a_type human = "human"%string ∧
       val (V_human_to_cart h c) = 1 ∧ k = a_id cart ∧ v = a_id human) ∧
  (∀ c h cart, c ∈ cart_indices agents → h ∈ human_indices agents →
     agents !! c = Some cart → val (V_human_to_cart h c) = 1 →
     is_Some (dict_get (extract_human_cart agents val) (a_id cart))).
Proof.
  unfold extract_human_cart.
  set (pairs := c_idx ← cart_indices agents; h_idx ← human_indices agents;
                [(c_idx, h_idx)]).
  set (step := λ (d : list (string * string)) '(c_idx, h_idx),
         if val (V_human_to_cart h_idx c_idx) =? 1 then
           match agents !! c_idx, agents !! h_idx with
           | Some cart, Some human => dict_set d (a_id cart) (a_id human)
           | _, _ => d
           end
         else d).
  assert (∀ c h, (c, h) ∈ pairs ↔ c ∈ cart_indices agents ∧ h ∈ human_indices agents)
    as Hpairs.
  { intros c h. unfold pairs. rewrite list_elem_of_bind. split.
    - intros (c' & (h' & [= <- <-]%list_elem_of_singleton & Hh)%list_elem_of_bind & Hc).
      done.
    - intros [Hc Hh]. exists c. split; [|done]. apply list_elem_of_bind.
      exists h. split; [left|done]. }
  assert (∀ l acc,
    (∀ x, x ∈ l → x ∈ pairs) →
    (∀ k v, (k, v) ∈ foldl step acc l →
       (k, v) ∈ acc ∨
       ∃ c h cart human,
         agents !! c = Some cart ∧ a_type cart = "cart"%string ∧
         agents !! h = Some human ∧ a_type human = "human"%string ∧
         val (V_human_to_cart h c) = 1 ∧ k = a_id cart ∧ v = a_id human) ∧
    (∀ k, is_Some (dict_get acc k) → is_Some (dict_get (foldl step acc l) k)) ∧
    (∀ c h cart, (c, h) ∈ l → agents !! c = Some cart →
       val (V_human_to_cart h c) = 1 →
       is_Some (dict_get (foldl step acc l) (a_id cart)))) as Hgen.
  { induction l as [|[c h] l IH]; intros acc Hsub.
    { split; [auto|]. split; [done|]. intros c h cart Hin. by apply elem_of_nil in Hin. }
    destruct (IH (step acc (c, h))) as (H1 & H2 & H3).
    { intros x Hx. apply Hsub. by right. }
    assert ((c, h) ∈ pairs) as Hch by (apply Hsub; left).
    apply Hpairs in Hch as [(cart & Hc & Htc)%cart_indices_elem
                            (human & Hh & Hth)%human_indices_elem].
    assert (∀ k, is_Some (dict_get acc k) → is_Some (dict_get (step acc (c, h)) k))
      as Hmono.
    { intros k Hk. cbn [step]. rewrite Hc, Hh.
      destruct (_ =? _); [|done]. rewrite dict_get_set. by destruct decide. }
    cbn [foldl]. split; [|split].
    - intros k v [Hin|Hin]%H1; [|by right].
      cbn [step] in Hin. rewrite Hc, Hh in Hin.
      destruct (Z.eqb_spec (val (V_human_to_cart h c)) 1) as [Hv|]; [|by left].
      apply dict_set_elem in Hin as [?|[= -> ->]]; [by left|right].
      by exists c, h, cart, human.
    - intros k Hk. by apply H2, Hmono.
    - intros c' h' cart' [[= -> ->]|Hin]%elem_of_cons Hc' Hv; [|by eapply H3].
      apply H2. cbn [step]. rewrite Hc, Hh, Hv. simpl.
      rewrite Hc in Hc'. injection Hc' as <-.
      rewrite dict_get_set, decide_True by done. eauto. }
  destruct (Hgen pairs []) as (H1 & _ & H3); [done|]. split.
  - intros k v [Hin|?]%H1; [by apply elem_of_nil in Hin|done].
  - intros c h cart Hc Hh Hcart Hv. eapply H3; [|done..]. by apply Hpairs.
Qed.

(** X25.  In a plan found by a sound solver every cart that has a route
    has a guide, and every recorded guide is a human of the fleet guiding a
    cart of the fleet. *)
Theorem carts_have_guides (solver : solver_t) (orders : list Order)
    (products : list Product) (agents : list Agent) (dd : distance_data)
    (zones_access : ZonesAccess) (res : opt_result)
    (routes : list (string * AgentRoute)) :
  sound solver →
  optimize_routes solver orders products agents dd zones_access = Return res →
  agents_routes res = Some routes →
  ∃ guides,
    human_cart_assignments res = Some guides ∧
    Forall (λ ar : string * AgentRoute,
              a_type (ar_agent ar.2) = "cart"%string →
              is_Some (dict_get guides ar.1)) routes ∧
    Forall (λ g : string * string,
              ∃ cart human,
                cart ∈ agents ∧ a_type cart = "cart"%string ∧
                human ∈ agents ∧ a_type human = "human"%string ∧
                g = (a_id cart, a_id human)) guides.
Proof.
  intros Hsound Hopt Hroutes.
  destruct (plan_origin _ _ _ _ _ _ _ _ Hsound Hopt Hroutes)
    as (picks & model & val & _ & Hmodel & Hsat & -> & Hguides).
  exists (extract_human_cart agents val). split; [done|].
  destruct (extract_human_cart_spec agents val) as [Hall Hsome]. split.
  - apply Forall_forall. intros [aid route] Hin Hcart. simpl in *.
    pose proof Hin as Hin'.
    apply extract_routes_shape in Hin' as (a & agent & Ha & -> & Hne & ->).
    simpl in Hcart.
    destruct (assigned_products picks zones_access val a agent) as [|item its] eqn:E;
      [done|].
    assert (item ∈ assigned_products picks zones_access val a agent) as Hitem
      by (rewrite E; left).
    apply assigned_products_elem in Hitem as (i & pick & Hi & Hv & Hai & _).
    pose proof (carrier_is_used agents picks dd zones_access model val Hmodel Hsat
                  i pick a agent Hi Ha Hv Hai) as Hused.
    assert (a ∈ cart_indices agents) as Hc by (apply cart_indices_elem; eauto).
    destruct (used_cart_guided agents picks dd zones_access model val Hmodel Hsat
                a Hc Hused) as (h & Hh & Hval).
    by eapply Hsome.
  - apply Forall_forall. intros [k v] Hin.
    destruct (Hall _ _ Hin) as (c & h & cart & human & Hc & Htc & Hh & Hth & _ & -> & ->).
    exists cart, human. split_and!; try done; by eapply list_elem_of_lookup_2.
Qed.

Lemma carts_have_guides_witness :
  ∃ guides,
    human_cart_assignments worked_result = Some guides ∧
    Forall (λ ar : string * AgentRoute,
              a_type (ar_agent ar.2) = "cart"%string →
              is_Some (dict_get guides ar.1)) worked_routes ∧
    Forall (λ g : string * string,
              ∃ cart human,
                cart ∈ team ∧ a_type cart = "cart"%string ∧
                human ∈ team ∧ a_type human = "human"%string ∧
                g = (a_id cart, a_id human)) guides.
Proof.
  apply (carts_have_guides worked_solver two_orders catalogue
           team catalogue_distances robot_zone worked_result worked_routes).
  - apply checking_solver_sound.
  - vm_compute. reflexivity.
  - vm_compute. reflexivity.
Defined.

End OptimizerMore.

(** * Travel times between the stops of a plan *)

Module TimingClaims.
Import Astar Distances Optimizer OptimizerSpec OptimizerClaims OptimizerMore.

(** ** Signs of binary64 results *)

(** The sign bit is clear (or the float is not a number). *)
Definition not_negative (x : spec_float) : Prop :=
  match x with
  | S754_zero s | S754_infinity s | S754_finite s _ _ => s = false
  | S754_nan => True
  end.

Lemma binary_round_aux_sign m e l :
  not_negative (binary_round_aux Float64.prec Float64.emax false m e l).
Proof.
  unfold binary_round_aux.
  destruct (shr_fexp _ _ m e l) as [mrs' e'].
  destruct (shr_fexp _ _ _ e' loc_Exact) as [mrs'' e''].
  destruct (shr_m mrs''); [done| |done]. by destruct (_ <=? _)%Z.
Qed.

Lemma of_Q_sign q : (0 < q)%Q → not_negative (Float64.of_Q q).
Proof.
  destruct q as [n d]. unfold Qlt, Float64.of_Q. simpl. intros Hn.
  destruct n as [|n|n]; [lia| |lia].
  unfold SFdiv. destruct (SFdiv_core_binary _ _ _ _ _ _) as [[mz ez] lz].
  apply binary_round_aux_sign.
Qed.

Lemma of_Z_sign n : 0 ≤ n → not_negative (Float64.of_Z n).
Proof.
  intros Hn. unfold Float64.of_Z, binary_normalize.
  destruct n as [|n|n]; [done| |lia].
  unfold binary_round. destruct (shl_align _ _ _) as [mz ez].
  apply binary_round_aux_sign.
Qed.

Lemma mul_sign x y :
  not_negative x → not_negative y → not_negative (Float64.mul x y).
Proof.
  unfold Float64.mul, SFmul.
  destruct x as [sx|sx| |sx mx ex], y as [sy|sy| |sy my ey]; simpl;
    try done; try (by intros -> ->).
  intros -> ->. apply binary_round_aux_sign.
Qed.

Lemma div_sign x y :
  not_negative x → not_negative y →
  not_negative (SFdiv Float64.prec Float64.emax x y).
Proof.
  unfold SFdiv.
  destruct x as [sx|sx| |sx mx ex], y as [sy|sy| |sy my ey]; simpl;
    try done; try (by intros -> ->).
  intros -> ->. destruct (SFdiv_core_binary _ _ _ _ _ _) as [[mz ez] lz].
  apply binary_round_aux_sign.
Qed.

Lemma to_int_sign x n : not_negative x → Float64.to_int x = Return n → 0 ≤ n.
Proof.
  destruct x as [s|s| |s m e]; simpl; try done.
  - by intros _ [= <-].
  - intros -> [= <-]. simpl. destruct e as [|p|p]; [done| |].
    + apply Z.shiftl_nonneg. lia.
    + apply Z.shiftr_nonneg. lia.
Qed.

Lemma speed_sign agent :
  (0 < a_speed agent)%Q → not_negative (speed_m_per_min agent).
Proof.
  intros Hs. apply mul_sign; [by apply of_Q_sign|by apply of_Z_sign].
Qed.

(** A travel time is at least one minute. *)
Lemma travel_minutes_positive cells speed t :
  travel_minutes cells speed = Return t → 0 ≤ cells → not_negative speed → 1 ≤ t.
Proof.
  unfold travel_minutes, Float64.of_int, Float64.truediv. intros Ht Hcells Hspeed.
  assert (not_negative (Float64.of_Z (cells * METERS_PER_CELL))) as Hm.
  { apply of_Z_sign. unfold METERS_PER_CELL. lia. }
  destruct (Float64.of_Z (cells * METERS_PER_CELL)) as [s|s| |s m e] eqn:Hx;
    try done; cbn [mbind py_mbind py_bind] in Ht;
    (destruct (Float64.is_zero speed); [done|]);
    cbn [mbind py_mbind py_bind] in Ht;
    match type of Ht with
    | context [Float64.to_int ?q] =>
        assert (not_negative q) as Hq by (by apply div_sign);
        destruct (Float64.to_int q) as [n|] eqn:Hn; [|done];
        cbn [mbind py_mbind py_bind] in Ht; injection Ht as <-;
        pose proof (to_int_sign _ _ Hq Hn); lia
    end.
Qed.

(** A travel time is the truncated binary64 quotient, plus one. *)
Lemma travel_minutes_spec cells speed t :
  travel_minutes cells speed = Return t →
  ∃ q, Float64.to_int (SFdiv Float64.prec Float64.emax
                         (Float64.of_Z (cells * 3)) speed) = Return q ∧
       t = q + 1.
Proof.
  unfold travel_minutes, Float64.of_int, Float64.truediv, METERS_PER_CELL.
  destruct (Float64.of_Z (cells * 3)) as [s|s| |s m e];
    cbn [mbind py_mbind py_bind]; try done;
    (destruct (Float64.is_zero speed); cbn [mbind py_mbind py_bind]; [done|]);
    match goal with
    | |- context [Float64.to_int ?x] =>
        destruct (Float64.to_int x) as [q|]; cbn [mbind py_mbind py_bind];
        [|done]; intros [= <-]; by exists q
    end.
Qed.

(** ** What a timing block enforces *)

(** The tabulated distance between the pickup cells of two units. *)
Definition tabulated (dd : distance_data) (pick_i pick_j : Pick) : Z :=
  default 0 (dd_distances dd !! (k_product_id pick_i, k_product_id pick_j)).

(** The Manhattan walk from a pickup cell to the preparation point. *)
Definition to_preparation (pick : Pick) : Z :=
  Z.abs ((p_pickup_location (k_product_data pick)).1 - PREPARATION_POINT.1) +
  Z.abs ((p_pickup_location (k_product_data pick)).2 - PREPARATION_POINT.2).

Definition from_preparation (pick : Pick) : Z :=
  Z.abs (PREPARATION_POINT.1 - (p_pickup_location (k_product_data pick)).1) +
  Z.abs (PREPARATION_POINT.2 - (p_pickup_location (k_product_data pick)).2).

Section timing.
Context (agents : list Agent) (picks : list Pick) (dd : distance_data)
        (zones_access : ZonesAccess) (model : list constraint) (val : var → Z).
Hypothesis Hmodel : build_model agents picks dd zones_access = Return model.
Hypothesis Hsat : satisfies val model = true.

(** The block of the ordered pair [(i, j)] on agent [a], when both units
    are on [a]. *)
Lemma timing_block_facts i j a pick_i pick_j agent :
  picks !! i = Some pick_i → picks !! j = Some pick_j →
  agents !! a = Some agent → i ≠ j →
  has_var zones_access agent pick_i = true →
  has_var zones_access agent pick_j = true →
  val (V_assign i a) = 1 → val (V_assign j a) = 1 →
  ∃ travel_time time_to_prep time_from_prep,
    travel_minutes (tabulated dd pick_i pick_j) (speed_m_per_min agent)
      = Return travel_time ∧
    travel_minutes (to_preparation pick_i) (speed_m_per_min agent)
      = Return time_to_prep ∧
    travel_minutes (from_preparation pick_j) (speed_m_per_min agent)
      = Return time_from_prep ∧
    val (V_before i j a) + val (V_before j i a) = 1 ∧
    0 ≤ val (V_before i j a) ≤ 1 ∧
    (val (V_before i j a) = 1 →
     (val (V_trip i a) = val (V_trip j a) →
      val (V_visit i) + travel_time + PICKING_TIME ≤ val (V_visit j)) ∧
     (val (V_trip i a) ≠ val (V_trip j a) →
      val (V_visit i) + (time_to_prep + DEPOT_TIME + time_from_prep)
        + PICKING_TIME ≤ val (V_visit j))).
Proof using Hmodel Hsat.
  intros Hi Hj Ha Hne Hvi Hvj Hai Haj.
  destruct (build_model_parts _ _ _ _ _ Hmodel) as (timing & Htiming & Hparts).
  destruct (timing_block_in _ _ _ _ _ _ _ _ _ _ _ Htiming Hi Hj Ha Hne Hvi Hvj)
    as (block & Hblock & Hsub).
  assert (Forall (λ c, holds val c = true) block) as HF.
  { apply Forall_forall. intros c Hc.
    apply (satisfies_elem _ _ _ Hsat), Hparts. right. right. left. by apply Hsub. }
  assert (0 ≤ val (V_before i j a) ≤ 1) as Hbefore.
  { apply holds_bool, (satisfies_elem _ _ _ Hsat), Hparts. right. left.
    by eapply before_var_in. }
  revert Hblock. unfold timing_block. cbv zeta.
  fold (tabulated dd pick_i pick_j) (to_preparation pick_i)
       (from_preparation pick_j).
  destruct (travel_minutes (tabulated dd pick_i pick_j) _)
    as [travel_time|]; [|done].
  cbn [mbind py_mbind py_bind].
  destruct (travel_minutes (to_preparation pick_i) _) as [time_to_prep|];
    [|done].
  cbn [mbind py_mbind py_bind].
  destruct (travel_minutes (from_preparation pick_j) _) as [time_from_prep|];
    [|done].
  cbn [mbind py_mbind py_bind].
  intros [= Hblock]. rewrite <- Hblock in HF. clear Hblock Hsub.
  repeat (apply Forall_cons in HF as [? HF]).
  match goal with H : holds val (NewBoolVar (V_both i j a)) = true |- _ =>
    apply holds_bool in H; rename H into Hboth end.
  match goal with H : holds val (NewBoolVar (V_same_trip i j a)) = true |- _ =>
    apply holds_bool in H; rename H into Hsame end.
  assert (val (V_both i j a) = 1) as Hboth1.
  { destruct (decide (val (V_both i j a) = 0)) as [Hzero|]; [|lia].
    match goal with
      H : holds val (Add _ RLt (Const 2) [Neg (V_both i j a)]) = true |- _ =>
        apply holds_enforced in H; [|simpl; rewrite Hzero; done];
        simpl in H; apply Z.ltb_lt in H; lia
    end. }
  exists travel_time, time_to_prep, time_from_prep.
  split; [done|]. split; [done|]. split; [done|]. split; [|split; [done|]].
  { match goal with
      H : holds val (Add _ REq (Const 1) [Pos (V_both i j a)]) = true |- _ =>
        apply holds_enforced in H; [|simpl; rewrite Hboth1; done];
        simpl in H; by apply Z.eqb_eq in H
    end. }
  intros Hb. split.
  - intros Htrip.
    assert (val (V_same_trip i j a) = 1) as Hsame1.
    { destruct (decide (val (V_same_trip i j a) = 0)) as [Hzero|]; [|lia].
      match goal with
        H : holds val (Add _ RNe _ [Pos (V_both i j a); Neg (V_same_trip i j a)])
            = true |- _ =>
          apply holds_enforced in H; [|simpl; rewrite Hboth1, Hzero; done];
          simpl in H; apply negb_true_iff, Z.eqb_neq in H; lia
      end. }
    match goal with
      H : holds val (Add _ RGe (Plus (Plus _ (Const travel_time)) _)
                         [Pos (V_before i j a); Pos (V_same_trip i j a)]) = true |- _ =>
        apply holds_enforced in H; [|simpl; rewrite Hb, Hsame1; done];
        simpl in H; by apply Z.leb_le in H
    end.
  - intros Htrip.
    assert (val (V_same_trip i j a) = 0) as Hsame0.
    { destruct (decide (val (V_same_trip i j a) = 1)) as [Hone|]; [|lia].
      match goal with
        H : holds val (Add _ REq _ [Pos (V_both i j a); Pos (V_same_trip i j a)])
            = true |- _ =>
          apply holds_enforced in H; [|simpl; rewrite Hboth1, Hone; done];
          simpl in H; apply Z.eqb_eq in H; lia
      end. }
    match goal with
      H : holds val (Add _ RGe (Plus (Plus _ (Const (_ + DEPOT_TIME + _))) _)
                         [Pos (V_before i j a); Neg (V_same_trip i j a)]) = true |- _ =>
        apply holds_enforced in H; [|simpl; rewrite Hb, Hsame0; done];
        simpl in H; by apply Z.leb_le in H
    end.
Qed.

Lemma to_preparation_nonneg pick : 0 ≤ to_preparation pick.
Proof. unfold to_preparation. lia. Qed.

Lemma from_preparation_nonneg pick : 0 ≤ from_preparation pick.
Proof. unfold from_preparation. lia. Qed.

(** Two units of one agent, whichever comes first. *)
Lemma units_apart i j a pick_i pick_j agent :
  picks !! i = Some pick_i → picks !! j = Some pick_j →
  agents !! a = Some agent → i ≠ j →
  has_var zones_access agent pick_i = true →
  has_var zones_access agent pick_j = true →
  val (V_assign i a) = 1 → val (V_assign j a) = 1 →
  (0 < a_speed agent)%Q →
  0 ≤ tabulated dd pick_i pick_j → 0 ≤ tabulated dd pick_j pick_i →
  2 ≤ Z.abs (val (V_visit i) - val (V_visit j)) ∧
  (val (V_trip i a) ≠ val (V_trip j a) →
   5 ≤ Z.abs (val (V_visit i) - val (V_visit j))).
Proof using Hmodel Hsat.
  intros Hi Hj Ha Hne Hvi Hvj Hai Haj Hspeed%speed_sign Hij Hji.
  destruct (timing_block_facts i j a pick_i pick_j agent)
    as (t1 & to1 & from1 & Ht1 & Hto1 & Hfrom1 & Hsum & Hb & Hfirst); [done..|].
  destruct (timing_block_facts j i a pick_j pick_i agent)
    as (t2 & to2 & from2 & Ht2 & Hto2 & Hfrom2 & _ & Hb' & Hsecond); [done..|].
  apply travel_minutes_positive in Ht1, Ht2; [|done..].
  apply travel_minutes_positive in Hto1, Hto2;
    [|by auto using to_preparation_nonneg..].
  apply travel_minutes_positive in Hfrom1, Hfrom2;
    [|by auto using from_preparation_nonneg..].
  unfold PICKING_TIME, DEPOT_TIME in *.
  destruct (decide (val (V_before i j a) = 1)) as [H1|H1].
  - destruct (Hfirst H1) as [Hsame Hdiff].
    destruct (decide (val (V_trip i a) = val (V_trip j a))) as [Heq|Hneq].
    + specialize (Hsame Heq). split; [lia|]. by intros Hneq.
    + specialize (Hdiff Hneq). split; [lia|]. intros _. lia.
  - assert (val (V_before j i a) = 1) as H2 by lia.
    destruct (Hsecond H2) as [Hsame Hdiff].
    destruct (decide (val (V_trip j a) = val (V_trip i a))) as [Heq|Hneq].
    + specialize (Hsame Heq). split; [lia|]. intros Hneq. by symmetry in Heq.
    + specialize (Hdiff Hneq). split; [lia|]. intros _. lia.
Qed.

(** Two units of one agent in the same trip, the first visited no later
    than the second. *)
Lemma same_trip_order i j a pick_i pick_j agent :
  picks !! i = Some pick_i → picks !! j = Some pick_j →
  agents !! a = Some agent → i ≠ j →
  has_var zones_access agent pick_i = true →
  has_var zones_access agent pick_j = true →
  val (V_assign i a) = 1 → val (V_assign j a) = 1 →
  (0 < a_speed agent)%Q → 0 ≤ tabulated dd pick_j pick_i →
  val (V_trip i a) = val (V_trip j a) →
  val (V_visit i) ≤ val (V_visit j) →
  ∃ travel_time,
    travel_minutes (tabulated dd pick_i pick_j) (speed_m_per_min agent)
      = Return travel_time ∧
    val (V_visit i) + travel_time + PICKING_TIME ≤ val (V_visit j).
Proof using Hmodel Hsat.
  intros Hi Hj Ha Hne Hvi Hvj Hai Haj Hspeed%speed_sign Hji Htrip Hle.
  destruct (timing_block_facts i j a pick_i pick_j agent)
    as (t1 & to1 & from1 & Ht1 & _ & _ & Hsum & Hb & Hfirst); [done..|].
  destruct (timing_block_facts j i a pick_j pick_i agent)
    as (t2 & to2 & from2 & Ht2 & _ & _ & _ & Hb' & Hsecond); [done..|].
  exists t1. split; [done|].
  destruct (decide (val (V_before i j a) = 1)) as [H1|H1].
  - destruct (Hfirst H1) as [Hsame _]. by apply Hsame.
  - assert (val (V_before j i a) = 1) as H2 by lia.
    destruct (Hsecond H2) as [Hsame _]. specialize (Hsame (eq_sym Htrip)).
    apply travel_minutes_positive in Ht2; [|done..].
    unfold PICKING_TIME in *. lia.
Qed.
End timing.

(** ** C4 *)

(** A human whose speed is the binary64 number nearest to 2/29 m/s, and
    two units 40 cells apart, picked in one trip at minutes 0 and 30. *)
Definition slow_speed : Q := 4969489243995030 # 72057594037927936.

Definition slow_human : list Agent :=
  [ {| a_id := "H1"; a_type := "human"; a_capacity_weight := 35%Q;
       a_capacity_volume := 50; a_speed := slow_speed; a_no_fragile := false;
       a_max_item_weight := None |} ].

Definition shelf_a : Product :=
  mk_product "Product_010" "electronics" 1%Q 2%Q false "B2" (3, 3) [].
Definition shelf_b : Product :=
  mk_product "Product_011" "electronics" 1%Q 2%Q false "B2" (43, 3) [].

Definition far_order : Order :=
  {| o_id := "Order_010"; o_deadline := (12, 0); o_priority := "standard";
     o_items := [ {| i_product_id := "Product_010"; i_quantity := 1 |};
                  {| i_product_id := "Product_011"; i_quantity := 1 |} ] |}.

Definition far_distances : distance_data :=
  match calculate_distance_matrix [shelf_a; shelf_b] (6, 10) None with
  | Return dd => dd
  | Raise _ => {| dd_entry := (6, 10); dd_locations := [];
                  dd_distances := ∅; dd_grid := None |}
  end.

Definition slow_solver : solver_t :=
  checking_solver (plan_valuation [mk_unit_plan 0 1 0; mk_unit_plan 0 1 30] []).

Definition slow_result : opt_result :=
  match optimize_routes slow_solver [far_order] [shelf_a; shelf_b] slow_human
          far_distances robot_zone with
  | Return res => res
  | Raise _ => {| status := ""; agents_routes := None; human_cart_assignments := None |}
  end.

Definition slow_routes : list (string * AgentRoute) :=
  default [] (agents_routes slow_result).

(** C4, as stated, fails.  The speed is a binary64 number and the exact
    quotient [40 * 3 / (speed * 60)] lies just above 29, so the bound of
    the claim is [29 + 1 + 1 = 31] minutes; the source computes the
    product and the quotient in binary64, gets a quotient just below 29,
    hence a travel time of 29, and a plan with the two picks 30 minutes
    apart satisfies the model. *)
Lemma same_trip_gap_below_exact_floor :
  sound slow_solver ∧
  optimize_routes slow_solver [far_order] [shelf_a; shelf_b] slow_human
    far_distances robot_zone = Return slow_result ∧
  agents_routes slow_result = Some slow_routes ∧
  ∃ agent x y,
    slow_routes = [("H1"%string, {| ar_agent := agent; ar_products := [x; y] |})] ∧
    r_trip_number x = r_trip_number y ∧
    r_visit_time x < r_visit_time y ∧
    tabulated far_distances (r_pick x) (r_pick y) = 40 ∧
    ¬ (r_visit_time x
       + (Qfloor (inject_Z (tabulated far_distances (r_pick x) (r_pick y) * 3)
                  / (a_speed agent * 60)) + 1)
       + PICKING_TIME
       ≤ r_visit_time y).
Proof.
  split; [apply checking_solver_sound|].
  split; [vm_compute; reflexivity|]. split; [vm_compute; reflexivity|].
  eexists _, _, _. split; [vm_compute; reflexivity|].
  split; [reflexivity|]. split; [reflexivity|]. split; [vm_compute; reflexivity|].
  vm_compute. intros H. by apply H.
Qed.

(** C4, amended.  In a plan found by a sound solver, for agents of
    positive speed and a distance table without negative entries: two stops
    of one route in the same trip, the first visited no later than the
    second, are separated by the travel time and the picking time,
    [visit[j] >= visit[i] + int(d_ij * 3 / (speed_a * 60)) + 1 + PICKING_TIME],
    where the product [speed_a * 60] and the quotient are binary64
    operations, [int] truncates and never fails there. *)
Theorem same_trip_timing (solver : solver_t) (orders : list Order)
    (products : list Product) (agents : list Agent) (dd : distance_data)
    (zones_access : ZonesAccess) (res : opt_result)
    (routes : list (string * AgentRoute)) :
  sound solver →
  Forall (λ agent, (0 < a_speed agent)%Q) agents →
  map_Forall (λ _ d, 0 ≤ d) (dd_distances dd) →
  optimize_routes solver orders products agents dd zones_access = Return res →
  agents_routes res = Some routes →
  Forall (λ ar : string * AgentRoute,
    ∀ n m x y,
      n ≠ m → ar_products ar.2 !! n = Some x → ar_products ar.2 !! m = Some y →
      r_trip_number x = r_trip_number y →
      r_visit_time x ≤ r_visit_time y →
      ∃ quotient,
        Float64.to_int
          (SFdiv Float64.prec Float64.emax
             (Float64.of_Z (tabulated dd (r_pick x) (r_pick y) * 3))
             (Float64.mul (Float64.of_Q (a_speed (ar_agent ar.2)))
                          (Float64.of_Z 60)))
        = Return quotient ∧
        r_visit_time x + (quotient + 1) + PICKING_TIME ≤ r_visit_time y) routes.
Proof.
  intros Hsound Hspeed Hdist Hopt Hroutes.
  destruct (plan_origin _ _ _ _ _ _ _ _ Hsound Hopt Hroutes)
    as (picks & model & val & _ & Hmodel & Hsat & -> & _).
  assert (∀ pick_i pick_j, 0 ≤ tabulated dd pick_i pick_j) as Htab.
  { intros pick_i pick_j. unfold tabulated.
    destruct (dd_distances dd !! _) as [d|] eqn:Hd; [|done]. simpl.
    by apply (Hdist _ _ Hd). }
  apply Forall_forall. intros [aid route] Hin n m x y Hnm Hn Hm Htrip Hle.
  simpl in Hn, Hm |- *.
  apply extract_routes_elem in Hin as (a & agent & Ha & _ & Hagent & Hprods).
  rewrite Hprods in Hn, Hm. rewrite Hagent.
  destruct (sort_route_positions _ _ _ _ _ Hnm Hn Hm) as (n' & m' & Hnm' & Hn' & Hm').
  destruct (assigned_positions _ _ _ _ _ _ _ _ _ Hnm' Hn' Hm')
    as (i & j & pi & pj & Hij & Hi & Hj & Hvi & Hvj & Hai & Haj & -> & ->).
  cbn [r_visit_time r_trip_number r_pick] in *.
  assert (0 < a_speed agent)%Q as Hs.
  { rewrite Forall_forall in Hspeed. apply Hspeed.
    by eapply list_elem_of_lookup_2. }
  destruct (same_trip_order agents picks dd zones_access model val Hmodel Hsat
              i j a pi pj agent) as (t & Ht & Hle'); try done; [congruence|].
  apply travel_minutes_spec in Ht as (q & Hq & ->). by exists q.
Qed.

Lemma same_trip_timing_witness :
  Forall (λ ar : string * AgentRoute,
    ∀ n m x y,
      n ≠ m → ar_products ar.2 !! n = Some x → ar_products ar.2 !! m = Some y →
      r_trip_number x = r_trip_number y →
      r_visit_time x ≤ r_visit_time y →
      ∃ quotient,
        Float64.to_int
          (SFdiv Float64.prec Float64.emax
             (Float64.of_Z (tabulated far_distances (r_pick x) (r_pick y) * 3))
             (Float64.mul (Float64.of_Q (a_speed (ar_agent ar.2)))
                          (Float64.of_Z 60)))
        = Return quotient ∧
        r_visit_time x + (quotient + 1) + PICKING_TIME ≤ r_visit_time y) slow_routes.
Proof.
  apply (same_trip_timing slow_solver [far_order] [shelf_a; shelf_b] slow_human
           far_distances robot_zone slow_result slow_routes).
  - apply checking_solver_sound.
  - repeat constructor.
  - apply (bool_decide_unpack _). vm_compute. reflexivity.
  - vm_compute. reflexivity.
  - vm_compute. reflexivity.
Defined.

End TimingClaims.

(** * The units of a plan *)

Module PlanningMore.
Import Astar Distances Optimizer OptimizerSpec OptimizerClaims OptimizerMore
       TimingClaims.

(** The units of all routes, route after route. *)
Definition planned_units (routes : list (string * AgentRoute)) : list Pick :=
  ar ← routes; r_pick <$> ar_products ar.2.

(** Some agent of the fleet can handle the unit. *)
Definition handleable (agents : list Agent) (zones : ZonesAccess) (pick : Pick)
    : bool :=
  existsb (λ agent, has_var zones agent pick) agents.

Lemma fmap_bind_list {A B C : Type} (h : B → C) (f : A → list B) (l : list A) :
  h <$> (l ≫= f) = l ≫= (λ x, h <$> f x).
Proof.
  induction l as [|a l IH]; [done|]. by rewrite !bind_cons, fmap_app, IH.
Qed.

Lemma bind_app_perm {A B : Type} (f g : A → list B) (l : list A) :
  l ≫= (λ x, f x ++ g x) ≡ₚ (l ≫= f) ++ (l ≫= g).
Proof.
  induction l as [|a l IH]; [done|]. rewrite !bind_cons, IH.
  rewrite <- !(assoc_L (++)). f_equiv. rewrite !(assoc_L (++)). f_equiv.
  apply Permutation_app_comm.
Qed.

Lemma bind_swap {A B C : Type} (f : A → B → list C) (l : list A) (k : list B) :
  (x ← l; y ← k; f x y) ≡ₚ (y ← k; x ← l; f x y).
Proof.
  induction l as [|a l IH].
  - simpl. induction k as [|b k IHk]; [done|]. by rewrite bind_cons.
  - rewrite bind_cons, IH, <- bind_app_perm. apply reflexive_eq.
    apply bind_ext_in. intros y _. by rewrite bind_cons.
Qed.

(** With distinct agent ids no route overwrites another. *)
Lemma extract_routes_distinct agents picks zones val :
  NoDup (a_id <$> agents) →
  extract_routes agents picks zones val
  = omap (λ x : nat * Agent,
            match assigned_products picks zones val x.1 x.2 with
            | [] => None
            | _ => Some (a_id x.2, route_of picks zones val x.1 x.2)
            end) (enumerate agents).
Proof.
  intros Hnd. rewrite extract_routes_foldl.
  assert (a_id <$> (enumerate agents).*2 = a_id <$> agents) as Hids.
  { f_equal. unfold enumerate. clear.
    cut (∀ f : nat → nat, (imap (λ i x, (f i, x)) agents).*2 = agents).
    { intros H. apply (H (λ i, i)). }
    induction agents as [|x l IH]; intros f; [done|]. simpl. f_equal.
    apply (IH (f ∘ S)). }
  rewrite <- Hids in Hnd. clear Hids.
  set (g := λ x : nat * Agent,
         match assigned_products picks zones val x.1 x.2 with
         | [] => None
         | _ => Some (a_id x.2, route_of picks zones val x.1 x.2)
         end).
  assert (∀ l acc,
    NoDup (a_id <$> l.*2) →
    (∀ k, k ∈ dict_keys acc → k ∉ a_id <$> l.*2) →
    foldl (λ d x, match assigned_products picks zones val x.1 x.2 with
                  | [] => d
                  | _ => dict_set d (a_id x.2) (route_of picks zones val x.1 x.2)
                  end) acc l = acc ++ omap g l) as Hgen.
  { induction l as [|[a agent] l IH]; intros acc Hl Hacc.
    { simpl. by rewrite app_nil_r. }
    rewrite !fmap_cons in Hl. apply NoDup_cons in Hl as [Hfresh Hl].
    assert (∀ k, k ∈ dict_keys acc → k ≠ a_id agent ∧ k ∉ a_id <$> l.*2) as Hacc'.
    { intros k Hk. specialize (Hacc k Hk). rewrite !fmap_cons in Hacc.
      by apply not_elem_of_cons in Hacc. }
    assert (omap g ((a, agent) :: l)
            = match g (a, agent) with
              | Some y => y :: omap g l
              | None => omap g l
              end) as -> by done.
    cbn [foldl]. unfold g at 1. cbn [fst snd].
    destruct (assigned_products picks zones val a agent) as [|it its] eqn:E.
    - apply IH; [done|]. intros k Hk. by apply Hacc'.
    - rewrite CollisionMore.dict_set_fresh.
      + rewrite IH; [by rewrite <- app_assoc|done|].
        intros k Hk. unfold dict_keys in Hk.
        rewrite fmap_app, elem_of_app in Hk. destruct Hk as [Hk|Hk].
        * by apply Hacc'.
        * simpl in Hk. by apply list_elem_of_singleton in Hk as ->.
      + intros Hk. by destruct (Hacc' _ Hk). }
  rewrite (Hgen (enumerate agents) []); [done|done|].
  intros k Hk. by apply elem_of_nil in Hk.
Qed.

Lemma planned_units_agents agents picks zones val :
  planned_units
    (omap (λ x : nat * Agent,
             match assigned_products picks zones val x.1 x.2 with
             | [] => None
             | _ => Some (a_id x.2, route_of picks zones val x.1 x.2)
             end) (enumerate agents))
  ≡ₚ '(a, agent) ← enumerate agents;
     '(i, pick) ← enumerate picks;
     if has_var zones agent pick && (val (V_assign i a) =? 1) then [pick] else [].
Proof.
  set (g := λ x : nat * Agent,
         match assigned_products picks zones val x.1 x.2 with
         | [] => None
         | _ => Some (a_id x.2, route_of picks zones val x.1 x.2)
         end).
  induction (enumerate agents) as [|[a agent] l IH]; [done|].
  rewrite bind_cons, <- IH. clear IH.
  assert (planned_units (omap g ((a, agent) :: l))
          = (r_pick <$> sort_route (assigned_products picks zones val a agent))
            ++ planned_units (omap g l)) as ->.
  { assert (omap g ((a, agent) :: l)
            = match g (a, agent) with
              | Some y => y :: omap g l
              | None => omap g l
              end) as -> by done.
    unfold g at 1. cbn [fst snd].
    destruct (assigned_products picks zones val a agent) as [|it its] eqn:E; [done|].
    unfold planned_units. rewrite bind_cons. cbn [snd]. unfold route_of.
    cbn [ar_products]. by rewrite E. }
  f_equiv. cbv beta iota.
  assert (r_pick <$> assigned_products picks zones val a agent
          = '(i, pick) ← enumerate picks;
            if has_var zones agent pick && (val (V_assign i a) =? 1)
            then [pick] else []) as <-.
  { unfold assigned_products. rewrite fmap_bind_list. apply bind_ext_in.
    intros [i pick] _. simpl. by destruct (_ && _). }
  apply fmap_Permutation, sort_route_perm.
Qed.

Lemma handleable_vars agents zones pick :
  handleable agents zones pick = true ↔
  ∃ a agent, agents !! a = Some agent ∧ has_var zones agent pick = true.
Proof.
  unfold handleable. rewrite existsb_exists. split.
  - intros (agent & Hin & Hv). apply list_elem_of_In in Hin.
    apply list_elem_of_lookup in Hin as [a Ha]. eauto.
  - intros (a & agent & Ha & Hv). exists agent. split; [|done].
    apply list_elem_of_In. by eapply list_elem_of_lookup_2.
Qed.

Lemma chosen_agents zones val i pick (l : list (nat * Agent)) :
  (∀ a agent, (a, agent) ∈ l → has_var zones agent pick = true →
              0 ≤ val (V_assign i a) ≤ 1) →
  0 ≤ assigned_sum zones val i pick l ∧
  l ≫= (λ '(a, agent),
         if has_var zones agent pick && (val (V_assign i a) =? 1)
         then [pick] else [])
  = replicate (Z.to_nat (assigned_sum zones val i pick l)) pick.
Proof.
  induction l as [|[a agent] l IH]; intros Hb; [done|].
  destruct IH as [Hpos IH]. { intros a' agent' Hin. apply Hb. by right. }
  rewrite assigned_sum_cons, bind_cons, IH.
  destruct (has_var zones agent pick) eqn:Hv; simpl; [|done].
  pose proof (Hb a agent ltac:(left) Hv) as Hval.
  destruct (Z.eqb_spec (val (V_assign i a)) 1) as [H1|H1].
  - rewrite H1. split; [lia|].
    replace (Z.to_nat (1 + assigned_sum zones val i pick l))
      with (S (Z.to_nat (assigned_sum zones val i pick l))) by lia.
    done.
  - replace (val (V_assign i a)) with 0 by lia. done.
Qed.

Section once.
Context (agents : list Agent) (picks : list Pick) (dd : distance_data)
        (zones : ZonesAccess) (model : list constraint) (val : var → Z).
Hypothesis Hmodel : build_model agents picks dd zones = Return model.
Hypothesis Hsat : satisfies val model = true.

(** Exactly one of the agents that can handle a unit carries it. *)
Lemma unit_carriers i pick :
  picks !! i = Some pick →
  enumerate agents ≫= (λ '(a, agent),
    if has_var zones agent pick && (val (V_assign i a) =? 1)
    then [pick] else [])
  = if handleable agents zones pick then [pick] else [].
Proof using Hmodel Hsat.
  intros Hi.
  destruct (chosen_agents zones val i pick (enumerate agents)) as [_ ->].
  { intros a agent Ha%elem_of_enumerate Hv.
    by eapply (assign_bool agents picks dd zones model val). }
  destruct (handleable agents zones pick) eqn:Hh.
  - apply (handleable_vars agents zones) in Hh as (a & agent & Ha & Hv).
    assert (assigned_sum zones val i pick (enumerate agents) = 1) as ->; [|done].
    unfold assigned_sum. rewrite <- eval_py_sum. apply Z.eqb_eq.
    apply (holds_always val (py_sum _) REq (Const 1)).
    apply (part_holds agents picks dd zones model val Hmodel Hsat).
    do 3 right. left. by eapply unique_assignment_in.
  - assert (Optimizer.assign_vars_of zones i pick (enumerate agents) = []) as Hnil.
    { unfold Optimizer.assign_vars_of.
      assert (∀ l : list (nat * Agent),
                (∀ a agent, (a, agent) ∈ l → has_var zones agent pick = false) →
                l ≫= (λ '(a, agent),
                       if has_var zones agent pick then [Var (V_assign i a)] else [])
                = []) as Hgen.
      { induction l as [|[a agent] l IH]; intros Hl; [done|].
        rewrite bind_cons, (Hl a agent) by left. simpl. apply IH.
        intros a' agent' Hin. apply (Hl a' agent'). by right. }
      apply Hgen. intros a agent Ha%elem_of_enumerate.
      destruct (has_var zones agent pick) eqn:Hv; [|done].
      assert (handleable agents zones pick = true) as Hh'; [|congruence].
      apply (handleable_vars agents zones). eauto. }
    unfold assigned_sum. by rewrite Hnil.
Qed.
End once.

Lemma bind_filter_bool {A : Type} (h : A → bool) (l : list A) :
  l ≫= (λ x, if h x then [x] else []) = filter (λ x, h x = true) l.
Proof.
  induction l as [|x l IH]; [done|]. rewrite bind_cons, filter_cons, IH.
  destruct (decide (h x = true)) as [->|Hn]; [done|]. by destruct (h x).
Qed.

Lemma enumerate_bind_snd {A B : Type} (f : A → list B) (l : list A) :
  enumerate l ≫= (λ x, f x.2) = l ≫= f.
Proof.
  unfold enumerate.
  cut (∀ g : nat → nat, imap (λ i x, (g i, x)) l ≫= (λ x, f x.2) = l ≫= f).
  { intros H. apply (H (λ i, i)). }
  induction l as [|x l IH]; intros g; [done|].
  cbn [imap]. rewrite !bind_cons. cbn [snd]. f_equal. apply (IH (g ∘ S)).
Qed.

(** The units of the plan read off a satisfying valuation. *)
Lemma planned_units_spec agents picks dd zones model val :
  build_model agents picks dd zones = Return model →
  satisfies val model = true →
  NoDup (a_id <$> agents) →
  planned_units (extract_routes agents picks zones val)
  ≡ₚ filter (λ pick, handleable agents zones pick = true) picks.
Proof.
  intros Hmodel Hsat Hnd.
  rewrite extract_routes_distinct by done.
  rewrite planned_units_agents.
  rewrite <- bind_filter_bool.
  rewrite <- (enumerate_bind_snd
                (λ pick, if handleable agents zones pick then [pick] else []) picks).
  etransitivity.
  { etransitivity; [|apply (bind_swap
             (λ (x : nat * Agent) (y : nat * Pick),
                if has_var zones x.2 y.2 && (val (V_assign y.1 x.1) =? 1)
                then [y.2] else [])
             (enumerate agents) (enumerate picks))].
    apply reflexive_eq. apply bind_ext_in. intros [a agent] _.
    apply bind_ext_in. by intros [i pick] _. }
  apply reflexive_eq. apply bind_ext_in. intros [i pick] Hi%elem_of_enumerate.
  cbn [fst snd].
  rewrite <- (unit_carriers agents picks dd zones model val Hmodel Hsat i pick Hi).
  apply bind_ext_in. by intros [a agent] _.
Qed.

(** ** When [optimize_routes] raises *)

(** An order line asks for a positive quantity of a product that is not in
    the catalogue. *)
Definition unknown_line (orders : list Order) (products : list Product) : Prop :=
  ∃ order item,
    order ∈ orders ∧ item ∈ o_items order ∧
    0 < i_quantity item ∧ i_product_id item ∉ p_id <$> products.

(** An agent whose [speed * 60] is a binary64 zero can handle two of the
    units. *)
Definition stalled (agents : list Agent) (picks : list Pick)
    (zones : ZonesAccess) : Prop :=
  ∃ a agent i pick_i j pick_j,
    agents !! a = Some agent ∧
    picks !! i = Some pick_i ∧ picks !! j = Some pick_j ∧ i ≠ j ∧
    has_var zones agent pick_i = true ∧ has_var zones agent pick_j = true ∧
    Float64.is_zero (speed_m_per_min agent) = true.

Lemma py_flat_map_cases {A B : Type} (f : A → py (list B)) (l : list A) (e : exn) :
  (∀ x e', x ∈ l → f x = Raise e' → e' = e) →
  (py_flat_map f l = Raise e ∧ ∃ x, x ∈ l ∧ f x = Raise e) ∨
  (∃ r, py_flat_map f l = Return r ∧ ∀ x, x ∈ l → ∃ ys, f x = Return ys).
Proof.
  induction l as [|x l IH]; intros Honly.
  - right. exists []. split; [done|]. intros x Hx. by apply elem_of_nil in Hx.
  - cbn [py_flat_map]. destruct (f x) as [ys|e'] eqn:Hx.
    + destruct IH as [[-> (y & Hy & Hfy)]|(r & -> & Hall)].
      { intros y e' Hy. apply Honly. by right. }
      * left. split; [done|]. exists y. split; [by right|done].
      * right. exists (ys ++ r). split; [done|].
        intros y [->|Hy]%elem_of_cons; [by exists ys|by apply Hall].
    + left. assert (e' = e) as -> by (by apply (Honly x); [left|]).
      split; [done|]. exists x. split; [left|done].
Qed.

Lemma make_product_dict_lookup products k :
  make_product_dict products !! k = None ↔ k ∉ p_id <$> products.
Proof.
  unfold make_product_dict.
  assert (∀ d : gmap string Product,
            foldl (λ d p, <[p_id p := p]> d) d products !! k = None
            ↔ d !! k = None ∧ k ∉ p_id <$> products) as Hgen.
  { induction products as [|p products IH]; intros d; simpl.
    - split; [intros ?; split; [done|apply not_elem_of_nil]|by intros [? _]].
    - rewrite IH, lookup_insert_None, not_elem_of_cons. intuition congruence. }
  rewrite Hgen, lookup_empty. tauto.
Qed.

Lemma picks_of_item_cases products order item :
  (picks_of_item (make_product_dict products) order item = Raise KeyError ∧
   0 < i_quantity item ∧ i_product_id item ∉ p_id <$> products) ∨
  ((∃ units, picks_of_item (make_product_dict products) order item = Return units) ∧
   ¬ (0 < i_quantity item ∧ i_product_id item ∉ p_id <$> products)).
Proof.
  unfold picks_of_item. destruct (Z.leb_spec (i_quantity item) 0) as [Hq|Hq].
  - right. split; [by eexists|]. lia.
  - unfold dict_getitem.
    destruct (make_product_dict products !! i_product_id item) as [p|] eqn:Hp.
    + right. split; [by eexists|]. intros [_ Hno%make_product_dict_lookup].
      congruence.
    + left. split; [done|]. split; [done|]. by apply make_product_dict_lookup.
Qed.

Lemma make_products_to_pick_cases orders products :
  (make_products_to_pick orders products = Raise KeyError ∧
   unknown_line orders products) ∨
  ((∃ picks, make_products_to_pick orders products = Return picks) ∧
   ¬ unknown_line orders products).
Proof.
  unfold make_products_to_pick.
  assert (∀ order : Order,
    (py_flat_map (picks_of_item (make_product_dict products) order) (o_items order)
       = Raise KeyError ∧
     ∃ item, item ∈ o_items order ∧ 0 < i_quantity item ∧
             i_product_id item ∉ p_id <$> products) ∨
    ((∃ units, py_flat_map (picks_of_item (make_product_dict products) order)
                 (o_items order) = Return units) ∧
     ∀ item, item ∈ o_items order →
             ¬ (0 < i_quantity item ∧ i_product_id item ∉ p_id <$> products)))
    as Horder.
  { intros order.
    destruct (py_flat_map_cases (picks_of_item (make_product_dict products) order)
                (o_items order) KeyError) as [[Hr (item & Hin & Hitem)]|(r & Hr & Hall)].
    - intros item e' _ He'.
      destruct (picks_of_item_cases products order item) as [[H _]|[[u H] _]];
        congruence.
    - left. split; [done|]. exists item. split; [done|].
      destruct (picks_of_item_cases products order item) as [[_ H]|[[u H] _]];
        [done|congruence].
    - right. split; [by eexists|]. intros item Hin.
      destruct (Hall item Hin) as [ys Hys].
      destruct (picks_of_item_cases products order item) as [[H _]|[_ H]];
        [congruence|done]. }
  destruct (py_flat_map_cases
              (λ order, py_flat_map (picks_of_item (make_product_dict products) order)
                          (o_items order)) orders KeyError)
    as [[Hr (order & Hin & Horder')]|(r & Hr & Hall)].
  - intros order e' _ He'.
    destruct (Horder order) as [[H _]|[[u H] _]]; congruence.
  - left. split; [done|].
    destruct (Horder order) as [[_ (item & Hitem & Hq & Hid)]|[[u H] _]];
      [|congruence].
    by exists order, item.
  - right. split; [by eexists|]. intros (order & item & Hin & Hitem & Hq & Hid).
    destruct (Hall order Hin) as [ys Hys].
    destruct (Horder order) as [[H _]|[_ H]]; [congruence|].
    by apply (H item Hitem).
Qed.

(** A loop raises what one of its bodies raises, and raises as soon as a
    body does. *)
Lemma py_flat_map_raise {A B : Type} (f : A → py (list B)) (l : list A) (e : exn) :
  py_flat_map f l = Raise e → ∃ x, x ∈ l ∧ f x = Raise e.
Proof.
  induction l as [|x l IH]; [done|]. cbn [py_flat_map].
  destruct (f x) as [ys|e'] eqn:Hx; cbn [mbind py_mbind py_bind].
  - destruct (py_flat_map f l) as [zs|e'] eqn:Hl; cbn [mbind py_mbind py_bind];
      [done|].
    intros [= ->]. destruct (IH eq_refl) as (y & Hy & Hfy).
    exists y. split; [by right|done].
  - intros [= ->]. exists x. split; [left|done].
Qed.

(** What the float computations raise. *)
Lemma to_int_raise x e :
  Float64.to_int x = Raise e → e = OverflowError ∨ e = ValueError.
Proof. destruct x; simpl; intros [= <-]; auto. Qed.

Lemma travel_minutes_raise cells speed e :
  travel_minutes cells speed = Raise e →
  e ≠ KeyError ∧ (e = ZeroDivisionError → Float64.is_zero speed = true).
Proof.
  unfold travel_minutes, Float64.of_int, Float64.truediv.
  destruct (Float64.of_Z (cells * METERS_PER_CELL)) as [s|s| |s m ex];
    cbn [mbind py_mbind py_bind]; try (by intros [= <-]);
    (destruct (Float64.is_zero speed); cbn [mbind py_mbind py_bind];
     [by intros [= <-]|]);
    match goal with
    | |- context [Float64.to_int ?q] =>
        destruct (Float64.to_int q) as [n|e'] eqn:Hq;
        cbn [mbind py_mbind py_bind]; [done|];
        intros [= ->]; by destruct (to_int_raise _ _ Hq) as [-> | ->]
    end.
Qed.

Lemma travel_minutes_stalled cells speed :
  Float64.is_zero speed = true → ∃ e, travel_minutes cells speed = Raise e.
Proof.
  intros Hz. unfold travel_minutes, Float64.of_int, Float64.truediv. rewrite Hz.
  destruct (Float64.of_Z (cells * METERS_PER_CELL)); by eexists.
Qed.

Lemma grams_raise kg e : grams kg = Raise e → e = OverflowError ∨ e = ValueError.
Proof. apply to_int_raise. Qed.

Lemma py_bind_raise {A B : Type} (m : py A) (k : A → py B) (e : exn) :
  m ≫= k = Raise e → m = Raise e ∨ ∃ x, m = Return x ∧ k x = Raise e.
Proof.
  destruct m as [x|e']; cbn [mbind py_mbind py_bind]; intros H.
  - right. exists x. by split.
  - left. by injection H as ->.
Qed.

Lemma timing_block_raise dd a agent i pick_i j pick_j e :
  timing_block dd a agent i pick_i j pick_j = Raise e →
  e ≠ KeyError ∧
  (e = ZeroDivisionError → Float64.is_zero (speed_m_per_min agent) = true).
Proof.
  unfold timing_block. cbv zeta. intros H.
  apply py_bind_raise in H as [H|(t1 & _ & H)];
    [by apply travel_minutes_raise in H|].
  apply py_bind_raise in H as [H|(t2 & _ & H)];
    [by apply travel_minutes_raise in H|].
  apply py_bind_raise in H as [H|(t3 & _ & H)];
    [by apply travel_minutes_raise in H|done].
Qed.

Lemma timing_block_stalled dd a agent i pick_i j pick_j :
  Float64.is_zero (speed_m_per_min agent) = true →
  ∃ e, timing_block dd a agent i pick_i j pick_j = Raise e.
Proof.
  intros Hz. unfold timing_block. cbv zeta.
  destruct (travel_minutes_stalled
              (default 0 (dd_distances dd !! (k_product_id pick_i, k_product_id pick_j)))
              (speed_m_per_min agent) Hz) as [e ->].
  by exists e.
Qed.

Lemma timing_constraints_raise agents picks dd zones e :
  timing_constraints agents picks dd zones = Raise e →
  e ≠ KeyError ∧ (e = ZeroDivisionError → stalled agents picks zones).
Proof.
  unfold timing_constraints.
  intros ([a agent] & Ha%elem_of_enumerate & H1)%py_flat_map_raise.
  apply py_flat_map_raise in H1 as ([i pick_i] & Hi%elem_of_enumerate & H2).
  apply py_flat_map_raise in H2 as ([j pick_j] & Hj%elem_of_enumerate & H3).
  destruct (decide (i ≠ j)) as [Hne|Heq].
  2:{ by rewrite bool_decide_eq_false_2 in H3 by done. }
  rewrite bool_decide_eq_true_2 in H3 by done.
  destruct (has_var zones agent pick_i) eqn:Hvi; [|done].
  destruct (has_var zones agent pick_j) eqn:Hvj; [|done].
  cbn [andb] in H3. apply timing_block_raise in H3 as [Hk Hz].
  split; [done|]. intros He. exists a, agent, i, pick_i, j, pick_j.
  by split_and!; [..|apply Hz].
Qed.

Lemma timing_constraints_stalled agents picks dd zones :
  stalled agents picks zones →
  ∃ e, timing_constraints agents picks dd zones = Raise e.
Proof.
  intros (a & agent & i & pick_i & j & pick_j & Ha%elem_of_enumerate
          & Hi%elem_of_enumerate & Hj%elem_of_enumerate & Hne & Hvi & Hvj & Hz).
  destruct (timing_block_stalled dd a agent i pick_i j pick_j Hz) as [e He].
  destruct (timing_constraints agents picks dd zones) as [r|e1] eqn:H0;
    [exfalso|by exists e1].
  unfold timing_constraints in H0.
  destruct (py_flat_map_elem _ _ _ _ H0 Ha) as (r1 & H1 & _). cbv beta iota in H1.
  destruct (py_flat_map_elem _ _ _ _ H1 Hi) as (r2 & H2 & _). cbv beta iota in H2.
  destruct (py_flat_map_elem _ _ _ _ H2 Hj) as (r3 & H3 & _). cbv beta iota in H3.
  rewrite bool_decide_eq_true_2, Hvi, Hvj in H3 by done. cbn [andb] in H3.
  congruence.
Qed.

Lemma weight_constraints_raise agents picks zones e :
  weight_constraints agents picks zones = Raise e →
  e = OverflowError ∨ e = ValueError.
Proof.
  unfold weight_constraints.
  intros ([a agent] & _ & H1)%py_flat_map_raise.
  apply py_flat_map_raise in H1 as (trip & _ & H2). cbv beta in H2.
  destruct (py_flat_map (weight_block zones a agent trip) (enumerate picks))
    as [blocks|e'] eqn:Hb; cbn [mbind py_mbind py_bind] in H2.
  - destruct (blocks.*2); [done|].
    destruct (grams (a_capacity_weight agent)) as [cap|e'] eqn:Hc;
      cbn [mbind py_mbind py_bind] in H2; [done|].
    injection H2 as ->. by apply grams_raise in Hc.
  - injection H2 as ->.
    apply py_flat_map_raise in Hb as ([i pick] & _ & H3). cbn [weight_block] in H3.
    destruct (has_var zones agent pick); [|done].
    destruct (grams (p_weight (k_product_data pick))) as [g|e'] eqn:Hg;
      cbn [mbind py_mbind py_bind] in H3; [done|].
    injection H3 as ->. by apply grams_raise in Hg.
Qed.

Lemma build_model_raise agents picks dd zones e :
  build_model agents picks dd zones = Raise e →
  e ≠ KeyError ∧ (e = ZeroDivisionError → stalled agents picks zones).
Proof.
  unfold build_model.
  destruct (timing_constraints agents picks dd zones) as [timing|e1] eqn:Ht;
    cbn [mbind py_mbind py_bind].
  2:{ intros [= ->]. by apply timing_constraints_raise in Ht. }
  destruct (weight_constraints agents picks zones) as [weight|e2] eqn:Hw;
    cbn [mbind py_mbind py_bind]; [done|].
  intros [= ->]. by destruct (weight_constraints_raise _ _ _ _ Hw) as [-> | ->].
Qed.

(** X26.  How [optimize_routes] fails on its input.  It raises KeyError
    exactly when an order line asks for a positive quantity of a product
    missing from the catalogue.  It raises ZeroDivisionError only when all
    such lines are known and an agent whose [speed * 60] is zero can handle
    two of the ordered units; and with such an agent it never returns. *)
Theorem optimize_routes_outcomes (solver : solver_t) (orders : list Order)
    (products : list Product) (agents : list Agent) (dd : distance_data)
    (zones_access : ZonesAccess) :
  (optimize_routes solver orders products agents dd zones_access = Raise KeyError
   ↔ unknown_line orders products) ∧
  (optimize_routes solver orders products agents dd zones_access
     = Raise ZeroDivisionError →
   ∃ picks, make_products_to_pick orders products = Return picks ∧
            stalled agents picks zones_access) ∧
  (∀ picks, make_products_to_pick orders products = Return picks →
            stalled agents picks zones_access →
            ∃ e, optimize_routes solver orders products agents dd zones_access
                 = Raise e).
Proof.
  unfold optimize_routes.
  destruct (make_products_to_pick_cases orders products)
    as [[Hp Hu]|[[picks Hp] Hu]]; rewrite Hp; cbn [mbind py_mbind py_bind].
  { split; [done|]. split; [done|]. by intros picks [=]. }
  destruct (build_model agents picks dd zones_access) as [model|e] eqn:Hm;
    cbn [mbind py_mbind py_bind].
  - split; [|split].
    + split; [|done]. destruct (solver model V_max_end_time) as [[] val]; done.
    + destruct (solver model V_max_end_time) as [[] val]; done.
    + intros picks' [= <-] Hs. exfalso.
      destruct (timing_constraints_stalled agents picks dd zones_access Hs) as [e He].
      unfold build_model in Hm. by rewrite He in Hm.
  - destruct (build_model_raise _ _ _ _ _ Hm) as [Hk Hz]. split; [|split].
    + split; [by intros [= ->]|done].
    + intros [= ->]. exists picks. split; [done|]. by apply Hz.
    + intros picks' _ _. by exists e.
Qed.

(** ** The ordered units *)

(** The catalogue entry that [product_dict] holds for an id: the last
    product carrying it. *)
Definition catalogue_entry (products : list Product) (id : string)
    : option Product :=
  last (filter (λ p, p_id p = id) products).

(** The units of one order line, one per ordered piece. *)
Definition units_of_line (products : list Product) (order : Order)
    (line : OrderItem) : list Pick :=
  match catalogue_entry products (i_product_id line) with
  | Some product =>
      replicate (Z.to_nat (i_quantity line))
        {| k_product_id := i_product_id line;
           k_order_id := o_id order;
           k_product_data := product;
           k_deadline := o_deadline order;
           k_priority := o_priority order |}
  | None => []
  end.

Lemma make_product_dict_entry products id :
  make_product_dict products !! id = catalogue_entry products id.
Proof.
  unfold make_product_dict, catalogue_entry.
  induction products as [|p products IH] using rev_ind; [done|].
  rewrite foldl_app, filter_app, filter_cons, filter_nil. simpl.
  destruct (decide (p_id p = id)) as [<-|Hne].
  - by rewrite lookup_insert_eq, last_snoc.
  - by rewrite lookup_insert_ne, app_nil_r.
Qed.

Lemma py_flat_map_return {A B : Type} (f : A → py (list B)) (g : A → list B)
    (l : list A) :
  (∀ x, x ∈ l → f x = Return (g x)) → py_flat_map f l = Return (l ≫= g).
Proof.
  induction l as [|x l IH]; intros H; [done|].
  cbn [py_flat_map]. rewrite (H x) by left. rewrite IH.
  - by rewrite bind_cons.
  - intros y Hy. apply H. by right.
Qed.

Lemma ordered_units orders products :
  ¬ unknown_line orders products →
  make_products_to_pick orders products
  = Return (order ← orders; o_items order ≫= units_of_line products order).
Proof.
  intros Hknown. unfold make_products_to_pick.
  apply (py_flat_map_return _
           (λ order, o_items order ≫= units_of_line products order)).
  intros order Horder. apply py_flat_map_return. intros line Hline.
  unfold picks_of_item, units_of_line, dict_getitem.
  rewrite make_product_dict_entry.
  destruct (Z.leb_spec (i_quantity line) 0) as [Hq|Hq].
  - replace (Z.to_nat (i_quantity line)) with 0%nat by lia.
    by destruct (catalogue_entry _ _).
  - destruct (catalogue_entry products (i_product_id line)) as [p|] eqn:Hp; [done|].
    exfalso. apply Hknown. exists order, line. split; [done|]. split; [done|].
    split; [done|]. apply make_product_dict_lookup.
    by rewrite make_product_dict_entry.
Qed.

Lemma known_lines orders products picks :
  make_products_to_pick orders products = Return picks →
  ¬ unknown_line orders products.
Proof.
  intros Hp. destruct (make_products_to_pick_cases orders products) as [[H _]|[_ H]];
    [congruence|done].
Qed.

(** X27.  When the agents have distinct ids, the stops of a plan found
    by a sound solver are, up to their order, exactly the ordered units that
    at least one agent can handle: for every order line as many units as its
    quantity says (none for a quantity of zero or less), each with the
    order's id, deadline and priority and the last catalogue entry of the
    product id.  No such unit is left out or planned twice, and a unit that
    no agent can handle is in no route. *)
Theorem units_planned_once (solver : solver_t) (orders : list Order)
    (products : list Product) (agents : list Agent) (dd : distance_data)
    (zones_access : ZonesAccess) (res : opt_result)
    (routes : list (string * AgentRoute)) :
  sound solver →
  NoDup (a_id <$> agents) →
  optimize_routes solver orders products agents dd zones_access = Return res →
  agents_routes res = Some routes →
  planned_units routes
  ≡ₚ filter (λ pick, handleable agents zones_access pick = true)
       (order ← orders; o_items order ≫= units_of_line products order).
Proof.
  intros Hsound Hnd Hopt Hroutes.
  destruct (plan_origin _ _ _ _ _ _ _ _ Hsound Hopt Hroutes)
    as (picks & model & val & Hpicks & Hmodel & Hsat & -> & _).
  rewrite (planned_units_spec agents picks dd zones_access model val) by done.
  rewrite ordered_units in Hpicks by (by eapply known_lines).
  by injection Hpicks as <-.
Qed.

Lemma units_planned_once_witness :
  planned_units worked_routes
  ≡ₚ filter (λ pick, handleable team robot_zone pick = true)
       (order ← two_orders; o_items order ≫= units_of_line catalogue order).
Proof.
  apply (units_planned_once worked_solver two_orders catalogue
           team catalogue_distances robot_zone worked_result worked_routes).
  - apply checking_solver_sound.
  - apply (bool_decide_unpack _). vm_compute. reflexivity.
  - vm_compute. reflexivity.
  - vm_compute. reflexivity.
Defined.

(** ** Time between the stops of an agent *)

(** X28.  For agents of positive speed and a distance table without
    negative entries, two stops of one route in a plan found by a sound
    solver are at least 2 minutes apart, and at least 5 minutes apart when
    they belong to different trips: no agent is at two stops in the same
    minute. *)
Theorem stops_apart (solver : solver_t) (orders : list Order)
    (products : list Product) (agents : list Agent) (dd : distance_data)
    (zones_access : ZonesAccess) (res : opt_result)
    (routes : list (string * AgentRoute)) :
  sound solver →
  Forall (λ agent, (0 < a_speed agent)%Q) agents →
  map_Forall (λ _ d, 0 ≤ d) (dd_distances dd) →
  optimize_routes solver orders products agents dd zones_access = Return res →
  agents_routes res = Some routes →
  Forall (λ ar : string * AgentRoute,
    ∀ n m x y,
      n ≠ m → ar_products ar.2 !! n = Some x → ar_products ar.2 !! m = Some y →
      2 ≤ Z.abs (r_visit_time x - r_visit_time y) ∧
      (r_trip_number x ≠ r_trip_number y →
       5 ≤ Z.abs (r_visit_time x - r_visit_time y))) routes.
Proof.
  intros Hsound Hspeed Hdist Hopt Hroutes.
  destruct (plan_origin _ _ _ _ _ _ _ _ Hsound Hopt Hroutes)
    as (picks & model & val & _ & Hmodel & Hsat & -> & _).
  assert (∀ pick_i pick_j, 0 ≤ tabulated dd pick_i pick_j) as Htab.
  { intros pick_i pick_j. unfold tabulated.
    destruct (dd_distances dd !! _) as [d|] eqn:Hd; [|done]. simpl.
    by apply (Hdist _ _ Hd). }
  apply Forall_forall. intros [aid route] Hin n m x y Hnm Hn Hm.
  simpl in Hn, Hm.
  apply extract_routes_elem in Hin as (a & agent & Ha & _ & _ & Hprods).
  rewrite Hprods in Hn, Hm.
  destruct (sort_route_positions _ _ _ _ _ Hnm Hn Hm) as (n' & m' & Hnm' & Hn' & Hm').
  destruct (assigned_positions _ _ _ _ _ _ _ _ _ Hnm' Hn' Hm')
    as (i & j & pi & pj & Hij & Hi & Hj & Hvi & Hvj & Hai & Haj & -> & ->).
  cbn [r_visit_time r_trip_number].
  assert (0 < a_speed agent)%Q as Hs.
  { rewrite Forall_forall in Hspeed. apply Hspeed.
    by eapply list_elem_of_lookup_2. }
  destruct (units_apart agents picks dd zones_access model val Hmodel Hsat
              i j a pi pj agent) as [H2 H5]; try done.
  split; [done|]. intros Htrip. apply H5. congruence.
Qed.

Lemma stops_apart_witness :
  Forall (λ ar : string * AgentRoute,
    ∀ n m x y,
      n ≠ m → ar_products ar.2 !! n = Some x → ar_products ar.2 !! m = Some y →
      2 ≤ Z.abs (r_visit_time x - r_visit_time y) ∧
      (r_trip_number x ≠ r_trip_number y →
       5 ≤ Z.abs (r_visit_time x - r_visit_time y))) worked_routes.
Proof.
  apply (stops_apart worked_solver two_orders catalogue
           team catalogue_distances robot_zone worked_result worked_routes).
  - apply checking_solver_sound.
  - repeat constructor.
  - apply (bool_decide_unpack _). vm_compute. reflexivity.
  - vm_compute. reflexivity.
  - vm_compute. reflexivity.
Defined.

End PlanningMore.

(** * From the plan to the collision check *)

Module RunMore.
Import Astar AstarSpec AstarTop Distances Collision TrajectorySpec Optimizer
       OptimizerSpec RunOptimization OptimizerMore PlanningMore.

(** A floor without obstacles. *)
Definition open_floor : grid_t := replicate 12 (replicate 12 1).

Definition open_warehouse : Warehouse :=
  {| w_entry_point := (6, 10); w_navigation_grid := Some open_floor |}.

(** X29.  The calls of [run_optimization] fit together.  With a
    rectangular grid of zeros and ones (or none) the distance table is
    built; and every plan that [optimize_routes] then returns for the
    first [num_orders] orders has the status success and is accepted by
    [check_and_adjust_collisions], which does not raise and reports a
    trajectory, a start delay, the drop-offs and a depot cell for exactly
    the agents that have a route. *)
Theorem plan_passes_collision_check (solver : solver_t)
    (set_order : gset Z → list Z) (warehouse : Warehouse)
    (products : list Product) (agents : list Agent) (orders : list Order)
    (zones_access : ZonesAccess) (num_orders max_iterations : Z) :
  (∀ grid, w_navigation_grid warehouse = Some grid →
           rectangular grid ∧ binary grid) →
  ∃ distance_data,
    calculate_distance_matrix products (w_entry_point warehouse)
      (w_navigation_grid warehouse) = Return distance_data ∧
    ∀ solution routes,
      optimize_routes solver (py_take num_orders orders) products agents
        distance_data zones_access = Return solution →
      agents_routes solution = Some routes →
      status solution = "success"%string ∧
      ∃ cr,
        check_and_adjust_collisions set_order routes agents
          (w_entry_point warehouse) max_iterations
          (w_navigation_grid warehouse) = Return cr ∧
        dict_keys (cr_trajectories cr) = dict_keys routes ∧
        dict_keys (cr_delays cr) = dict_keys routes ∧
        dict_keys (cr_depot_positions cr) = dict_keys routes ∧
        dict_keys (cr_depot_assignments cr) = dict_keys routes.
Proof.
  intros Hgrid.
  destruct (DistancesMore.distance_table_spec products (w_entry_point warehouse)
              (w_navigation_grid warehouse) Hgrid) as (dd & Hdd & _).
  exists dd. split; [done|]. intros solution routes Hopt Hroutes.
  destruct (optimize_routes_success _ _ _ _ _ _ _ _ Hopt Hroutes)
    as (picks & model & val & st & _ & _ & _ & _ & Hstatus & Hex).
  split; [done|].
  destruct (extract_routes_shape agents picks zones_access val) as [Hnd Hshape].
  rewrite <- Hex in Hnd, Hshape.
  apply CollisionMore.resolver_keys.
  - done.
  - intros k (x & -> & Hx)%list_elem_of_fmap. destruct x as [aid route].
    destruct (Hshape aid route Hx) as (a & agent & Ha & -> & _).
    apply list_elem_of_fmap. exists agent. split; [done|].
    by eapply list_elem_of_lookup_2.
  - intros grid Hg. by destruct (Hgrid grid Hg).
Qed.

Lemma plan_passes_collision_check_witness :
  ∃ distance_data,
    calculate_distance_matrix catalogue (w_entry_point open_warehouse)
      (w_navigation_grid open_warehouse) = Return distance_data ∧
    ∀ solution routes,
      optimize_routes worked_solver (py_take 2 two_orders) catalogue team
        distance_data robot_zone = Return solution →
      agents_routes solution = Some routes →
      status solution = "success"%string ∧
      ∃ cr,
        check_and_adjust_collisions elements routes team
          (w_entry_point open_warehouse) 250
          (w_navigation_grid open_warehouse) = Return cr ∧
        dict_keys (cr_trajectories cr) = dict_keys routes ∧
        dict_keys (cr_delays cr) = dict_keys routes ∧
        dict_keys (cr_depot_positions cr) = dict_keys routes ∧
        dict_keys (cr_depot_assignments cr) = dict_keys routes.
Proof.
  apply (plan_passes_collision_check worked_solver elements open_warehouse
           catalogue team two_orders robot_zone 2 250).
  intros grid [= <-].
  split; apply (bool_decide_unpack _); vm_compute; reflexivity.
Defined.

End RunMore.
